(** * Compilation core of the bundler: a shallow embedding of
      [lib/Compilation.js] and the properties of its algorithms.

    Objects of the program (modules, chunks, blocks, callbacks) are
    referred to by a number standing for their identity; the fields the
    program mutates live in finite maps keyed by that identity. *)

From Stdlib Require OrderedTypeEx.
From stdpp Require Import gmap strings list fin_maps pretty sorting.

Set Default Proof Using "Type".

(** ** The module graph

    A [Dependency] carries the resolved [module] pointer (null until the
    resolver attaches one) and the two flags the compilation reads.  A
    [DependenciesBlock] is the recursive container shared by modules and
    split points.  The source guards every array with [if(block.x)]; a
    missing array behaves as the empty one, which is how it is
    represented here. *)

Definition ModuleRef := nat.

Record Dependency := mkDependency {
  dep_module : option ModuleRef;
  dep_optional : bool;
  dep_weak : bool
}.

Record DependenciesBlockVariable := mkVariable {
  var_dependencies : list Dependency
}.

#[warnings="-register-all"]
Inductive DependenciesBlock :=
| Block (variables : list DependenciesBlockVariable)
        (dependencies : list Dependency)
        (blocks : list DependenciesBlock).

Definition emptyBlock : DependenciesBlock := Block [] [] [].

(** The graph maps a module to its own block; a module the table does not
    list has no dependencies, variables or blocks. *)
Definition blockOf (g : gmap ModuleRef DependenciesBlock) (m : ModuleRef) : DependenciesBlock :=
  default emptyBlock (g !! m).

(** [iterationBlockVariable] and [iterationOfArrayCallback], as folds of a
    state-passing callback. *)
Definition iterationOfArrayCallback {A S} (arr : list A) (fn : A → S → S) (s : S) : S :=
  foldl (λ acc x, fn x acc) s arr.

Definition iterationBlockVariable {S} (variables : list DependenciesBlockVariable)
    (fn : Dependency → S → S) (s : S) : S :=
  foldl (λ acc v, foldl (λ acc' d, fn d acc') acc (var_dependencies v)) s variables.

(** The modules a block points to, in the order the traversals meet them:
    variables' dependencies, own dependencies, then nested blocks. *)
Definition depTargets (ds : list Dependency) : list ModuleRef := omap dep_module ds.

Definition varTargets (vs : list DependenciesBlockVariable) : list ModuleRef :=
  vs ≫= (λ v, depTargets (var_dependencies v)).

Fixpoint blockTargets (b : DependenciesBlock) : list ModuleRef :=
  match b with
  | Block vs ds bs =>
      varTargets vs ++ depTargets ds ++ (bs ≫= blockTargets)
  end.

(** An edge of the module graph: [n] is the target of a dependency held
    by [m], directly, through a variable or inside a nested block. *)
Definition edge (g : gmap ModuleRef DependenciesBlock) (m n : ModuleRef) : Prop :=
  n ∈ blockTargets (blockOf g m).

Inductive path (g : gmap ModuleRef DependenciesBlock) (a : ModuleRef) : ModuleRef → nat → Prop :=
| path_refl : path g a a 0
| path_step b c k : path g a b k → edge g b c → path g a c (S k).

Definition reachable (g : gmap ModuleRef DependenciesBlock) (a b : ModuleRef) : Prop :=
  ∃ k, path g a b k.

(** [k] is the least number of edges on a path from [a] to [b]. *)
Definition distance (g : gmap ModuleRef DependenciesBlock) (a b : ModuleRef) (k : nat) : Prop :=
  path g a b k ∧ ∀ k', path g a b k' → k ≤ k'.

(** Every module the traversal of [g] from [root] can meet. *)
Definition universe (g : gmap ModuleRef DependenciesBlock) (root : ModuleRef) : list ModuleRef :=
  root :: (map_to_list g ≫= λ kb, blockTargets kb.2).

(** ** assignDepth

    The work list holds the closures [() => assignDepthToModule(m, depth)];
    its head is the end of the JavaScript array, the side [push] and [pop]
    work on. *)
Module Depth.

Record State := mkState {
  depth : gmap ModuleRef nat;        (* module.depth, absent while not a number *)
  queue : list (ModuleRef * nat)
}.

Definition assignDepthToDependency (dependency : Dependency) (d : nat)
    (q : list (ModuleRef * nat)) : list (ModuleRef * nat) :=
  match dep_module dependency with
  | Some m => (m, d) :: q
  | None => q
  end.

Fixpoint assignDepthToDependencyBlock (block : DependenciesBlock) (d : nat)
    (q : list (ModuleRef * nat)) : list (ModuleRef * nat) :=
  match block with
  | Block vs ds bs =>
      let q1 := iterationBlockVariable vs (λ dep, assignDepthToDependency dep d) q in
      let q2 := iterationOfArrayCallback ds (λ dep, assignDepthToDependency dep d) q1 in
      foldl (λ acc b, assignDepthToDependencyBlock b d acc) q2 bs
  end.

Definition assignDepthToModule (g : gmap ModuleRef DependenciesBlock)
    (m : ModuleRef) (d : nat) (s : State) : State :=
  match depth s !! m with
  | Some old =>
      if decide (old ≤ d) then s
      else mkState (<[m := d]> (depth s))
                   (assignDepthToDependencyBlock (blockOf g m) (d + 1) (queue s))
  | None =>
      mkState (<[m := d]> (depth s))
              (assignDepthToDependencyBlock (blockOf g m) (d + 1) (queue s))
  end.

(** One turn of [while(queue.length) queue.pop()()]. *)
Definition step (g : gmap ModuleRef DependenciesBlock) (s : State) : option State :=
  match queue s with
  | [] => None
  | (m, d) :: rest => Some (assignDepthToModule g m d (mkState (depth s) rest))
  end.

Fixpoint loop (g : gmap ModuleRef DependenciesBlock) (fuel : nat) (s : State) : option State :=
  match queue s with
  | [] => Some s
  | _ =>
      match fuel with
      | 0 => None
      | S fuel' =>
          match step g s with
          | Some s' => loop g fuel' s'
          | None => Some s
          end
      end
  end.

(** [assignDepth(module)] run on the depths the modules already carry. *)
Definition assignDepth (g : gmap ModuleRef DependenciesBlock) (fuel : nat)
    (root : ModuleRef) (depths : gmap ModuleRef nat) : option (gmap ModuleRef nat) :=
  depth <$> loop g fuel (mkState depths [(root, 0)]).

End Depth.

(** ** assignIndex

    The work list holds four kinds of closures.  [trace] is the record of
    the writes to [index] and [index2], in the order they happen. *)
Module Index.

Inductive Task :=
| EnterModule (m : ModuleRef)          (* () => assignIndexToModule(module) *)
| LeaveModule (m : ModuleRef)          (* () => module.index2 = nextFreeModuleIndex2++ *)
| EnterBlock (b : DependenciesBlock)   (* () => assignIndexToDependencyBlock(b) *)
| EnterDependency (d : Dependency).    (* () => assignIndexToDependency(d) *)

Inductive Write :=
| SetIndex (m : ModuleRef) (v : nat)
| SetIndex2 (m : ModuleRef) (v : nat).

Record State := mkState {
  index : gmap ModuleRef nat;          (* module.index, absent while not a number *)
  index2 : gmap ModuleRef nat;
  nextFreeModuleIndex : nat;
  nextFreeModuleIndex2 : nat;
  queue : list Task;
  trace : list Write
}.

Definition with_queue (s : State) (q : list Task) : State :=
  mkState (index s) (index2 s) (nextFreeModuleIndex s) (nextFreeModuleIndex2 s) q (trace s).

Definition allDependencies (vs : list DependenciesBlockVariable) (ds : list Dependency)
    : list Dependency :=
  iterationOfArrayCallback ds (λ d acc, acc ++ [d])
    (iterationBlockVariable vs (λ d acc, acc ++ [d]) []).

(** Both [while(i--)] loops walk their array from the last element down. *)
Definition assignIndexToDependencyBlock (block : DependenciesBlock) (q : list Task) : list Task :=
  match block with
  | Block vs ds bs =>
      let q1 := foldl (λ acc b, EnterBlock b :: acc) q (reverse bs) in
      foldl (λ acc d, EnterDependency d :: acc) q1 (reverse (allDependencies vs ds))
  end.

Definition assignIndexToModule (g : gmap ModuleRef DependenciesBlock) (m : ModuleRef)
    (s : State) : State :=
  match index s !! m with
  | Some _ => s
  | None =>
      mkState (<[m := nextFreeModuleIndex s]> (index s)) (index2 s)
              (S (nextFreeModuleIndex s)) (nextFreeModuleIndex2 s)
              (assignIndexToDependencyBlock (blockOf g m) (LeaveModule m :: queue s))
              (trace s ++ [SetIndex m (nextFreeModuleIndex s)])
  end.

Definition assignIndexToDependency (dependency : Dependency) (s : State) : State :=
  match dep_module dependency with
  | Some m => with_queue s (EnterModule m :: queue s)
  | None => s
  end.

Definition run (g : gmap ModuleRef DependenciesBlock) (t : Task) (s : State) : State :=
  match t with
  | EnterModule m => assignIndexToModule g m s
  | LeaveModule m =>
      mkState (index s) (<[m := nextFreeModuleIndex2 s]> (index2 s))
              (nextFreeModuleIndex s) (S (nextFreeModuleIndex2 s))
              (queue s) (trace s ++ [SetIndex2 m (nextFreeModuleIndex2 s)])
  | EnterBlock b => with_queue s (assignIndexToDependencyBlock b (queue s))
  | EnterDependency d => assignIndexToDependency d s
  end.

(** One turn of [while(queue.length) queue.pop()()]. *)
Definition step (g : gmap ModuleRef DependenciesBlock) (s : State) : option State :=
  match queue s with
  | [] => None
  | t :: rest => Some (run g t (with_queue s rest))
  end.

Fixpoint loop (g : gmap ModuleRef DependenciesBlock) (fuel : nat) (s : State) : option State :=
  match step g s with
  | None => Some s
  | Some s' =>
      match fuel with
      | 0 => None
      | S fuel' => loop g fuel' s'
      end
  end.

(** The labels a call works on, and [assignIndex(module)] itself: the new
    labels together with the writes the call made. *)
Record Labels := mkLabels {
  l_index : gmap ModuleRef nat;
  l_index2 : gmap ModuleRef nat;
  l_nextFreeModuleIndex : nat;
  l_nextFreeModuleIndex2 : nat
}.

Definition labels_of (s : State) : Labels :=
  mkLabels (index s) (index2 s) (nextFreeModuleIndex s) (nextFreeModuleIndex2 s).

Definition assignIndex (g : gmap ModuleRef DependenciesBlock) (fuel : nat)
    (root : ModuleRef) (l : Labels) : option (Labels * list Write) :=
  (λ s, (labels_of s, trace s)) <$>
    loop g fuel (mkState (l_index l) (l_index2 l) (l_nextFreeModuleIndex l)
                         (l_nextFreeModuleIndex2 l) [EnterModule root] []).

(** How often a call wrote the [index], and the [index2], of a module. *)
Definition index_writes (m : ModuleRef) (tr : list Write) : nat :=
  sum_list_with (λ w, match w with
                      | SetIndex m' _ => if decide (m' = m) then 1 else 0
                      | SetIndex2 _ _ => 0
                      end) tr.

Definition index2_writes (m : ModuleRef) (tr : list Write) : nat :=
  sum_list_with (λ w, match w with
                      | SetIndex2 m' _ => if decide (m' = m) then 1 else 0
                      | SetIndex _ _ => 0
                      end) tr.

End Index.

(** ** applyModuleIds and checkConstraints

    An id is [null], a number or a string.  [usedIdMap] is an object used
    as a set: what it holds is the property key an id converts to.  It is
    made by [Object.create(null)], so it inherits nothing; the [usedIds]
    object of [checkConstraints] is made by [{}]. *)
Module Ids.

Inductive Id :=
| IdNull
| IdNum (n : nat)
| IdStr (s : string).

(** [if(module1.id)]: [null], [0] and the empty string are falsy. *)
Definition truthy (id : Id) : bool :=
  match id with
  | IdNull => false
  | IdNum n => negb (n =? 0)
  | IdStr s => negb (String.eqb s "")
  end.

(** The property key of [obj[id]]. *)
Definition key (id : Id) : string :=
  match id with
  | IdNull => "null"
  | IdNum n => pretty n
  | IdStr s => s
  end.

Record Used := mkUsed {
  usedIds : list Id;
  usedIdMap : gset string
}.

(** [if(!usedIdMap[id]) { usedIds.push(id); usedIdMap[id] = true; }] *)
Definition collect (id : Id) (u : Used) : Used :=
  if decide (key id ∈ usedIdMap u) then u
  else mkUsed (usedIds u ++ [id]) ({[key id]} ∪ usedIdMap u).

(** The first loop over [this.modules]. *)
Definition collectModule (id : Id) (u : Used) : Used :=
  if truthy id then collect id u else u.

(** [usedIdMax], starting from [-1], over the entries that are numbers. *)
Definition usedIdMax (ids : list Id) : Z :=
  foldl (λ acc id, match id with IdNum n => Z.max acc (Z.of_nat n) | _ => acc end) (-1)%Z ids.

(** [while(lengthFreeModules--)]: the free numbers below [n], pushed from
    [n - 1] down to [0]. *)
Fixpoint collectUnused (usedIdMap : gset string) (n : nat) : list nat :=
  match n with
  | 0 => []
  | S i => if decide (key (IdNum i) ∈ usedIdMap) then collectUnused usedIdMap i
           else i :: collectUnused usedIdMap i
  end.

Record Free := mkFree {
  unusedIds : list nat;          (* the array, [pop] takes its last element *)
  nextFreeModuleId : nat
}.

(** The second loop: a module whose id is [null] takes [unusedIds.pop()],
    or [nextFreeModuleId++] once the array is empty. *)
Fixpoint assignIds (modules : list Id) (f : Free) : list Id :=
  match modules with
  | [] => []
  | IdNull :: rest =>
      match last (unusedIds f) with
      | Some i => IdNum i :: assignIds rest (mkFree (removelast (unusedIds f)) (nextFreeModuleId f))
      | None => IdNum (nextFreeModuleId f)
                :: assignIds rest (mkFree (unusedIds f) (S (nextFreeModuleId f)))
      end
  | id :: rest => id :: assignIds rest f
  end.

(** [applyModuleIds]: [usedModuleIds] is the list of the values of
    [this.usedModuleIds] in the order of its keys, [modules] the ids of
    [this.modules]; the result is the ids afterwards. *)
Definition applyModuleIds (usedModuleIds : option (list Id)) (modules : list Id) : list Id :=
  let u0 := foldl (λ u id, collect id u) (mkUsed [] ∅) (default [] usedModuleIds) in
  let u := foldl (λ u id, collectModule id u) u0 modules in
  let free :=
    match usedIds u with
    | [] => mkFree [] 0
    | _ :: _ =>
        let n := Z.to_nat (usedIdMax (usedIds u) + 1) in
        mkFree (collectUnused (usedIdMap u) n) n
    end in
  assignIds modules free.

Inductive Outcome :=
| Passed
| Thrown (message : string).

(** The loop over [this.modules] of [checkConstraints].  [usedIds] is a
    plain object ([{}]) that is read and never written, so it has no
    property of its own; what [usedIds[moduleId]] finds is a property every
    object inherits ([constructor], [toString], ...), when the key names
    one.  [inherited] tells the keys under which a plain object inherits a
    truthy value. *)
Fixpoint checkModuleIds (inherited : string → bool) (modules : list Id) : Outcome :=
  match modules with
  | [] => Passed
  | moduleId :: rest =>
      if inherited (key moduleId)
      then Thrown ("checkConstraints: duplicate module id " +:+ key moduleId)
      else checkModuleIds inherited rest
  end.

(** The loop over [this.chunks]: a chunk object met again at a later index
    is reported, then the chunk checks itself ([chunkCheck], the chunk's own
    method, may throw). *)
Fixpoint checkChunks (chunkCheck : nat → Outcome) (seen : list nat) (chunks : list nat) : Outcome :=
  match chunks with
  | [] => Passed
  | chunk :: rest =>
      if decide (chunk ∈ seen)
      then Thrown "checkConstraints: duplicate chunk in compilation"
      else match chunkCheck chunk with
           | Passed => checkChunks chunkCheck (seen ++ [chunk]) rest
           | thrown => thrown
           end
  end.

Definition checkConstraints (inherited : string → bool) (chunkCheck : nat → Outcome)
    (modules : list Id) (chunks : list nat) : Outcome :=
  match checkModuleIds inherited modules with
  | Passed => checkChunks chunkCheck [] chunks
  | thrown => thrown
  end.

End Ids.

(** ** Errors and warnings

    What the compilation records about an error object: its class, its
    message and the [origin] and [dependencies] stamped on it. *)
Record Error := mkError {
  err_name : string;
  err_message : string;
  err_origin : option ModuleRef;
  err_dependencies : option (list Dependency)
}.

(** ** The module store: addModule *)
Module Store.

Definition Timestamps := gmap string nat.

(** What [addModule] reads of a module object. *)
Record Module := mkModule {
  m_ref : ModuleRef;                 (* the object *)
  m_identifier : string;             (* module.identifier() *)
  m_errors : list Error;
  m_warnings : list Error;
  m_needRebuild : Timestamps → Timestamps → bool
}.

(** Methods of a module that the store calls for their effect on the module
    alone; the compilation keeps the list of these calls. *)
Inductive Call :=
| Disconnect (m : ModuleRef)
| Unbuild (m : ModuleRef).

Record Compilation := mkCompilation {
  _modules : gmap string Module;
  modules : list Module;
  cache : option (gmap string Module);
  fileTimestamps : option Timestamps;
  contextTimestamps : option Timestamps;
  errors : list Error;
  warnings : list Error;
  calls : list Call
}.

(** The three values [addModule] returns: [false], a module, [true]; or
    the call throws. *)
Inductive AddResult :=
| Duplicate
| FromCache (cacheModule : Module)
| Added
| Threw (message : string).

(** What [this.cache[cacheName]] is when it is truthy: a module, or a value
    that is no module and has no [needRebuild] method. *)
Inductive Cached :=
| CachedModule (cacheModule : Module)
| NoModule.

(** [(cacheGroup || "m") + identifier]: a missing or empty group is falsy. *)
Definition cacheName (cacheGroup : option string) (identifier : string) : string :=
  match cacheGroup with
  | Some group => if decide (group = "") then "m" +:+ identifier else group +:+ identifier
  | None => "m" +:+ identifier
  end.

(** [this.cache && this.cache[cacheName]].  The cache is an object that
    [addModule] reads and writes by property name; [cache] holds the
    modules kept in it.  Under a name that no module is kept under, the
    object may still yield a value: a property it inherits (an object made
    by [{}] inherits [toString], [constructor], ...), or an entry that
    another part of the compilation keeps in the same object
    ([createChunkAssets] keeps its [{hash, source}] records there).
    [otherwise] tells what the object yields under such a name, if it yields
    anything truthy. *)
Definition cached (otherwise : string → option Cached) (c : Compilation) (name : string)
    : option Cached :=
  match cache c with
  | Some entries =>
      match entries !! name with
      | Some cacheModule => Some (CachedModule cacheModule)
      | None => otherwise name
      end
  | None => None
  end.

(** The tail of [addModule]: the given module goes into [_modules], into the
    cache when there is one, and into [modules].  After
    [this.cache[cacheName] = module] the cache yields the module under the
    name, whatever the name is (under [__proto__] the assignment makes the
    module the prototype of a plain object, and reading [__proto__] yields
    the prototype). *)
Definition insertModule (module : Module) (name : string) (c : Compilation) : Compilation :=
  mkCompilation (<[m_identifier module := module]> (_modules c))
                (modules c ++ [module])
                ((λ entries, <[name := module]> entries) <$> cache c)
                (fileTimestamps c) (contextTimestamps c)
                (errors c) (warnings c) (calls c).

Definition needRebuild (c : Compilation) (cacheModule : Module) : bool :=
  match fileTimestamps c, contextTimestamps c with
  | Some ft, Some ct => m_needRebuild cacheModule ft ct
  | _, _ => true
  end.

(** [module.unbuild()] *)
Definition unbuild (module : Module) (c : Compilation) : Compilation :=
  mkCompilation (_modules c) (modules c) (cache c) (fileTimestamps c)
                (contextTimestamps c) (errors c) (warnings c)
                (calls c ++ [Unbuild (m_ref module)]).

(** [addModule(module, cacheGroup)].  With both timestamp maps there, the
    call [cacheModule.needRebuild(...)] on a value that is no module throws
    before anything has changed. *)
Definition addModule (otherwise : string → option Cached) (module : Module)
    (cacheGroup : option string) (c : Compilation) : AddResult * Compilation :=
  let identifier := m_identifier module in
  match _modules c !! identifier with
  | Some _ => (Duplicate, c)
  | None =>
      let name := cacheName cacheGroup identifier in
      match cached otherwise c name with
      | Some (CachedModule cacheModule) =>
          if needRebuild c cacheModule
          then (Added, insertModule module name (unbuild module c))
          else (FromCache cacheModule,
                mkCompilation (<[identifier := cacheModule]> (_modules c))
                  (modules c ++ [cacheModule]) (cache c)
                  (fileTimestamps c) (contextTimestamps c)
                  (errors c ++ m_errors cacheModule)
                  (warnings c ++ m_warnings cacheModule)
                  (calls c ++ [Disconnect (m_ref cacheModule)]))
      | Some NoModule =>
          match fileTimestamps c, contextTimestamps c with
          | Some _, Some _ => (Threw "cacheModule.needRebuild is not a function", c)
          | _, _ => (Added, insertModule module name (unbuild module c))
          end
      | None => (Added, insertModule module name c)
      end
  end.

(** [getModule(module)] *)
Definition getModule (module : Module) (c : Compilation) : option Module :=
  _modules c !! m_identifier module.

(** [findModule(identifier)] *)
Definition findModule (identifier : string) (c : Compilation) : option Module :=
  _modules c !! identifier.

End Store.

(** ** The build coordinator: buildModule and waitForBuildingFinished

    A waiter array is an object: [_buildingModules] maps a module to the
    array, and the closure [callback] made by the [buildModule] call that
    started the build keeps the same array.  The arrays therefore live in a
    heap, [lists].  The program is driven from outside: callers call
    [buildModule] and [waitForBuildingFinished], [module.build] calls back,
    [forEach] invokes the next waiter, the scheduler runs the next tick. *)
Module Build.

Definition CallbackRef := nat.
Definition ListRef := nat.

(** An entry of a waiter array. *)
Inductive Waiter :=
| Direct (cb : CallbackRef)       (* thisCallback, pushed by buildModule *)
| Wrapped (cb : CallbackRef).     (* () => callback(), pushed by waitForBuildingFinished *)

(** What the function passed to [module.build] has captured. *)
Record Running := mkRunning {
  r_module : ModuleRef;
  r_optional : bool;
  r_origin : option ModuleRef;
  r_dependencies : option (list Dependency);
  r_callbackList : ListRef
}.

Inductive Event :=
| Plugin (name : string) (m : ModuleRef)      (* applyPlugins1/2(name, module, ...) *)
| BuildStarted (m : ModuleRef)                (* module.build(...) *)
| Called (cb : CallbackRef) (err : option Error).   (* a caller's callback, with its argument *)

Record State := mkState {
  _buildingModules : gmap ModuleRef ListRef;
  lists : gmap ListRef (list Waiter);
  nextList : ListRef;
  running : list Running;                         (* builds that have not called back *)
  frames : list (list Waiter * option Error);     (* forEach loops under way, innermost first *)
  ticks : list CallbackRef;                       (* process.nextTick queue *)
  errors : list Error;
  warnings : list Error;
  trace : list Event
}.

Definition initial : State := mkState ∅ ∅ 0 [] [] [] [] [] [].

Definition push (l : ListRef) (w : Waiter) (s : State) : State :=
  mkState (_buildingModules s) (alter (λ ws, ws ++ [w]) l (lists s)) (nextList s)
          (running s) (frames s) (ticks s) (errors s) (warnings s) (trace s).

Definition log (e : Event) (s : State) : State :=
  mkState (_buildingModules s) (lists s) (nextList s) (running s) (frames s) (ticks s)
          (errors s) (warnings s) (trace s ++ [e]).

Definition waitForBuildingFinished (module : ModuleRef) (callback : CallbackRef)
    (s : State) : State :=
  match _buildingModules s !! module with
  | Some callbackList => push callbackList (Wrapped callback) s
  | None =>
      mkState (_buildingModules s) (lists s) (nextList s) (running s) (frames s)
              (ticks s ++ [callback]) (errors s) (warnings s) (trace s)
  end.

Definition buildModule (module : ModuleRef) (optional : bool) (origin : option ModuleRef)
    (dependencies : option (list Dependency)) (thisCallback : CallbackRef)
    (s : State) : State :=
  let s := log (Plugin "build-module" module) s in
  match _buildingModules s !! module with
  | Some callbackList => push callbackList (Direct thisCallback) s
  | None =>
      let callbackList := nextList s in
      mkState (<[module := callbackList]> (_buildingModules s))
              (<[callbackList := [Direct thisCallback]]> (lists s))
              (S callbackList)
              (running s ++ [mkRunning module optional origin dependencies callbackList])
              (frames s) (ticks s) (errors s) (warnings s)
              (trace s ++ [BuildStarted module])
  end.

Definition stamp (origin : option ModuleRef) (dependencies : option (list Dependency))
    (e : Error) : Error :=
  mkError (err_name e) (err_message e) origin dependencies.

(** [module.build] calls back: the function given to it runs, and ends in
    [callback(error)], which deletes the entry and starts the [forEach]. *)
Definition buildFinished (i : nat) (error : option Error)
    (moduleErrors moduleWarnings : list Error) (s : State) : State :=
  match running s !! i with
  | None => s
  | Some r =>
      let errs := stamp (r_origin r) (r_dependencies r) <$> moduleErrors in
      let wars := stamp (r_origin r) (r_dependencies r) <$> moduleWarnings in
      mkState (delete (r_module r) (_buildingModules s)) (lists s) (nextList s)
              (delete i (running s))
              ((default [] (lists s !! r_callbackList r), error) :: frames s)
              (ticks s)
              (if r_optional r then errors s else errors s ++ errs)
              ((if r_optional r then warnings s ++ errs else warnings s) ++ wars)
              (trace s ++ [Plugin (match error with
                                   | Some _ => "failed-module"
                                   | None => "succeed-module"
                                   end) (r_module r)])
  end.

(** [cb(err)] for an entry of the array: the caller's callback behind the
    entry, and the argument that callback receives. *)
Definition callbackOf (w : Waiter) : CallbackRef :=
  match w with
  | Direct cb => cb
  | Wrapped cb => cb
  end.

Definition passed (w : Waiter) (err : option Error) : option Error :=
  match w with
  | Direct _ => err
  | Wrapped _ => None
  end.

Definition invoke (w : Waiter) (err : option Error) : Event :=
  Called (callbackOf w) (passed w err).

(** The next turn of the innermost [forEach]. *)
Definition invokeNext (s : State) : State :=
  match frames s with
  | [] => s
  | ([], _) :: fs =>
      mkState (_buildingModules s) (lists s) (nextList s) (running s) fs (ticks s)
              (errors s) (warnings s) (trace s)
  | (w :: ws, err) :: fs =>
      mkState (_buildingModules s) (lists s) (nextList s) (running s) ((ws, err) :: fs)
              (ticks s) (errors s) (warnings s) (trace s ++ [invoke w err])
  end.

(** The scheduler runs the oldest [process.nextTick] callback, with no
    argument. *)
Definition nextTick (s : State) : State :=
  match ticks s with
  | [] => s
  | cb :: rest =>
      mkState (_buildingModules s) (lists s) (nextList s) (running s) (frames s) rest
              (errors s) (warnings s) (trace s ++ [Called cb None])
  end.

Inductive Input :=
| CallBuildModule (module : ModuleRef) (optional : bool) (origin : option ModuleRef)
                  (dependencies : option (list Dependency)) (thisCallback : CallbackRef)
| CallWaitForBuildingFinished (module : ModuleRef) (callback : CallbackRef)
| BuildCallsBack (i : nat) (error : option Error) (moduleErrors moduleWarnings : list Error)
| ForEachNext
| Tick.

Definition exec (s : State) (i : Input) : State :=
  match i with
  | CallBuildModule m o org deps cb => buildModule m o org deps cb s
  | CallWaitForBuildingFinished m cb => waitForBuildingFinished m cb s
  | BuildCallsBack i error es ws => buildFinished i error es ws s
  | ForEachNext => invokeNext s
  | Tick => nextTick s
  end.

Definition run (inputs : list Input) (s : State) : State := foldl exec s inputs.

(** The builds of [module] that are in flight. *)
Definition inFlight (module : ModuleRef) (s : State) : nat :=
  length (filter (λ r, r_module r = module) (running s)).

End Build.

(** ** Entries: _addModuleChain and addEntry

    The collaborators answer asynchronously; what they answer, and what
    they do to the compilation meanwhile, is given by a [Scenario].  A call
    throws before anything is scheduled, or [addModule] throws inside the
    function given to the factory, or the call ends in one invocation of
    its callback. *)
Module Entry.

Record Slot := mkSlot {
  slot_ref : nat;                          (* the object *)
  slot_name : string;
  slot_module : option Store.Module
}.

Record State := mkState {
  bail : bool;
  store : Store.Compilation;
  entries : list Store.Module;
  preparedChunks : list Slot;
  nextSlot : nat;
  attached : list ModuleRef;               (* dependency.module = module; module.addReason(null, dependency) *)
  released : nat                           (* this.semaphore.release() in _addModuleChain *)
}.

(** What [processModuleDependencies] does to the compilation before it
    calls back: [addModuleDependencies] adds the modules the factories
    produce for the dependencies (with no cache group), pushes the failures
    of factories and builds to [errors] or [warnings], and [buildModule]
    pushes the errors and warnings of the modules it builds. *)
Inductive Effect :=
| AddsModule (otherwise : string → option Store.Cached) (module : Store.Module)
| Records (err : Error)                    (* this.errors.push(err) *)
| Warns (err : Error).                     (* this.warnings.push(err) *)

Record Scenario := mkScenario {
  sc_isDependency : bool;                  (* typeof dependency === "object" && ... *)
  sc_factoryRegistered : bool;             (* this.dependencyFactories.get(dependency.constructor) *)
  sc_factory : Error + Store.Module;       (* factory.create calls back with (err, module) *)
  sc_otherwise : string → option Store.Cached;   (* what the cache yields besides its modules *)
  sc_moduleErrors : list Error;            (* module.errors when the build calls back *)
  sc_moduleWarnings : list Error;          (* module.warnings when the build calls back *)
  sc_build : option Error;                 (* how the build of the module ends *)
  sc_processed : list Effect;              (* what processModuleDependencies does *)
  sc_dependencies : option Error           (* how processModuleDependencies ends *)
}.

(** How a call ends: [throw], or [callback(err, module)]. *)
Inductive Outcome :=
| Threw (message : string)
| CalledBack (err : option Error) (module : option Store.Module).

Definition with_store (s : State) (c : Store.Compilation) : State :=
  mkState (bail s) c (entries s) (preparedChunks s) (nextSlot s) (attached s) (released s).

Definition release (s : State) : State :=
  mkState (bail s) (store s) (entries s) (preparedChunks s) (nextSlot s) (attached s)
          (S (released s)).

(** [this.errors.push(err)] and [this.warnings.push(err)] *)
Definition recordError (e : Error) (c : Store.Compilation) : Store.Compilation :=
  Store.mkCompilation (Store._modules c) (Store.modules c) (Store.cache c)
    (Store.fileTimestamps c) (Store.contextTimestamps c)
    (Store.errors c ++ [e]) (Store.warnings c) (Store.calls c).

Definition recordWarning (e : Error) (c : Store.Compilation) : Store.Compilation :=
  Store.mkCompilation (Store._modules c) (Store.modules c) (Store.cache c)
    (Store.fileTimestamps c) (Store.contextTimestamps c)
    (Store.errors c) (Store.warnings c ++ [e]) (Store.calls c).

Definition pushError (e : Error) (s : State) : State :=
  with_store s (recordError e (store s)).

(** [errorAndCallback]: with [bail] the error goes to the callback; without,
    it is stamped with the dependency, recorded, and the callback is called
    with nothing. *)
Definition errorAndCallback (dependency : Dependency) (err : Error) (s : State)
    : Outcome * State :=
  if bail s then (CalledBack (Some err) None, s)
  else (CalledBack None None,
        pushError (mkError (err_name err) (err_message err) (err_origin err)
                           (Some [dependency])) s).

(** [onModule(module); dependency.module = module; module.addReason(null, dependency)] *)
Definition attach (onModule : Store.Module → State → State) (module : Store.Module)
    (s : State) : State :=
  let s := onModule module s in
  mkState (bail s) (store s) (entries s) (preparedChunks s) (nextSlot s)
          (attached s ++ [Store.m_ref module]) (released s).

(** The function [buildModule] gives to [module.build], up to its call of
    [callback]: the errors and the warnings of the module are stamped with
    the [origin] and the [dependencies] of the call, both [null] here, and
    pushed; [optional] is false, so the errors go to [errors]. *)
Definition built (sc : Scenario) (c : Store.Compilation) : Store.Compilation :=
  let c := foldl (λ c e, recordError (Build.stamp None None e) c) c (sc_moduleErrors sc) in
  foldl (λ c e, recordWarning (Build.stamp None None e) c) c (sc_moduleWarnings sc).

Definition effect (c : Store.Compilation) (e : Effect) : Store.Compilation :=
  match e with
  | AddsModule otherwise module => (Store.addModule otherwise module None c).2
  | Records err => recordError err c
  | Warns err => recordWarning err c
  end.

(** [processModuleDependencies] until it calls back. *)
Definition processed (sc : Scenario) (c : Store.Compilation) : Store.Compilation :=
  foldl effect c (sc_processed sc).

(** [moduleReady]: release, then [processModuleDependencies]. *)
Definition moduleReady (sc : Scenario) (module : Store.Module) (s : State) : Outcome * State :=
  let s := release s in
  let s := with_store s (processed sc (store s)) in
  match sc_dependencies sc with
  | Some err => (CalledBack (Some err) None, s)
  | None => (CalledBack None (Some module), s)
  end.

(** [err => { if(err) return callback(err); callback(null, module); }], the
    function the duplicate path hands to [waitForBuildingFinished]. *)
Definition afterWaiting (module : Store.Module) (err : option Error) : Outcome :=
  match err with
  | Some e => CalledBack (Some e) None
  | None => CalledBack None (Some module)
  end.

(** Modelled from the spec: the class [EntryModuleNotFoundError] is not
    among the sources; the record keeps its kind and the failure it wraps. *)
Definition EntryModuleNotFoundError (err : Error) : Error :=
  mkError "EntryModuleNotFoundError" ("Entry module not found: " +:+ err_message err) None None.

(** The two tests [_addModuleChain] makes before it schedules anything. *)
Definition checks (sc : Scenario) : option string :=
  if negb (sc_isDependency sc) then Some "Parameter 'dependency' must be a Dependency"
  else if negb (sc_factoryRegistered sc)
  then Some "No dependency factory available for this dependency type"
  else None.

(** What runs once [factory.create] has called back. *)
Definition afterFactory (dependency : Dependency) (onModule : Store.Module → State → State)
    (sc : Scenario) (s : State) : Outcome * State :=
  match sc_factory sc with
  | inl err => errorAndCallback dependency (EntryModuleNotFoundError err) (release s)
  | inr module =>
      match Store.addModule (sc_otherwise sc) module None (store s) with
      | (Store.Threw message, c) => (Threw message, with_store s c)
      | (Store.Duplicate, c) =>
          match Store.getModule module c with
          | Some existing =>
              let s := release (attach onModule existing (with_store s c)) in
              (* the wrapper [() => callback()] when the build is in flight,
                 the next tick otherwise: no argument either way *)
              (afterWaiting existing (Build.passed (Build.Wrapped 0) (sc_build sc)), s)
          | None => (Threw "Cannot read property of undefined", with_store s c)
          end
      | (Store.FromCache result, c) =>
          moduleReady sc result (attach onModule result (with_store s c))
      | (Store.Added, c) =>
          let s := attach onModule module (with_store s c) in
          let s := with_store s (built sc (store s)) in
          match sc_build sc with
          | Some err => errorAndCallback dependency err (release s)
          | None => moduleReady sc module s
          end
      end
  end.

Definition _addModuleChain (dependency : Dependency) (onModule : Store.Module → State → State)
    (sc : Scenario) (s : State) : Outcome * State :=
  match checks sc with
  | Some message => (Threw message, s)
  | None => afterFactory dependency onModule sc s
  end.

(** [indexOf(slot)], [-1] when the slot is not in the array. *)
Definition indexOf (slot : nat) (slots : list Slot) : Z :=
  match list_find (λ x, slot_ref x = slot) slots with
  | Some (i, _) => Z.of_nat i
  | None => (-1)%Z
  end.

(** [splice(idx, 1)]: a negative start counts from the end of the array. *)
Definition splice1 (idx : Z) (slots : list Slot) : list Slot :=
  let start := if decide (idx < 0)%Z
               then Z.to_nat (Z.max (Z.of_nat (length slots) + idx) 0)
               else Z.to_nat idx in
  delete start slots.

Definition setSlotModule (slot : nat) (module : Store.Module) (slots : list Slot) : list Slot :=
  (λ x, if decide (slot_ref x = slot) then mkSlot (slot_ref x) (slot_name x) (Some module) else x)
    <$> slots.

(** The callback [addEntry] gives to [_addModuleChain]. *)
Definition entryCallback (slot : nat) (o : Outcome) (s : State) : Outcome * State :=
  match o with
  | Threw message => (Threw message, s)
  | CalledBack (Some err) _ => (CalledBack (Some err) None, s)
  | CalledBack None (Some module) =>
      (CalledBack None (Some module),
       mkState (bail s) (store s) (entries s) (setSlotModule slot module (preparedChunks s))
               (nextSlot s) (attached s) (released s))
  | CalledBack None None =>
      (CalledBack None None,
       mkState (bail s) (store s) (entries s)
               (splice1 (indexOf slot (preparedChunks s)) (preparedChunks s))
               (nextSlot s) (attached s) (released s))
  end.

Definition pushEntry (module : Store.Module) (s : State) : State :=
  mkState (bail s) (store s) (entries s ++ [module]) (preparedChunks s) (nextSlot s)
          (attached s) (released s).

(** [addEntry(context, entry, name, callback)] up to the point where
    [_addModuleChain] waits for the factory: the slot is reserved first. *)
Definition reserve (name : string) (s : State) : nat * State :=
  (nextSlot s,
   mkState (bail s) (store s) (entries s)
           (preparedChunks s ++ [mkSlot (nextSlot s) name None])
           (S (nextSlot s)) (attached s) (released s)).

(** The rest of [addEntry], from the answer of the factory to the call of
    its callback. *)
Definition complete (entry : Dependency) (slot : nat) (sc : Scenario) (s : State)
    : Outcome * State :=
  let '(o, s) := afterFactory entry pushEntry sc s in
  entryCallback slot o s.

(** [addEntry] with nothing else happening in between: the outcome, the
    state, and the slot the call reserved. *)
Definition addEntry (entry : Dependency) (name : string) (sc : Scenario) (s : State)
    : Outcome * State * nat :=
  let '(slot, s) := reserve name s in
  match checks sc with
  | Some message => (Threw message, s, slot)
  | None => (complete entry slot sc s, slot)
  end.

(** The slot as [preparedChunks] holds it, if it does. *)
Definition findSlot (slot : nat) (s : State) : option Slot :=
  snd <$> list_find (λ x, slot_ref x = slot) (preparedChunks s).

(** Several [addEntry] calls under way at once: a call starts, and later
    the answers for a started call arrive and its callback is called, once.
    [waiting] are the slots of the calls that have started and have not
    called back. *)
Inductive Input :=
| Start (name : string) (sc : Scenario)
| Finish (entry : Dependency) (slot : nat) (sc : Scenario).

Record Calls := mkCalls {
  state : State;
  waiting : list nat
}.

Definition exec (r : Calls) (i : Input) : Calls :=
  match i with
  | Start name sc =>
      let '(slot, s) := reserve name (state r) in
      match checks sc with
      | Some _ => mkCalls s (waiting r)
      | None => mkCalls s (waiting r ++ [slot])
      end
  | Finish entry slot sc =>
      if decide (slot ∈ waiting r)
      then mkCalls (complete entry slot sc (state r)).2
                   (filter (λ x, x ≠ slot) (waiting r))
      else r
  end.

Definition run (inputs : list Input) (r : Calls) : Calls := foldl exec r inputs.

Definition initial (bail : bool) (c : Store.Compilation) : Calls :=
  mkCalls (mkState bail c [] [] 0 [] 0) [].

(** The inputs that are not the answer for [slot]. *)
Definition isOther (slot : nat) (i : Input) : bool :=
  match i with
  | Finish _ x _ => bool_decide (x ≠ slot)
  | Start _ _ => true
  end.

Definition others (slot : nat) (inputs : list Input) : list Input :=
  filter (λ i, isOther slot i) inputs.

End Entry.

(** ** addModuleDependencies: the fan-out over dependency groups

    One call of [addModuleDependencies] hands every group to
    [asyncLib.forEach]; the factories answer in any order.  [forEach] is the
    library's: its final function runs once, at the first item that reports
    an error or when the last item has reported, and there [_this] is set
    to null. *)
Module FanOut.

Inductive TickTask :=
| ItemCallback (item : nat)        (* process.nextTick(callback), the item's callback *)
| OuterCallback.                   (* process.nextTick(callback), the caller's callback *)

Record State := mkState {
  live : bool;                               (* _this !== null *)
  errors : list Error;
  warnings : list Error;
  released : nat;                            (* semaphore.release() *)
  completed : nat;                           (* items that reported without an error *)
  total : nat;                               (* factories.length *)
  finished : bool;                           (* the final function has run *)
  ticks : list TickTask;
  itemCalls : list (nat * option Error);     (* calls of an item's callback *)
  outerCalls : list (option Error)           (* calls of the caller's callback *)
}.

Definition release (s : State) : State :=
  mkState (live s) (errors s) (warnings s) (S (released s)) (completed s) (total s)
          (finished s) (ticks s) (itemCalls s) (outerCalls s).

(** The final function of [forEach]: [_this = null], then the caller's
    callback, at once with an error and on the next tick without. *)
Definition final (err : option Error) (s : State) : State :=
  match err with
  | Some e =>
      mkState false (errors s) (warnings s) (released s) (completed s) (total s) true
              (ticks s) (itemCalls s) (outerCalls s ++ [Some e])
  | None =>
      mkState false (errors s) (warnings s) (released s) (completed s) (total s) true
              (ticks s ++ [OuterCallback]) (itemCalls s) (outerCalls s)
  end.

(** The callback [forEach] gives to an item. *)
Definition itemCallback (item : nat) (err : option Error) (s : State) : State :=
  let s := mkState (live s) (errors s) (warnings s) (released s) (completed s) (total s)
                   (finished s) (ticks s) (itemCalls s ++ [(item, err)]) (outerCalls s) in
  match err with
  | Some e => if finished s then s else final (Some e) s
  | None =>
      let s := mkState (live s) (errors s) (warnings s) (released s) (S (completed s))
                       (total s) (finished s) (ticks s) (itemCalls s) (outerCalls s) in
      if (completed s =? total s) && negb (finished s) then final None s else s
  end.

(** Modelled from the spec: the class [ModuleNotFoundError] is not among
    the sources; the record keeps its kind, the failure it wraps, the module
    and the group of dependencies it is made for. *)
Definition ModuleNotFoundError (module : ModuleRef) (err : Error)
    (dependencies : list Dependency) : Error :=
  mkError "ModuleNotFoundError" ("Module not found: " +:+ err_message err)
          (Some module) (Some dependencies).

Definition setOrigin (module : ModuleRef) (e : Error) : Error :=
  mkError (err_name e) (err_message e) (Some module) (err_dependencies e).

Definition errorAndCallback (module : ModuleRef) (bail : bool) (item : nat) (err : Error)
    (s : State) : State :=
  let err := setOrigin module err in
  let s := mkState (live s) (errors s ++ [err]) (warnings s) (released s) (completed s)
                   (total s) (finished s) (ticks s) (itemCalls s) (outerCalls s) in
  if bail then itemCallback item (Some err) s else itemCallback item None s.

Definition warningAndCallback (module : ModuleRef) (item : nat) (err : Error)
    (s : State) : State :=
  let err := setOrigin module err in
  let s := mkState (live s) (errors s) (warnings s ++ [err]) (released s) (completed s)
                   (total s) (finished s) (ticks s) (itemCalls s) (outerCalls s) in
  itemCallback item None s.

(** [dependencies.every(d => d.optional)] *)
Definition isOptional (dependencies : list Dependency) : bool :=
  forallb dep_optional dependencies.

Definition errorOrWarningAndCallback (module : ModuleRef) (bail : bool) (item : nat)
    (dependencies : list Dependency) (err : Error) (s : State) : State :=
  if isOptional dependencies then warningAndCallback module item err s
  else errorAndCallback module bail item err s.

(** The function given to [factory.create].  [withModule] is what the
    source goes on to do with a module the factory produced. *)
Definition factoryCallback
    (withModule : nat → list Dependency → Store.Module → State → State)
    (module : ModuleRef) (bail : bool) (item : nat) (dependencies : list Dependency)
    (err : option Error) (dependentModule : option Store.Module) (s : State) : State :=
  if negb (live s) then release s
  else
    match err with
    | Some e =>
        errorOrWarningAndCallback module bail item dependencies
          (ModuleNotFoundError module e dependencies) (release s)
    | None =>
        match dependentModule with
        | None =>
            let s := release s in
            mkState (live s) (errors s) (warnings s) (released s) (completed s) (total s)
                    (finished s) (ticks s ++ [ItemCallback item]) (itemCalls s) (outerCalls s)
        | Some m => withModule item dependencies m s
        end
    end.

Definition nextTick (s : State) : State :=
  match ticks s with
  | [] => s
  | task :: rest =>
      let s := mkState (live s) (errors s) (warnings s) (released s) (completed s) (total s)
                       (finished s) rest (itemCalls s) (outerCalls s) in
      match task with
      | ItemCallback item => itemCallback item None s
      | OuterCallback =>
          mkState (live s) (errors s) (warnings s) (released s) (completed s) (total s)
                  (finished s) (ticks s) (itemCalls s) (outerCalls s ++ [None])
      end
  end.

(** [addModuleDependencies] up to the first answer of a factory, for groups
    that all have a factory. *)
Definition start (groups : nat) (errors warnings : list Error) : State :=
  let s := mkState true errors warnings 0 0 groups false [] [] [] in
  if groups =? 0 then final None s else s.

Inductive Input :=
| FactoryCallsBack (item : nat) (dependencies : list Dependency)
                   (err : option Error) (dependentModule : option Store.Module)
| Tick.

Definition exec (withModule : nat → list Dependency → Store.Module → State → State)
    (module : ModuleRef) (bail : bool) (s : State) (i : Input) : State :=
  match i with
  | FactoryCallsBack item dependencies err dependentModule =>
      factoryCallback withModule module bail item dependencies err dependentModule s
  | Tick => nextTick s
  end.

Definition run (withModule : nat → list Dependency → Store.Module → State → State)
    (module : ModuleRef) (bail : bool) (inputs : list Input) (s : State) : State :=
  foldl (exec withModule module bail) s inputs.

End FanOut.

(** ** processDependenciesBlocksForChunks, part two

    Part one leaves [chunkDependencies] and the modules of every chunk;
    part two walks that graph with a queue of
    [{chunk, availableModules}] items and connects chunks and blocks. *)
Module Chunks.

Definition ChunkRef := nat.
Definition BlockRef := nat.

(** An entry [{block, chunk}] of [chunkDependencies]. *)
Record Dep := mkDep {
  d_block : BlockRef;
  d_chunk : ChunkRef
}.

Record QueueItem := mkItem {
  chunk : ChunkRef;
  availableModules : gset ModuleRef
}.

Record Graph := mkGraph {
  chunkDependencies : gmap ChunkRef (list Dep);
  chunkModules : gmap ChunkRef (gset ModuleRef)       (* chunk.modulesIterable *)
}.

Definition modulesOf (g : Graph) (c : ChunkRef) : gset ModuleRef :=
  default ∅ (chunkModules g !! c).

(** Modelled from the spec: the [Queue] class is not among the sources; it
    is a first-in, first-out queue. *)
Record State := mkState {
  queue2 : list QueueItem;                            (* dequeue takes the head *)
  minAvailableModulesMap : gmap ChunkRef (gset ModuleRef);
  chunkBlocks : gmap ChunkRef (list BlockRef);        (* chunk.blocks *)
  blockChunks : gmap BlockRef (list ChunkRef);        (* block.chunks *)
  chunkChunks : gmap ChunkRef (list ChunkRef);        (* chunk.chunks *)
  chunkParents : gmap ChunkRef (list ChunkRef)        (* chunk.parents *)
}.

(** Modelled from the spec: [Chunk.addBlock], [Chunk.addChunk] and
    [Chunk.addParent] (the chunk class is not among the sources) add an
    element the first time it is offered and answer true then, and answer
    false and change nothing when the element is already there. *)
Definition addToCollection (x : nat) (owner : nat) (coll : gmap nat (list nat))
    : bool * gmap nat (list nat) :=
  let items := default [] (coll !! owner) in
  if decide (x ∈ items) then (false, coll) else (true, <[owner := items ++ [x]]> coll).

(** [areModulesAvailable]: no module of the chunk is missing from the set. *)
Definition areModulesAvailable (g : Graph) (c : ChunkRef) (available : gset ModuleRef) : bool :=
  forallb (λ m, bool_decide (m ∈ available)) (elements (modulesOf g c)).

(** [filterFn] *)
Definition filterFn (g : Graph) (newAvailableModules : gset ModuleRef) (dep : Dep) : bool :=
  negb (areModulesAvailable g (d_chunk dep) newAvailableModules).

(** The loop that deletes from the stored set, in place, every module the
    incoming set does not have: the set afterwards and [deletedModules]. *)
Definition intersectInPlace (minAvailableModules available : gset ModuleRef)
    : gset ModuleRef * bool :=
  foldl (λ acc m, if decide (m ∈ available) then acc else (acc.1 ∖ {[m]}, true))
        (minAvailableModules, false) (elements minAvailableModules).

(** Steps 6 and 7 for one remaining edge. *)
Definition connect (c : ChunkRef) (dep : Dep) (s : State) : State :=
  let '(addedBlock, cb) := addToCollection (d_block dep) (d_chunk dep) (chunkBlocks s) in
  let bc := if addedBlock
            then <[d_block dep := default [] (blockChunks s !! d_block dep) ++ [d_chunk dep]]>
                   (blockChunks s)
            else blockChunks s in
  let '(addedChunk, cc) := addToCollection (d_chunk dep) c (chunkChunks s) in
  let cp := if addedChunk then (addToCollection c (d_chunk dep) (chunkParents s)).2
            else chunkParents s in
  mkState (queue2 s) (minAvailableModulesMap s) cb bc cc cp.

(** [nextChunks], a set that keeps the order of first insertion. *)
Definition nextChunks (filteredDeps : list Dep) : list ChunkRef :=
  foldl (λ acc dep, if decide (d_chunk dep ∈ acc) then acc else acc ++ [d_chunk dep])
        [] filteredDeps.

(** Steps 2 to 8 for a chunk and the available modules it is walked with. *)
Definition traverse (g : Graph) (c : ChunkRef) (available : gset ModuleRef) (s : State) : State :=
  match chunkDependencies g !! c with
  | None => s
  | Some [] => s
  | Some deps =>
      let newAvailableModules := available ∪ modulesOf g c in
      let filteredDeps := filter (λ dep, filterFn g newAvailableModules dep) deps in
      let s := foldl (λ acc dep, connect c dep acc) s filteredDeps in
      mkState (queue2 s ++ ((λ next, mkItem next newAvailableModules) <$> nextChunks filteredDeps))
              (minAvailableModulesMap s) (chunkBlocks s) (blockChunks s)
              (chunkChunks s) (chunkParents s)
  end.

Definition setMinAvailable (c : ChunkRef) (set : gset ModuleRef) (s : State) : State :=
  mkState (queue2 s) (<[c := set]> (minAvailableModulesMap s)) (chunkBlocks s)
          (blockChunks s) (chunkChunks s) (chunkParents s).

(** The body of the loop for a dequeued item. *)
Definition visit (g : Graph) (item : QueueItem) (s : State) : State :=
  match minAvailableModulesMap s !! chunk item with
  | None =>
      traverse g (chunk item) (availableModules item)
               (setMinAvailable (chunk item) (availableModules item) s)
  | Some minAvailableModules =>
      let '(set, deletedModules) :=
        intersectInPlace minAvailableModules (availableModules item) in
      let s := setMinAvailable (chunk item) set s in
      if deletedModules then traverse g (chunk item) set s else s
  end.

Definition dequeued (s : State) (rest : list QueueItem) : State :=
  mkState rest (minAvailableModulesMap s) (chunkBlocks s) (blockChunks s)
          (chunkChunks s) (chunkParents s).

Definition step (g : Graph) (s : State) : option State :=
  match queue2 s with
  | [] => None
  | item :: rest => Some (visit g item (dequeued s rest))
  end.

Fixpoint loop (g : Graph) (fuel : nat) (s : State) : option State :=
  match step g s with
  | None => Some s
  | Some s' =>
      match fuel with
      | 0 => None
      | S fuel' => loop g fuel' s'
      end
  end.

(** Part two from its start: every input chunk with nothing available. *)
Definition partTwo (g : Graph) (fuel : nat) (inputChunks : list ChunkRef)
    (blocks : gmap ChunkRef (list BlockRef)) : option State :=
  loop g fuel (mkState ((λ c, mkItem c ∅) <$> inputChunks) ∅ blocks ∅ ∅ ∅).

End Chunks.

(** ** createHash

    The digests and [Array.prototype.sort] are the host's: an [Engine]
    stands for Node's [crypto] hash objects and for its sort.  Of the sort
    the language promises that it permutes the array, and that it puts
    the array in order when the comparison function is consistent; which
    of two elements that compare equal comes first is left open.  The
    methods [updateHash], [updateHashForChunk] and the handlers of the
    ["chunk-hash"] hook belong to other classes and to plugins; they feed
    a hash object and may read the hashes that modules and chunks carry at
    that moment. *)
Module Hash.

(** A consistent comparison function: "not after" is total and
    transitive. *)
Definition consistent {A : Type} (compareFn : A → A → Z) : Prop :=
  (∀ a b, (compareFn a b <= 0)%Z ∨ (compareFn b a <= 0)%Z)
  ∧ (∀ a b c, (compareFn a b <= 0)%Z → (compareFn b c <= 0)%Z → (compareFn a c <= 0)%Z).

Record Engine := mkEngine {
  H : Type;
  newHash : string → H;                    (* crypto.createHash(hashFunction) *)
  update : H → string → H;                 (* hash.update(data) *)
  digest : H → string → string;            (* hash.digest(hashDigest) *)
  sort : ∀ A : Type, (A → A → Z) → list A → list A;   (* array.sort(compareFn) *)
  sort_permutes : ∀ A compareFn (l : list A), sort A compareFn l ≡ₚ l;
  sort_sorted : ∀ A compareFn (l : list A),
    consistent compareFn →
    StronglySorted (λ a b, (compareFn a b <= 0)%Z) (sort A compareFn l)
}.

(** The [hash] and [renderedHash] fields of the modules and of the chunks. *)
Record Hashes := mkHashes {
  moduleHash : gmap ModuleRef string;
  moduleRenderedHash : gmap ModuleRef string;
  chunkHash : gmap nat string;
  chunkRenderedHash : gmap nat string
}.

Record Module (E : Engine) := mkModule {
  m_ref : ModuleRef;
  m_updateHash : Hashes → H E → H E          (* module.updateHash(hash) *)
}.
Arguments m_ref {E}.
Arguments m_updateHash {E}.

Record Chunk (E : Engine) := mkChunk {
  c_ref : nat;
  c_hasRuntime : bool;                       (* chunk.hasRuntime() *)
  c_updateHash : Hashes → H E → H E          (* chunk.updateHash(hash) *)
}.
Arguments c_ref {E}.
Arguments c_hasRuntime {E}.
Arguments c_updateHash {E}.

Record Template (E : Engine) := mkTemplate {
  t_updateHash : H E → H E;                              (* template.updateHash(hash) *)
  t_updateHashForChunk : Hashes → Chunk E → H E → H E    (* template.updateHashForChunk(hash, chunk) *)
}.
Arguments t_updateHash {E}.
Arguments t_updateHashForChunk {E}.

(** A child compilation: the object, and its [hash]. *)
Record Child := mkChild {
  child_ref : nat;
  child_hash : string
}.

(** What the claim lists: the output options, the templates, the children,
    the warnings and the errors, and the modules and chunks with the hash
    fields they carry.  [moduleTemplates] is an object: the list holds its
    properties in the order [Object.keys] gives them, every key once. *)
Record Listed (E : Engine) := mkListed {
  hashFunction : string;
  hashDigest : string;
  hashDigestLength : nat;
  hashSalt : option string;
  mainTemplate : Template E;
  chunkTemplate : Template E;
  moduleTemplates : list (string * Template E);
  children : list Child;
  warnings : list Error;
  errors : list Error;
  modules : list (Module E);
  chunks : list (Chunk E);
  hashes : Hashes
}.
Arguments hashFunction {E}.
Arguments hashDigest {E}.
Arguments hashDigestLength {E}.
Arguments hashSalt {E}.
Arguments mainTemplate {E}.
Arguments chunkTemplate {E}.
Arguments moduleTemplates {E}.
Arguments children {E}.
Arguments warnings {E}.
Arguments errors {E}.
Arguments modules {E}.
Arguments chunks {E}.
Arguments hashes {E}.

Record Compilation (E : Engine) := mkCompilation {
  listed : Listed E;
  chunkHashPlugins : list (Hashes → Chunk E → H E → H E);   (* handlers of "chunk-hash" *)
  fullHash : option string;
  hash : option string;
  assets : gmap string string
}.
Arguments listed {E}.
Arguments chunkHashPlugins {E}.
Arguments fullHash {E}.
Arguments hash {E}.
Arguments assets {E}.

(** [if(outputOptions.hashSalt) hash.update(outputOptions.hashSalt)] *)
Definition salted {E : Engine} (salt : option string) (h : H E) : H E :=
  match salt with
  | Some s => if decide (s = "") then h else update E h s
  | None => h
  end.

Definition compareStrings (a b : string) : Z :=
  match String.compare a b with
  | Lt => (-1)%Z
  | Eq => 0%Z
  | Gt => 1%Z
  end.

(** The comparison [createHash] sorts the chunks with. *)
Definition byRuntime {E : Engine} (a b : Chunk E) : Z :=
  if c_hasRuntime a && negb (c_hasRuntime b) then 1%Z
  else if negb (c_hasRuntime a) && c_hasRuntime b then (-1)%Z
  else 0%Z.

(** One turn of the loop over the modules. *)
Definition hashModule {E : Engine} (l : Listed E) (hs : Hashes) (module : Module E) : Hashes :=
  let moduleHash' := digest E (m_updateHash module hs (newHash E (hashFunction l)))
                            (hashDigest l) in
  mkHashes (<[m_ref module := moduleHash']> (moduleHash hs))
           (<[m_ref module := String.substring 0 (hashDigestLength l) moduleHash']>
              (moduleRenderedHash hs))
           (chunkHash hs) (chunkRenderedHash hs).

(** One turn of the loop over the sorted chunks: the hashes, and the hash of
    the compilation fed with the chunk's. *)
Definition hashChunk {E : Engine} (l : Listed E)
    (plugins : list (Hashes → Chunk E → H E → H E))
    (acc : Hashes * H E) (chunk : Chunk E) : Hashes * H E :=
  let '(hs, hash) := acc in
  let chunkHash0 := salted (hashSalt l) (newHash E (hashFunction l)) in
  let chunkHash1 := c_updateHash chunk hs chunkHash0 in
  let template := if c_hasRuntime chunk then mainTemplate l else chunkTemplate l in
  let chunkHash2 := t_updateHashForChunk template hs chunk chunkHash1 in
  let chunkHash3 := foldl (λ h plugin, plugin hs chunk h) chunkHash2 plugins in
  let chunkHash' := digest E chunkHash3 (hashDigest l) in
  (mkHashes (moduleHash hs) (moduleRenderedHash hs)
            (<[c_ref chunk := chunkHash']> (chunkHash hs))
            (<[c_ref chunk := String.substring 0 (hashDigestLength l) chunkHash']>
               (chunkRenderedHash hs)),
   update E hash chunkHash').

Definition createHash {E : Engine} (c : Compilation E) : Compilation E :=
  let l := listed c in
  let hash := newHash E (hashFunction l) in
  let hash := salted (hashSalt l) hash in
  let hash := t_updateHash (mainTemplate l) hash in
  let hash := t_updateHash (chunkTemplate l) hash in
  let keys := sort E string compareStrings (fst <$> moduleTemplates l) in
  let hash :=
    foldl (λ h key,
             match list_find (λ kt, kt.1 = key) (moduleTemplates l) with
             | Some (_, (_, template)) => t_updateHash template h
             | None => h
             end) hash keys in
  let hash := foldl (λ h child, update E h (child_hash child)) hash (children l) in
  let hash := foldl (λ h warning, update E h (err_message warning)) hash (warnings l) in
  let hash := foldl (λ h error, update E h (err_message error)) hash (errors l) in
  let hs := foldl (hashModule l) (hashes l) (modules l) in
  let chunks' := sort E (Chunk E) byRuntime (chunks l) in
  let '(hs, hash) := foldl (hashChunk l (chunkHashPlugins c)) (hs, hash) chunks' in
  let fullHash' := digest E hash (hashDigest l) in
  mkCompilation E
    (mkListed E (hashFunction l) (hashDigest l) (hashDigestLength l) (hashSalt l)
       (mainTemplate l) (chunkTemplate l) (moduleTemplates l) (children l)
       (warnings l) (errors l) (modules l) (chunks l) hs)
    (chunkHashPlugins c)
    (Some fullHash')
    (Some (String.substring 0 (hashDigestLength l) fullHash'))
    (assets c).

End Hash.

(** * Further parts of the compilation *)

(** ** processModuleDependencies: the groups of dependencies *)
Module Grouping.

Section grouping.

(** [dep.isEqualResource(other)], a method of the dependency classes. *)
Context (isEqualResource : Dependency → Dependency → bool).

(** A group is an array that is never empty: its first element and the
    elements pushed after it. *)
Definition Group : Type := Dependency * list Dependency.

(** [addDependency]: the dependency joins the first group whose first
    element it is equal in resource to, or starts a group of its own. *)
Fixpoint addDependency (dep : Dependency) (dependencies : list Group) : list Group :=
  match dependencies with
  | [] => [(dep, [])]
  | (first, more) :: rest =>
      if isEqualResource dep first then (first, more ++ [dep]) :: rest
      else (first, more) :: addDependency dep rest
  end.

(** [addDependenciesBlock]: own dependencies, then the nested blocks, then
    the dependencies of the variables. *)
Fixpoint addDependenciesBlock (block : DependenciesBlock) (dependencies : list Group)
    : list Group :=
  match block with
  | Block vs ds bs =>
      let dependencies := iterationOfArrayCallback ds addDependency dependencies in
      let dependencies := foldl (λ acc b, addDependenciesBlock b acc) dependencies bs in
      iterationBlockVariable vs addDependency dependencies
  end.

(** The groups [processModuleDependencies] hands to [addModuleDependencies]. *)
Definition processModuleDependencies (g : gmap ModuleRef DependenciesBlock) (module : ModuleRef)
    : list Group :=
  addDependenciesBlock (blockOf g module) [].

End grouping.

End Grouping.

(** ** finish: reportDependencyErrorsAndWarnings *)
Module Finish.

Section report.

(** [d.getWarnings()], [d.getErrors()] and [d.loc], of the dependency
    classes; a result that is not an array is falsy. *)
Context (getWarnings getErrors : Dependency → option (list string)) (loc : Dependency → nat).

(** Modelled from the spec: [ModuleDependencyWarning] and
    [ModuleDependencyError] are not among the sources; they carry the
    module, the cause and the location. *)
Record Report := mkReport {
  rep_module : ModuleRef;
  rep_cause : string;
  rep_loc : nat
}.

Record State := mkState {
  errors : list Report;
  warnings : list Report
}.

(** The body of the loop over a block's dependencies. *)
Definition reportDependency (module : ModuleRef) (d : Dependency) (s : State) : State :=
  let s := mkState (errors s)
             (warnings s ++ ((λ w, mkReport module w (loc d)) <$> default [] (getWarnings d))) in
  mkState (errors s ++ ((λ e, mkReport module e (loc d)) <$> default [] (getErrors d)))
          (warnings s).

(** One turn of the loop over [blocks]: the dependencies of the block, then
    the call for the blocks nested in it. *)
Fixpoint reportBlock (module : ModuleRef) (block : DependenciesBlock) (s : State) : State :=
  match block with
  | Block _ ds bs =>
      let s := foldl (λ s d, reportDependency module d s) s ds in
      foldl (λ s b, reportBlock module b s) s bs
  end.

Definition reportDependencyErrorsAndWarnings (module : ModuleRef)
    (blocks : list DependenciesBlock) (s : State) : State :=
  foldl (λ s b, reportBlock module b s) s blocks.

(** [finish], after the ["finish-modules"] hook. *)
Definition finish (g : gmap ModuleRef DependenciesBlock) (modules : list ModuleRef) (s : State)
    : State :=
  foldl (λ s module, reportDependencyErrorsAndWarnings module [blockOf g module] s) s modules.

End report.

End Finish.

(** ** The chunks of the compilation: addChunk and unseal *)

(** [object[key] = value] on a plain object ([{}]).  Under the key
    [__proto__] the assignment goes to the setter every plain object
    inherits: it changes the prototype of the object and makes no
    property, so that [hasOwnProperty] still answers false for the key. *)
Definition assignProperty {A : Type} (key : string) (value : A) (object : gmap string A)
    : gmap string A :=
  if decide (key = "__proto__") then object else <[key := value]> object.

Module Registry.

Definition ChunkRef := nat.
Definition Loc := nat.

(** A call of the chunk class the compilation makes: the constructor, and
    [chunk.addOrigin(module, loc)]. *)
Inductive Call :=
| NewChunk (chunk : ChunkRef) (name : option string) (module : option ModuleRef)
           (loc : option Loc)
| AddOrigin (chunk : ChunkRef) (module : ModuleRef) (loc : option Loc).

Record State := mkState {
  chunks : list ChunkRef;                  (* this.chunks *)
  namedChunks : gmap string ChunkRef;      (* this.namedChunks *)
  nextChunk : ChunkRef;                    (* the object the next [new Chunk] makes *)
  calls : list Call
}.

Definition initial : State := mkState [] ∅ 0 [].

(** [namedChunks] holds the properties of the object itself, which is what
    [Object.prototype.hasOwnProperty.call(this.namedChunks, name)] asks
    for.

    [if(name)]: a missing name and the empty string are falsy. *)
Definition named (name : option string) : option string :=
  match name with
  | Some s => if decide (s = "") then None else Some s
  | None => None
  end.

Definition addChunk (name : option string) (module : option ModuleRef) (loc : option Loc)
    (s : State) : ChunkRef * State :=
  match named name ≫= (λ n, namedChunks s !! n) with
  | Some chunk =>
      (chunk,
       match module with
       | Some m => mkState (chunks s) (namedChunks s) (nextChunk s)
                           (calls s ++ [AddOrigin chunk m loc])
       | None => s
       end)
  | None =>
      let chunk := nextChunk s in
      (chunk,
       mkState (chunks s ++ [chunk])
               (match named name with
                | Some n => assignProperty n chunk (namedChunks s)
                | None => namedChunks s
                end)
               (S chunk)
               (calls s ++ [NewChunk chunk name module loc]))
  end.

(** What [unseal] does to the chunks: [this.chunks.length = 0] and
    [this.namedChunks = {}]. *)
Definition unseal (s : State) : State :=
  mkState [] ∅ (nextChunk s) (calls s).

Inductive Input :=
| CallAddChunk (name : option string) (module : option ModuleRef) (loc : option Loc)
| CallUnseal.

Definition exec (s : State) (i : Input) : State :=
  match i with
  | CallAddChunk name module loc => (addChunk name module loc s).2
  | CallUnseal => unseal s
  end.

Definition run (inputs : list Input) (s : State) : State := foldl exec s inputs.

End Registry.

(** ** seal: the loop over the prepared chunks

    For every slot of [preparedChunks], in order: the chunk of the slot's
    name is fetched or made, an entry point is made for it, the slot's
    module becomes the entry module of the chunk, and [assignIndex] and
    [assignDepth] run from that module. *)
Module Seal.

Record State := mkState {
  registry : Registry.State;
  entrypoints : gmap string Registry.ChunkRef;   (* name ↦ the chunk its Entrypoint holds *)
  entryModule : gmap Registry.ChunkRef ModuleRef;   (* chunk.entryModule *)
  connected : list (Registry.ChunkRef * ModuleRef); (* chunk.addModule(module); module.addChunk(chunk) *)
  labels : Index.Labels;
  depth : gmap ModuleRef nat
}.

(** How the loop ends.  [Threw] keeps the state the exception leaves
    behind, and the chunk that [chunk.addModule(module)] was called on with
    a [module] that is [null], the call that precedes the failing one. *)
Inductive Result :=
| Sealed (s : State)
| Threw (message : string) (s : State) (chunk : Registry.ChunkRef)
| OutOfFuel.

(** The body of the loop.  A slot whose module is still [null] makes
    [module.addChunk(chunk)] fail, after the chunk of the slot has been
    fetched or made and has got its entry point.  [entrypoints] is a plain
    object.  Modelled from the spec: the chunk class is not among the
    sources; a chunk keeps the name it was made with, so [chunk.name] is
    the name of the slot. *)
Definition enter (g : gmap ModuleRef DependenciesBlock) (fuel : nat) (s : State)
    (preparedChunk : Entry.Slot) : Result :=
  let module := Store.m_ref <$> Entry.slot_module preparedChunk in
  let '(chunk, registry') :=
    Registry.addChunk (Some (Entry.slot_name preparedChunk)) module None (registry s) in
  let entrypoints' := assignProperty (Entry.slot_name preparedChunk) chunk (entrypoints s) in
  match module with
  | None =>
      Threw "Cannot read property 'addChunk' of null"
            (mkState registry' entrypoints' (entryModule s) (connected s) (labels s) (depth s))
            chunk
  | Some m =>
      match Index.assignIndex g fuel m (labels s) with
      | None => OutOfFuel
      | Some (labels', _) =>
          match Depth.assignDepth g fuel m (depth s) with
          | None => OutOfFuel
          | Some depth' =>
              Sealed (mkState registry' entrypoints'
                        (<[chunk := m]> (entryModule s))
                        (connected s ++ [(chunk, m)])
                        labels' depth')
          end
      end
  end.

Fixpoint forEach (g : gmap ModuleRef DependenciesBlock) (fuel : nat)
    (preparedChunks : list Entry.Slot) (s : State) : Result :=
  match preparedChunks with
  | [] => Sealed s
  | preparedChunk :: rest =>
      match enter g fuel s preparedChunk with
      | Sealed s' => forEach g fuel rest s'
      | failed => failed
      end
  end.

(** [this.nextFreeModuleIndex = 0; this.nextFreeModuleIndex2 = 0] and the
    loop. *)
Definition sealEntries (g : gmap ModuleRef DependenciesBlock) (fuel : nat)
    (preparedChunks : list Entry.Slot) (s : State) : Result :=
  forEach g fuel preparedChunks
    (mkState (registry s) (entrypoints s) (entryModule s) (connected s)
       (Index.mkLabels (Index.l_index (labels s)) (Index.l_index2 (labels s)) 0 0)
       (depth s)).

End Seal.

(** ** removeChunkFromDependencies

    The function reads [block.blocks], and for every nested block its
    [chunks] array.  It calls itself with that array in the place of the
    block, so what it is given is a block or an array of chunks. *)
Module Removal.

Definition ChunkRef := nat.

(** A nested block as the loop reads it: [chunks] is [null] until part one
    of the chunk graph has met the block. *)
Record Nested := mkNested {
  n_chunks : option (list ChunkRef)
}.

Inductive Argument :=
| ABlock (dependencies : list Dependency) (variables : list DependenciesBlockVariable)
         (blocks : list Nested)
| AChunks (chunks : list ChunkRef).

(** The calls made on chunks. *)
Inductive Call :=
| RemoveChunk (chunk child : ChunkRef)      (* chunk.removeChunk(blockChunk) *)
| RemoveParent (child chunk : ChunkRef).    (* blockChunk.removeParent(chunk) *)

Inductive Result :=
| Returned (calls : list Call) (patched : list (ModuleRef * ChunkRef))
| Threw (message : string) (calls : list Call).

(** The loop over [chunks] of one nested block: after the two calls for the
    first chunk comes the call [inner chunks blockChunk]. *)
Definition forChunks (inner : list ChunkRef → ChunkRef → list Call → Result)
    (chunk : ChunkRef) (chunks : list ChunkRef) (calls : list Call) : Result :=
  foldl (λ r blockChunk,
           match r with
           | Returned calls _ =>
               inner chunks blockChunk
                 (calls ++ [RemoveChunk chunk blockChunk; RemoveParent blockChunk chunk])
           | thrown => thrown
           end) (Returned calls []) chunks.

Definition forBlocks (inner : list ChunkRef → ChunkRef → list Call → Result)
    (chunk : ChunkRef) (blocks : list Nested) (calls : list Call) : Result :=
  foldl (λ r b,
           match r with
           | Returned calls _ =>
               match n_chunks b with
               | Some chunks => forChunks inner chunk chunks calls
               | None => Threw "Cannot read property 'length' of null" calls
               end
           | thrown => thrown
           end) (Returned calls []) blocks.

(** [removeChunkFromDependencies(block, chunk)].  Given an array, the
    function reads [blocks.length] of a [blocks] that is [undefined], which
    is what [onArray] says; the call of the function inside the loop is a
    call with an array, hence [onArray].  [iteratorDependency], once the
    loop over the blocks is through, hands every dependency that has a
    module to [patchChunksAfterReasonRemoval]; these calls are listed. *)
Definition removeChunkFromDependencies (block : Argument) (chunk : ChunkRef)
    (calls : list Call) : Result :=
  let onArray (chunks : list ChunkRef) (blockChunk : ChunkRef) (calls : list Call) :=
    (* [chunks.blocks] is [undefined] *)
    Threw "Cannot read property 'length' of undefined" calls in
  match block with
  | AChunks chunks => onArray chunks chunk calls
  | ABlock ds vs bs =>
      match forBlocks onArray chunk bs calls with
      | Returned calls _ =>
          Returned calls
            ((λ m, (m, chunk)) <$> (depTargets ds ++ varTargets vs))
      | thrown => thrown
      end
  end.

End Removal.

(** ** applyChunkIds

    [usedChunkIds] is an object used as a map from keys to ids. *)
Module ChunkIds.

#[global] Instance Id_eq_dec : EqDecision Ids.Id.
Proof. solve_decision. Defined.

(** What [applyChunkIds] reads and writes of a chunk. *)
Record Chunk := mkChunk {
  id : Ids.Id;
  ids : option (list Ids.Id)         (* chunk.ids, absent while not set *)
}.

(** The loop over [Object.keys(this.usedChunkIds)].  Each turn takes a
    maximum, so the order in which the keys come plays no part. *)
Definition nextFreeChunkId (usedChunkIds : gmap string Ids.Id) : nat :=
  foldl (λ next kv,
           match kv.2 with
           | Ids.IdNum usedIdValue =>
               Z.to_nat (Z.max (Z.of_nat next - 1) (Z.of_nat usedIdValue) + 1)
           | _ => next
           end) 0 (map_to_list usedChunkIds).

(** [while(index--) if(this.usedChunkIds[index] !== index) unusedIds.push(index)] *)
Fixpoint collectUnused (usedChunkIds : gmap string Ids.Id) (n : nat) : list nat :=
  match n with
  | 0 => []
  | S index =>
      if decide (usedChunkIds !! Ids.key (Ids.IdNum index) = Some (Ids.IdNum index))
      then collectUnused usedChunkIds index
      else index :: collectUnused usedChunkIds index
  end.

Record Free := mkFree {
  unusedIds : list nat;          (* the array, [pop] takes its last element *)
  nextFree : nat                 (* nextFreeChunkId *)
}.

(** [if(!chunk.ids) chunk.ids = [chunk.id]] *)
Definition withIds (newId : Ids.Id) (chunk : Chunk) : Chunk :=
  mkChunk newId (match ids chunk with
                 | Some l => Some l
                 | None => Some [newId]
                 end).

(** The loop over [this.chunks]. *)
Fixpoint assignIds (chunks : list Chunk) (f : Free) : list Chunk :=
  match chunks with
  | [] => []
  | chunk :: rest =>
      match id chunk with
      | Ids.IdNull =>
          match last (unusedIds f) with
          | Some i => withIds (Ids.IdNum i) chunk
                      :: assignIds rest (mkFree (removelast (unusedIds f)) (nextFree f))
          | None => withIds (Ids.IdNum (nextFree f)) chunk
                    :: assignIds rest (mkFree (unusedIds f) (S (nextFree f)))
          end
      | _ => withIds (id chunk) chunk :: assignIds rest f
      end
  end.

Definition applyChunkIds (usedChunkIds : option (gmap string Ids.Id)) (chunks : list Chunk)
    : list Chunk :=
  let free :=
    match usedChunkIds with
    | Some used =>
        let n := nextFreeChunkId used in
        mkFree (collectUnused used n) n
    | None => mkFree [] 0
    end in
  assignIds chunks free.

End ChunkIds.

(** ** createChunkAssets

    The render manifests, [render()] and the ["asset-path"] waterfall behind
    [getPath] belong to the templates and to plugins: they are given, and
    each may throw.  Sources are objects; a [CachedSource] made here is a
    new object every time.  [this.assets] is a plain object: reading
    [this.assets[file]] also finds the properties every object inherits,
    which [inherited] tells. *)
Module Assets.

Inductive Source :=
| Rendered (ref : nat) (isCachedSource : bool)   (* an object [render()] returned *)
| CachedSource (serial : nat) (source : Source). (* [new CachedSource(source)] *)

#[global] Instance Source_eq_dec : EqDecision Source.
Proof. solve_decision. Defined.

Inductive Throwing (A : Type) :=
| Throws (message : string)
| Returns (a : A).
Arguments Throws {A}.
Arguments Returns {A}.

Record FileManifest := mkFileManifest {
  identifier : string;
  hash : string;
  filenameTemplate : string;
  pathOptions : nat;
  render : Throwing Source
}.

Record Chunk := mkChunk {
  c_ref : nat;
  c_manifest : Throwing (list FileManifest)   (* template.getRenderManifest({chunk, ...}) *)
}.

Record ChunkRenderError := mkChunkRenderError {
  cre_chunk : nat;
  cre_file : option string;
  cre_error : string
}.

Record State := mkState {
  assets : gmap string Source;
  cache : option (gmap string (string * Source));   (* cacheName ↦ {hash, source} *)
  errors : list ChunkRenderError;
  files : gmap nat (list string);                   (* chunk.files *)
  made : nat;                                       (* CachedSource objects made so far *)
  chunkAssets : list (nat * string)                 (* applyPlugins2("chunk-asset", chunk, file) *)
}.

(** [source instanceof CachedSource] *)
Definition isCached (source : Source) : bool :=
  match source with
  | Rendered _ c => c
  | CachedSource _ _ => true
  end.

(** [file || filenameTemplate] *)
Definition orElse (file filenameTemplate : option string) : option string :=
  match file with
  | Some f => if decide (f = "") then filenameTemplate else Some f
  | None => filenameTemplate
  end.

(** The [catch] clause. *)
Definition caught (chunk : nat) (file filenameTemplate : option string) (message : string)
    (s : State) : State :=
  mkState (assets s) (cache s)
          (errors s ++ [mkChunkRenderError chunk (orElse file filenameTemplate) message])
          (files s) (made s) (chunkAssets s).

(** The cached source, when the cache has an entry of the same hash. *)
Definition fromCache (fileManifest : FileManifest) (s : State) : option Source :=
  match cache s with
  | Some entries =>
      match entries !! identifier fileManifest with
      | Some entry => if decide (entry.1 = hash fileManifest) then Some entry.2 else None
      | None => None
      end
  | None => None
  end.

(** The rest of the loop body once the source is there: the file name, the
    test for a conflict, and the asset.  What comes back is the state and
    whether the body threw. *)
Definition install (inherited : string → bool) (getPath : string → nat → Throwing string)
    (chunk : nat) (fileManifest : FileManifest) (file : option string) (source : Source)
    (s : State) : State * option string * bool :=
  match getPath (filenameTemplate fileManifest) (pathOptions fileManifest) with
  | Throws message =>
      (caught chunk file (Some (filenameTemplate fileManifest)) message s, file, true)
  | Returns f =>
      match assets s !! f with
      | Some other =>
          if decide (other = source)
          then (mkState (<[f := source]> (assets s)) (cache s) (errors s)
                        (<[chunk := default [] (files s !! chunk) ++ [f]]> (files s))
                        (made s) (chunkAssets s ++ [(chunk, f)]),
                Some f, false)
          else (caught chunk (Some f) (Some (filenameTemplate fileManifest))
                  ("Conflict: Multiple assets emit to the same filename " +:+ f) s,
                Some f, true)
      | None =>
          if inherited f
          then (caught chunk (Some f) (Some (filenameTemplate fileManifest))
                  ("Conflict: Multiple assets emit to the same filename " +:+ f) s,
                Some f, true)
          else (mkState (<[f := source]> (assets s)) (cache s) (errors s)
                        (<[chunk := default [] (files s !! chunk) ++ [f]]> (files s))
                        (made s) (chunkAssets s ++ [(chunk, f)]),
                Some f, false)
      end
  end.

(** One turn of [for(const fileManifest of manifest)]. *)
Definition emit (inherited : string → bool) (getPath : string → nat → Throwing string)
    (chunk : nat) (fileManifest : FileManifest) (file : option string) (s : State)
    : State * option string * bool :=
  match fromCache fileManifest s with
  | Some source => install inherited getPath chunk fileManifest file source s
  | None =>
      match render fileManifest with
      | Throws message =>
          (caught chunk file (Some (filenameTemplate fileManifest)) message s, file, true)
      | Returns source =>
          match cache s with
          | Some entries =>
              let source' := if isCached source then source
                             else CachedSource (made s) source in
              install inherited getPath chunk fileManifest file source'
                (mkState (assets s)
                   (Some (<[identifier fileManifest := (hash fileManifest, source')]> entries))
                   (errors s) (files s)
                   (if isCached source then made s else S (made s)) (chunkAssets s))
          | None => install inherited getPath chunk fileManifest file source s
          end
      end
  end.

Fixpoint emitAll (inherited : string → bool) (getPath : string → nat → Throwing string)
    (chunk : nat) (manifest : list FileManifest) (file : option string) (s : State) : State :=
  match manifest with
  | [] => s
  | fileManifest :: rest =>
      match emit inherited getPath chunk fileManifest file s with
      | (s', _, true) => s'
      | (s', file', false) => emitAll inherited getPath chunk rest file' s'
      end
  end.

(** The body of the loop over the chunks. *)
Definition renderChunk (inherited : string → bool) (getPath : string → nat → Throwing string)
    (s : State) (chunk : Chunk) : State :=
  let s := mkState (assets s) (cache s) (errors s) (<[c_ref chunk := []]> (files s))
                   (made s) (chunkAssets s) in
  match c_manifest chunk with
  | Throws message => caught (c_ref chunk) None None message s
  | Returns manifest => emitAll inherited getPath (c_ref chunk) manifest None s
  end.

Definition createChunkAssets (inherited : string → bool)
    (getPath : string → nat → Throwing string) (chunks : list Chunk) (s : State) : State :=
  foldl (renderChunk inherited getPath) s chunks.

End Assets.

(** ** createChildCompiler: the counters of the children

    [childrenCounters] is a plain object.  For a name that every object
    inherits a property for ([inherited] tells which), the value read is
    that property, and what is computed from it is not a number. *)
Module Children.

Inductive Index :=
| Num (n : nat)
| NotNumber.

(** [idx + 1] *)
Definition next (idx : Index) : Index :=
  match idx with
  | Num n => Num (n + 1)
  | NotNumber => NotNumber
  end.

(** [createChildCompiler]: the index handed to
    [compiler.createChildCompiler], and the counters afterwards. *)
Definition createChildCompiler (inherited : string → bool) (name : string)
    (childrenCounters : gmap string Index) : Index * gmap string Index :=
  let idx := match childrenCounters !! name with
             | Some v => v
             | None => if inherited name then NotNumber else Num 0
             end in
  (idx, <[name := next idx]> childrenCounters).

(** The indices a sequence of calls hands out. *)
Fixpoint indices (inherited : string → bool) (names : list string)
    (childrenCounters : gmap string Index) : list Index :=
  match names with
  | [] => []
  | name :: rest =>
      let '(idx, childrenCounters') := createChildCompiler inherited name childrenCounters in
      idx :: indices inherited rest childrenCounters'
  end.

End Children.

(** * Vocabulary of the proofs: measures, invariants and sample data *)

(** ** Measures for the label-driven traversals

    [unlabelled] counts the entries of [univ] that have no label yet;
    [label_total] adds up the sizes of the labels there are. *)

Definition unlabelled {V} (labels : gmap nat V) (univ : list nat) : nat :=
  length (filter (λ m, labels !! m = None) univ).

Definition label_total {V} (size : V → nat) (labels : gmap nat V) (univ : list nat) : nat :=
  sum_list_with (λ m, from_option size 0 (labels !! m)) univ.

(** ** assignDepth

    A bound [b] for module [n] is met when [n] already carries a depth of
    at most [b], or a pending work item will offer it one. *)
Definition depth_covered (s : Depth.State) (n : ModuleRef) (b : nat) : Prop :=
  (∃ d, Depth.depth s !! n = Some d ∧ d ≤ b)
  ∨ (∃ e, (n, e) ∈ Depth.queue s ∧ e ≤ b).

(** The invariant of a run on a graph that had no depths: the root and the
    targets of labelled modules are covered, and every depth, stored or
    pending, is the length of a path from the root. *)
Record depth_inv (g : gmap ModuleRef DependenciesBlock) (root : ModuleRef)
    (s : Depth.State) : Prop := mk_depth_inv {
  depth_inv_root : depth_covered s root 0;
  depth_inv_closed : ∀ m d n,
    Depth.depth s !! m = Some d → edge g m n → depth_covered s n (d + 1);
  depth_inv_sound : ∀ m d, Depth.depth s !! m = Some d → path g root m d;
  depth_inv_queue : ∀ m d, (m, d) ∈ Depth.queue s → path g root m d
}.

Definition dependencyOn (m : ModuleRef) : Dependency := mkDependency (Some m) false false.

(** Two entries [0] and [1]: [0 → 3] and [1 → 2 → 3], the edge [1 → 2]
    held by a variable and the edge [2 → 3] by a nested block. *)
Definition two_entry_graph : gmap ModuleRef DependenciesBlock :=
  {[ 0 := Block [] [dependencyOn 3] [];
     1 := Block [mkVariable [dependencyOn 2]] [] [];
     2 := Block [] [] [Block [] [dependencyOn 3] []] ]}.

(** ** assignIndex

    The closures a block pushes, top of the stack first, and the modules a
    closure on the stack will lead to. *)
Definition index_block_tasks (b : DependenciesBlock) : list Index.Task :=
  match b with
  | Block vs ds bs =>
      (Index.EnterDependency <$> ((vs ≫= var_dependencies) ++ ds))
      ++ (Index.EnterBlock <$> bs)
  end.

Definition index_task_targets (t : Index.Task) : list ModuleRef :=
  match t with
  | Index.EnterModule m => [m]
  | Index.LeaveModule _ => []
  | Index.EnterBlock b => blockTargets b
  | Index.EnterDependency d => option_list (dep_module d)
  end.

Definition index_pending (n : ModuleRef) (q : list Index.Task) : Prop :=
  ∃ t, t ∈ q ∧ n ∈ index_task_targets t.

(** The weight of the stack: running a closure that labels nothing makes it
    lighter. *)
Fixpoint index_block_weight (b : DependenciesBlock) : nat :=
  match b with
  | Block vs ds bs =>
      1 + 2 * length ((vs ≫= var_dependencies) ++ ds) + sum_list_with index_block_weight bs
  end.

Definition index_task_weight (t : Index.Task) : nat :=
  match t with
  | Index.EnterModule _ => 1
  | Index.LeaveModule _ => 1
  | Index.EnterBlock b => index_block_weight b
  | Index.EnterDependency _ => 2
  end.

Definition index_queue_weight (q : list Index.Task) : nat :=
  sum_list_with index_task_weight q.

Definition index_targets_in (univ : list ModuleRef) (q : list Index.Task) : Prop :=
  ∀ t n, t ∈ q → n ∈ index_task_targets t → n ∈ univ.

(** The [index2] writes of module [m] still on the stack. *)
Definition index_count_leave (m : ModuleRef) (q : list Index.Task) : nat :=
  sum_list_with (λ t, match t with
                      | Index.LeaveModule m' => if decide (m' = m) then 1 else 0
                      | _ => 0
                      end) q.

Definition index_covered (s : Index.State) (n : ModuleRef) : Prop :=
  is_Some (Index.index s !! n) ∨ index_pending n (Index.queue s).

(** Labelled modules only point to modules that are labelled or pending. *)
Definition index_closed (g : gmap ModuleRef DependenciesBlock) (s : Index.State) : Prop :=
  ∀ m n, is_Some (Index.index s !! m) → edge g m n → index_covered s n.

(** The writes made so far, against the labels [i0] the call started from:
    a module is written exactly when it was not labelled at the start and is
    now, and every write of [index] has its write of [index2] done or
    pending. *)
Record index_counted (i0 : gmap ModuleRef nat) (s : Index.State) : Prop :=
  mk_index_counted {
  index_counted_extends : ∀ m, is_Some (i0 !! m) → is_Some (Index.index s !! m);
  index_counted_once : ∀ m,
    Index.index_writes m (Index.trace s)
    = match Index.index s !! m, i0 !! m with Some _, None => 1 | _, _ => 0 end;
  index_counted_leave : ∀ m,
    Index.index2_writes m (Index.trace s) + index_count_leave m (Index.queue s)
    = Index.index_writes m (Index.trace s)
}.

(** The state [assignIndex] starts its loop in. *)
Definition index_start (root : ModuleRef) (l : Index.Labels) : Index.State :=
  Index.mkState (Index.l_index l) (Index.l_index2 l) (Index.l_nextFreeModuleIndex l)
                (Index.l_nextFreeModuleIndex2 l) [Index.EnterModule root] [].

(** What holds during a run of [assignIndex] that numbered its root first,
    from the counters [first] and [first2]: the root keeps the first [index]
    of the run, every other module the run numbers gets a later one, and the
    closure that gives the root its [index2] is the bottom of the stack
    until it runs, as the last one. *)
Record index_root_inv (root : ModuleRef) (first first2 : nat) (s : Index.State) : Prop := mk_index_root_inv {
  index_root_first : Index.index s !! root = Some first;
  index_root_counter : first < Index.nextFreeModuleIndex s;
  index_root_later : ∀ m v,
    Index.SetIndex m v ∈ Index.trace s → (m = root ∧ v = first) ∨ (m ≠ root ∧ first < v);
  index_root_counter2 : first2 ≤ Index.nextFreeModuleIndex2 s;
  index_root_leave :
    (∃ q, Index.queue s = q ++ [Index.LeaveModule root]
          ∧ index_count_leave root q = 0
          ∧ ∀ m v, Index.SetIndex2 m v ∈ Index.trace s
                   → m ≠ root ∧ first2 ≤ v < Index.nextFreeModuleIndex2 s)
    ∨ (Index.queue s = []
       ∧ first2 < Index.nextFreeModuleIndex2 s
       ∧ Index.index2 s !! root = Some (Index.nextFreeModuleIndex2 s - 1)
       ∧ ∀ m v, Index.SetIndex2 m v ∈ Index.trace s
                → (m = root ∧ v = Index.nextFreeModuleIndex2 s - 1)
                  ∨ (m ≠ root ∧ first2 ≤ v < Index.nextFreeModuleIndex2 s - 1))
}.

(** ** The build coordinator

    What holds in every state it can reach: the builds in flight are the
    tracked modules, one build each, and every tracked array exists. *)
Record build_inv (s : Build.State) : Prop := mk_build_inv {
  build_inv_tracked : ∀ i r,
    Build.running s !! i = Some r →
    Build._buildingModules s !! Build.r_module r = Some (Build.r_callbackList r);
  build_inv_running : ∀ m l,
    Build._buildingModules s !! m = Some l →
    ∃ i r, Build.running s !! i = Some r ∧ Build.r_module r = m ∧ Build.r_callbackList r = l;
  build_inv_nodup : NoDup (Build.r_module <$> Build.running s);
  build_inv_lists : ∀ m l,
    Build._buildingModules s !! m = Some l →
    is_Some (Build.lists s !! l) ∧ l < Build.nextList s
}.

(** ** addEntry

    [preparedChunks] holds slot [x] under the reference [slot]; slots are
    distinct objects, newer than every slot before them, and a call that
    has not called back still has its slot, without a module. *)
Definition entry_holds (slots : list Entry.Slot) (slot : nat) (x : Entry.Slot) : Prop :=
  x ∈ slots ∧ Entry.slot_ref x = slot.

Record entry_inv (r : Entry.Calls) : Prop := mk_entry_inv {
  entry_inv_fresh :
    Forall (λ x, Entry.slot_ref x < Entry.nextSlot (Entry.state r))
           (Entry.preparedChunks (Entry.state r));
  entry_inv_nodup : NoDup (Entry.slot_ref <$> Entry.preparedChunks (Entry.state r));
  entry_inv_waiting : ∀ slot, slot ∈ Entry.waiting r →
    ∃ x, entry_holds (Entry.preparedChunks (Entry.state r)) slot x ∧ Entry.slot_module x = None
}.

(** A compilation with nothing in it, and a factory that cannot resolve the
    entry. *)
Definition emptyCompilation : Store.Compilation :=
  Store.mkCompilation ∅ [] None None None [] [] [].

Definition factoryFails : Entry.Scenario :=
  Entry.mkScenario true true (inl (mkError "Error" "Can't resolve './main'" None None))
                   (λ _, None) [] [] None [] None.

(** ** addModuleDependencies

    Sample data: the factories of the examples produce no module, so what
    follows a produced module plays no part; [missing] is the error of a
    factory. *)
Definition noFurtherStep (item : nat) (dependencies : list Dependency)
    (m : Store.Module) (s : FanOut.State) : FanOut.State := s.

Definition missing (request : string) : Error := mkError "Error" request None None.

(** ** Part two of the chunk graph

    A list of chunks is closed when every edge leads into it; the chunks of
    the queue together with the targets of all edges are such a list. *)
Definition chunks_closed (g : Chunks.Graph) (univ : list Chunks.ChunkRef) : Prop :=
  ∀ c deps dep, Chunks.chunkDependencies g !! c = Some deps → dep ∈ deps →
                Chunks.d_chunk dep ∈ univ.

Definition chunks_universe (g : Chunks.Graph) (s : Chunks.State) : list Chunks.ChunkRef :=
  (Chunks.chunk <$> Chunks.queue2 s)
  ++ (map_to_list (Chunks.chunkDependencies g) ≫= λ kd, Chunks.d_chunk <$> kd.2).

(** ** createHash

    The object [ref] has a hash, and its rendered hash is that hash cut to
    [length] characters. *)
Definition hash_rendered (length : nat) (full rendered : gmap nat string) (ref : nat) : Prop :=
  ∃ h, full !! ref = Some h ∧ rendered !! ref = Some (String.substring 0 length h).

(** Two compilations agree on what [createHash] is said to read: the four
    output options, the templates (the module templates whatever the order
    of their keys), the hashes of the children, the messages of the
    warnings and of the errors, and the modules and chunks with the hash
    fields they carry. *)
Record hash_agree {E : Hash.Engine} (l1 l2 : Hash.Listed E) : Prop := mk_hash_agree {
  hash_agree_function : Hash.hashFunction l1 = Hash.hashFunction l2;
  hash_agree_digest : Hash.hashDigest l1 = Hash.hashDigest l2;
  hash_agree_length : Hash.hashDigestLength l1 = Hash.hashDigestLength l2;
  hash_agree_salt : Hash.hashSalt l1 = Hash.hashSalt l2;
  hash_agree_main : Hash.mainTemplate l1 = Hash.mainTemplate l2;
  hash_agree_chunk : Hash.chunkTemplate l1 = Hash.chunkTemplate l2;
  hash_agree_keys : NoDup (Hash.moduleTemplates l1).*1;
  hash_agree_templates : Hash.moduleTemplates l1 ≡ₚ Hash.moduleTemplates l2;
  hash_agree_children :
    Hash.child_hash <$> Hash.children l1 = Hash.child_hash <$> Hash.children l2;
  hash_agree_warnings : err_message <$> Hash.warnings l1 = err_message <$> Hash.warnings l2;
  hash_agree_errors : err_message <$> Hash.errors l1 = err_message <$> Hash.errors l2;
  hash_agree_modules : Hash.modules l1 = Hash.modules l2;
  hash_agree_chunks : Hash.chunks l1 = Hash.chunks l2;
  hash_agree_hashes : Hash.hashes l1 = Hash.hashes l2
}.

(** A transparent engine: the "digest" is the list of everything the hash
    object was fed, and the sort is a merge sort. *)
Definition sortBy {A : Type} (compareFn : A → A → Z) (l : list A) : list A :=
  merge_sort (λ a b, Is_true (compareFn a b <=? 0)%Z) l.

Definition sortBy_sorted {A : Type} (compareFn : A → A → Z) (l : list A)
    (Hc : Hash.consistent compareFn) :
  StronglySorted (λ a b, (compareFn a b <= 0)%Z) (sortBy compareFn l).
Proof.
  destruct Hc as [Htotal Htrans].
  assert (Transitive (λ a b, Is_true (compareFn a b <=? 0)%Z)) as Ht.
  { intros a b c Hab%Is_true_true%Z.leb_le Hbc%Is_true_true%Z.leb_le.
    apply Is_true_true, Z.leb_le. by eapply Htrans. }
  assert (Total (λ a b, Is_true (compareFn a b <=? 0)%Z)) as Hto.
  { intros a b. destruct (Htotal a b); [left|right]; by apply Is_true_true, Z.leb_le. }
  unfold sortBy.
  pose proof (StronglySorted_merge_sort (λ a b, Is_true (compareFn a b <=? 0)%Z) l) as Hs.
  induction Hs as [|a sorted _ IH Ha]; constructor; [done|].
  eapply Forall_impl; [exact Ha|]. intros b Hab. by apply Z.leb_le, Is_true_true.
Defined.

Definition transcriptEngine : Hash.Engine :=
  Hash.mkEngine (list string)
    (λ hashFunction, [hashFunction])
    (λ h data, h ++ [data])
    (λ h encoding, String.concat "," h)
    (@sortBy)
    (λ A compareFn l, merge_sort_Permutation (λ a b, Is_true (compareFn a b <=? 0)%Z) l)
    (@sortBy_sorted).

Definition plainTemplate : Hash.Template transcriptEngine :=
  Hash.mkTemplate transcriptEngine (λ h, h ++ ["template"]) (λ _ _ h, h ++ ["for-chunk"]).

Definition namedTemplate (name : string) : Hash.Template transcriptEngine :=
  Hash.mkTemplate transcriptEngine (λ h, h ++ [name]) (λ _ _ h, h ++ [name +:+ "-chunk"]).

(** One module and one runtime chunk. *)
Definition oneChunk : Hash.Listed transcriptEngine :=
  Hash.mkListed transcriptEngine "md5" "hex" 80 None plainTemplate plainTemplate
    [("javascript", plainTemplate)] [] [] []
    [Hash.mkModule transcriptEngine 0 (λ _ h, h ++ ["module-0"])]
    [Hash.mkChunk transcriptEngine 0 true (λ _ h, h ++ ["chunk-0"])]
    (Hash.mkHashes ∅ ∅ ∅ ∅).

(** A salted compilation with a child, a warning, an error, one module, a
    runtime chunk listed before a chunk without runtime, and the module
    templates in the order [webassembly], [javascript]; and the same
    compilation with the module templates the other way round, another
    child object of the same hash, and the warning and the error carrying
    another origin. *)
Definition twoChunks (keys : list string) (child : nat) (origin : option ModuleRef)
    : Hash.Listed transcriptEngine :=
  Hash.mkListed transcriptEngine "md5" "hex" 6 (Some "salt")
    (namedTemplate "main") (namedTemplate "chunk")
    ((λ key, (key, namedTemplate key)) <$> keys)
    [Hash.mkChild child "child-hash"]
    [mkError "Warning" "careful" origin None]
    [mkError "Error" "broken" origin None]
    [Hash.mkModule transcriptEngine 0 (λ _ h, h ++ ["module-0"])]
    [Hash.mkChunk transcriptEngine 0 true (λ _ h, h ++ ["chunk-0"]);
     Hash.mkChunk transcriptEngine 1 false (λ _ h, h ++ ["chunk-1"])]
    (Hash.mkHashes ∅ ∅ ∅ ∅).

(** ** The module store

    The array [modules] lists the values of the map [_modules], each once. *)
Definition store_listed (c : Store.Compilation) : Prop :=
  Store.modules c ≡ₚ (map_to_list (Store._modules c)).*2.

(** ** Groups of dependencies *)

(** The dependencies of a block in the order [addDependenciesBlock] meets
    them. *)
Fixpoint group_order (b : DependenciesBlock) : list Dependency :=
  match b with
  | Block vs ds bs => ds ++ (bs ≫= group_order) ++ (vs ≫= var_dependencies)
  end.

(** The array a group stands for. *)
Definition group_members (group : Grouping.Group) : list Dependency := group.1 :: group.2.

(** Every member of a group is equal in resource to the first element of its
    group and to the first element of no group before it. *)
Definition groups_sorted (isEqualResource : Dependency → Dependency → bool)
    (groups : list Grouping.Group) : Prop :=
  ∀ j group, groups !! j = Some group →
    Forall (λ d, isEqualResource d group.1 = true) group.2
    ∧ ∀ i earlier d, i < j → groups !! i = Some earlier → d ∈ group_members group →
        isEqualResource d earlier.1 = false.

(** The groups come in the order their first elements are met, and a group
    keeps its members in the order they are met: [met] is what has been
    walked so far. *)
Definition groups_ordered (met : list Dependency) (groups : list Grouping.Group) : Prop :=
  sublist (fst <$> groups) met ∧ Forall (λ group, sublist (group_members group) met) groups.

(** ** Entries *)

(** Every entry module is registered in the store, and a slot only ever
    holds an entry module. *)
Record entry_registered (s : Entry.State) : Prop := mk_entry_registered {
  entry_registered_entries : ∀ m, m ∈ Entry.entries s →
    ∃ identifier, Store._modules (Entry.store s) !! identifier = Some m;
  entry_registered_slots : ∀ slot m, slot ∈ Entry.preparedChunks s →
    Entry.slot_module slot = Some m → m ∈ Entry.entries s
}.

(** ** finish *)

(** The dependencies [finish] looks at, in its order: those of the block
    itself and of the blocks nested in it, never those of a variable. *)
Fixpoint report_order (b : DependenciesBlock) : list Dependency :=
  match b with
  | Block _ ds bs => ds ++ (bs ≫= report_order)
  end.

(** ** The chunks of the compilation

    What holds of the chunks in every state [addChunk] and [unseal] lead
    to: no chunk twice, every chunk made before the next one, the named
    chunks among the chunks, one name for a chunk, and no chunk under the
    name [__proto__]. *)
Record registry_inv (s : Registry.State) : Prop := mk_registry_inv {
  registry_inv_nodup : NoDup (Registry.chunks s);
  registry_inv_fresh : Forall (λ c, c < Registry.nextChunk s) (Registry.chunks s);
  registry_inv_named : ∀ n c, Registry.namedChunks s !! n = Some c → c ∈ Registry.chunks s;
  registry_inv_names : ∀ n n' c,
    Registry.namedChunks s !! n = Some c → Registry.namedChunks s !! n' = Some c → n = n';
  registry_inv_proto : Registry.namedChunks s !! "__proto__" = None
}.

(** ** The labels after the loop over the entries *)

(** The invariant of the runs of [assignDepth] from the entries [roots], one
    after the other, on a graph that had no depths. *)
Record depth_inv_entries (g : gmap ModuleRef DependenciesBlock) (roots : list ModuleRef)
    (s : Depth.State) : Prop := mk_depth_inv_entries {
  depth_entries_roots : ∀ r, r ∈ roots → depth_covered s r 0;
  depth_entries_closed : ∀ m d n,
    Depth.depth s !! m = Some d → edge g m n → depth_covered s n (d + 1);
  depth_entries_sound : ∀ m d,
    Depth.depth s !! m = Some d → ∃ r, r ∈ roots ∧ path g r m d;
  depth_entries_queue : ∀ m d,
    (m, d) ∈ Depth.queue s → ∃ r, r ∈ roots ∧ path g r m d
}.

(** [k] is the least number of edges on a path to [m] from one of [roots]. *)
Definition distance_from (g : gmap ModuleRef DependenciesBlock) (roots : list ModuleRef)
    (m : ModuleRef) (k : nat) : Prop :=
  (∃ r, r ∈ roots ∧ path g r m k) ∧ ∀ r k', r ∈ roots → path g r m k' → k ≤ k'.

(** The [index2] writes still on the stack. *)
Definition index_leaves (q : list Index.Task) : nat :=
  sum_list_with (λ t, match t with Index.LeaveModule _ => 1 | _ => 0 end) q.

(** The invariant of the runs of [assignIndex] from the entries [roots], one
    after the other, on a graph that had no labels and with both counters
    started at 0. *)
Record index_inv_entries (g : gmap ModuleRef DependenciesBlock) (roots : list ModuleRef)
    (s : Index.State) : Prop := mk_index_inv_entries {
  index_entries_bound : ∀ m v,
    Index.index s !! m = Some v → v < Index.nextFreeModuleIndex s;
  index_entries_inj : ∀ m m' v,
    Index.index s !! m = Some v → Index.index s !! m' = Some v → m = m';
  index_entries_size : size (Index.index s) = Index.nextFreeModuleIndex s;
  index_entries_bound2 : ∀ m v,
    Index.index2 s !! m = Some v → v < Index.nextFreeModuleIndex2 s;
  index_entries_inj2 : ∀ m m' v,
    Index.index2 s !! m = Some v → Index.index2 s !! m' = Some v → m = m';
  index_entries_leaving : ∀ m,
    Index.LeaveModule m ∈ Index.queue s → is_Some (Index.index s !! m);
  index_entries_known2 : ∀ m,
    is_Some (Index.index2 s !! m) → is_Some (Index.index s !! m);
  index_entries_left : ∀ m,
    is_Some (Index.index s !! m) →
    is_Some (Index.index2 s !! m) ∨ Index.LeaveModule m ∈ Index.queue s;
  index_entries_count :
    Index.nextFreeModuleIndex2 s + index_leaves (Index.queue s) = Index.nextFreeModuleIndex s;
  index_entries_sound : ∀ m,
    is_Some (Index.index s !! m) → ∃ r, r ∈ roots ∧ reachable g r m;
  index_entries_pending : ∀ n,
    index_pending n (Index.queue s) → ∃ r, r ∈ roots ∧ reachable g r n;
  index_entries_closed : index_closed g s;
  index_entries_roots : ∀ r, r ∈ roots → index_covered s r
}.

(** The entry modules of the slots, in order. *)
Definition seal_roots (preparedChunks : list Entry.Slot) : list ModuleRef :=
  omap (λ slot, Store.m_ref <$> Entry.slot_module slot) preparedChunks.

(** Both invariants, on what the loop has reached after an entry. *)
Definition seal_inv (g : gmap ModuleRef DependenciesBlock) (roots : list ModuleRef)
    (s : Seal.State) : Prop :=
  depth_inv_entries g roots (Depth.mkState (Seal.depth s) [])
  ∧ ∃ tr, index_inv_entries g roots
            (Index.mkState (Index.l_index (Seal.labels s)) (Index.l_index2 (Seal.labels s))
               (Index.l_nextFreeModuleIndex (Seal.labels s))
               (Index.l_nextFreeModuleIndex2 (Seal.labels s)) [] tr).

(** Sample data: the two entries of [two_entry_graph], and a slot whose
    module was never set. *)
Definition entryModuleOf (m : ModuleRef) : Store.Module :=
  Store.mkModule m ("./" +:+ pretty m) [] [] (λ _ _, false).

Definition twoSlots : list Entry.Slot :=
  [Entry.mkSlot 0 "a" (Some (entryModuleOf 0)); Entry.mkSlot 1 "b" (Some (entryModuleOf 1))].

Definition beforeSealing : Seal.State :=
  Seal.mkState Registry.initial ∅ ∅ [] (Index.mkLabels ∅ ∅ 0 0) ∅.

(** ** The links of part two

    [chunk.chunks] and [chunk.parents], empty while not set. *)
Definition chunks_children (s : Chunks.State) (p : Chunks.ChunkRef) : list Chunks.ChunkRef :=
  default [] (Chunks.chunkChunks s !! p).

Definition chunks_parents (s : Chunks.State) (c : Chunks.ChunkRef) : list Chunks.ChunkRef :=
  default [] (Chunks.chunkParents s !! c).

(** The links part two has made: a chunk is a child exactly where it has the
    parent, a link follows an edge of the basic graph, and the child brings
    a module the parent does not have. *)
Record chunks_linked (g : Chunks.Graph) (s : Chunks.State) : Prop := mk_chunks_linked {
  chunks_linked_sym : ∀ p c, c ∈ chunks_children s p ↔ p ∈ chunks_parents s c;
  chunks_linked_edge : ∀ p c, c ∈ chunks_children s p →
    ∃ deps dep, Chunks.chunkDependencies g !! p = Some deps ∧ dep ∈ deps
                ∧ Chunks.d_chunk dep = c;
  chunks_linked_new : ∀ p c, c ∈ chunks_children s p →
    ∃ m, m ∈ Chunks.modulesOf g c ∧ m ∉ Chunks.modulesOf g p;
  chunks_linked_nodup : ∀ p, NoDup (chunks_children s p) ∧ NoDup (chunks_parents s p)
}.

(** ** Plain objects

    Sample data: the properties an object made by [{}] inherits from
    [Object.prototype] in Node; all of them are truthy. *)
Definition objectPrototypeKeys : list string :=
  ["constructor"; "__defineGetter__"; "__defineSetter__"; "hasOwnProperty";
   "__lookupGetter__"; "__lookupSetter__"; "isPrototypeOf"; "propertyIsEnumerable";
   "toString"; "valueOf"; "__proto__"; "toLocaleString"].

Definition inheritedByObjects (key : string) : bool :=
  bool_decide (key ∈ objectPrototypeKeys).

(** ** Ids

    The decimal numerals are made of digits, so none of them is ["null"]. *)
Fixpoint all_digits (s : string) : bool :=
  match s with
  | EmptyString => true
  | String c rest =>
      bool_decide (c ∈ String.list_ascii_of_string "0123456789") && all_digits rest
  end.

(** The free numbers wait in falling order, so that [pop] takes the least,
    and all of them are below the counter. *)
Record free_ok (f : Ids.Free) : Prop := mk_free_ok {
  free_ok_sorted : StronglySorted (λ a b, b < a) (Ids.unusedIds f);
  free_ok_below : Forall (λ a, a < Ids.nextFreeModuleId f) (Ids.unusedIds f)
}.

(** [usedIdMap] holds the keys of the ids in [usedIds], and no other. *)
Definition used_inv (u : Ids.Used) : Prop :=
  ∀ s, s ∈ Ids.usedIdMap u ↔ ∃ id, id ∈ Ids.usedIds u ∧ Ids.key id = s.

(** What [applyModuleIds] has before its second loop, from what the first
    loop collected. *)
Definition free_of (u : Ids.Used) : Ids.Free :=
  match Ids.usedIds u with
  | [] => Ids.mkFree [] 0
  | _ :: _ =>
      let n := Z.to_nat (Ids.usedIdMax (Ids.usedIds u) + 1) in
      Ids.mkFree (Ids.collectUnused (Ids.usedIdMap u) n) n
  end.

(** The free numbers of [applyChunkIds] read as those of [applyModuleIds]. *)
Definition chunk_free (f : ChunkIds.Free) : Ids.Free :=
  Ids.mkFree (ChunkIds.unusedIds f) (ChunkIds.nextFree f).

(** What [applyChunkIds] has before its loop over the chunks. *)
Definition chunk_free_of (usedChunkIds : option (gmap string Ids.Id)) : ChunkIds.Free :=
  match usedChunkIds with
  | Some used =>
      ChunkIds.mkFree (ChunkIds.collectUnused used (ChunkIds.nextFreeChunkId used))
                      (ChunkIds.nextFreeChunkId used)
  | None => ChunkIds.mkFree [] 0
  end.

(** A number the second loop can still hand out: one of the free numbers
    below the counter, or a number from the counter on. *)
Definition free_has (f : Ids.Free) (b : nat) : Prop :=
  b ∈ Ids.unusedIds f ∨ Ids.nextFreeModuleId f ≤ b.

(** ** Assets *)

(** What a run keeps of an earlier state: the assets there were, the errors
    there were, and at most [n] errors more. *)
Record assets_kept (n : nat) (s s' : Assets.State) : Prop := mk_assets_kept {
  assets_kept_assets : ∀ f source, Assets.assets s !! f = Some source →
                                   Assets.assets s' !! f = Some source;
  assets_kept_errors : ∃ more, Assets.errors s' = Assets.errors s ++ more ∧ length more ≤ n
}.

(** Every file a chunk lists is an asset. *)
Definition assets_listed (s : Assets.State) : Prop :=
  ∀ chunk fs f, Assets.files s !! chunk = Some fs → f ∈ fs → is_Some (Assets.assets s !! f).

(** ** Children *)

(** How many of [names] are [name]. *)
Definition children_count (name : string) (names : list string) : nat :=
  length (filter (λ n, n = name) names).

(** * Properties *)

(** ** Facts about the module graph *)

(** Induction over blocks that also covers the nested ones. *)
Lemma DependenciesBlock_nested_ind (P : DependenciesBlock → Prop) :
  (∀ vs ds bs, Forall P bs → P (Block vs ds bs)) → ∀ b, P b.
Proof.
  intros H. fix IH 1. intros [vs ds bs]. apply H.
  induction bs as [|b bs IHbs]; constructor; [apply IH | exact IHbs].
Qed.

Lemma edge_in_universe g root m n : edge g m n → n ∈ universe g root.
Proof.
  unfold edge, blockOf, universe. intros Hn.
  destruct (g !! m) as [b|] eqn:Hm; simpl in Hn.
  - apply list_elem_of_further, list_elem_of_bind.
    exists (m, b). split; [done|]. by apply elem_of_map_to_list.
  - by apply elem_of_nil in Hn.
Qed.

Lemma path_trans_edge g a b c k : edge g a b → path g b c k → path g a c (S k).
Proof.
  intros Hab Hbc. induction Hbc as [|x y k Hbx IH Hxy].
  - eapply path_step; [apply path_refl | done].
  - eapply path_step; [exact IH | done].
Qed.

(** ** assignDepth: what one call pushes *)

Section depth_pushes.

Context (d : nat).

Lemma depth_foldl_dependencies ds q :
  foldl (λ acc dep, Depth.assignDepthToDependency dep d acc) q ds
  = reverse ((., d) <$> depTargets ds) ++ q.
Proof.
  revert q. induction ds as [|dep ds IH]; intros q; [done|].
  simpl. rewrite IH. unfold Depth.assignDepthToDependency, depTargets. simpl.
  destruct (dep_module dep) as [m|]; simpl; [|done].
  by rewrite reverse_cons, <- app_assoc.
Qed.

Lemma depth_foldl_variables vs q :
  iterationBlockVariable vs (λ dep, Depth.assignDepthToDependency dep d) q
  = reverse ((., d) <$> varTargets vs) ++ q.
Proof.
  unfold iterationBlockVariable, varTargets.
  revert q. induction vs as [|v vs IH]; intros q; [done|].
  simpl. rewrite IH, depth_foldl_dependencies.
  rewrite fmap_app, reverse_app, <- app_assoc. done.
Qed.

Lemma assignDepthToDependencyBlock_pushes b q :
  Depth.assignDepthToDependencyBlock b d q = reverse ((., d) <$> blockTargets b) ++ q.
Proof.
  revert q. induction b as [vs ds bs IH] using DependenciesBlock_nested_ind.
  intros q. simpl. rewrite depth_foldl_variables.
  unfold iterationOfArrayCallback. rewrite depth_foldl_dependencies.
  rewrite !fmap_app, !reverse_app, <- !app_assoc.
  generalize (reverse ((., d) <$> depTargets ds) ++ reverse ((., d) <$> varTargets vs) ++ q).
  clear q. induction IH as [|b bs Hb _ IHbs]; intros q; [done|].
  simpl. rewrite Hb, IHbs, fmap_app, reverse_app, <- app_assoc. done.
Qed.

End depth_pushes.

(** ** Measures for the label-driven traversals *)

Section measures.

Context {V : Type} (size : V → nat).
Implicit Types (labels : gmap nat V) (univ : list nat).

Lemma unlabelled_insert_le labels univ m d :
  unlabelled (<[m:=d]> labels) univ ≤ unlabelled labels univ.
Proof.
  unfold unlabelled. induction univ as [|x univ IH]; [done|].
  rewrite !filter_cons. destruct (decide (m = x)) as [->|Hne].
  - rewrite lookup_insert_eq. rewrite decide_False by done.
    destruct (decide (labels !! x = None)); simpl; lia.
  - rewrite lookup_insert_ne by done.
    destruct (decide (labels !! x = None)); simpl; lia.
Qed.

Lemma unlabelled_insert_lt labels univ m d :
  m ∈ univ → labels !! m = None →
  unlabelled (<[m:=d]> labels) univ < unlabelled labels univ.
Proof.
  unfold unlabelled. intros Hin Hnone. induction univ as [|x univ IH].
  - by apply elem_of_nil in Hin.
  - rewrite !filter_cons. destruct (decide (m = x)) as [->|Hne].
    + rewrite lookup_insert_eq, decide_False by done.
      rewrite decide_True by done. simpl.
      pose proof (unlabelled_insert_le labels univ x d) as Hle.
      unfold unlabelled in Hle. lia.
    + rewrite lookup_insert_ne by done.
      apply elem_of_cons in Hin as [?|Hin]; [done|].
      specialize (IH Hin). destruct (decide (labels !! x = None)); simpl; lia.
Qed.

Lemma unlabelled_insert_same labels univ m d old :
  labels !! m = Some old →
  unlabelled (<[m:=d]> labels) univ = unlabelled labels univ.
Proof.
  unfold unlabelled. intros Hold. induction univ as [|x univ IH]; [done|].
  rewrite !filter_cons. destruct (decide (m = x)) as [->|Hne].
  - rewrite lookup_insert_eq, Hold. by rewrite !decide_False by done.
  - rewrite lookup_insert_ne by done.
    destruct (decide (labels !! x = None)); simpl; by rewrite IH.
Qed.

Lemma label_total_insert_le labels univ m d old :
  labels !! m = Some old → size d ≤ size old →
  label_total size (<[m:=d]> labels) univ ≤ label_total size labels univ.
Proof.
  unfold label_total. intros Hold Hlt. induction univ as [|x univ IH]; [done|].
  simpl. destruct (decide (m = x)) as [->|Hne].
  - rewrite lookup_insert_eq, Hold. simpl. lia.
  - rewrite lookup_insert_ne by done. lia.
Qed.

Lemma label_total_insert_lt labels univ m d old :
  m ∈ univ → labels !! m = Some old → size d < size old →
  label_total size (<[m:=d]> labels) univ < label_total size labels univ.
Proof.
  unfold label_total. intros Hin Hold Hlt. induction univ as [|x univ IH].
  - by apply elem_of_nil in Hin.
  - simpl.
    assert (size d ≤ size old) as Hle' by lia.
    pose proof (label_total_insert_le labels univ m d old Hold Hle') as Hle.
    unfold label_total in Hle.
    destruct (decide (m = x)) as [->|Hne].
    + rewrite lookup_insert_eq, Hold. simpl. lia.
    + rewrite lookup_insert_ne by done.
      apply elem_of_cons in Hin as [?|Hin]; [done|].
      specialize (IH Hin). lia.
Qed.

End measures.

(** ** assignDepth: one turn of the loop, and termination *)

Lemma depth_step_cases g s m d rest :
  Depth.queue s = (m, d) :: rest →
  (∃ old, Depth.depth s !! m = Some old ∧ old ≤ d ∧
          Depth.step g s = Some (Depth.mkState (Depth.depth s) rest))
  ∨ ((∀ old, Depth.depth s !! m = Some old → d < old) ∧
     Depth.step g s =
       Some (Depth.mkState (<[m:=d]> (Depth.depth s))
               (reverse ((., d + 1) <$> blockTargets (blockOf g m)) ++ rest))).
Proof.
  intros Hq. unfold Depth.step, Depth.assignDepthToModule. rewrite Hq. simpl.
  destruct (Depth.depth s !! m) as [old|] eqn:Hold.
  - destruct (decide (old ≤ d)) as [Hle|Hgt].
    + left. exists old. done.
    + right. split; [intros ? [= <-]; lia|].
      by rewrite assignDepthToDependencyBlock_pushes.
  - right. split; [done|]. by rewrite assignDepthToDependencyBlock_pushes.
Qed.

Lemma depth_loop_unfold g fuel s s' :
  Depth.step g s = Some s' → Depth.loop g (S fuel) s = Depth.loop g fuel s'.
Proof.
  unfold Depth.step. simpl. destruct (Depth.queue s) as [|[m d] rest] eqn:Hq; [done|].
  unfold Depth.step. rewrite Hq. by intros [= <-].
Qed.

Lemma depth_loop_terminates g (univ : list ModuleRef) :
  (∀ m n, edge g m n → n ∈ univ) →
  ∀ s, Forall (λ p, p.1 ∈ univ) (Depth.queue s) →
  ∃ fuel s', Depth.loop g fuel s = Some s' ∧ Depth.queue s' = [].
Proof.
  intros Hclosed.
  cut (∀ u t len s,
          unlabelled (Depth.depth s) univ = u →
          label_total id (Depth.depth s) univ = t →
          length (Depth.queue s) = len →
          Forall (λ p, p.1 ∈ univ) (Depth.queue s) →
          ∃ fuel s', Depth.loop g fuel s = Some s' ∧ Depth.queue s' = []).
  { intros H s Hs. by eapply H. }
  induction u as [u IHu] using lt_wf_ind.
  induction t as [t IHt] using lt_wf_ind.
  induction len as [|len IHlen]; intros s Hu Ht Hlen Hall.
  - exists 0, s. destruct (Depth.queue s) eqn:Hq; [|done]. simpl. by rewrite Hq.
  - destruct (Depth.queue s) as [|[m d] rest] eqn:Hq; [done|].
    apply Forall_cons in Hall as [Hm Hrest]. simpl in Hm, Hlen.
    assert (Hpush : Forall (λ p : ModuleRef * nat, p.1 ∈ univ)
              (reverse ((., d + 1) <$> blockTargets (blockOf g m)) ++ rest)).
    { apply Forall_app. split; [|done]. apply Forall_forall. intros [n e] Hn.
      apply elem_of_reverse, list_elem_of_fmap in Hn as (n' & [= -> ->] & Hn').
      simpl. by eapply Hclosed. }
    destruct (depth_step_cases g s m d rest Hq)
      as [(old & Hold & Hle & Hstep)|[Hnew Hstep]].
    + destruct (IHlen (Depth.mkState (Depth.depth s) rest)) as (fuel & s' & Hrun & Hend);
        [done|done|simpl; lia|done|].
      exists (S fuel), s'. by rewrite (depth_loop_unfold _ _ _ _ Hstep).
    + set (s1 := Depth.mkState (<[m:=d]> (Depth.depth s))
                   (reverse ((., d + 1) <$> blockTargets (blockOf g m)) ++ rest)) in *.
      assert (∃ fuel s', Depth.loop g fuel s1 = Some s' ∧ Depth.queue s' = [])
        as (fuel & s' & Hrun & Hend).
      { destruct (Depth.depth s !! m) as [old|] eqn:Hold.
        - specialize (Hnew old eq_refl).
          apply (IHt (label_total id (Depth.depth s1) univ)) with (len := length (Depth.queue s1));
            [|simpl|done|done|done].
          + rewrite <- Ht. by eapply (label_total_insert_lt id).
          + rewrite <- Hu. by eapply unlabelled_insert_same.
        - apply (IHu (unlabelled (Depth.depth s1) univ))
            with (t := label_total id (Depth.depth s1) univ) (len := length (Depth.queue s1));
            [|done|done|done|done].
          rewrite <- Hu. by eapply unlabelled_insert_lt. }
      exists (S fuel), s'. by rewrite (depth_loop_unfold _ _ _ _ Hstep).
Qed.

(** ** assignDepth: the labelling invariant *)

Lemma depth_covered_step g s s' n b :
  Depth.step g s = Some s' → depth_covered s n b → depth_covered s' n b.
Proof.
  intros Hstep Hcov.
  destruct (Depth.queue s) as [|[m d] rest] eqn:Hq.
  { unfold Depth.step in Hstep. by rewrite Hq in Hstep. }
  destruct (depth_step_cases g s m d rest Hq)
    as [(old & Hold & Hle & Hstep')|[Hnew Hstep']];
    rewrite Hstep' in Hstep; injection Hstep as <-.
  - destruct Hcov as [(d' & Hd' & Hb)|(e & He & Hb)].
    + left. by exists d'.
    + rewrite Hq in He. apply elem_of_cons in He as [[= -> ->]|He].
      * left. exists old. split; [done|lia].
      * right. by exists e.
  - destruct Hcov as [(d' & Hd' & Hb)|(e & He & Hb)].
    + left. destruct (decide (n = m)) as [->|Hne].
      * exists d. simpl. rewrite lookup_insert_eq. split; [done|].
        specialize (Hnew d' Hd'). lia.
      * exists d'. simpl. by rewrite lookup_insert_ne.
    + rewrite Hq in He. apply elem_of_cons in He as [[= -> ->]|He].
      * left. exists d. simpl. by rewrite lookup_insert_eq.
      * right. exists e. split; [|done]. simpl. apply elem_of_app. by right.
Qed.

Lemma depth_inv_step g root s s' :
  Depth.step g s = Some s' → depth_inv g root s → depth_inv g root s'.
Proof.
  intros Hstep [Hroot Hclosed Hsound Hqueue].
  pose proof (depth_covered_step g s s') as Hcov.
  destruct (Depth.queue s) as [|[m d] rest] eqn:Hq.
  { unfold Depth.step in Hstep. by rewrite Hq in Hstep. }
  assert (Hmd : path g root m d) by (apply Hqueue; left).
  destruct (depth_step_cases g s m d rest Hq)
    as [(old & Hold & Hle & Hstep')|[Hnew Hstep']];
    rewrite Hstep' in Hstep; injection Hstep as <-;
    rewrite Hstep' in Hcov.
  - split; simpl.
    + by apply Hcov.
    + intros m' d' n Hm' He. apply Hcov; [done|]. by eapply Hclosed.
    + done.
    + intros m' d' Hin. apply Hqueue. by right.
  - split; simpl.
    + by apply Hcov.
    + intros m' d' n Hm' He. destruct (decide (m' = m)) as [->|Hne].
      * rewrite lookup_insert_eq in Hm'. injection Hm' as <-.
        right. exists (d + 1). split; [|done]. simpl.
        apply elem_of_app. left. apply elem_of_reverse, list_elem_of_fmap.
        by exists n.
      * rewrite lookup_insert_ne in Hm' by done.
        apply Hcov; [done|]. by eapply Hclosed.
    + intros m' d' Hm'. destruct (decide (m' = m)) as [->|Hne].
      * rewrite lookup_insert_eq in Hm'. by injection Hm' as <-.
      * rewrite lookup_insert_ne in Hm' by done. by apply Hsound.
    + intros m' d' Hin. apply elem_of_app in Hin as [Hin|Hin].
      * apply elem_of_reverse, list_elem_of_fmap in Hin as (n & [= -> ->] & Hn).
        replace (d + 1) with (S d) by lia. by eapply path_step.
      * apply Hqueue. by right.
Qed.

Lemma depth_loop_inv g root fuel s s' :
  Depth.loop g fuel s = Some s' → depth_inv g root s →
  depth_inv g root s' ∧ Depth.queue s' = [].
Proof.
  revert s. induction fuel as [|fuel IH]; intros s Hrun Hinv.
  - simpl in Hrun. destruct (Depth.queue s) eqn:Hq; [|done].
    injection Hrun as <-. done.
  - destruct (Depth.step g s) as [s1|] eqn:Hstep.
    + rewrite (depth_loop_unfold _ _ _ _ Hstep) in Hrun.
      eapply IH; [done|]. by eapply depth_inv_step.
    + unfold Depth.step in Hstep. simpl in Hrun.
      destruct (Depth.queue s) as [|[m d] rest] eqn:Hq; [|done].
      injection Hrun as <-. done.
Qed.

(** With the work list drained, every walk from the root bounds the depth
    of its end point from above. *)
Lemma depth_inv_final_bound g root s m k :
  depth_inv g root s → Depth.queue s = [] → path g root m k →
  ∃ d, Depth.depth s !! m = Some d ∧ d ≤ k.
Proof.
  intros [Hroot Hclosed _ _] Hq Hpath.
  assert (Hleft : ∀ n b, depth_covered s n b → ∃ d, Depth.depth s !! n = Some d ∧ d ≤ b).
  { intros n b [H|(e & He & _)]; [done|]. rewrite Hq in He. by apply elem_of_nil in He. }
  induction Hpath as [|b c k Hab IH Hbc].
  - by apply Hleft.
  - destruct IH as (d & Hd & Hle).
    destruct (Hleft c (d + 1) (Hclosed b d c Hd Hbc)) as (d' & Hd' & Hle').
    exists d'. split; [done|lia].
Qed.

(** A depth a module carries is only ever replaced by a smaller one. *)
Lemma depth_step_lowers g s s' m d :
  Depth.step g s = Some s' → Depth.depth s !! m = Some d →
  ∃ d', Depth.depth s' !! m = Some d' ∧ d' ≤ d.
Proof.
  intros Hstep Hm.
  destruct (Depth.queue s) as [|[n e] rest] eqn:Hq.
  { unfold Depth.step in Hstep. by rewrite Hq in Hstep. }
  destruct (depth_step_cases g s n e rest Hq)
    as [(old & Hold & Hle & Hstep')|[Hnew Hstep']];
    rewrite Hstep' in Hstep; injection Hstep as <-; simpl.
  - by exists d.
  - destruct (decide (n = m)) as [->|Hne].
    + rewrite lookup_insert_eq. exists e. split; [done|]. specialize (Hnew d Hm). lia.
    + rewrite lookup_insert_ne by done. by exists d.
Qed.

Lemma depth_loop_general g fuel : ∀ s s',
  Depth.loop g fuel s = Some s' →
  Depth.queue s' = []
  ∧ (∀ n b, depth_covered s n b → depth_covered s' n b)
  ∧ (∀ m d, Depth.depth s !! m = Some d → ∃ d', Depth.depth s' !! m = Some d' ∧ d' ≤ d).
Proof.
  induction fuel as [|fuel IH]; intros s s' Hrun.
  - simpl in Hrun. destruct (Depth.queue s) eqn:Hq; [|done].
    injection Hrun as <-. split; [done|]. split; [done|]. intros m d Hm. by exists d.
  - destruct (Depth.step g s) as [s1|] eqn:Hstep.
    + rewrite (depth_loop_unfold _ _ _ _ Hstep) in Hrun.
      destruct (IH s1 s' Hrun) as (Hq & Hcov & Hlow). split; [done|]. split.
      * intros n b Hc. apply Hcov. by eapply depth_covered_step.
      * intros m d Hm. destruct (depth_step_lowers g s s1 m d Hstep Hm) as (d1 & Hd1 & Hle1).
        destruct (Hlow m d1 Hd1) as (d' & Hd' & Hle'). exists d'. split; [done|lia].
    + unfold Depth.step in Hstep. simpl in Hrun.
      destruct (Depth.queue s) as [|[m0 d0] rest] eqn:Hq; [|done].
      injection Hrun as <-. split; [done|]. split; [done|]. intros m d Hm. by exists d.
Qed.

(** ** assignDepth: results *)

Lemma depth_fresh_inv g root :
  depth_inv g root (Depth.mkState ∅ [(root, 0)]).
Proof.
  split; simpl.
  - right. exists 0. split; [left|done].
  - intros m d n Hm. by rewrite lookup_empty in Hm.
  - intros m d Hm. by rewrite lookup_empty in Hm.
  - intros m d Hin. apply list_elem_of_singleton in Hin as [= -> ->]. apply path_refl.
Qed.

(** C1 (as amended): on a module graph, cyclic or not, whose modules carry
    no depth yet, [assignDepth(root)] terminates, the root gets depth 0 and
    every module reachable from the root through dependencies, variables'
    dependencies and the dependencies of nested blocks gets the least number
    of edges of a path from the root as its depth.  On a graph that carries
    depths already the call terminates as well and the root gets depth 0,
    and a module that had a depth ends with that depth or a smaller one. *)
Theorem assignDepth_fresh_is_shortest_distance (g : gmap ModuleRef DependenciesBlock)
    (root : ModuleRef) :
  (∃ fuel depths,
      Depth.assignDepth g fuel root ∅ = Some depths ∧
      depths !! root = Some 0 ∧
      ∀ m, reachable g root m → ∃ k, depths !! m = Some k ∧ distance g root m k)
  ∧ (∀ depths0, ∃ fuel depths,
      Depth.assignDepth g fuel root depths0 = Some depths ∧
      depths !! root = Some 0 ∧
      ∀ m d, depths0 !! m = Some d → ∃ d', depths !! m = Some d' ∧ d' ≤ d).
Proof.
  assert (Hterm : ∀ depths0, ∃ fuel s',
            Depth.loop g fuel (Depth.mkState depths0 [(root, 0)]) = Some s').
  { intros depths0.
    destruct (depth_loop_terminates g (universe g root))
      with (s := Depth.mkState depths0 [(root, 0)]) as (fuel & s' & Hrun & _).
    - intros m n. apply edge_in_universe.
    - simpl. apply Forall_singleton. simpl. unfold universe. left.
    - by exists fuel, s'. }
  split.
  - destruct (Hterm ∅) as (fuel & s' & Hrun).
    destruct (depth_loop_inv g root fuel _ _ Hrun (depth_fresh_inv g root)) as [Hinv Hq].
    exists fuel, (Depth.depth s'). unfold Depth.assignDepth. rewrite Hrun. simpl.
    split; [done|]. split.
    + destruct (depth_inv_final_bound g root s' root 0 Hinv Hq (path_refl g root))
        as (d & Hd & Hle).
      rewrite Hd. f_equal. lia.
    + intros m [k Hk].
      destruct (depth_inv_final_bound g root s' m k Hinv Hq Hk) as (d & Hd & _).
      exists d. split; [done|]. split.
      * by apply (depth_inv_sound _ _ _ Hinv).
      * intros k' Hk'.
        destruct (depth_inv_final_bound g root s' m k' Hinv Hq Hk') as (d' & Hd' & Hle).
        rewrite Hd in Hd'. injection Hd' as <-. done.
  - intros depths0. destruct (Hterm depths0) as (fuel & s' & Hrun).
    destruct (depth_loop_general g fuel _ _ Hrun) as (Hq & Hcov & Hlow).
    exists fuel, (Depth.depth s'). unfold Depth.assignDepth. rewrite Hrun. simpl.
    split; [done|]. split; [|done].
    destruct (Hcov root 0) as [(d & Hd & Hle)|(e & He & _)].
    + right. exists 0. split; [left|done].
    + rewrite Hd. f_equal. lia.
    + rewrite Hq in He. by apply elem_of_nil in He.
Qed.

(** C1 as stated fails on a graph an earlier call has labelled: [seal] runs
    [assignDepth] for every entry in turn, and the second run leaves module
    [3] at the depth 1 it got from the first entry, although the shortest
    path from the second root has 2 edges. *)
Lemma assignDepth_second_entry_not_distance_from_root :
  ∃ depths1 depths2,
    Depth.assignDepth two_entry_graph 10 0 ∅ = Some depths1 ∧
    Depth.assignDepth two_entry_graph 10 1 depths1 = Some depths2 ∧
    distance two_entry_graph 1 3 2 ∧
    depths2 !! 3 = Some 1 ∧ depths2 !! 3 ≠ Some 2.
Proof.
  eexists _, _. split; [vm_compute; reflexivity|].
  split; [vm_compute; reflexivity|]. split; [|split; [by vm_compute|by vm_compute]].
  split.
  - apply (path_step _ _ 2); [apply (path_step _ _ 1); [apply path_refl|]|];
      unfold edge; vm_compute; set_solver.
  - intros k' Hk'. destruct k' as [|[|k']]; [| |lia].
    + inversion Hk'.
    + inversion Hk' as [|b c k Hb He]; subst. inversion Hb; subst.
      unfold edge in He.
      assert (blockTargets (blockOf two_entry_graph 1) = [2]) as Heq by (vm_compute; reflexivity).
      rewrite Heq in He. by apply list_elem_of_singleton in He.
Qed.

(** ** assignIndex: what one call pushes *)

Lemma foldl_snoc {A} (l acc : list A) : foldl (λ acc d, acc ++ [d]) acc l = acc ++ l.
Proof.
  revert acc. induction l as [|x l IH]; intros acc; simpl.
  - by rewrite app_nil_r.
  - by rewrite IH, <- app_assoc.
Qed.

Lemma foldl_push_reverse {A B} (f : A → B) (l : list A) (q : list B) :
  foldl (λ acc x, f x :: acc) q (reverse l) = (f <$> l) ++ q.
Proof.
  revert q. induction l as [|x l IH]; intros q; [done|].
  rewrite reverse_cons, foldl_app. simpl. by rewrite IH.
Qed.

Lemma iterationBlockVariable_collect vs (acc : list Dependency) :
  iterationBlockVariable vs (λ d a, a ++ [d]) acc = acc ++ (vs ≫= var_dependencies).
Proof.
  unfold iterationBlockVariable. cbv beta.
  revert acc. induction vs as [|v vs IH]; intros acc; simpl.
  - by rewrite app_nil_r.
  - rewrite foldl_snoc, IH. by rewrite <- app_assoc.
Qed.

Lemma allDependencies_eq vs ds :
  Index.allDependencies vs ds = (vs ≫= var_dependencies) ++ ds.
Proof.
  unfold Index.allDependencies, iterationOfArrayCallback. cbv beta.
  by rewrite foldl_snoc, iterationBlockVariable_collect.
Qed.

Lemma assignIndexToDependencyBlock_pushes b q :
  Index.assignIndexToDependencyBlock b q = index_block_tasks b ++ q.
Proof.
  destruct b as [vs ds bs]. unfold Index.assignIndexToDependencyBlock, index_block_tasks.
  by rewrite !foldl_push_reverse, allDependencies_eq, <- app_assoc.
Qed.

Lemma varTargets_eq vs : varTargets vs = depTargets (vs ≫= var_dependencies).
Proof.
  unfold varTargets, depTargets. induction vs as [|v vs IH]; [done|].
  by rewrite !bind_cons, omap_app, IH.
Qed.

Lemma index_block_tasks_targets b n :
  n ∈ blockTargets b ↔ index_pending n (index_block_tasks b).
Proof.
  destruct b as [vs ds bs]. unfold index_pending. simpl.
  rewrite varTargets_eq, app_assoc. unfold depTargets. rewrite <- omap_app.
  rewrite elem_of_app, list_elem_of_omap, list_elem_of_bind. split.
  - intros [(d & Hd & Hn)|(b & Hn & Hb)].
    + exists (Index.EnterDependency d). split.
      * apply elem_of_app. left. by apply list_elem_of_fmap_2.
      * simpl. rewrite Hn. simpl. left.
    + exists (Index.EnterBlock b). split; [|done].
      apply elem_of_app. right. by apply list_elem_of_fmap_2.
  - intros (t & Ht & Hn). apply elem_of_app in Ht as [Ht|Ht];
      apply list_elem_of_fmap in Ht as (x & -> & Hx); simpl in Hn.
    + left. exists x. split; [done|].
      destruct (dep_module x) as [m|]; simpl in Hn.
      * apply list_elem_of_singleton in Hn. by subst.
      * by apply elem_of_nil in Hn.
    + right. by exists x.
Qed.

(** ** assignIndex: termination *)

Lemma index_dependency_tasks_weight (l : list Dependency) :
  sum_list_with index_task_weight (Index.EnterDependency <$> l) = 2 * length l.
Proof. induction l as [|d l IH]; [done|]. rewrite fmap_cons. simpl in *. rewrite IH. lia. Qed.

Lemma index_nested_tasks_weight (bs : list DependenciesBlock) :
  sum_list_with index_task_weight (Index.EnterBlock <$> bs)
  = sum_list_with index_block_weight bs.
Proof. induction bs as [|b bs IH]; [done|]. rewrite fmap_cons. simpl in *. by rewrite IH. Qed.

Lemma index_block_tasks_weight b :
  S (index_queue_weight (index_block_tasks b)) = index_block_weight b.
Proof.
  destruct b as [vs ds bs]. unfold index_queue_weight.
  cbn [index_block_tasks index_block_weight].
  rewrite sum_list_with_app, index_dependency_tasks_weight, index_nested_tasks_weight.
  lia.
Qed.

Lemma index_targets_in_pushes univ b q :
  (∀ n, n ∈ blockTargets b → n ∈ univ) →
  index_targets_in univ q →
  index_targets_in univ (index_block_tasks b ++ q).
Proof.
  intros Hb Hq t n Ht Hn. apply elem_of_app in Ht as [Ht|Ht].
  - apply Hb, index_block_tasks_targets. by exists t.
  - by eapply Hq.
Qed.

Lemma index_loop_unfold g fuel s s' :
  Index.step g s = Some s' → Index.loop g (S fuel) s = Index.loop g fuel s'.
Proof. intros H. simpl. by rewrite H. Qed.

Lemma index_loop_done g fuel s :
  Index.queue s = [] → Index.loop g fuel s = Some s.
Proof.
  intros H. assert (Index.step g s = None) as Hs by (unfold Index.step; by rewrite H).
  destruct fuel; simpl; by rewrite Hs.
Qed.

Lemma index_step_measure g (univ : list ModuleRef) s t rest :
  (∀ m n, edge g m n → n ∈ univ) →
  Index.queue s = t :: rest →
  index_targets_in univ (Index.queue s) →
  let s' := Index.run g t (Index.with_queue s rest) in
  Index.step g s = Some s' ∧
  index_targets_in univ (Index.queue s') ∧
  (unlabelled (Index.index s') univ < unlabelled (Index.index s) univ
   ∨ (unlabelled (Index.index s') univ = unlabelled (Index.index s) univ
      ∧ index_queue_weight (Index.queue s') < index_queue_weight (Index.queue s))).
Proof.
  intros Hclosed Hq Hin s'. split; [unfold Index.step; by rewrite Hq|].
  rewrite Hq in Hin |- *.
  assert (Hrest : index_targets_in univ rest).
  { intros t' n Ht' Hn. eapply Hin; [right; exact Ht'|done]. }
  assert (Ht : ∀ n, n ∈ index_task_targets t → n ∈ univ).
  { intros n Hn. eapply Hin; [left|done]. }
  subst s'. unfold index_queue_weight.
  destruct t as [m|m|b|d]; simpl.
  - unfold Index.assignIndexToModule. simpl.
    destruct (Index.index s !! m) as [old|] eqn:Hm; simpl.
    + split; [done|]. right. split; [done|lia].
    + rewrite assignIndexToDependencyBlock_pushes. split.
      * apply index_targets_in_pushes.
        -- intros n Hn. by eapply Hclosed.
        -- intros t' n Ht' Hn. apply elem_of_cons in Ht' as [->|Ht'].
           ++ by apply elem_of_nil in Hn.
           ++ by eapply Hrest.
      * left. apply unlabelled_insert_lt; [|done]. apply Ht. simpl. left.
  - split; [done|]. right. split; [done|lia].
  - rewrite assignIndexToDependencyBlock_pushes. split.
    + apply index_targets_in_pushes; [|done]. intros n Hn. by apply Ht.
    + right. split; [done|]. rewrite sum_list_with_app.
      pose proof (index_block_tasks_weight b) as Hw. unfold index_queue_weight in Hw. lia.
  - unfold Index.assignIndexToDependency. simpl in Ht.
    destruct (dep_module d) as [m|] eqn:Hd; simpl.
    + split.
      * intros t' n Ht' Hn. apply elem_of_cons in Ht' as [->|Ht'].
        -- simpl in Hn. apply Ht. by simpl.
        -- by eapply Hrest.
      * right. split; [done|lia].
    + split; [done|]. right. split; [done|lia].
Qed.

Lemma index_loop_terminates g (univ : list ModuleRef) :
  (∀ m n, edge g m n → n ∈ univ) →
  ∀ s, index_targets_in univ (Index.queue s) →
  ∃ fuel s', Index.loop g fuel s = Some s' ∧ Index.queue s' = [].
Proof.
  intros Hclosed.
  cut (∀ u w s,
          unlabelled (Index.index s) univ = u →
          index_queue_weight (Index.queue s) = w →
          index_targets_in univ (Index.queue s) →
          ∃ fuel s', Index.loop g fuel s = Some s' ∧ Index.queue s' = []).
  { intros H s Hs. by eapply H. }
  induction u as [u IHu] using lt_wf_ind.
  induction w as [w IHw] using lt_wf_ind.
  intros s Hu Hw Hin.
  destruct (Index.queue s) as [|t rest] eqn:Hq.
  { exists 0, s. split; [by apply index_loop_done|done]. }
  rewrite <- Hq in Hin.
  destruct (index_step_measure g univ s t rest Hclosed Hq Hin) as (Hstep & Hin' & Hdec).
  rewrite <- Hq in Hw.
  set (s1 := Index.run g t (Index.with_queue s rest)) in *.
  assert (∃ fuel s', Index.loop g fuel s1 = Some s' ∧ Index.queue s' = [])
    as (fuel & s' & Hrun & Hend).
  { destruct Hdec as [Hlt|[Heq Hlt]].
    - apply (IHu (unlabelled (Index.index s1) univ))
        with (w := index_queue_weight (Index.queue s1)); [lia|done|done|done].
    - apply (IHw (index_queue_weight (Index.queue s1))); [lia|lia|done|done]. }
  exists (S fuel), s'. by rewrite (index_loop_unfold _ _ _ _ Hstep).
Qed.

(** ** assignIndex: the labelling invariant *)

Lemma index_count_leave_pushes m b : index_count_leave m (index_block_tasks b) = 0.
Proof.
  destruct b as [vs ds bs]. unfold index_count_leave. cbn [index_block_tasks].
  rewrite sum_list_with_app.
  generalize ((vs ≫= var_dependencies) ++ ds). intros l.
  assert (∀ A (f : A → Index.Task) (xs : list A),
            (∀ x, match f x with
                  | Index.LeaveModule m' => if decide (m' = m) then 1 else 0
                  | _ => 0
                  end = 0) →
            sum_list_with (λ t, match t with
                                | Index.LeaveModule m' => if decide (m' = m) then 1 else 0
                                | _ => 0
                                end) (f <$> xs) = 0) as Hzero.
  { intros A f xs Hf. induction xs as [|x xs IH]; [done|].
    rewrite fmap_cons. simpl in *. by rewrite Hf, IH. }
  by rewrite !Hzero.
Qed.

Lemma index_pending_app n q1 q2 :
  index_pending n (q1 ++ q2) ↔ index_pending n q1 ∨ index_pending n q2.
Proof.
  unfold index_pending. split.
  - intros (t & Ht & Hn). apply elem_of_app in Ht as [Ht|Ht]; [left|right]; by exists t.
  - intros [(t & Ht & Hn)|(t & Ht & Hn)]; exists t; (split; [|done]);
      apply elem_of_app; [by left|by right].
Qed.

Lemma index_pending_cons n t q :
  index_pending n (t :: q) ↔ n ∈ index_task_targets t ∨ index_pending n q.
Proof.
  unfold index_pending. split.
  - intros (t' & Ht & Hn). apply elem_of_cons in Ht as [->|Ht]; [by left|right; by exists t'].
  - intros [Hn|(t' & Ht & Hn)]; [exists t|exists t']; (split; [|done]); [left|by right].
Qed.

Lemma index_covered_step g s s' n :
  Index.step g s = Some s' → index_covered s n → index_covered s' n.
Proof.
  unfold Index.step. destruct (Index.queue s) as [|t rest] eqn:Hq; [done|].
  intros [= <-]. unfold index_covered. rewrite Hq, index_pending_cons.
  destruct t as [m|m|b|d]; simpl.
  - unfold Index.assignIndexToModule. simpl.
    destruct (Index.index s !! m) as [old|] eqn:Hm; simpl.
    + intros [Hl|[Hn|Hp]]; [by left| |by right].
      apply list_elem_of_singleton in Hn as ->. left. by rewrite Hm.
    + rewrite assignIndexToDependencyBlock_pushes, index_pending_app, index_pending_cons.
      intros [Hl|[Hn|Hp]].
      * left. destruct (decide (n = m)) as [->|Hne].
        -- by rewrite lookup_insert_eq.
        -- by rewrite lookup_insert_ne.
      * apply list_elem_of_singleton in Hn as ->. left. by rewrite lookup_insert_eq.
      * right. right. by right.
  - intros [Hl|[Hn|Hp]]; [by left|by apply elem_of_nil in Hn|by right].
  - rewrite assignIndexToDependencyBlock_pushes, index_pending_app.
    intros [Hl|[Hn|Hp]]; [by left| |right; by right].
    right. left. by apply index_block_tasks_targets.
  - unfold Index.assignIndexToDependency.
    destruct (dep_module d) as [m|] eqn:Hd; simpl.
    + rewrite index_pending_cons. simpl. tauto.
    + intros [Hl|[Hn|Hp]]; [by left|by apply elem_of_nil in Hn|by right].
Qed.

Lemma index_labelled_step g s s' n :
  Index.step g s = Some s' → is_Some (Index.index s' !! n) →
  is_Some (Index.index s !! n)
  ∨ (∃ rest, Index.queue s = Index.EnterModule n :: rest ∧ Index.index s !! n = None).
Proof.
  unfold Index.step. destruct (Index.queue s) as [|t rest] eqn:Hq; [done|].
  intros [= <-]. destruct t as [m|m|b|d]; simpl; try by left.
  - unfold Index.assignIndexToModule. simpl.
    destruct (Index.index s !! m) as [old|] eqn:Hm; simpl; [by left|].
    destruct (decide (n = m)) as [->|Hne].
    + intros _. right. by exists rest.
    + rewrite lookup_insert_ne by done. by left.
  - unfold Index.assignIndexToDependency. destruct (dep_module d); simpl; by left.
Qed.

Lemma index_closed_step g s s' :
  Index.step g s = Some s' → index_closed g s → index_closed g s'.
Proof.
  intros Hstep Hclosed m n Hm He.
  destruct (index_labelled_step g s s' m Hstep Hm) as [Hold|(rest & Hq & Hnone)].
  - eapply index_covered_step; [done|]. by eapply Hclosed.
  - unfold Index.step in Hstep. rewrite Hq in Hstep. injection Hstep as <-.
    simpl. unfold Index.assignIndexToModule. simpl. rewrite Hnone.
    right. simpl. rewrite assignIndexToDependencyBlock_pushes, index_pending_app.
    left. by apply index_block_tasks_targets.
Qed.

Lemma index_counted_step g i0 s s' :
  Index.step g s = Some s' → index_counted i0 s → index_counted i0 s'.
Proof.
  intros Hstep [Hext Honce Hleave]. split.
  - intros m' Hm'. specialize (Hext m' Hm').
    unfold Index.step in Hstep. destruct (Index.queue s) as [|t rest] eqn:Hq; [done|].
    injection Hstep as <-. destruct t as [m|m|b|d]; simpl; try done.
    + unfold Index.assignIndexToModule. simpl.
      destruct (Index.index s !! m) as [old|] eqn:Hm; simpl; [done|].
      destruct (decide (m = m')) as [->|Hne].
      * by rewrite lookup_insert_eq.
      * by rewrite lookup_insert_ne.
    + unfold Index.assignIndexToDependency. by destruct (dep_module d).
  - intros m'. specialize (Honce m').
    assert (Hext' : Index.index s !! m' = None → i0 !! m' = None).
    { intros Hn. destruct (i0 !! m') eqn:Hi; [|done].
      destruct (Hext m') as [x Hx]; [by rewrite Hi|congruence]. }
    unfold Index.step in Hstep. destruct (Index.queue s) as [|t rest] eqn:Hq; [done|].
    injection Hstep as <-. destruct t as [m|m|b|d]; simpl; try done.
    + unfold Index.assignIndexToModule. simpl.
      destruct (Index.index s !! m) as [old|] eqn:Hm; simpl; [done|].
      unfold Index.index_writes in *. rewrite sum_list_with_app. simpl.
      destruct (decide (m = m')) as [->|Hne].
      * rewrite lookup_insert_eq. rewrite Hm in Honce. rewrite (Hext' Hm). lia.
      * rewrite lookup_insert_ne by done. lia.
    + unfold Index.index_writes in *. rewrite sum_list_with_app. simpl. lia.
    + unfold Index.assignIndexToDependency. by destruct (dep_module d).
  - intros m'. specialize (Hleave m').
    unfold Index.step in Hstep. destruct (Index.queue s) as [|t rest] eqn:Hq; [done|].
    injection Hstep as <-. unfold index_count_leave in Hleave. simpl in Hleave.
    destruct t as [m|m|b|d]; simpl.
    + unfold Index.assignIndexToModule. simpl.
      destruct (Index.index s !! m) as [old|] eqn:Hm; simpl; [done|].
      rewrite assignIndexToDependencyBlock_pushes.
      unfold Index.index_writes, Index.index2_writes in *.
      rewrite !sum_list_with_app. simpl.
      pose proof (index_count_leave_pushes m' (blockOf g m)) as Hz.
      unfold index_count_leave in *. rewrite sum_list_with_app, Hz. simpl.
      destruct (decide (m = m')); lia.
    + unfold Index.index_writes, Index.index2_writes in *.
      rewrite !sum_list_with_app. simpl.
      destruct (decide (m = m')); unfold index_count_leave; lia.
    + rewrite assignIndexToDependencyBlock_pushes.
      pose proof (index_count_leave_pushes m' b) as Hz.
      unfold index_count_leave in *. rewrite sum_list_with_app, Hz. simpl. lia.
    + unfold Index.assignIndexToDependency. destruct (dep_module d); simpl;
        unfold index_count_leave; simpl; lia.
Qed.

Lemma index_loop_inv g i0 fuel s s' :
  Index.loop g fuel s = Some s' →
  Index.queue s' = []
  ∧ (index_closed g s → index_closed g s')
  ∧ (index_counted i0 s → index_counted i0 s')
  ∧ (∀ n, index_covered s n → index_covered s' n).
Proof.
  revert s. induction fuel as [|fuel IH]; intros s Hrun.
  - simpl in Hrun. destruct (Index.step g s) eqn:Hstep; [done|].
    injection Hrun as <-. unfold Index.step in Hstep.
    destruct (Index.queue s); done.
  - destruct (Index.step g s) as [s1|] eqn:Hstep.
    + rewrite (index_loop_unfold _ _ _ _ Hstep) in Hrun.
      destruct (IH s1 Hrun) as (Hq & Hclosed & Hcount & Hcov).
      split; [done|]. split; [|split].
      * intros H. apply Hclosed. by eapply index_closed_step.
      * intros H. apply Hcount. by eapply index_counted_step.
      * intros n H. apply Hcov. by eapply index_covered_step.
    + simpl in Hrun. rewrite Hstep in Hrun. injection Hrun as <-.
      unfold Index.step in Hstep. destruct (Index.queue s); done.
Qed.

Lemma index_final_reachable g s root m :
  index_closed g s → Index.queue s = [] → is_Some (Index.index s !! root) →
  reachable g root m → is_Some (Index.index s !! m).
Proof.
  intros Hclosed Hq Hroot [k Hpath].
  induction Hpath as [|b c k Hab IH Hbc]; [done|].
  destruct (Hclosed b c IH Hbc) as [H|(t & Ht & _)]; [done|].
  rewrite Hq in Ht. by apply elem_of_nil in Ht.
Qed.

(** ** assignIndex: results *)

Lemma index_run_general g root l :
  ∃ fuel s',
    Index.loop g fuel (index_start root l) = Some s' ∧
    Index.queue s' = [] ∧
    index_counted (Index.l_index l) s' ∧
    is_Some (Index.index s' !! root) ∧
    (index_closed g (index_start root l) → index_closed g s').
Proof.
  destruct (index_loop_terminates g (universe g root)) with (s := index_start root l)
    as (fuel & s' & Hrun & Hq).
  { intros m n. apply edge_in_universe. }
  { intros t n Ht Hn. simpl in Ht. apply list_elem_of_singleton in Ht as ->.
    simpl in Hn. apply list_elem_of_singleton in Hn as ->. unfold universe. left. }
  destruct (index_loop_inv g (Index.l_index l) fuel _ _ Hrun) as (_ & Hclosed & Hcount & Hcov).
  exists fuel, s'. split; [done|]. split; [done|]. split; [|split; [|done]].
  - apply Hcount. split; simpl.
    + done.
    + intros m. by destruct (Index.l_index l !! m).
    + done.
  - destruct (Hcov root) as [H|(t & Ht & _)]; [|done|].
    + right. exists (Index.EnterModule root). simpl. split; left.
    + rewrite Hq in Ht. by apply elem_of_nil in Ht.
Qed.

Lemma index_second_run g root l fuel :
  is_Some (Index.l_index l !! root) →
  Index.assignIndex g (S fuel) root l = Some (l, []).
Proof.
  intros [v Hv]. unfold Index.assignIndex.
  set (s0 := Index.mkState _ _ _ _ _ _).
  assert (Index.step g s0 = Some (Index.with_queue s0 [])) as Hstep.
  { unfold Index.step, s0. simpl. unfold Index.assignIndexToModule. simpl. by rewrite Hv. }
  rewrite (index_loop_unfold _ _ _ _ Hstep), index_loop_done by done.
  simpl. by destruct l.
Qed.

(** C9: [assignIndex] is idempotent over cyclic graphs.  A run from any
    labelling terminates and writes the [index] of a module exactly when the
    module had none before and has one afterwards, hence never twice, and
    writes its [index2] as often; on a graph without labels every module
    reachable from the root has its [index] and its [index2] written exactly
    once; and a second run on the labelled graph writes nothing and leaves
    every [index], every [index2] and both counters as they are. *)
Theorem assignIndex_once_and_idempotent (g : gmap ModuleRef DependenciesBlock)
    (root : ModuleRef) :
  (∀ l, ∃ fuel l1 tr,
      Index.assignIndex g fuel root l = Some (l1, tr) ∧
      (∀ m, Index.index2_writes m tr = Index.index_writes m tr ∧
            Index.index_writes m tr
            = match Index.l_index l1 !! m, Index.l_index l !! m with
              | Some _, None => 1
              | _, _ => 0
              end) ∧
      (∀ fuel2, Index.assignIndex g (S fuel2) root l1 = Some (l1, [])))
  ∧ (∀ index2 n1 n2, ∃ fuel l1 tr,
      Index.assignIndex g fuel root (Index.mkLabels ∅ index2 n1 n2) = Some (l1, tr) ∧
      ∀ m, reachable g root m →
           is_Some (Index.l_index l1 !! m) ∧
           Index.index_writes m tr = 1 ∧ Index.index2_writes m tr = 1).
Proof.
  split.
  - intros l. destruct (index_run_general g root l) as (fuel & s' & Hrun & Hq & Hcount & Hroot & _).
    exists fuel, (Index.labels_of s'), (Index.trace s').
    split; [unfold Index.assignIndex; fold (index_start root l); by rewrite Hrun|].
    split.
    + intros m. destruct Hcount as [_ Honce Hleave]. split.
      * specialize (Hleave m). rewrite Hq in Hleave. unfold index_count_leave in Hleave.
        simpl in Hleave. lia.
      * apply Honce.
    + intros fuel2. by apply index_second_run.
  - intros index2 n1 n2. set (l := Index.mkLabels ∅ index2 n1 n2).
    destruct (index_run_general g root l) as (fuel & s' & Hrun & Hq & Hcount & Hroot & Hclosed).
    exists fuel, (Index.labels_of s'), (Index.trace s').
    split; [unfold Index.assignIndex; fold (index_start root l); by rewrite Hrun|].
    intros m Hm. simpl.
    assert (is_Some (Index.index s' !! m)) as Hlab.
    { eapply index_final_reachable; [|done|done|done]. apply Hclosed.
      intros a b Ha. simpl in Ha. rewrite lookup_empty in Ha. by destruct Ha. }
    destruct Hcount as [_ Honce Hleave]. specialize (Honce m). specialize (Hleave m).
    simpl in Honce. rewrite lookup_empty in Honce. destruct Hlab as [v Hv].
    rewrite Hv in Honce. rewrite Hq in Hleave. unfold index_count_leave in Hleave.
    simpl in Hleave. split; [by rewrite Hv|]. split; lia.
Qed.

(** A cycle [0 → 1 → 2 → 0] with a second way [0 → 2] through a nested
    block: every module is written once, in the order of a depth-first
    walk. *)
Example assignIndex_on_a_cycle :
  Index.assignIndex
    {[ 0 := Block [] [dependencyOn 1] [Block [] [dependencyOn 2] []];
       1 := Block [] [dependencyOn 2] [];
       2 := Block [mkVariable [dependencyOn 0]] [] [] ]}
    40 0 (Index.mkLabels ∅ ∅ 0 0)
  = Some (Index.mkLabels {[0 := 0; 1 := 1; 2 := 2]} {[2 := 0; 1 := 1; 0 := 2]} 3 3,
          [Index.SetIndex 0 0; Index.SetIndex 1 1; Index.SetIndex 2 2;
           Index.SetIndex2 2 0; Index.SetIndex2 1 1; Index.SetIndex2 0 2]).
Proof. vm_compute. reflexivity. Qed.

(** ** applyModuleIds and checkConstraints *)

Lemma checkModuleIds_passes inherited modules :
  Ids.checkModuleIds inherited modules = Ids.Passed
  ↔ ∀ id, id ∈ modules → inherited (Ids.key id) = false.
Proof.
  induction modules as [|moduleId rest IH]; simpl.
  - split; [|done]. intros _ id Hid. by apply elem_of_nil in Hid.
  - destruct (inherited (Ids.key moduleId)) eqn:Hk.
    + split; [done|]. intros Hall. specialize (Hall moduleId ltac:(left)). congruence.
    + rewrite IH. split.
      * intros Hall id [->|Hid]%elem_of_cons; [done|by apply Hall].
      * intros Hall id Hid. apply Hall. by right.
Qed.

Lemma checkModuleIds_throws inherited before moduleId after :
  (∀ id, id ∈ before → inherited (Ids.key id) = false) →
  inherited (Ids.key moduleId) = true →
  Ids.checkModuleIds inherited (before ++ moduleId :: after)
  = Ids.Thrown ("checkConstraints: duplicate module id " +:+ Ids.key moduleId).
Proof.
  intros Hbefore Hid. induction before as [|id before IH]; simpl.
  - by rewrite Hid.
  - rewrite (Hbefore id) by left. apply IH. intros x Hx. apply Hbefore. by right.
Qed.

Lemma collectModule_skips_zero u : Ids.collectModule (Ids.IdNum 0) u = u.
Proof. done. Qed.

(** C2 (a defect of the code): a module that already carries the id [0] is
    not collected as used, because the test [module1.id && ...] takes [0]
    for a missing id; the next module without an id is then given [0] as
    well, both with no reservations and with a reservation that makes
    [usedIds] non-empty.  [checkConstraints] never records an id in its
    [usedIds], so its loop over the modules compares no two ids: it passes
    exactly when no id is the name of a property its plain object inherits,
    whether ids are shared or not, and it throws its "duplicate module id"
    at the first id that is such a name, although the id may be there only
    once.  The two modules with id [0] pass. *)
Theorem applyModuleIds_duplicates_id_zero_unreported :
  Ids.applyModuleIds None [Ids.IdNum 0; Ids.IdNull] = [Ids.IdNum 0; Ids.IdNum 0]
  ∧ Ids.applyModuleIds (Some [Ids.IdNum 2]) [Ids.IdNum 0; Ids.IdNull; Ids.IdNull]
    = [Ids.IdNum 0; Ids.IdNum 0; Ids.IdNum 1]
  ∧ (∀ inherited chunkCheck modules,
       Ids.checkConstraints inherited chunkCheck modules [] = Ids.Passed
       ↔ ∀ id, id ∈ modules → inherited (Ids.key id) = false)
  ∧ (∀ inherited chunkCheck before moduleId after chunks,
       (∀ id, id ∈ before → inherited (Ids.key id) = false) →
       inherited (Ids.key moduleId) = true →
       Ids.checkConstraints inherited chunkCheck (before ++ moduleId :: after) chunks
       = Ids.Thrown ("checkConstraints: duplicate module id " +:+ Ids.key moduleId))
  ∧ Ids.checkConstraints inheritedByObjects (λ _, Ids.Passed)
      (Ids.applyModuleIds None [Ids.IdNum 0; Ids.IdNull]) [7] = Ids.Passed
  ∧ Ids.checkConstraints inheritedByObjects (λ _, Ids.Passed)
      [Ids.IdStr "a"; Ids.IdStr "a"; Ids.IdNum 5; Ids.IdNum 5] [7] = Ids.Passed
  ∧ Ids.checkConstraints inheritedByObjects (λ _, Ids.Passed)
      [Ids.IdNum 1; Ids.IdStr "constructor"] [7]
    = Ids.Thrown "checkConstraints: duplicate module id constructor".
Proof.
  split; [by vm_compute|]. split; [by vm_compute|]. split; [|split].
  - intros inherited chunkCheck modules. unfold Ids.checkConstraints.
    rewrite <- checkModuleIds_passes.
    destruct (Ids.checkModuleIds inherited modules); [done|]. split; intros [=].
  - intros inherited chunkCheck before moduleId after chunks Hbefore Hid.
    unfold Ids.checkConstraints. by rewrite checkModuleIds_throws.
  - split; [by vm_compute|]. split; by vm_compute.
Qed.

(** ** addModule *)

(** C3 (a defect of the code): [addModule] keeps its three-valued contract
    as long as what the cache yields under [(cacheGroup || "m") + identifier]
    is a module or nothing.  [false] is returned exactly for an identifier
    already in [_modules], and then nothing changes.  Otherwise a module
    instance is returned exactly when the cache yields a module under that
    name, both timestamp maps are there and the module's [needRebuild]
    answers false; it is that module, it is disconnected, put into
    [_modules] and at the end of [modules], and its stored errors and
    warnings are appended to the compilation's.  The call throws, and
    changes nothing, exactly when the cache yields under that name a value
    that is no module and both timestamp maps are there.  In every other
    case [true] is returned and the given module is put into [_modules], at
    the end of [modules] and, when there is a cache, into the cache under
    that name; it is unbuilt first when the cache yielded something.  The
    cache is read as a plain object: with the cache group ["to"] and the
    identifier ["String"] the name is [toString], which every object
    inherits, and with both timestamp maps the call throws where the claim
    has it insert the module and return [true]. *)
Theorem addModule_three_valued_contract :
  (∀ (otherwise : string → option Store.Cached) (module : Store.Module)
     (cacheGroup : option string) (c : Store.Compilation),
     let identifier := Store.m_identifier module in
     let name := match cacheGroup with
                 | Some group => if decide (group = "") then "m" else group
                 | None => "m"
                 end +:+ identifier in
     let found := match Store.cache c with
                  | Some entries =>
                      match entries !! name with
                      | Some cacheModule => Some (Store.CachedModule cacheModule)
                      | None => otherwise name
                      end
                  | None => None
                  end in
     let stamped := is_Some (Store.fileTimestamps c) ∧ is_Some (Store.contextTimestamps c) in
     let hit cm :=
       found = Some (Store.CachedModule cm)
       ∧ ∃ ft ct, Store.fileTimestamps c = Some ft ∧ Store.contextTimestamps c = Some ct
                  ∧ Store.m_needRebuild cm ft ct = false in
     let r := (Store.addModule otherwise module cacheGroup c).1 in
     let c' := (Store.addModule otherwise module cacheGroup c).2 in
     (r = Store.Duplicate ↔ is_Some (Store._modules c !! identifier))
     ∧ (r = Store.Duplicate → c' = c)
     ∧ (∀ cm, r = Store.FromCache cm ↔ Store._modules c !! identifier = None ∧ hit cm)
     ∧ (∀ cm, r = Store.FromCache cm →
          Store._modules c' = <[identifier := cm]> (Store._modules c)
          ∧ Store.modules c' = Store.modules c ++ [cm]
          ∧ Store.errors c' = Store.errors c ++ Store.m_errors cm
          ∧ Store.warnings c' = Store.warnings c ++ Store.m_warnings cm
          ∧ Store.cache c' = Store.cache c
          ∧ Store.calls c' = Store.calls c ++ [Store.Disconnect (Store.m_ref cm)])
     ∧ ((∃ message, r = Store.Threw message)
        ↔ Store._modules c !! identifier = None ∧ found = Some Store.NoModule ∧ stamped)
     ∧ (∀ message, r = Store.Threw message → c' = c)
     ∧ (r = Store.Added
        ↔ Store._modules c !! identifier = None
          ∧ (¬ ∃ cm, hit cm) ∧ ¬ (found = Some Store.NoModule ∧ stamped))
     ∧ (r = Store.Added →
          Store._modules c' = <[identifier := module]> (Store._modules c)
          ∧ Store.modules c' = Store.modules c ++ [module]
          ∧ Store.cache c' = (λ entries, <[name := module]> entries) <$> Store.cache c
          ∧ Store.errors c' = Store.errors c
          ∧ Store.warnings c' = Store.warnings c
          ∧ Store.calls c'
            = Store.calls c ++ match found with
                               | Some _ => [Store.Unbuild (Store.m_ref module)]
                               | None => []
                               end))
  ∧ (let module := Store.mkModule 1 "String" [] [] (λ _ _, false) in
     let c := Store.mkCompilation ∅ [] (Some ∅) (Some ∅) (Some ∅) [] [] [] in
     Store.addModule (λ name, if inheritedByObjects name then Some Store.NoModule else None)
       module (Some "to") c
     = (Store.Threw "cacheModule.needRebuild is not a function", c)).
Proof.
  split; [|by vm_compute].
  intros otherwise module cacheGroup c identifier name found stamped hit r c'.
  assert (Store.cacheName cacheGroup identifier = name) as Hname.
  { subst name. unfold Store.cacheName. destruct cacheGroup as [group|]; [|done].
    by destruct (decide (group = "")). }
  assert (Store.cached otherwise c name = found) as Hfound by done.
  subst r c'. unfold Store.addModule. fold identifier. rewrite Hname, Hfound.
  clearbody found. clear Hfound.
  destruct (Store._modules c !! identifier) as [existing|] eqn:Hdup; simpl.
  { split_and!; try done.
    - intros cm. split; [intros [=]|by intros [[=] _]].
    - split; [by intros [? [=]]|by intros [[=] _]].
    - split; [intros [=]|by intros [[=] _]]. }
  assert (Hnone : ¬ is_Some (@None Store.Module)) by (by intros []).
  assert (Hstamped : stamped ↔ ∃ ft ct, Store.fileTimestamps c = Some ft
                                        ∧ Store.contextTimestamps c = Some ct).
  { subst stamped. split.
    - intros [[ft Hft] [ct Hct]]. by exists ft, ct.
    - intros (ft & ct & Hft & Hct). split; by eexists. }
  destruct found as [[cm|]|] eqn:Hcm.
  - assert (Hhit : Store.needRebuild c cm = false ↔ hit cm).
    { unfold Store.needRebuild, hit. split.
      - intros Hnr. split; [done|].
        destruct (Store.fileTimestamps c) as [ft|]; [|done].
        destruct (Store.contextTimestamps c) as [ct|]; [|done]. by exists ft, ct.
      - intros (_ & ft & ct & -> & -> & Hnr). done. }
    assert (Hother : ∀ cm', hit cm' → cm' = cm).
    { intros cm' [Hc _]. congruence. }
    destruct (Store.needRebuild c cm) eqn:Hnr; simpl.
    + assert (¬ hit cm) as Hno by (intros Hh; by apply Hhit in Hh).
      split_and!; try done.
      * intros cm'. split; [intros [=]|]. intros [_ Hh]. by rewrite (Hother _ Hh) in Hh.
      * split; [by intros [? [=]]|]. by intros (_ & [=] & _).
      * split; [|done]. intros _. split; [done|]. split.
        -- intros (cm' & Hh). by rewrite (Hother _ Hh) in Hh.
        -- by intros [[=] _].
    + assert (hit cm) as Hyes by (by apply Hhit).
      split_and!; try done.
      * intros cm'. split.
        -- by intros [= <-].
        -- intros [_ Hh]. by rewrite (Hother _ Hh).
      * by intros cm' [= <-].
      * split; [by intros [? [=]]|]. by intros (_ & [=] & _).
      * split; [intros [=]|]. intros (_ & Hno & _). destruct Hno. by exists cm.
  - assert (Hnohit : ¬ ∃ cm, hit cm) by (by intros (cm & [=] & _)).
    destruct (Store.fileTimestamps c) as [ft|] eqn:Hft;
      [destruct (Store.contextTimestamps c) as [ct|] eqn:Hct|]; simpl.
    + assert stamped as Hst by (apply Hstamped; by exists ft, ct).
      split_and!; try done.
      * intros cm. split; [intros [=]|]. intros [_ Hh]. destruct Hnohit. by exists cm.
      * split; [done|]. intros _. by eexists.
      * split; [intros [=]|]. intros (_ & _ & Hno). by destruct Hno.
    + assert (¬ stamped) as Hst.
      { rewrite Hstamped. by intros (? & ? & _ & [=]). }
      split_and!; try done.
      * intros cm. split; [intros [=]|]. intros [_ Hh]. destruct Hnohit. by exists cm.
      * split; [by intros [? [=]]|]. by intros (_ & _ & ?).
      * split; [|done]. intros _. split; [done|]. split; [done|]. by intros [_ ?].
    + assert (¬ stamped) as Hst.
      { rewrite Hstamped. by intros (? & ? & [=] & _). }
      split_and!; try done.
      * intros cm. split; [intros [=]|]. intros [_ Hh]. destruct Hnohit. by exists cm.
      * split; [by intros [? [=]]|]. by intros (_ & _ & ?).
      * split; [|done]. intros _. split; [done|]. split; [done|]. by intros [_ ?].
  - assert (Hnohit : ¬ ∃ cm, hit cm) by (by intros (cm & [=] & _)).
    simpl. split_and!; try done.
    + intros cm'. split; [intros [=]|]. intros [_ Hh]. destruct Hnohit. by exists cm'.
    + split; [by intros [? [=]]|]. by intros (_ & [=] & _).
    + split; [|done]. intros _. split; [done|]. split; [done|]. by intros [[=] _].
    + intros _. split_and!; try done. by rewrite app_nil_r.
Qed.

(** A module that is in the cache and needs no rebuild: the first call
    returns the cached instance, a second call for the same identifier
    returns [false] although the cache still holds the entry. *)
Example addModule_cache_hit_then_duplicate :
  let fresh := Store.mkModule 1 "./a.js" [] [] (λ _ _, false) in
  let old := Store.mkModule 2 "./a.js" [missing "stale"] [] (λ _ _, false) in
  let c := Store.mkCompilation ∅ [] (Some {[ "m./a.js" := old ]}) (Some ∅) (Some ∅) [] [] [] in
  let first := Store.addModule (λ _, None) fresh None c in
  let second := Store.addModule (λ _, None) fresh None first.2 in
  Store.m_ref <$> Store.modules first.2 = [2]
  ∧ Store.errors first.2 = [missing "stale"]
  ∧ (∃ cm, first.1 = Store.FromCache cm ∧ Store.m_ref cm = 2)
  ∧ second.1 = Store.Duplicate
  ∧ Store.m_ref <$> Store.modules second.2 = [2].
Proof.
  split; [by vm_compute|]. split; [by vm_compute|]. split; [|by vm_compute].
  eexists. split; [vm_compute; reflexivity|done].
Qed.

(** Without the timestamp maps the inherited [toString] counts as a cache
    entry that needs a rebuild: the module is unbuilt and stored, and the
    cache then yields it under that name. *)
Example addModule_inherited_cache_name_without_timestamps :
  let module := Store.mkModule 1 "String" [] [] (λ _ _, false) in
  let c := Store.mkCompilation ∅ [] (Some ∅) None None [] [] [] in
  let r := Store.addModule (λ name, if inheritedByObjects name then Some Store.NoModule
                                    else None) module (Some "to") c in
  r.1 = Store.Added
  ∧ Store.calls r.2 = [Store.Unbuild 1]
  ∧ Store.cache r.2 = Some {[ "toString" := module ]}.
Proof. by vm_compute. Qed.

(** ** The build coordinator: what holds in every state it can reach *)

Lemma build_inv_initial : build_inv Build.initial.
Proof.
  split; simpl.
  - intros i r H. by rewrite lookup_nil in H.
  - intros m l H. by rewrite lookup_empty in H.
  - constructor.
  - intros m l H. by rewrite lookup_empty in H.
Qed.

Lemma build_inv_push s l w : build_inv s → build_inv (Build.push l w s).
Proof.
  intros [Ht Hr Hn Hl]. split; simpl; try done.
  intros m l' Hm. destruct (Hl m l' Hm) as [Hsome Hlt]. split; [|done].
  destruct (decide (l = l')) as [->|Hne].
  - rewrite lookup_alter_eq. by apply fmap_is_Some.
  - by rewrite lookup_alter_ne.
Qed.

Lemma build_inv_buildModule s m o org deps cb :
  build_inv s → build_inv (Build.buildModule m o org deps cb s).
Proof.
  intros Hinv. unfold Build.buildModule. simpl.
  destruct (Build._buildingModules s !! m) as [l|] eqn:Hm.
  - apply build_inv_push. by destruct Hinv.
  - destruct Hinv as [Ht Hr Hn Hl]. split; simpl.
    + intros i r Hi. apply lookup_app_Some in Hi as [Hi|[_ Hi]].
      * pose proof (Ht i r Hi) as Hold.
        rewrite lookup_insert_ne; [done|]. intros Heq. rewrite Heq in Hm. congruence.
      * apply list_lookup_singleton_Some in Hi as [_ <-]. simpl.
        by rewrite lookup_insert_eq.
    + intros m' l' Hm'. destruct (decide (m = m')) as [<-|Hne].
      * rewrite lookup_insert_eq in Hm'. injection Hm' as <-.
        exists (length (Build.running s)), (Build.mkRunning m o org deps (Build.nextList s)).
        split; [|done]. rewrite lookup_app_r by done. by rewrite Nat.sub_diag.
      * rewrite lookup_insert_ne in Hm' by done.
        destruct (Hr m' l' Hm') as (i & r & Hi & ? & ?).
        exists i, r. split; [|done]. by apply lookup_app_l_Some.
    + rewrite fmap_app. simpl. apply NoDup_app. split; [done|]. split.
      * intros x Hx Hx'. apply list_elem_of_singleton in Hx' as ->.
        apply list_elem_of_fmap in Hx as (r & -> & Hr').
        apply list_elem_of_lookup in Hr' as [i Hi]. pose proof (Ht i r Hi). congruence.
      * apply NoDup_singleton.
    + intros m' l' Hm'. destruct (decide (m = m')) as [<-|Hne].
      * rewrite lookup_insert_eq in Hm'. injection Hm' as <-.
        rewrite lookup_insert_eq. split; [done|lia].
      * rewrite lookup_insert_ne in Hm' by done.
        destruct (Hl m' l' Hm') as [Hsome Hlt]. split; [|lia].
        rewrite lookup_insert_ne by lia. done.
Qed.

Lemma build_inv_buildFinished s i error es ws :
  build_inv s → build_inv (Build.buildFinished i error es ws s).
Proof.
  intros Hinv. unfold Build.buildFinished.
  destruct (Build.running s !! i) as [r|] eqn:Hi; [|done].
  destruct Hinv as [Ht Hr Hn Hl].
  assert (Hother : ∀ j r', delete i (Build.running s) !! j = Some r' →
                   Build.r_module r' ≠ Build.r_module r
                   ∧ ∃ j', Build.running s !! j' = Some r').
  { intros j r' Hj.
    assert (∃ j', j' ≠ i ∧ Build.running s !! j' = Some r') as (j' & Hne & Hj').
    { destruct (decide (j < i)).
      - exists j. split; [lia|]. by rewrite list_lookup_delete_lt in Hj.
      - exists (S j). split; [lia|]. rewrite list_lookup_delete_ge in Hj by lia. done. }
    split; [|by exists j'].
    intros Heq. apply Hne.
    eapply (NoDup_lookup (Build.r_module <$> Build.running s)); [done| |].
    - rewrite list_lookup_fmap, Hj'. done.
    - rewrite list_lookup_fmap, Hi. simpl. congruence. }
  split; simpl.
  - intros j r' Hj. destruct (Hother j r' Hj) as [Hne (j' & Hj')].
    rewrite lookup_delete_ne by done. by eapply Ht.
  - intros m l Hm. destruct (decide (Build.r_module r = m)) as [<-|Hne].
    { by rewrite lookup_delete_eq in Hm. }
    rewrite lookup_delete_ne in Hm by done.
    destruct (Hr m l Hm) as (j & r' & Hj & Hmod & Hlist).
    assert (j ≠ i) as Hji by (intros ->; congruence).
    destruct (decide (j < i)).
    + exists j, r'. split; [|done]. by rewrite list_lookup_delete_lt.
    + exists (j - 1), r'. split; [|done]. rewrite list_lookup_delete_ge by lia.
      replace (S (j - 1)) with j by lia. done.
  - rewrite list_fmap_delete. eapply sublist_NoDup; [done|apply sublist_delete].
  - intros m l Hm. destruct (decide (Build.r_module r = m)) as [<-|Hne].
    { by rewrite lookup_delete_eq in Hm. }
    rewrite lookup_delete_ne in Hm by done. by eapply Hl.
Qed.

Lemma build_inv_exec s i : build_inv s → build_inv (Build.exec s i).
Proof.
  intros Hinv. destruct i as [m o org deps cb|m cb|i error es ws| |]; simpl.
  - by apply build_inv_buildModule.
  - unfold Build.waitForBuildingFinished.
    destruct (Build._buildingModules s !! m); [by apply build_inv_push|].
    by destruct Hinv.
  - by apply build_inv_buildFinished.
  - unfold Build.invokeNext. destruct (Build.frames s) as [|[[|w ws] err] fs];
      [done| |]; by destruct Hinv.
  - unfold Build.nextTick. destruct (Build.ticks s); [done|]. by destruct Hinv.
Qed.

Lemma build_inv_run inputs s : build_inv s → build_inv (Build.run inputs s).
Proof.
  revert s. induction inputs as [|i inputs IH]; intros s Hinv; [done|].
  simpl. apply IH. by apply build_inv_exec.
Qed.

Lemma build_count_nodup (l : list Build.Running) m :
  NoDup (Build.r_module <$> l) →
  length (filter (λ r, Build.r_module r = m) l)
  = if decide (m ∈ Build.r_module <$> l) then 1 else 0.
Proof.
  induction l as [|r l IH]; intros Hnd.
  - rewrite decide_False; [done|]. by intros ?%elem_of_nil.
  - rewrite fmap_cons in Hnd. apply NoDup_cons in Hnd as [Hnotin Hnd].
    rewrite filter_cons, fmap_cons. specialize (IH Hnd).
    destruct (decide (m ∈ Build.r_module <$> l)) as [Hin|Hnin];
      destruct (decide (Build.r_module r = m)) as [Heq|Hne]; cbn [length]; rewrite IH.
    + by rewrite <- Heq in Hin.
    + rewrite decide_True; [done|]. by right.
    + rewrite decide_True; [done|]. rewrite Heq. left.
    + rewrite decide_False; [done|]. intros [?|?]%elem_of_cons; congruence.
Qed.

Lemma build_inFlight_tracked s m :
  build_inv s →
  Build.inFlight m s = match Build._buildingModules s !! m with Some _ => 1 | None => 0 end.
Proof.
  intros [Ht Hr Hn _]. unfold Build.inFlight. rewrite build_count_nodup by done.
  destruct (Build._buildingModules s !! m) as [l|] eqn:Hm.
  - rewrite decide_True; [done|]. destruct (Hr m l Hm) as (i & r & Hi & <- & _).
    apply list_elem_of_fmap_2. by eapply list_elem_of_lookup_2.
  - rewrite decide_False; [done|]. intros (r & -> & Hr')%list_elem_of_fmap.
    apply list_elem_of_lookup in Hr' as [i Hi]. pose proof (Ht i r Hi). congruence.
Qed.

(** The innermost [forEach] run to its end, nothing else happening in
    between: every entry of the array is invoked, in order, with the one
    value the loop was started with. *)
Lemma build_forEach_drains ws : ∀ s e fs,
  Build.frames s = (ws, e) :: fs →
  Build.trace (Build.run (replicate (length ws) Build.ForEachNext) s)
    = Build.trace s ++ ((λ w, Build.invoke w e) <$> ws)
  ∧ Build.frames (Build.run (replicate (length ws) Build.ForEachNext) s) = ([], e) :: fs
  ∧ Build._buildingModules (Build.run (replicate (length ws) Build.ForEachNext) s)
    = Build._buildingModules s
  ∧ Build.running (Build.run (replicate (length ws) Build.ForEachNext) s)
    = Build.running s.
Proof.
  induction ws as [|w ws IH]; intros s e fs Hf.
  - simpl. by rewrite app_nil_r.
  - change (Build.run (replicate (length (w :: ws)) Build.ForEachNext) s)
      with (Build.run (replicate (length ws) Build.ForEachNext) (Build.invokeNext s)).
    assert (Build.frames (Build.invokeNext s) = (ws, e) :: fs
            ∧ Build.trace (Build.invokeNext s) = Build.trace s ++ [Build.invoke w e]
            ∧ Build._buildingModules (Build.invokeNext s) = Build._buildingModules s
            ∧ Build.running (Build.invokeNext s) = Build.running s)
      as (Hf1 & Ht1 & Hm1 & Hr1) by (unfold Build.invokeNext; by rewrite Hf).
    destruct (IH (Build.invokeNext s) e fs Hf1) as (Htr & Hfr & Hmap & Hrun).
    rewrite Htr, Hfr, Hmap, Hrun, Ht1, Hm1, Hr1, fmap_cons, <- app_assoc. done.
Qed.

(** C5: in every state the coordinator can reach, a module has at most one
    [module.build] in flight, and has one exactly while [_buildingModules]
    tracks it.  A [buildModule] call for a module that is not tracked
    announces the module, tracks it under a new array that holds the
    caller's callback and nothing else, and starts the one build of the
    module, which keeps that array and the caller's [optional], [origin]
    and [dependencies].  A [buildModule] call for a tracked module starts
    nothing: it appends its callback to the tracked array and leaves the
    builds in flight as they are.  When the build calls back, the entry is
    deleted and no caller's callback has run yet; the [forEach] that
    follows invokes every entry of the array with the same value, the error
    of the build or none. *)
Theorem buildModule_one_build_in_flight (inputs : list Build.Input) :
  let s := Build.run inputs Build.initial in
  (∀ m, Build.inFlight m s ≤ 1
        ∧ (Build.inFlight m s = 1 ↔ is_Some (Build._buildingModules s !! m)))
  ∧ (∀ m optional origin dependencies cb,
       Build._buildingModules s !! m = None →
       let s' := Build.buildModule m optional origin dependencies cb s in
       ∃ l, Build._buildingModules s' = <[m := l]> (Build._buildingModules s)
            ∧ (∀ m', Build._buildingModules s !! m' ≠ Some l)
            ∧ Build.lists s' !! l = Some [Build.Direct cb]
            ∧ (∀ l', l' ≠ l → Build.lists s' !! l' = Build.lists s !! l')
            ∧ Build.running s'
              = Build.running s ++ [Build.mkRunning m optional origin dependencies l]
            ∧ Build.inFlight m s = 0
            ∧ Build.inFlight m s' = 1
            ∧ Build.frames s' = Build.frames s
            ∧ Build.trace s'
              = Build.trace s ++ [Build.Plugin "build-module" m; Build.BuildStarted m])
  ∧ (∀ m optional origin dependencies cb l,
       Build._buildingModules s !! m = Some l →
       let s' := Build.buildModule m optional origin dependencies cb s in
       Build.running s' = Build.running s
       ∧ Build._buildingModules s' = Build._buildingModules s
       ∧ (∃ ws, Build.lists s !! l = Some ws
                ∧ Build.lists s' !! l = Some (ws ++ [Build.Direct cb]))
       ∧ Build.trace s' = Build.trace s ++ [Build.Plugin "build-module" m])
  ∧ (∀ i r error es ws,
       Build.running s !! i = Some r →
       let s' := Build.buildFinished i error es ws s in
       let waiters := default [] (Build.lists s !! Build.r_callbackList r) in
       let s'' := Build.run (replicate (length waiters) Build.ForEachNext) s' in
       Build._buildingModules s' !! Build.r_module r = None
       ∧ Build.inFlight (Build.r_module r) s' = 0
       ∧ Build.frames s' = (waiters, error) :: Build.frames s
       ∧ (∃ name, Build.trace s' = Build.trace s ++ [Build.Plugin name (Build.r_module r)])
       ∧ Build.trace s'' = Build.trace s' ++ ((λ w, Build.invoke w error) <$> waiters)
       ∧ (∀ cb, Build.Direct cb ∈ waiters → Build.Called cb error ∈ Build.trace s'')).
Proof.
  intros s. assert (Hinv : build_inv s) by apply build_inv_run, build_inv_initial.
  split; [|split; [|split]].
  - intros m. rewrite (build_inFlight_tracked s m Hinv).
    destruct (Build._buildingModules s !! m); split; try lia.
    + split; [by eexists|done].
    + split; [lia|by intros []].
  - intros m optional origin dependencies cb Hm s'.
    assert (Hinv' : build_inv s') by by apply build_inv_buildModule.
    assert (s' = Build.mkState (<[m := Build.nextList s]> (Build._buildingModules s))
                   (<[Build.nextList s := [Build.Direct cb]]> (Build.lists s))
                   (S (Build.nextList s))
                   (Build.running s
                    ++ [Build.mkRunning m optional origin dependencies (Build.nextList s)])
                   (Build.frames s) (Build.ticks s) (Build.errors s) (Build.warnings s)
                   (Build.trace s ++ [Build.Plugin "build-module" m; Build.BuildStarted m]))
      as Hs'.
    { subst s'. unfold Build.buildModule. simpl. rewrite Hm. simpl.
      by rewrite <- app_assoc. }
    exists (Build.nextList s).
    rewrite (build_inFlight_tracked s m Hinv), (build_inFlight_tracked s' m Hinv'), Hm.
    rewrite Hs'. simpl. rewrite !lookup_insert_eq.
    split_and!; try done.
    + intros m' Hm'. destruct (build_inv_lists s Hinv m' _ Hm') as [_ Hlt]. lia.
    + intros l' Hne. by rewrite lookup_insert_ne.
  - intros m optional origin dependencies cb l Hm s'. subst s'.
    assert (Build.buildModule m optional origin dependencies cb s
            = Build.push l (Build.Direct cb) (Build.log (Build.Plugin "build-module" m) s))
      as -> by (unfold Build.buildModule; simpl; by rewrite Hm).
    destruct (build_inv_lists s Hinv m l Hm) as [[ws Hws] _].
    split; [done|]. split; [done|]. split; [|done].
    exists ws. split; [done|]. unfold Build.push, Build.log. simpl.
    rewrite lookup_alter_eq.
    transitivity ((λ ws0, ws0 ++ [Build.Direct cb]) <$> Some ws); [f_equal; exact Hws|done].
  - intros i r error es ws Hi s' waiters s''.
    assert (Hinv' : build_inv s') by by apply build_inv_buildFinished.
    assert (Hs' : Build._buildingModules s' !! Build.r_module r = None).
    { subst s'. unfold Build.buildFinished. rewrite Hi. simpl. apply lookup_delete_eq. }
    assert (Hf : Build.frames s' = (waiters, error) :: Build.frames s).
    { subst s'. unfold Build.buildFinished. by rewrite Hi. }
    destruct (build_forEach_drains waiters s' error (Build.frames s) Hf) as (Htr & _).
    fold s'' in Htr.
    split; [done|]. split; [by rewrite (build_inFlight_tracked _ _ Hinv'), Hs'|].
    split; [done|]. split; [|split; [done|]].
    + subst s'. unfold Build.buildFinished. rewrite Hi. simpl. by eexists.
    + intros cb Hcb. rewrite Htr. apply elem_of_app. right.
      apply list_elem_of_fmap. by exists (Build.Direct cb).
Qed.

(** Three callers ask for the build of module [5]; the build fails; every
    one of the three callbacks is invoked with that error, after the entry
    is gone. *)
Example buildModule_three_callers :
  let e := mkError "ModuleBuildError" "boom" None None in
  let s := Build.run [Build.CallBuildModule 5 false None None 10;
                      Build.CallBuildModule 5 false None None 11;
                      Build.CallBuildModule 5 true (Some 1) None 12;
                      Build.BuildCallsBack 0 (Some e) [] [];
                      Build.ForEachNext; Build.ForEachNext; Build.ForEachNext]
                     Build.initial in
  omap (λ ev, match ev with Build.BuildStarted m => Some m | _ => None end) (Build.trace s)
    = [5]
  ∧ omap (λ ev, match ev with Build.Called cb err => Some (cb, err) | _ => None end)
         (Build.trace s)
    = [(10, Some e); (11, Some e); (12, Some e)]
  ∧ Build._buildingModules s !! 5 = None.
Proof. by vm_compute. Qed.

(** ** addEntry: the reserved slot *)

Lemma entry_with_store_same s : Entry.with_store s (Entry.store s) = s.
Proof. by destruct s. Qed.

Lemma store_addModule_threw otherwise module cacheGroup c message :
  (Store.addModule otherwise module cacheGroup c).1 = Store.Threw message →
  (Store.addModule otherwise module cacheGroup c).2 = c.
Proof.
  unfold Store.addModule.
  destruct (Store._modules c !! Store.m_identifier module); [done|].
  destruct (Store.cached otherwise c _) as [[cm|]|]; simpl; [|  |done].
  - by destruct (Store.needRebuild c cm).
  - by destruct (Store.fileTimestamps c), (Store.contextTimestamps c).
Qed.

Lemma entry_afterFactory_slots entry sc s :
  Entry.preparedChunks (Entry.afterFactory entry Entry.pushEntry sc s).2 = Entry.preparedChunks s
  ∧ Entry.nextSlot (Entry.afterFactory entry Entry.pushEntry sc s).2 = Entry.nextSlot s.
Proof.
  unfold Entry.afterFactory, Entry.errorAndCallback, Entry.moduleReady.
  destruct (Entry.sc_factory sc) as [err|module].
  - by destruct (Entry.bail (Entry.release s)).
  - destruct (Store.addModule (Entry.sc_otherwise sc) module None (Entry.store s))
      as [[|result| |message] c]; simpl.
    + by destruct (Store.getModule module c).
    + by destruct (Entry.sc_dependencies sc).
    + destruct (Entry.sc_build sc); simpl.
      * by destruct (Entry.bail s).
      * by destruct (Entry.sc_dependencies sc).
    + done.
Qed.

(** [afterFactory] throws only when [addModule] does: after [addModule]
    answered [false] the identifier is in [_modules]. *)
Lemma entry_afterFactory_outcome entry sc s :
  (∃ err module,
     (Entry.afterFactory entry Entry.pushEntry sc s).1 = Entry.CalledBack err module)
  ∨ (∃ message module,
       Entry.sc_factory sc = inr module
       ∧ (Store.addModule (Entry.sc_otherwise sc) module None (Entry.store s)).1
         = Store.Threw message
       ∧ Entry.afterFactory entry Entry.pushEntry sc s = (Entry.Threw message, s)).
Proof.
  unfold Entry.afterFactory, Entry.errorAndCallback, Entry.moduleReady, Entry.afterWaiting.
  destruct (Entry.sc_factory sc) as [err|module] eqn:Hf.
  - left. destruct (Entry.bail (Entry.release s)); by eexists _, _.
  - pose proof (store_addModule_threw (Entry.sc_otherwise sc) module None (Entry.store s))
      as Hthrew.
    destruct (Store.addModule (Entry.sc_otherwise sc) module None (Entry.store s))
      as [[|result| |message] c] eqn:Hadd; simpl.
    + left. unfold Store.addModule, Store.getModule in *.
      destruct (Store._modules (Entry.store s) !! Store.m_identifier module) eqn:Hm.
      * injection Hadd as <-. rewrite Hm. simpl. by eexists _, _.
      * destruct (Store.cached _ _ _) as [[cm|]|]; simpl in Hadd; [| |done].
        -- by destruct (Store.needRebuild _ _).
        -- destruct (Store.fileTimestamps _); [destruct (Store.contextTimestamps _)|]; done.
    + left. destruct (Entry.sc_dependencies sc); by eexists _, _.
    + left. destruct (Entry.sc_build sc); simpl.
      * destruct (Entry.bail _); by eexists _, _.
      * destruct (Entry.sc_dependencies sc); by eexists _, _.
    + right. exists message, module. split; [done|]. split; [by rewrite Hadd|].
      simpl in Hthrew. rewrite (Hthrew message eq_refl). by rewrite entry_with_store_same.
Qed.

Lemma entry_find_holds slots slot x :
  NoDup (Entry.slot_ref <$> slots) →
  entry_holds slots slot x →
  ∃ i, list_find (λ y, Entry.slot_ref y = slot) slots = Some (i, x) ∧ slots !! i = Some x.
Proof.
  intros Hnd [Hin Href]. apply list_elem_of_lookup in Hin as [i Hi].
  exists i. split; [|done]. apply list_find_Some. split; [done|]. split; [done|].
  intros j y Hj Hlt Hy.
  assert (i = j); [|lia].
  apply (NoDup_lookup (Entry.slot_ref <$> slots) i j slot); [done| |];
    rewrite list_lookup_fmap; [rewrite Hi|rewrite Hj]; simpl; congruence.
Qed.

Lemma entry_find_None slots slot :
  (∀ x, x ∈ slots → Entry.slot_ref x ≠ slot) →
  list_find (λ y, Entry.slot_ref y = slot) slots = None.
Proof. intros H. apply list_find_None, Forall_forall. intros x Hx. by apply H. Qed.

Lemma entry_splice_present slots slot x :
  NoDup (Entry.slot_ref <$> slots) →
  entry_holds slots slot x →
  ∃ i, slots !! i = Some x ∧ Entry.splice1 (Entry.indexOf slot slots) slots = delete i slots.
Proof.
  intros Hnd Hx. destruct (entry_find_holds slots slot x Hnd Hx) as (i & Hfind & Hi).
  exists i. split; [done|]. unfold Entry.indexOf, Entry.splice1. rewrite Hfind.
  rewrite decide_False by lia. by rewrite Nat2Z.id.
Qed.

Lemma entry_delete_other (slots : list Entry.Slot) i x y :
  NoDup (Entry.slot_ref <$> slots) → slots !! i = Some x →
  (y ∈ delete i slots ↔ y ∈ slots ∧ Entry.slot_ref y ≠ Entry.slot_ref x).
Proof.
  intros Hnd Hi. split.
  - intros Hy. split; [by eapply list_elem_of_delete_inv|].
    intros Heq. apply list_elem_of_lookup in Hy as [j Hj].
    assert (∃ j', j' ≠ i ∧ slots !! j' = Some y) as (j' & Hne & Hj').
    { destruct (decide (j < i)).
      - exists j. split; [lia|]. by rewrite list_lookup_delete_lt in Hj.
      - exists (S j). split; [lia|]. by rewrite list_lookup_delete_ge in Hj by lia. }
    apply Hne. apply (NoDup_lookup (Entry.slot_ref <$> slots) j' i (Entry.slot_ref x));
      [done| |]; rewrite list_lookup_fmap; [rewrite Hj'|rewrite Hi]; simpl; congruence.
  - intros [Hy Hne]. apply list_elem_of_lookup in Hy as [j Hj].
    assert (j ≠ i) by (intros ->; congruence).
    apply list_elem_of_lookup. destruct (decide (j < i)).
    + exists j. by rewrite list_lookup_delete_lt.
    + exists (j - 1). rewrite list_lookup_delete_ge by lia.
      by replace (S (j - 1)) with j by lia.
Qed.

Lemma entry_setSlotModule_refs slot m slots :
  Entry.slot_ref <$> Entry.setSlotModule slot m slots = Entry.slot_ref <$> slots.
Proof.
  unfold Entry.setSlotModule. rewrite <- list_fmap_compose. apply list_fmap_ext.
  intros i x _. simpl. by destruct (decide (Entry.slot_ref x = slot)).
Qed.

Lemma entry_setSlotModule_elem slot m slots y :
  y ∈ Entry.setSlotModule slot m slots ↔
  ∃ x, x ∈ slots ∧
       y = if decide (Entry.slot_ref x = slot)
           then Entry.mkSlot (Entry.slot_ref x) (Entry.slot_name x) (Some m) else x.
Proof.
  unfold Entry.setSlotModule. rewrite list_elem_of_fmap.
  split; intros (x & H1 & H2); by exists x.
Qed.

(** What [complete] does to [preparedChunks], for a slot the array holds. *)
Lemma entry_complete_slots s entry slot sc x :
  NoDup (Entry.slot_ref <$> Entry.preparedChunks s) →
  entry_holds (Entry.preparedChunks s) slot x →
  Entry.nextSlot (Entry.complete entry slot sc s).2 = Entry.nextSlot s
  ∧ ((∃ err module,
        (Entry.complete entry slot sc s).1 = Entry.CalledBack err module
        ∧ match err, module with
          | None, Some m =>
              Entry.preparedChunks (Entry.complete entry slot sc s).2
              = Entry.setSlotModule slot m (Entry.preparedChunks s)
          | None, None =>
              ∃ i, Entry.preparedChunks s !! i = Some x
                   ∧ Entry.preparedChunks (Entry.complete entry slot sc s).2
                     = delete i (Entry.preparedChunks s)
          | Some _, _ =>
              module = None
              ∧ Entry.preparedChunks (Entry.complete entry slot sc s).2
                = Entry.preparedChunks s
          end)
     ∨ (∃ message module,
          Entry.sc_factory sc = inr module
          ∧ (Store.addModule (Entry.sc_otherwise sc) module None (Entry.store s)).1
            = Store.Threw message
          ∧ Entry.complete entry slot sc s = (Entry.Threw message, s))).
Proof.
  intros Hnd Hx. unfold Entry.complete.
  destruct (entry_afterFactory_slots entry sc s) as [Hslots Hnext].
  destruct (entry_afterFactory_outcome entry sc s)
    as [(err & module & Ho)|(message & module & Hf & Hadd & Hthrew)].
  - destruct (Entry.afterFactory entry Entry.pushEntry sc s) as [o s1]. simpl in *. subst o.
    destruct err as [e|]; [|destruct module as [m|]]; simpl.
    + split; [done|]. left. exists (Some e), None. done.
    + split; [done|]. left. exists None, (Some m). by rewrite Hslots.
    + split; [done|]. left. exists None, None. split; [done|]. rewrite Hslots.
      destruct (entry_splice_present _ slot x Hnd Hx) as (i & Hi & Hsp). by exists i.
  - rewrite Hthrew. simpl. split; [done|]. right. by exists message, module.
Qed.

Lemma entry_inv_initial bail c : entry_inv (Entry.initial bail c).
Proof.
  split; simpl; [constructor|constructor|]. intros slot H. by apply elem_of_nil in H.
Qed.

Lemma entry_inv_reserve r name extra :
  entry_inv r →
  (∀ slot, slot ∈ extra → slot = Entry.nextSlot (Entry.state r)) →
  entry_inv (Entry.mkCalls (Entry.reserve name (Entry.state r)).2 (Entry.waiting r ++ extra)).
Proof.
  intros [Hfresh Hnd Hwait] Hextra. split; simpl.
  - apply Forall_app. split.
    + eapply Forall_impl; [done|]. simpl. lia.
    + apply Forall_singleton. simpl. lia.
  - rewrite fmap_app. apply NoDup_app. split; [done|]. split; [|apply NoDup_singleton].
    intros ref Href Href'. apply list_elem_of_singleton in Href'. subst ref.
    apply list_elem_of_fmap in Href as (x & Hx & Hin).
    rewrite Forall_forall in Hfresh. specialize (Hfresh x Hin). simpl in Hx. lia.
  - intros slot Hslot. apply elem_of_app in Hslot as [Hslot|Hslot].
    + destruct (Hwait slot Hslot) as (x & [Hin Href] & Hnone).
      exists x. split; [|done]. split; [|done]. apply elem_of_app. by left.
    + rewrite (Hextra slot Hslot).
      exists (Entry.mkSlot (Entry.nextSlot (Entry.state r)) name None).
      split; [|done]. split; [|done]. apply elem_of_app. right. left.
Qed.

Lemma entry_inv_exec r i : entry_inv r → entry_inv (Entry.exec r i).
Proof.
  intros Hinv. destruct i as [name sc|entry slot sc]; simpl.
  - destruct (Entry.checks sc).
    + rewrite <- (app_nil_r (Entry.waiting r)). apply entry_inv_reserve; [done|].
      intros slot H. by apply elem_of_nil in H.
    + apply entry_inv_reserve; [done|]. intros slot H. by apply list_elem_of_singleton in H.
  - destruct (decide (slot ∈ Entry.waiting r)) as [Hw|]; [|done].
    destruct Hinv as [Hfresh Hnd Hwait].
    destruct (Hwait slot Hw) as (x & Hx & Hnone).
    assert (Hkeep : ∀ slot', slot' ∈ filter (λ y, y ≠ slot) (Entry.waiting r) →
              ∃ x', entry_holds (Entry.preparedChunks (Entry.state r)) slot' x'
                    ∧ Entry.slot_module x' = None ∧ slot' ≠ slot).
    { intros slot' [Hne Hin]%list_elem_of_filter.
      destruct (Hwait slot' Hin) as (x' & Hx' & Hnone'). by exists x'. }
    destruct (entry_complete_slots (Entry.state r) entry slot sc x Hnd Hx)
      as (Hnext & [(err & module & Ho & Hslots)|(message & module & _ & _ & Hthrew)]);
      [|rewrite Hthrew; split; simpl; try done;
        intros slot' Hs'; destruct (Hkeep slot' Hs') as (x' & ? & ? & _); by exists x'].
    destruct err as [e|]; [|destruct module as [m|]].
    + destruct Hslots as [_ Hslots]. split; simpl; rewrite ?Hnext, ?Hslots; try done.
      intros slot' Hs'. destruct (Hkeep slot' Hs') as (x' & ? & ? & _). by exists x'.
    + split; simpl; rewrite ?Hnext, ?Hslots.
      * apply Forall_forall. intros y Hy.
        apply entry_setSlotModule_elem in Hy as (x0 & Hx0 & ->).
        rewrite Forall_forall in Hfresh. specialize (Hfresh x0 Hx0).
        by destruct (decide (Entry.slot_ref x0 = slot)).
      * by rewrite entry_setSlotModule_refs.
      * intros slot' Hs'. destruct (Hkeep slot' Hs') as (x' & [Hin Href] & Hn' & Hne).
        exists x'. split; [|done]. split; [|done].
        apply entry_setSlotModule_elem. exists x'. split; [done|].
        rewrite decide_False; [done|congruence].
    + destruct Hslots as (i & Hi & Hslots). split; simpl; rewrite ?Hnext, ?Hslots.
      * by apply Forall_delete.
      * rewrite list_fmap_delete. eapply sublist_NoDup; [done|apply sublist_delete].
      * intros slot' Hs'. destruct (Hkeep slot' Hs') as (x' & [Hin Href] & Hn' & Hne).
        exists x'. split; [|done]. split; [|done].
        apply (entry_delete_other _ i x); [done|done|]. split; [done|].
        destruct Hx as [_ Hrefx]. congruence.
Qed.

Lemma entry_inv_run inputs r : entry_inv r → entry_inv (Entry.run inputs r).
Proof.
  revert r. induction inputs as [|i inputs IH]; intros r Hinv; [done|].
  simpl. apply IH. by apply entry_inv_exec.
Qed.

(** While other calls run, a waiting slot stays waiting. *)
Lemma entry_waiting_others slot inputs r :
  slot ∈ Entry.waiting r → slot ∈ Entry.waiting (Entry.run (Entry.others slot inputs) r).
Proof.
  revert r. induction inputs as [|i inputs IH]; intros r Hw; [done|].
  unfold Entry.others. rewrite filter_cons.
  destruct (decide (Entry.isOther slot i)) as [Hoth|]; [|by apply IH].
  simpl. apply IH. destruct i as [name sc|entry slot' sc]; simpl.
  - destruct (Entry.checks sc); simpl; [done|]. apply elem_of_app. by left.
  - simpl in Hoth. apply bool_decide_unpack in Hoth.
    destruct (decide (slot' ∈ Entry.waiting r)); [|done]. simpl.
    apply list_elem_of_filter. split; [congruence|done].
Qed.

(** C8 (as amended): an [addEntry] call reserves its slot, other calls may
    start and finish meanwhile, and then its callback is called.  When the
    callback is called without an error, either it is given the module and
    the slot holds that module, or it is given none and the slot is gone
    from [preparedChunks].  When it is called with an error, which is the
    case with [bail], the slot is still there with no module.  A call that
    throws before it schedules anything leaves its slot behind as well.
    The callback is not called only when [addModule] throws on what the
    cache yields for the module of the factory, and the slot is then left
    behind in the same way. *)
Theorem addEntry_slot_when_called_back (bail : bool) (c : Store.Compilation)
    (before between : list Entry.Input) (entry : Dependency) (name : string)
    (sc : Entry.Scenario) :
  let r0 := Entry.run before (Entry.initial bail c) in
  let slot := Entry.nextSlot (Entry.state r0) in
  let r1 := Entry.exec r0 (Entry.Start name sc) in
  let r2 := Entry.run (Entry.others slot between) r1 in
  let o := (Entry.complete entry slot sc (Entry.state r2)).1 in
  let s3 := (Entry.complete entry slot sc (Entry.state r2)).2 in
  match Entry.checks sc with
  | Some _ => Entry.findSlot slot (Entry.state r1) = Some (Entry.mkSlot slot name None)
  | None =>
      match o with
      | Entry.CalledBack None (Some m) =>
          ∃ x, Entry.findSlot slot s3 = Some x ∧ Entry.slot_module x = Some m
      | Entry.CalledBack None None => Entry.findSlot slot s3 = None
      | Entry.CalledBack (Some _) module =>
          module = None
          ∧ ∃ x, Entry.findSlot slot s3 = Some x ∧ Entry.slot_module x = None
      | Entry.Threw message =>
          (∃ module,
             Entry.sc_factory sc = inr module
             ∧ (Store.addModule (Entry.sc_otherwise sc) module None
                  (Entry.store (Entry.state r2))).1 = Store.Threw message)
          ∧ s3 = Entry.state r2
          ∧ ∃ x, Entry.findSlot slot s3 = Some x ∧ Entry.slot_module x = None
      end
  end.
Proof.
  intros r0 slot r1 r2 o s3.
  assert (Hinv0 : entry_inv r0) by apply entry_inv_run, entry_inv_initial.
  assert (Hinv1 : entry_inv r1) by by apply entry_inv_exec.
  assert (Hnew : entry_holds (Entry.preparedChunks (Entry.state r1)) slot
                   (Entry.mkSlot slot name None)).
  { subst r1. simpl. destruct (Entry.checks sc); simpl;
      (split; [|done]); apply elem_of_app; right; left. }
  destruct (Entry.checks sc) as [message|] eqn:Hchecks.
  - destruct (entry_find_holds _ slot _ (entry_inv_nodup _ Hinv1) Hnew) as (i & Hfind & _).
    unfold Entry.findSlot. by rewrite Hfind.
  - assert (Hw1 : slot ∈ Entry.waiting r1).
    { subst r1. simpl. rewrite Hchecks. simpl. apply elem_of_app. right. left. }
    assert (Hinv2 : entry_inv r2) by by apply entry_inv_run.
    assert (Hw2 : slot ∈ Entry.waiting r2) by by apply entry_waiting_others.
    destruct (entry_inv_waiting _ Hinv2 slot Hw2) as (x & Hx & Hnone).
    pose proof (entry_inv_nodup _ Hinv2) as Hnd.
    destruct (entry_complete_slots (Entry.state r2) entry slot sc x Hnd Hx)
      as (_ & [(err & module & Ho & Hslots)|(message & module & Hf & Hadd & Hthrew)]).
    2:{ subst o s3. rewrite Hthrew. simpl. split; [by exists module|]. split; [done|].
        destruct (entry_find_holds _ slot x Hnd Hx) as (i & Hfind & _).
        exists x. unfold Entry.findSlot. by rewrite Hfind. }
    fold o in Ho. fold s3 in Hslots. rewrite Ho. unfold Entry.findSlot.
    destruct err as [e|]; [|destruct module as [m|]].
    + destruct Hslots as [-> Hslots]. split; [done|]. rewrite Hslots.
      destruct (entry_find_holds _ slot x Hnd Hx) as (i & Hfind & _).
      exists x. by rewrite Hfind.
    + rewrite Hslots. destruct Hx as [Hin Href].
      set (x' := Entry.mkSlot (Entry.slot_ref x) (Entry.slot_name x) (Some m)).
      destruct (entry_find_holds (Entry.setSlotModule slot m (Entry.preparedChunks (Entry.state r2)))
                  slot x') as (i & Hfind & _).
      * by rewrite entry_setSlotModule_refs.
      * split; [|done]. apply entry_setSlotModule_elem. exists x. split; [done|].
        by rewrite decide_True.
      * exists x'. by rewrite Hfind.
    + destruct Hslots as (i & Hi & Hslots). rewrite Hslots, entry_find_None; [done|].
      intros y Hy. apply (entry_delete_other _ i x) in Hy as [_ Hne]; [|done|done].
      destruct Hx as [_ Href]. congruence.
Qed.

(** C8 as stated fails when the factory fails and [bail] is set: the
    callback is called with the error, no module was produced, and the
    slot is neither filled nor removed; it stays in [preparedChunks] with
    its [module] still null. *)
Lemma addEntry_bail_factory_failure_keeps_slot :
  let r := Entry.addEntry (dependencyOn 0) "main" factoryFails
             (Entry.state (Entry.initial true emptyCompilation)) in
  r.1.1 = Entry.CalledBack
            (Some (mkError "EntryModuleNotFoundError"
                     "Entry module not found: Can't resolve './main'" None None)) None
  ∧ Entry.findSlot r.2 r.1.2 = Some (Entry.mkSlot r.2 "main" None)
  ∧ ¬ ((∃ x m, Entry.findSlot r.2 r.1.2 = Some x ∧ Entry.slot_module x = Some m)
       ∨ Entry.findSlot r.2 r.1.2 = None).
Proof.
  split; [by vm_compute|]. split; [by vm_compute|].
  intros [(x & m & Hx & Hm)|Hnone].
  - vm_compute in Hx. injection Hx as <-. discriminate.
  - vm_compute in Hnone. discriminate.
Qed.

(** Without [bail] the same failure is recorded and the slot is removed. *)
Example addEntry_factory_failure_without_bail :
  let r := Entry.addEntry (dependencyOn 0) "main" factoryFails
             (Entry.state (Entry.initial false emptyCompilation)) in
  r.1.1 = Entry.CalledBack None None
  ∧ Entry.preparedChunks r.1.2 = []
  ∧ length (Store.errors (Entry.store r.1.2)) = 1.
Proof. by vm_compute. Qed.

(** ** waitForBuildingFinished *)

Lemma build_ticks_drain cbs : ∀ s,
  Build.ticks s = cbs →
  Build.trace (Build.run (replicate (length cbs) Build.Tick) s)
  = Build.trace s ++ ((λ cb, Build.Called cb None) <$> cbs).
Proof.
  induction cbs as [|cb cbs IH]; intros s Ht.
  - simpl. by rewrite app_nil_r.
  - change (Build.run (replicate (length (cb :: cbs)) Build.Tick) s)
      with (Build.run (replicate (length cbs) Build.Tick) (Build.nextTick s)).
    assert (Build.ticks (Build.nextTick s) = cbs
            ∧ Build.trace (Build.nextTick s) = Build.trace s ++ [Build.Called cb None])
      as [Ht1 Htr1] by (unfold Build.nextTick; by rewrite Ht).
    rewrite (IH _ Ht1), Htr1, fmap_cons, <- app_assoc. done.
Qed.

(** C10: in every state the coordinator can reach, [waitForBuildingFinished]
    leads to its callback being called with no error value.  For a module
    whose build is in flight the callback joins the tracked array inside a
    wrapper; whatever that build calls back with, the [forEach] passes it to
    the wrapper and the wrapper calls the callback with nothing.  For a
    module that is not tracked the callback goes to the next tick, which
    calls it with nothing.  The duplicate path of [_addModuleChain] joins
    this way, so it reports the module and no error whatever became of the
    build it waited for. *)
Theorem waitForBuildingFinished_passes_no_error (inputs : list Build.Input)
    (m : ModuleRef) (cb : Build.CallbackRef) :
  let s := Build.run inputs Build.initial in
  let s' := Build.waitForBuildingFinished m cb s in
  match Build._buildingModules s !! m with
  | Some l =>
      Build.ticks s' = Build.ticks s
      ∧ Build.trace s' = Build.trace s
      ∧ ∃ ws i r,
          Build.lists s !! l = Some ws
          ∧ Build.lists s' !! l = Some (ws ++ [Build.Wrapped cb])
          ∧ Build.running s' !! i = Some r
          ∧ Build.r_module r = m ∧ Build.r_callbackList r = l
          ∧ ∀ error es wars,
              let done := Build.buildFinished i error es wars s' in
              Build.trace (Build.run (replicate (S (length ws)) Build.ForEachNext) done)
              = Build.trace done ++ ((λ w, Build.invoke w error) <$> ws)
                ++ [Build.Called cb None]
  | None =>
      Build.ticks s' = Build.ticks s ++ [cb]
      ∧ Build.trace s' = Build.trace s
      ∧ Build.trace (Build.run (replicate (S (length (Build.ticks s))) Build.Tick) s')
        = Build.trace s ++ ((λ c, Build.Called c None) <$> Build.ticks s)
          ++ [Build.Called cb None]
  end
  ∧ (∀ error, Build.invoke (Build.Wrapped cb) error = Build.Called cb None)
  ∧ (∀ entry sc st module existing,
       Entry.sc_factory sc = inr module →
       Store._modules (Entry.store st) !! Store.m_identifier module = Some existing →
       (Entry.afterFactory entry Entry.pushEntry sc st).1
       = Entry.CalledBack None (Some existing)).
Proof.
  intros s s'. assert (Hinv : build_inv s) by apply build_inv_run, build_inv_initial.
  split; [|split; [done|]].
  - destruct (Build._buildingModules s !! m) as [l|] eqn:Hm.
    + assert (s' = Build.push l (Build.Wrapped cb) s) as Hs'
        by (subst s'; unfold Build.waitForBuildingFinished; by rewrite Hm).
      destruct (build_inv_lists s Hinv m l Hm) as [[ws Hws] _].
      destruct (build_inv_running s Hinv m l Hm) as (i & r & Hi & Hmod & Hlist).
      assert (Hl' : Build.lists s' !! l = Some (ws ++ [Build.Wrapped cb])).
      { rewrite Hs'. unfold Build.push. simpl. rewrite lookup_alter_eq.
        transitivity ((λ ws0, ws0 ++ [Build.Wrapped cb]) <$> Some ws); [f_equal; exact Hws|done]. }
      split; [by rewrite Hs'|]. split; [by rewrite Hs'|].
      exists ws, i, r. split; [done|]. split; [done|].
      split; [by rewrite Hs'|]. split; [done|]. split; [done|].
      intros error es wars done.
      assert (Hf : Build.frames done = (ws ++ [Build.Wrapped cb], error) :: Build.frames s').
      { subst done. unfold Build.buildFinished.
        assert (Build.running s' !! i = Some r) as -> by by rewrite Hs'.
        simpl. rewrite Hlist.
        assert (Build.lists s' !! l = Some (ws ++ [Build.Wrapped cb])) as -> by exact Hl'.
        done. }
      destruct (build_forEach_drains _ done error _ Hf) as (Htr & _).
      rewrite length_app in Htr. simpl in Htr.
      replace (S (length ws)) with (length ws + 1) by lia.
      rewrite Htr, fmap_app. done.
    + assert (s' = Build.mkState (Build._buildingModules s) (Build.lists s) (Build.nextList s)
                     (Build.running s) (Build.frames s) (Build.ticks s ++ [cb])
                     (Build.errors s) (Build.warnings s) (Build.trace s)) as Hs'
        by (subst s'; unfold Build.waitForBuildingFinished; by rewrite Hm).
      split; [by rewrite Hs'|]. split; [by rewrite Hs'|].
      pose proof (build_ticks_drain (Build.ticks s ++ [cb]) s') as Hd.
      rewrite length_app in Hd. simpl in Hd.
      replace (S (length (Build.ticks s))) with (length (Build.ticks s) + 1) by lia.
      rewrite Hd by (by rewrite Hs'). rewrite fmap_app. by rewrite Hs'.
  - intros entry sc st module existing Hf Hex. unfold Entry.afterFactory.
    rewrite Hf. unfold Store.addModule, Store.getModule. rewrite Hex. simpl.
    by rewrite Hex.
Qed.

(** ** addModuleDependencies: a factory that fails *)

(** C7 (as amended): when [factory.create] fails for a group while the
    fan-out is live ([_this] is not null, that is, no group has reported an
    error to [forEach] yet and not all have reported), exactly one
    [ModuleNotFoundError] is recorded: in [warnings] when every dependency
    of the group is optional, and then the group's callback is called
    without an error whatever [bail] is; in [errors] otherwise, and then
    the group's callback is given the error exactly when [bail] is set.
    Once the fan-out is over, a failure only releases its permit. *)
Theorem addModuleDependencies_factory_failure
    (withModule : nat → list Dependency → Store.Module → FanOut.State → FanOut.State)
    (module : ModuleRef) (bail : bool) (item : nat) (dependencies : list Dependency)
    (err : Error) (dependentModule : option Store.Module) (s : FanOut.State) :
  let s' := FanOut.factoryCallback withModule module bail item dependencies
              (Some err) dependentModule s in
  let notFound := FanOut.ModuleNotFoundError module err dependencies in
  FanOut.released s' = S (FanOut.released s)
  ∧ if FanOut.live s then
      if forallb dep_optional dependencies then
        FanOut.warnings s' = FanOut.warnings s ++ [notFound]
        ∧ FanOut.errors s' = FanOut.errors s
        ∧ FanOut.itemCalls s' = FanOut.itemCalls s ++ [(item, None)]
      else
        FanOut.errors s' = FanOut.errors s ++ [notFound]
        ∧ FanOut.warnings s' = FanOut.warnings s
        ∧ FanOut.itemCalls s'
          = FanOut.itemCalls s ++ [(item, if bail then Some notFound else None)]
    else
      FanOut.errors s' = FanOut.errors s
      ∧ FanOut.warnings s' = FanOut.warnings s
      ∧ FanOut.itemCalls s' = FanOut.itemCalls s.
Proof.
  intros s' notFound. subst s' notFound. unfold FanOut.factoryCallback.
  destruct (FanOut.live s) eqn:Hlive; simpl; [|done].
  unfold FanOut.errorOrWarningAndCallback, FanOut.isOptional.
  destruct (forallb dep_optional dependencies).
  - unfold FanOut.warningAndCallback, FanOut.itemCallback, FanOut.final.
    cbn [FanOut.finished FanOut.completed FanOut.total FanOut.release].
    by destruct ((S (FanOut.completed s) =? FanOut.total s) && negb (FanOut.finished s)).
  - unfold FanOut.errorAndCallback, FanOut.itemCallback, FanOut.final.
    cbn [FanOut.finished FanOut.completed FanOut.total FanOut.release].
    destruct bail.
    + by destruct (FanOut.finished s).
    + by destruct ((S (FanOut.completed s) =? FanOut.total s) && negb (FanOut.finished s)).
Qed.

(** C7 as stated fails for a second failure under [bail]: two groups, both
    required, both factories fail.  The first failure is recorded and given
    to [forEach], whose final function sets [_this] to null; the second
    failure then finds [_this === null], records nothing and never calls
    its group's callback. *)
Lemma addModuleDependencies_second_failure_dropped :
  let s := FanOut.run noFurtherStep 7 true
             [FanOut.FactoryCallsBack 0 [dependencyOn 1] (Some (missing "./a")) None;
              FanOut.FactoryCallsBack 1 [dependencyOn 2] (Some (missing "./b")) None]
             (FanOut.start 2 [] []) in
  FanOut.errors s = [FanOut.ModuleNotFoundError 7 (missing "./a") [dependencyOn 1]]
  ∧ FanOut.warnings s = []
  ∧ FanOut.itemCalls s
    = [(0, Some (FanOut.ModuleNotFoundError 7 (missing "./a") [dependencyOn 1]))]
  ∧ FanOut.outerCalls s
    = [Some (FanOut.ModuleNotFoundError 7 (missing "./a") [dependencyOn 1])]
  ∧ FanOut.released s = 2.
Proof. vm_compute. done. Qed.

(** An optional group fails without [bail] and a required one after it:
    one warning, one error, both groups report success, and the caller is
    called back without an error on the next tick. *)
Example addModuleDependencies_optional_then_required :
  let s := FanOut.run noFurtherStep 7 false
             [FanOut.FactoryCallsBack 0 [mkDependency None true false] (Some (missing "./a")) None;
              FanOut.FactoryCallsBack 1 [dependencyOn 2] (Some (missing "./b")) None;
              FanOut.Tick]
             (FanOut.start 2 [] []) in
  length (FanOut.warnings s) = 1 ∧ length (FanOut.errors s) = 1
  ∧ FanOut.itemCalls s = [(0, None); (1, None)]
  ∧ FanOut.outerCalls s = [None].
Proof. vm_compute. done. Qed.

(** ** Part two of the chunk graph: the stored sets *)

Lemma intersectInPlace_foldl (available : gset ModuleRef) (l : list ModuleRef) :
  ∀ (set : gset ModuleRef) (deleted : bool),
    foldl (λ acc m, if decide (m ∈ available) then acc else (acc.1 ∖ {[m]}, true))
          (set, deleted) l
    = (set ∖ (list_to_set l ∖ available),
       deleted || negb (bool_decide (list_to_set l ⊆@{gset ModuleRef} available))).
Proof.
  induction l as [|m l IH]; intros set deleted.
  - simpl. f_equal; [set_solver|]. rewrite bool_decide_true by set_solver.
    by rewrite orb_false_r.
  - simpl. destruct (decide (m ∈ available)) as [Hin|Hnotin].
    + rewrite IH. f_equal; [set_solver|]. f_equal. f_equal.
      apply bool_decide_ext. set_solver.
    + rewrite IH. simpl. f_equal; [set_solver|].
      rewrite (bool_decide_false (_ ⊆ _)) by set_solver. by rewrite orb_true_r.
Qed.

Lemma intersectInPlace_eq (minAvailable available : gset ModuleRef) :
  Chunks.intersectInPlace minAvailable available
  = (minAvailable ∩ available, negb (bool_decide (minAvailable ⊆ available))).
Proof.
  unfold Chunks.intersectInPlace. rewrite intersectInPlace_foldl.
  rewrite list_to_set_elements_L. simpl. f_equal.
  apply set_eq. intros m. rewrite !elem_of_difference, elem_of_intersection.
  destruct (decide (m ∈ available)); tauto.
Qed.

Lemma chunks_connect_fold c deps s :
  Chunks.queue2 (foldl (λ acc dep, Chunks.connect c dep acc) s deps) = Chunks.queue2 s
  ∧ Chunks.minAvailableModulesMap (foldl (λ acc dep, Chunks.connect c dep acc) s deps)
    = Chunks.minAvailableModulesMap s.
Proof.
  revert s. induction deps as [|dep deps IH]; intros s; [done|].
  simpl. destruct (IH (Chunks.connect c dep s)) as [-> ->].
  unfold Chunks.connect.
  destruct (Chunks.addToCollection (Chunks.d_block dep) (Chunks.d_chunk dep) (Chunks.chunkBlocks s)).
  by destruct (Chunks.addToCollection (Chunks.d_chunk dep) c (Chunks.chunkChunks s)).
Qed.

Lemma chunks_nextChunks_elem deps c :
  c ∈ Chunks.nextChunks deps → ∃ dep, dep ∈ deps ∧ Chunks.d_chunk dep = c.
Proof.
  unfold Chunks.nextChunks.
  assert (∀ acc, c ∈ foldl (λ acc dep, if decide (Chunks.d_chunk dep ∈ acc) then acc
                                        else acc ++ [Chunks.d_chunk dep]) acc deps →
                 c ∈ acc ∨ ∃ dep, dep ∈ deps ∧ Chunks.d_chunk dep = c) as H.
  { induction deps as [|dep deps IH]; intros acc Hc; [by left|].
    simpl in Hc. apply IH in Hc as [Hc|(d & Hd & Heq)].
    - destruct (decide (Chunks.d_chunk dep ∈ acc)); [by left|].
      apply elem_of_app in Hc as [Hc|Hc]; [by left|].
      apply list_elem_of_singleton in Hc. right. exists dep. split; [left|done].
    - right. exists d. split; [by right|done]. }
  intros Hc. destruct (H [] Hc) as [Hnil|Hdep]; [by apply elem_of_nil in Hnil|done].
Qed.

(** What [traverse] does to the queue and to the stored sets: it only
    appends items, for chunks that edges of the walked chunk lead to. *)
Lemma chunks_traverse_effect g c available s :
  Chunks.minAvailableModulesMap (Chunks.traverse g c available s)
  = Chunks.minAvailableModulesMap s
  ∧ ∃ added,
      Chunks.queue2 (Chunks.traverse g c available s) = Chunks.queue2 s ++ added
      ∧ ∀ item, item ∈ added →
          ∃ deps dep, Chunks.chunkDependencies g !! c = Some deps ∧ dep ∈ deps
                      ∧ Chunks.d_chunk dep = Chunks.chunk item.
Proof.
  unfold Chunks.traverse.
  destruct (Chunks.chunkDependencies g !! c) as [[|dep0 deps]|] eqn:Hdeps;
    try (split; [done|]; exists []; split; [by rewrite app_nil_r|];
         intros item H; by apply elem_of_nil in H).
  set (newAvail := available ∪ Chunks.modulesOf g c).
  set (filtered := filter _ _).
  destruct (chunks_connect_fold c filtered s) as [Hq Hm]. simpl. rewrite Hq, Hm.
  split; [done|]. eexists. split; [done|].
  intros item Hitem. apply list_elem_of_fmap in Hitem as (next & -> & Hnext).
  apply chunks_nextChunks_elem in Hnext as (dep & Hdep & Heq).
  exists (dep0 :: deps), dep. split; [done|]. split; [|done].
  subst filtered. by apply list_elem_of_filter in Hdep as [_ Hdep].
Qed.

(** ** Part two of the chunk graph: termination *)

Lemma chunks_universe_closed g s : chunks_closed g (chunks_universe g s).
Proof.
  intros c deps dep Hc Hdep. unfold chunks_universe. apply elem_of_app. right.
  apply list_elem_of_bind. exists (c, deps). split.
  - simpl. by apply list_elem_of_fmap_2.
  - by apply elem_of_map_to_list.
Qed.

(** The three ways a dequeued item is dealt with. *)
Lemma chunks_visit_cases g item s :
  let s' := Chunks.visit g item s in
  (* the chunk is met for the first time *)
  (Chunks.minAvailableModulesMap s !! Chunks.chunk item = None
   ∧ Chunks.minAvailableModulesMap s'
     = <[Chunks.chunk item := Chunks.availableModules item]> (Chunks.minAvailableModulesMap s)
   ∧ s' = Chunks.traverse g (Chunks.chunk item) (Chunks.availableModules item)
            (Chunks.setMinAvailable (Chunks.chunk item) (Chunks.availableModules item) s))
  (* nothing was deleted: the item is skipped *)
  ∨ (∃ stored, Chunks.minAvailableModulesMap s !! Chunks.chunk item = Some stored
               ∧ stored ⊆ Chunks.availableModules item ∧ s' = s)
  (* the stored set shrank *)
  ∨ (∃ stored, Chunks.minAvailableModulesMap s !! Chunks.chunk item = Some stored
               ∧ stored ∩ Chunks.availableModules item ⊂ stored
               ∧ Chunks.minAvailableModulesMap s'
                 = <[Chunks.chunk item := stored ∩ Chunks.availableModules item]>
                     (Chunks.minAvailableModulesMap s)
               ∧ s' = Chunks.traverse g (Chunks.chunk item)
                        (stored ∩ Chunks.availableModules item)
                        (Chunks.setMinAvailable (Chunks.chunk item)
                           (stored ∩ Chunks.availableModules item) s)).
Proof.
  intros s'. subst s'. unfold Chunks.visit.
  destruct (Chunks.minAvailableModulesMap s !! Chunks.chunk item) as [stored|] eqn:Hm.
  - rewrite intersectInPlace_eq.
    destruct (decide (stored ⊆ Chunks.availableModules item)) as [Hsub|Hnsub].
    + right. left. exists stored. split; [done|]. split; [done|].
      rewrite bool_decide_true by done. simpl.
      assert (stored ∩ Chunks.availableModules item = stored) as -> by set_solver.
      unfold Chunks.setMinAvailable. rewrite insert_id by done. by destruct s.
    + right. right. exists stored. split; [done|].
      rewrite bool_decide_false by done. simpl.
      split; [|split; [|done]].
      * split; [set_solver|]. intros Hsub. apply Hnsub. set_solver.
      * by destruct (chunks_traverse_effect g (Chunks.chunk item)
                       (stored ∩ Chunks.availableModules item)
                       (Chunks.setMinAvailable (Chunks.chunk item)
                          (stored ∩ Chunks.availableModules item) s)) as [-> _].
  - left. split; [done|]. split; [|done].
    by destruct (chunks_traverse_effect g (Chunks.chunk item) (Chunks.availableModules item)
                   (Chunks.setMinAvailable (Chunks.chunk item)
                      (Chunks.availableModules item) s)) as [-> _].
Qed.

Lemma chunks_loop_unfold g fuel s s' :
  Chunks.step g s = Some s' → Chunks.loop g (S fuel) s = Chunks.loop g fuel s'.
Proof. intros H. simpl. by rewrite H. Qed.

Lemma chunks_loop_done g fuel s :
  Chunks.queue2 s = [] → Chunks.loop g fuel s = Some s.
Proof.
  intros H. assert (Chunks.step g s = None) as Hs by (unfold Chunks.step; by rewrite H).
  destruct fuel; simpl; by rewrite Hs.
Qed.

Lemma chunks_step_measure g (univ : list Chunks.ChunkRef) s item rest :
  chunks_closed g univ →
  Chunks.queue2 s = item :: rest →
  Forall (λ it, Chunks.chunk it ∈ univ) (Chunks.queue2 s) →
  let s' := Chunks.visit g item (Chunks.dequeued s rest) in
  Chunks.step g s = Some s'
  ∧ Forall (λ it, Chunks.chunk it ∈ univ) (Chunks.queue2 s')
  ∧ (unlabelled (Chunks.minAvailableModulesMap s') univ
       < unlabelled (Chunks.minAvailableModulesMap s) univ
     ∨ (unlabelled (Chunks.minAvailableModulesMap s') univ
          = unlabelled (Chunks.minAvailableModulesMap s) univ
        ∧ (label_total size (Chunks.minAvailableModulesMap s') univ
             < label_total size (Chunks.minAvailableModulesMap s) univ
           ∨ (label_total size (Chunks.minAvailableModulesMap s') univ
                = label_total size (Chunks.minAvailableModulesMap s) univ
              ∧ length (Chunks.queue2 s') < length (Chunks.queue2 s))))).
Proof.
  intros Hclosed Hq Hall s'. split; [unfold Chunks.step; by rewrite Hq|].
  rewrite Hq in Hall. apply Forall_cons in Hall as [Hitem Hrest].
  assert (Htrav : ∀ available t,
            Forall (λ it, Chunks.chunk it ∈ univ) (Chunks.queue2 t) →
            Forall (λ it, Chunks.chunk it ∈ univ)
                   (Chunks.queue2 (Chunks.traverse g (Chunks.chunk item) available t))).
  { intros available t Ht.
    destruct (chunks_traverse_effect g (Chunks.chunk item) available t)
      as (_ & added & -> & Hadded).
    apply Forall_app. split; [done|]. apply Forall_forall. intros it Hit.
    destruct (Hadded it Hit) as (deps & dep & Hdeps & Hdep & <-). by eapply Hclosed. }
  destruct (chunks_visit_cases g item (Chunks.dequeued s rest))
    as [(Hnone & Hmap & Hs')|[(stored & Hsome & Hsub & Hs')|(stored & Hsome & Hsub & Hmap & Hs')]];
    fold s' in Hs'; try fold s' in Hmap; simpl in *.
  - split; [rewrite Hs'; by apply Htrav|]. left. rewrite Hmap.
    by apply unlabelled_insert_lt.
  - rewrite Hs'. simpl. split; [done|]. right. split; [done|]. right. split; [done|].
    rewrite Hq. simpl. lia.
  - split; [rewrite Hs'; by apply Htrav|]. right. rewrite Hmap. split.
    + by eapply unlabelled_insert_same.
    + left. eapply label_total_insert_lt; [done|done|]. by apply subset_size.
Qed.

Lemma chunks_loop_terminates g s :
  ∃ fuel s', Chunks.loop g fuel s = Some s' ∧ Chunks.queue2 s' = [].
Proof.
  pose proof (chunks_universe_closed g s) as Hclosed.
  assert (Hall : Forall (λ it, Chunks.chunk it ∈ chunks_universe g s) (Chunks.queue2 s)).
  { apply Forall_forall. intros it Hit. unfold chunks_universe. apply elem_of_app. left.
    by apply list_elem_of_fmap_2. }
  revert Hclosed Hall. generalize (chunks_universe g s). intros univ Hclosed.
  cut (∀ u t len s,
          unlabelled (Chunks.minAvailableModulesMap s) univ = u →
          label_total size (Chunks.minAvailableModulesMap s) univ = t →
          length (Chunks.queue2 s) = len →
          Forall (λ it, Chunks.chunk it ∈ univ) (Chunks.queue2 s) →
          ∃ fuel s', Chunks.loop g fuel s = Some s' ∧ Chunks.queue2 s' = []).
  { intros H Hs. by eapply H. }
  clear s. induction u as [u IHu] using lt_wf_ind.
  induction t as [t IHt] using lt_wf_ind.
  induction len as [len IHlen] using lt_wf_ind.
  intros s Hu Ht Hlen Hall.
  destruct (Chunks.queue2 s) as [|item rest] eqn:Hq.
  { exists 0, s. split; [by apply chunks_loop_done|done]. }
  rewrite <- Hq in Hall, Hlen.
  destruct (chunks_step_measure g univ s item rest Hclosed Hq Hall) as (Hstep & Hall' & Hdec).
  set (s1 := Chunks.visit g item (Chunks.dequeued s rest)) in *.
  assert (∃ fuel s', Chunks.loop g fuel s1 = Some s' ∧ Chunks.queue2 s' = [])
    as (fuel & s' & Hrun & Hend).
  { destruct Hdec as [Hlt|[Heq [Hlt|[Heq' Hlt]]]].
    - apply (IHu (unlabelled (Chunks.minAvailableModulesMap s1) univ))
        with (t := label_total size (Chunks.minAvailableModulesMap s1) univ)
             (len := length (Chunks.queue2 s1)); [lia|done|done|done|done].
    - apply (IHt (label_total size (Chunks.minAvailableModulesMap s1) univ))
        with (len := length (Chunks.queue2 s1)); [lia|lia|done|done|done].
    - apply (IHlen (length (Chunks.queue2 s1))); [lia|lia|lia|done|done]. }
  exists (S fuel), s'. by rewrite (chunks_loop_unfold _ _ _ _ Hstep).
Qed.

Lemma chunks_step_shrinks g s s' c stored :
  Chunks.step g s = Some s' →
  Chunks.minAvailableModulesMap s !! c = Some stored →
  ∃ stored', Chunks.minAvailableModulesMap s' !! c = Some stored' ∧ stored' ⊆ stored.
Proof.
  unfold Chunks.step. destruct (Chunks.queue2 s) as [|item rest] eqn:Hq; [done|].
  intros [= <-] Hc.
  destruct (chunks_visit_cases g item (Chunks.dequeued s rest))
    as [(Hnone & Hmap & _)|[(old & Hsome & Hsub & ->)|(old & Hsome & Hsub & Hmap & _)]];
    simpl in *.
  - rewrite Hmap. exists stored. split; [|done].
    rewrite lookup_insert_ne; [done|]. intros Heq. rewrite Heq in Hnone. congruence.
  - by exists stored.
  - rewrite Hmap. destruct (decide (Chunks.chunk item = c)) as [Heq|Hne].
    + rewrite Heq in *. rewrite lookup_insert_eq. eexists. split; [done|].
      assert (old = stored) as -> by congruence. set_solver.
    + rewrite lookup_insert_ne by done. by exists stored.
Qed.

Lemma chunks_loop_shrinks g fuel : ∀ s s' c stored,
  Chunks.loop g fuel s = Some s' →
  Chunks.minAvailableModulesMap s !! c = Some stored →
  ∃ stored', Chunks.minAvailableModulesMap s' !! c = Some stored' ∧ stored' ⊆ stored.
Proof.
  induction fuel as [|fuel IH]; intros s s' c stored Hrun Hc.
  - simpl in Hrun. destruct (Chunks.step g s); [done|]. injection Hrun as <-. by exists stored.
  - destruct (Chunks.step g s) as [s1|] eqn:Hstep.
    + rewrite (chunks_loop_unfold _ _ _ _ Hstep) in Hrun.
      destruct (chunks_step_shrinks g s s1 c stored Hstep Hc) as (mid & Hmid & Hsub).
      destruct (IH s1 s' c mid Hrun Hmid) as (stored' & Hs' & Hsub').
      exists stored'. split; [done|]. set_solver.
    + simpl in Hrun. rewrite Hstep in Hrun. injection Hrun as <-. by exists stored.
Qed.

(** C4: part two terminates on every chunk graph part one can leave, with
    cycles or without, from every state of its queue and its stored sets.
    Along the way the stored minimal-availability set of a chunk only
    loses elements.  A dequeued item whose chunk has a stored set from
    which the incoming set removes nothing is dropped: the state
    afterwards is the state before without that item, so nothing is
    enqueued and nothing is connected.  An item that is not dropped either
    meets its chunk for the first time or makes the stored set strictly
    smaller. *)
Theorem partTwo_terminates_sets_shrink (g : Chunks.Graph) :
  (∀ s, ∃ fuel s', Chunks.loop g fuel s = Some s' ∧ Chunks.queue2 s' = [])
  ∧ (∀ inputChunks blocks, ∃ fuel s',
       Chunks.partTwo g fuel inputChunks blocks = Some s' ∧ Chunks.queue2 s' = [])
  ∧ (∀ fuel s s' c stored,
       Chunks.loop g fuel s = Some s' →
       Chunks.minAvailableModulesMap s !! c = Some stored →
       ∃ stored', Chunks.minAvailableModulesMap s' !! c = Some stored' ∧ stored' ⊆ stored)
  ∧ (∀ s item rest stored,
       Chunks.queue2 s = item :: rest →
       Chunks.minAvailableModulesMap s !! Chunks.chunk item = Some stored →
       stored ⊆ Chunks.availableModules item →
       Chunks.step g s = Some (Chunks.dequeued s rest))
  ∧ (∀ s item rest s',
       Chunks.queue2 s = item :: rest →
       Chunks.step g s = Some s' →
       s' = Chunks.dequeued s rest
       ∨ Chunks.minAvailableModulesMap s !! Chunks.chunk item = None
       ∨ ∃ stored stored',
           Chunks.minAvailableModulesMap s !! Chunks.chunk item = Some stored
           ∧ Chunks.minAvailableModulesMap s' !! Chunks.chunk item = Some stored'
           ∧ stored' ⊂ stored).
Proof.
  split; [apply chunks_loop_terminates|].
  split; [intros; apply chunks_loop_terminates|].
  split; [intros fuel; apply chunks_loop_shrinks|]. split.
  - intros s item rest stored Hq Hm Hsub. unfold Chunks.step. rewrite Hq. f_equal.
    destruct (chunks_visit_cases g item (Chunks.dequeued s rest))
      as [(Hnone & _)|[(old & _ & _ & Hs')|(old & Hsome & Hstrict & _)]]; simpl in *.
    + congruence.
    + done.
    + assert (old = stored) as -> by congruence. destruct Hstrict as [_ Hn].
      destruct Hn. set_solver.
  - intros s item rest s' Hq Hstep. unfold Chunks.step in Hstep. rewrite Hq in Hstep.
    injection Hstep as <-.
    destruct (chunks_visit_cases g item (Chunks.dequeued s rest))
      as [(Hnone & _)|[(old & _ & _ & Hs')|(old & Hsome & Hstrict & Hmap & _)]]; simpl in *.
    + right. by left.
    + by left.
    + right. right. exists old, (old ∩ Chunks.availableModules item).
      split; [done|]. split; [|done]. rewrite Hmap. by rewrite lookup_insert_eq.
Qed.

(** Two chunks that depend on each other through split points: the walk
    ends, and the edge back to the entry chunk is pruned because all of the
    entry chunk's modules are available there. *)
Example partTwo_on_a_cycle :
  let g := Chunks.mkGraph {[ 0 := [Chunks.mkDep 10 1]; 1 := [Chunks.mkDep 11 0] ]}
                          {[ 0 := {[100]}; 1 := {[101]} ]} in
  ∃ s, Chunks.partTwo g 10 [0] ∅ = Some s
       ∧ Chunks.queue2 s = []
       ∧ Chunks.chunkChunks s = {[ 0 := [1] ]}
       ∧ Chunks.chunkParents s = {[ 1 := [0] ]}
       ∧ Chunks.minAvailableModulesMap s = {[ 0 := ∅; 1 := {[100]} ]}.
Proof. eexists. split; [vm_compute; reflexivity|]. by vm_compute. Qed.

(** ** createHash *)

Lemma hash_rendered_insert length full rendered ref ref' h :
  ref = ref' ∨ hash_rendered length full rendered ref →
  hash_rendered length (<[ref' := h]> full)
                (<[ref' := String.substring 0 length h]> rendered) ref.
Proof.
  intros Hcase. unfold hash_rendered. destruct (decide (ref' = ref)) as [->|Hne].
  - exists h. by rewrite !lookup_insert_eq.
  - rewrite !lookup_insert_ne by done. by destruct Hcase as [->|H].
Qed.

Lemma hash_modules_rendered {E : Hash.Engine} (l : Hash.Listed E) (ms : list (Hash.Module E)) :
  ∀ hs,
    let hs' := foldl (Hash.hashModule l) hs ms in
    Hash.chunkHash hs' = Hash.chunkHash hs
    ∧ Hash.chunkRenderedHash hs' = Hash.chunkRenderedHash hs
    ∧ ∀ ref,
        (ref ∈ Hash.m_ref <$> ms
         ∨ hash_rendered (Hash.hashDigestLength l) (Hash.moduleHash hs)
             (Hash.moduleRenderedHash hs) ref) →
        hash_rendered (Hash.hashDigestLength l) (Hash.moduleHash hs')
          (Hash.moduleRenderedHash hs') ref.
Proof.
  induction ms as [|m ms IH]; intros hs.
  - simpl. split; [done|]. split; [done|]. intros ref [Hin|H]; [|done].
    by apply elem_of_nil in Hin.
  - simpl. destruct (IH (Hash.hashModule l hs m)) as (Hc & Hcr & Hm).
    split; [by rewrite Hc|]. split; [by rewrite Hcr|].
    intros ref Hcase. apply Hm.
    destruct Hcase as [[->|Hin]%elem_of_cons|Hold].
    + right. apply hash_rendered_insert. by left.
    + by left.
    + right. apply hash_rendered_insert. by right.
Qed.

Lemma hash_chunks_rendered {E : Hash.Engine} (l : Hash.Listed E)
    (plugins : list (Hash.Hashes → Hash.Chunk E → Hash.H E → Hash.H E))
    (cs : list (Hash.Chunk E)) :
  ∀ acc : Hash.Hashes * Hash.H E,
    Hash.moduleHash (foldl (Hash.hashChunk l plugins) acc cs).1 = Hash.moduleHash acc.1
    ∧ Hash.moduleRenderedHash (foldl (Hash.hashChunk l plugins) acc cs).1
      = Hash.moduleRenderedHash acc.1
    ∧ ∀ ref,
        (ref ∈ Hash.c_ref <$> cs
         ∨ hash_rendered (Hash.hashDigestLength l) (Hash.chunkHash acc.1)
             (Hash.chunkRenderedHash acc.1) ref) →
        hash_rendered (Hash.hashDigestLength l)
          (Hash.chunkHash (foldl (Hash.hashChunk l plugins) acc cs).1)
          (Hash.chunkRenderedHash (foldl (Hash.hashChunk l plugins) acc cs).1) ref.
Proof.
  induction cs as [|c cs IH]; intros acc.
  - split; [done|]. split; [done|]. intros ref [Hin|H]; [|done].
    by apply elem_of_nil in Hin.
  - change (foldl (Hash.hashChunk l plugins) acc (c :: cs))
      with (foldl (Hash.hashChunk l plugins) (Hash.hashChunk l plugins acc c) cs).
    destruct (IH (Hash.hashChunk l plugins acc c)) as (Hm & Hmr & Hc).
    destruct acc as [hs h]. unfold Hash.hashChunk in Hm, Hmr, Hc at 3 4. simpl in *.
    split; [done|]. split; [done|].
    intros ref Hcase. apply Hc.
    destruct Hcase as [[->|Hin]%elem_of_cons|Hold].
    + right. apply hash_rendered_insert. by left.
    + by left.
    + right. apply hash_rendered_insert. by right.
Qed.

Lemma compareStrings_cases a b :
  (Hash.compareStrings a b <= 0)%Z ↔ String.compare a b ≠ Gt.
Proof. unfold Hash.compareStrings. destruct (String.compare a b); split; (lia || done). Qed.

Lemma compareStrings_consistent : Hash.consistent Hash.compareStrings.
Proof.
  split.
  - intros a b. rewrite !compareStrings_cases.
    pose proof (OrderedTypeEx.String_as_OT.cmp_antisym a b) as Hanti.
    unfold OrderedTypeEx.String_as_OT.cmp in Hanti.
    destruct (String.compare a b), (String.compare b a); simpl in Hanti;
      try discriminate; (by left) || (by right).
  - intros a b c. rewrite !compareStrings_cases. intros Hab Hbc.
    destruct (String.compare a b) eqn:Eab; [|clear Hab|done].
    { apply OrderedTypeEx.String_as_OT.cmp_eq in Eab as ->. done. }
    destruct (String.compare b c) eqn:Ebc; [|clear Hbc|done].
    { apply OrderedTypeEx.String_as_OT.cmp_eq in Ebc as <-. by rewrite Eab. }
    apply OrderedTypeEx.String_as_OT.cmp_lt in Eab, Ebc.
    pose proof (OrderedTypeEx.String_as_OT.lt_trans _ _ _ Eab Ebc) as Hac.
    apply OrderedTypeEx.String_as_OT.cmp_lt in Hac.
    unfold OrderedTypeEx.String_as_OT.cmp in Hac. by rewrite Hac.
Qed.

Lemma compareStrings_antisym a b :
  (Hash.compareStrings a b <= 0)%Z → (Hash.compareStrings b a <= 0)%Z → a = b.
Proof.
  rewrite !compareStrings_cases. intros Hab Hba.
  pose proof (OrderedTypeEx.String_as_OT.cmp_antisym a b) as Hanti.
  unfold OrderedTypeEx.String_as_OT.cmp in Hanti.
  destruct (String.compare a b) eqn:Eab; [|exfalso|done].
  - by apply OrderedTypeEx.String_as_OT.cmp_eq in Eab.
  - destruct (String.compare b a); simpl in Hanti; done.
Qed.

(** The sorted keys of an object do not depend on the order [Object.keys]
    gives them in. *)
Lemma hash_sorted_keys (E : Hash.Engine) (keys1 keys2 : list string) :
  keys1 ≡ₚ keys2 →
  Hash.sort E string Hash.compareStrings keys1 = Hash.sort E string Hash.compareStrings keys2.
Proof.
  intros Hperm.
  apply (StronglySorted_unique_strong (λ a b, (Hash.compareStrings a b <= 0)%Z)).
  - intros x1 x2 _ _. apply compareStrings_antisym.
  - apply Hash.sort_sorted, compareStrings_consistent.
  - apply Hash.sort_sorted, compareStrings_consistent.
  - by rewrite !Hash.sort_permutes.
Qed.

Lemma hash_same_key {A} (l : list (string * A)) key x y :
  NoDup l.*1 → (key, x) ∈ l → (key, y) ∈ l → x = y.
Proof.
  induction l as [|[k z] l IH]; intros Hnd Hx Hy; [by apply elem_of_nil in Hx|].
  rewrite fmap_cons in Hnd. apply NoDup_cons in Hnd as [Hk Hnd]. simpl in Hk.
  apply elem_of_cons in Hx as [Hx|Hx]; apply elem_of_cons in Hy as [Hy|Hy].
  - congruence.
  - injection Hx as -> ->. destruct Hk. apply list_elem_of_fmap. by exists (k, y).
  - injection Hy as -> ->. destruct Hk. apply list_elem_of_fmap. by exists (k, x).
  - by apply IH.
Qed.

(** [this.moduleTemplates[key]] does not depend on that order either. *)
Lemma hash_template_of_key {A} (l1 l2 : list (string * A)) key :
  NoDup l1.*1 → l1 ≡ₚ l2 →
  snd <$> list_find (λ kt : string * A, kt.1 = key) l1
  = snd <$> list_find (λ kt : string * A, kt.1 = key) l2.
Proof.
  intros Hnd Hperm.
  assert (NoDup l2.*1) as Hnd2 by (by rewrite <- Hperm).
  destruct (list_find (λ kt : string * A, kt.1 = key) l1) as [[i [k1 t1]]|] eqn:H1;
    destruct (list_find (λ kt : string * A, kt.1 = key) l2) as [[j [k2 t2]]|] eqn:H2;
    simpl; [|exfalso..|done].
  - apply list_find_Some in H1 as (Hi & Hk1 & _). apply list_find_Some in H2 as (Hj & Hk2 & _).
    simpl in *. subst k1 k2. f_equal. f_equal.
    apply (hash_same_key l2 key); [done| |by eapply list_elem_of_lookup_2].
    rewrite <- Hperm. by eapply list_elem_of_lookup_2.
  - apply list_find_Some in H1 as (Hi & Hk1 & _). simpl in Hk1.
    apply list_find_None in H2. rewrite Forall_forall in H2.
    apply (H2 (k1, t1)); [|done]. rewrite <- Hperm. by eapply list_elem_of_lookup_2.
  - apply list_find_Some in H2 as (Hj & Hk2 & _). simpl in Hk2.
    apply list_find_None in H1. rewrite Forall_forall in H1.
    apply (H1 (k2, t2)); [|done]. rewrite Hperm. by eapply list_elem_of_lookup_2.
Qed.

Lemma hash_foldl_ext {A B} (f g : A → B → A) (l : list B) :
  (∀ a b, f a b = g a b) → ∀ a, foldl f a l = foldl g a l.
Proof.
  intros Hfg. induction l as [|b l IH]; intros a; [done|]. simpl. by rewrite Hfg, IH.
Qed.

Lemma hash_foldl_fmap {A B C} (f : A → C → A) (g : B → C) (l : list B) :
  ∀ a, foldl (λ a b, f a (g b)) a l = foldl f a (g <$> l).
Proof. induction l as [|b l IH]; intros a; [done|]. simpl. by rewrite IH. Qed.

(** C6 (as amended): [createHash] reads nothing but what the claim lists
    and the handlers of the ["chunk-hash"] hook, and of what the claim
    lists it reads no more than the four output options, the templates by
    the sorted keys, the hash of each child, the message of each warning
    and error, and the modules and chunks with the hash fields they carry.
    Two compilations that agree on these and on the handlers get the same
    hash and rendered hash for every module and chunk, the same [fullHash]
    and the same [hash], whatever else they hold: an earlier [fullHash],
    [hash] or assets, the keys of [moduleTemplates] in another order, other
    child objects, and warnings and errors that differ in more than the
    message.  Every module and every chunk ends with a [renderedHash] that
    is its [hash] cut to [hashDigestLength] characters, and [hash] is
    [fullHash] cut the same way. *)
Theorem createHash_deterministic (E : Hash.Engine) (l1 l2 : Hash.Listed E)
    (plugins : list (Hash.Hashes → Hash.Chunk E → Hash.H E → Hash.H E))
    (fullHash1 hash1 fullHash2 hash2 : option string) (assets1 assets2 : gmap string string) :
  hash_agree l1 l2 →
  let c1 := Hash.createHash (Hash.mkCompilation E l1 plugins fullHash1 hash1 assets1) in
  let c2 := Hash.createHash (Hash.mkCompilation E l2 plugins fullHash2 hash2 assets2) in
  let hs := Hash.hashes (Hash.listed c1) in
  Hash.hashes (Hash.listed c1) = Hash.hashes (Hash.listed c2)
  ∧ Hash.fullHash c1 = Hash.fullHash c2
  ∧ Hash.hash c1 = Hash.hash c2
  ∧ (∀ m, m ∈ Hash.modules l1 →
       hash_rendered (Hash.hashDigestLength l1) (Hash.moduleHash hs)
         (Hash.moduleRenderedHash hs) (Hash.m_ref m))
  ∧ (∀ c, c ∈ Hash.chunks l1 →
       hash_rendered (Hash.hashDigestLength l1) (Hash.chunkHash hs)
         (Hash.chunkRenderedHash hs) (Hash.c_ref c))
  ∧ ∃ full, Hash.fullHash c1 = Some full
            ∧ Hash.hash c1 = Some (String.substring 0 (Hash.hashDigestLength l1) full).
Proof.
  intros [Hfun Hdig Hlen Hsalt Hmain Hchunk Hkeys Htemplates Hchildren Hwarnings Herrors
            Hmodules Hchunks Hhashes] c1 c2 hs.
  subst c1 c2 hs. unfold Hash.createHash. simpl.
  rewrite <- Hfun, <- Hdig, <- Hlen, <- Hsalt, <- Hmain, <- Hchunk, <- Hmodules, <- Hchunks,
    <- Hhashes.
  rewrite !(hash_foldl_fmap (Hash.update E) Hash.child_hash),
    !(hash_foldl_fmap (Hash.update E) err_message).
  rewrite <- Hchildren, <- Hwarnings, <- Herrors.
  rewrite <- (hash_sorted_keys E _ _ (fmap_Permutation fst _ _ Htemplates)).
  rewrite <- (hash_foldl_ext
                (λ h key, match list_find (λ kt, kt.1 = key) (Hash.moduleTemplates l1) with
                          | Some (_, (_, template)) => Hash.t_updateHash template h
                          | None => h
                          end)
                (λ h key, match list_find (λ kt, kt.1 = key) (Hash.moduleTemplates l2) with
                          | Some (_, (_, template)) => Hash.t_updateHash template h
                          | None => h
                          end)).
  2:{ intros h key.
      pose proof (hash_template_of_key _ _ key Hkeys Htemplates) as Hkey.
      destruct (list_find _ (Hash.moduleTemplates l1)) as [[i [k1 t1]]|];
        destruct (list_find _ (Hash.moduleTemplates l2)) as [[j [k2 t2]]|];
        simpl in Hkey; congruence. }
  set (h0 := foldl (Hash.update E) _ (err_message <$> Hash.errors l1)).
  rewrite <- (hash_foldl_ext (Hash.hashModule l1) (Hash.hashModule l2)).
  2:{ intros hs m. unfold Hash.hashModule. by rewrite Hfun, Hdig, Hlen. }
  set (hs0 := foldl (Hash.hashModule l1) (Hash.hashes l1) (Hash.modules l1)).
  set (sorted := Hash.sort E (Hash.Chunk E) Hash.byRuntime (Hash.chunks l1)).
  rewrite <- (hash_foldl_ext (Hash.hashChunk l1 plugins) (Hash.hashChunk l2 plugins)).
  2:{ intros [hs h] c. unfold Hash.hashChunk. by rewrite Hfun, Hdig, Hlen, Hsalt, Hmain, Hchunk. }
  destruct (hash_modules_rendered l1 (Hash.modules l1) (Hash.hashes l1)) as (_ & _ & Hmods).
  fold hs0 in Hmods.
  destruct (hash_chunks_rendered l1 plugins sorted (hs0, h0)) as (Hm & Hmr & Hchunks').
  destruct (foldl (Hash.hashChunk l1 plugins) (hs0, h0) sorted) as [hs1 h1]. simpl in *.
  split; [done|]. split; [done|]. split; [done|]. split; [|split].
  - intros m Hin. rewrite Hm, Hmr. apply Hmods. left. by apply list_elem_of_fmap_2.
  - intros c Hin. apply Hchunks'. left. apply list_elem_of_fmap_2.
    subst sorted. by rewrite Hash.sort_permutes.
  - by eexists.
Qed.

Lemma createHash_deterministic_witness :
  let c1 := Hash.createHash
              (Hash.mkCompilation transcriptEngine
                 (twoChunks ["webassembly"; "javascript"] 7 None) [] None None ∅) in
  let c2 := Hash.createHash
              (Hash.mkCompilation transcriptEngine
                 (twoChunks ["javascript"; "webassembly"] 8 (Some 3)) []
                 (Some "old") (Some "old") {[ "main.js" := "source" ]}) in
  let hs := Hash.hashes (Hash.listed c1) in
  Hash.hashes (Hash.listed c1) = Hash.hashes (Hash.listed c2)
  ∧ Hash.fullHash c1 = Hash.fullHash c2
  ∧ Hash.hash c1 = Hash.hash c2
  ∧ (∀ m, m ∈ Hash.modules (twoChunks ["webassembly"; "javascript"] 7 None) →
       hash_rendered (Hash.hashDigestLength (twoChunks ["webassembly"; "javascript"] 7 None))
         (Hash.moduleHash hs) (Hash.moduleRenderedHash hs) (Hash.m_ref m))
  ∧ (∀ c, c ∈ Hash.chunks (twoChunks ["webassembly"; "javascript"] 7 None) →
       hash_rendered (Hash.hashDigestLength (twoChunks ["webassembly"; "javascript"] 7 None))
         (Hash.chunkHash hs) (Hash.chunkRenderedHash hs) (Hash.c_ref c))
  ∧ ∃ full, Hash.fullHash c1 = Some full
            ∧ Hash.hash c1
              = Some (String.substring 0
                        (Hash.hashDigestLength (twoChunks ["webassembly"; "javascript"] 7 None))
                        full).
Proof.
  apply (createHash_deterministic transcriptEngine
           (twoChunks ["webassembly"; "javascript"] 7 None)
           (twoChunks ["javascript"; "webassembly"] 8 (Some 3)) []
           None None (Some "old") (Some "old") ∅ {[ "main.js" := "source" ]}).
  split; try reflexivity.
  - simpl. apply NoDup_cons. split; [|apply NoDup_singleton].
    intros Hin. apply list_elem_of_singleton in Hin. discriminate.
  - simpl. apply Permutation_swap.
Defined.

(** What the hash objects are fed, in order, read off the transparent
    engine: the hash of the compilation gets the salt, the two templates,
    the module templates by sorted key, the hash of the child, the messages
    of the warning and of the error, and then the hashes of the chunks, the
    chunk without runtime first although it is listed second; a chunk hash
    is salted, a module hash is not. *)
Example createHash_transcript :
  let c := Hash.createHash
             (Hash.mkCompilation transcriptEngine
                (twoChunks ["webassembly"; "javascript"] 7 None) [] None None ∅) in
  let hs := Hash.hashes (Hash.listed c) in
  Hash.fullHash c
  = Some ("md5,salt,main,chunk,javascript,webassembly,child-hash,careful,broken,"
          +:+ "md5,salt,chunk-1,chunk-chunk," +:+ "md5,salt,chunk-0,main-chunk")
  ∧ Hash.hash c = Some "md5,sa"
  ∧ Hash.moduleHash hs = {[ 0 := "md5,module-0" ]}
  ∧ Hash.chunkHash hs
    = {[ 0 := "md5,salt,chunk-0,main-chunk"; 1 := "md5,salt,chunk-1,chunk-chunk" ]}
  ∧ Hash.chunkRenderedHash hs = {[ 0 := "md5,sa"; 1 := "md5,sa" ]}.
Proof. by vm_compute. Qed.

(** C6 as stated fails: two compilations with the same modules, chunks,
    children, errors, warnings, templates and output options, one of them
    with a handler on the ["chunk-hash"] hook that feeds the chunk's hash
    object, get different chunk hashes, a different [fullHash] and a
    different [hash]. *)
Lemma createHash_depends_on_chunk_hash_handlers :
  let quiet := Hash.createHash (Hash.mkCompilation transcriptEngine oneChunk [] None None ∅) in
  let tapped :=
    Hash.createHash
      (Hash.mkCompilation transcriptEngine oneChunk [λ _ _ h, h ++ ["tapped"]] None None ∅) in
  Hash.chunkHash (Hash.hashes (Hash.listed quiet)) !! 0
    ≠ Hash.chunkHash (Hash.hashes (Hash.listed tapped)) !! 0
  ∧ Hash.fullHash quiet ≠ Hash.fullHash tapped
  ∧ Hash.hash quiet ≠ Hash.hash tapped.
Proof.
  split; [|split]; intros Heq; vm_compute in Heq; discriminate.
Qed.

(** ** addModule, getModule and findModule *)

Lemma store_listed_insert c identifier m cache' errs wars calls' :
  Store._modules c !! identifier = None → store_listed c →
  store_listed (Store.mkCompilation (<[identifier := m]> (Store._modules c))
                  (Store.modules c ++ [m]) cache' (Store.fileTimestamps c)
                  (Store.contextTimestamps c) errs wars calls').
Proof.
  unfold store_listed. simpl. intros Hnone Hl.
  rewrite map_to_list_insert by done. simpl.
  rewrite <- Hl. by rewrite Permutation_app_comm.
Qed.

Lemma store_listed_addModule otherwise module cacheGroup c :
  store_listed c → store_listed (Store.addModule otherwise module cacheGroup c).2.
Proof.
  intros Hl. unfold Store.addModule.
  destruct (Store._modules c !! Store.m_identifier module) eqn:Hm; [done|].
  destruct (Store.cached otherwise c _) as [[cm|]|]; simpl.
  - destruct (Store.needRebuild c cm); simpl.
    + unfold Store.insertModule. simpl. by apply (store_listed_insert c).
    + by apply (store_listed_insert c).
  - destruct (Store.fileTimestamps c) eqn:Hft;
      [destruct (Store.contextTimestamps c) eqn:Hct|]; simpl; [done|..];
      unfold Store.insertModule; simpl; by apply (store_listed_insert c).
  - unfold Store.insertModule. by apply (store_listed_insert c).
Qed.

Lemma store_addModule_outcome otherwise module cacheGroup c :
  let r := Store.addModule otherwise module cacheGroup c in
  let identifier := Store.m_identifier module in
  (∀ identifier m, Store._modules c !! identifier = Some m →
                   Store._modules r.2 !! identifier = Some m)
  ∧ match r.1 with
    | Store.Duplicate => r.2 = c ∧ is_Some (Store._modules c !! identifier)
    | Store.FromCache cacheModule =>
        Store._modules c !! identifier = None
        ∧ Store._modules r.2 = <[identifier := cacheModule]> (Store._modules c)
        ∧ Store.errors r.2 = Store.errors c ++ Store.m_errors cacheModule
    | Store.Added =>
        Store._modules c !! identifier = None
        ∧ Store._modules r.2 = <[identifier := module]> (Store._modules c)
        ∧ Store.errors r.2 = Store.errors c
    | Store.Threw _ => r.2 = c ∧ Store._modules c !! identifier = None
    end.
Proof.
  simpl. unfold Store.addModule.
  destruct (Store._modules c !! Store.m_identifier module) as [m|] eqn:Hm; simpl.
  - split; [done|]. split; [done|]. by eexists.
  - assert (∀ x identifier m, Store._modules c !! identifier = Some m →
              <[Store.m_identifier module := x]> (Store._modules c) !! identifier = Some m)
      as Hkeep.
    { intros x identifier m H. rewrite lookup_insert_ne; [done|]. intros <-. congruence. }
    destruct (Store.cached otherwise c _) as [[cm|]|]; simpl.
    + destruct (Store.needRebuild c cm); simpl; (split; [apply Hkeep|done]).
    + destruct (Store.fileTimestamps c); [destruct (Store.contextTimestamps c)|]; simpl;
        [done|..]; (split; [apply Hkeep|done]).
    + split; [apply Hkeep|done].
Qed.

(** X1: after [addModule(module, cacheGroup)], whatever it returned,
    [getModule(module)] and [findModule(module.identifier())] give the module
    registered under the identifier: the one that was there before for
    [false], the cached instance for a cache hit, the given module for
    [true]; and a second [addModule] for the same module, with any cache
    group and whatever the cache yields then, returns [false] and changes
    nothing.  When [addModule] throws, nothing has changed and no module
    is registered under the identifier. *)
Theorem addModule_then_getModule (otherwise later : string → option Store.Cached)
    (module : Store.Module) (cacheGroup again : option string) (c : Store.Compilation) :
  let r := Store.addModule otherwise module cacheGroup c in
  Store.findModule (Store.m_identifier module) r.2 = Store.getModule module r.2
  ∧ match r.1 with
    | Store.Duplicate =>
        Store.getModule module r.2 = Some (default module (Store.getModule module c))
    | Store.FromCache cacheModule => Store.getModule module r.2 = Some cacheModule
    | Store.Added => Store.getModule module r.2 = Some module
    | Store.Threw _ => r.2 = c ∧ Store.getModule module c = None
    end
  ∧ ((∀ message, r.1 ≠ Store.Threw message) →
     Store.addModule later module again r.2 = (Store.Duplicate, r.2)).
Proof.
  simpl. split; [done|].
  assert (∀ c', is_Some (Store._modules c' !! Store.m_identifier module) →
                Store.addModule later module again c' = (Store.Duplicate, c')) as Hdup.
  { intros c' [m Hm]. unfold Store.addModule. by rewrite Hm. }
  pose proof (store_addModule_outcome otherwise module cacheGroup c) as Hout.
  destruct (Store.addModule otherwise module cacheGroup c) as [r c1]. simpl in *.
  destruct Hout as [_ Hout]. unfold Store.getModule.
  destruct r as [|cm| |message].
  - destruct Hout as [-> [m Hm]]. rewrite Hm. split; [done|]. intros _. apply Hdup. by eexists.
  - destruct Hout as (_ & Hc1 & _). rewrite Hc1, lookup_insert_eq. split; [done|].
    intros _. apply Hdup. rewrite Hc1, lookup_insert_eq. by eexists.
  - destruct Hout as (_ & Hc1 & _). rewrite Hc1, lookup_insert_eq. split; [done|].
    intros _. apply Hdup. rewrite Hc1, lookup_insert_eq. by eexists.
  - split; [done|]. intros Hne. by destruct (Hne message).
Qed.

(** X2: starting with no modules, after any sequence of [addModule] calls,
    whatever the cache yields at each of them, the array [modules] lists
    exactly the values of the map [_modules], each once; so the array is as
    long as the map is large. *)
Theorem addModule_modules_list_the_map (cache : option (gmap string Store.Module))
    (fileTimestamps contextTimestamps : option Store.Timestamps)
    (errors warnings : list Error) (calls : list Store.Call)
    (adds : list ((string → option Store.Cached) * Store.Module * option string)) :
  let c := foldl (λ c add, (Store.addModule add.1.1 add.1.2 add.2 c).2)
             (Store.mkCompilation ∅ [] cache fileTimestamps contextTimestamps
                errors warnings calls) adds in
  Store.modules c ≡ₚ (map_to_list (Store._modules c)).*2
  ∧ length (Store.modules c) = size (Store._modules c).
Proof.
  simpl.
  set (c0 := Store.mkCompilation ∅ [] cache fileTimestamps contextTimestamps errors warnings
               calls).
  assert (store_listed c0) as H0.
  { unfold store_listed. simpl. by rewrite map_to_list_empty. }
  assert (∀ c, store_listed c →
            store_listed (foldl (λ c add, (Store.addModule add.1.1 add.1.2 add.2 c).2) c adds))
    as Hrun.
  { induction adds as [|add adds IH]; intros c Hc; [done|].
    simpl. apply IH. by apply store_listed_addModule. }
  specialize (Hrun c0 H0). split; [exact Hrun|].
  rewrite Hrun, length_fmap. apply length_map_to_list.
Qed.

(** X3: what [addModule] stores in the cache is found again.  When a
    compilation with a cache added a module (it returned [true]), a later
    compilation that starts empty with that cache and with both timestamp
    maps, for which the module needs no rebuild, gets that very module back
    from [addModule] for any module of the same identifier and cache group,
    whatever else the cache yields. *)
Theorem addModule_cache_round_trip (otherwise later : string → option Store.Cached)
    (module other : Store.Module) (cacheGroup : option string)
    (c : Store.Compilation) (ft ct : Store.Timestamps) :
  is_Some (Store.cache c) →
  (Store.addModule otherwise module cacheGroup c).1 = Store.Added →
  Store.m_identifier other = Store.m_identifier module →
  Store.m_needRebuild module ft ct = false →
  (Store.addModule later other cacheGroup
     (Store.mkCompilation ∅ [] (Store.cache (Store.addModule otherwise module cacheGroup c).2)
        (Some ft) (Some ct) [] [] [])).1
  = Store.FromCache module.
Proof.
  intros [entries Hcache] Hadded Hid Hfresh.
  assert (Store.cache (Store.addModule otherwise module cacheGroup c).2
          = Some (<[Store.cacheName cacheGroup (Store.m_identifier module) := module]> entries))
    as Hc.
  { revert Hadded. unfold Store.addModule.
    destruct (Store._modules c !! Store.m_identifier module); [done|].
    destruct (Store.cached otherwise c _) as [[cm|]|]; simpl.
    - destruct (Store.needRebuild c cm); simpl; [|done]. by rewrite Hcache.
    - destruct (Store.fileTimestamps c); [destruct (Store.contextTimestamps c)|]; simpl;
        [done|..]; by rewrite Hcache.
    - by rewrite Hcache. }
  rewrite Hc. unfold Store.addModule. simpl. rewrite lookup_empty.
  unfold Store.cached. simpl. rewrite Hid, lookup_insert_eq.
  unfold Store.needRebuild. simpl. by rewrite Hfresh.
Qed.

Lemma addModule_cache_round_trip_witness :
  (Store.addModule (λ _, None) (Store.mkModule 2 "String" [] [] (λ _ _, true)) (Some "to")
     (Store.mkCompilation ∅ []
        (Store.cache
           (Store.addModule
              (λ name, if inheritedByObjects name then Some Store.NoModule else None)
              (Store.mkModule 1 "String" [] [] (λ _ _, false)) (Some "to")
              (Store.mkCompilation ∅ [] (Some ∅) None None [] [] [])).2)
        (Some ∅) (Some ∅) [] [] [])).1
  = Store.FromCache (Store.mkModule 1 "String" [] [] (λ _ _, false)).
Proof.
  apply (addModule_cache_round_trip
           (λ name, if inheritedByObjects name then Some Store.NoModule else None)
           (λ _, None)
           (Store.mkModule 1 "String" [] [] (λ _ _, false))
           (Store.mkModule 2 "String" [] [] (λ _ _, true)) (Some "to")
           (Store.mkCompilation ∅ [] (Some ∅) None None [] [] []) ∅ ∅).
  - by eexists.
  - reflexivity.
  - reflexivity.
  - reflexivity.
Defined.

(** ** buildModule: whose flags count *)

(** X4: the flags of the call that starts a build are the ones that count.
    When a module is not being built, a [buildModule] call for it starts the
    build and a second call for it only joins; when the build ends, the
    module's errors go to [errors], or to [warnings] when the first call said
    [optional], stamped with the origin and the dependencies of the first
    call, whatever the second call passed; and both callbacks wait in the
    same list, the first caller's first. *)
Theorem buildModule_first_caller_decides_severity (s : Build.State) (module : ModuleRef)
    (optional optional' : bool) (origin origin' : option ModuleRef)
    (dependencies dependencies' : option (list Dependency))
    (thisCallback thisCallback' : Build.CallbackRef)
    (error : option Error) (moduleErrors moduleWarnings : list Error) :
  Build._buildingModules s !! module = None →
  let joined := Build.buildModule module optional' origin' dependencies' thisCallback'
                  (Build.buildModule module optional origin dependencies thisCallback s) in
  let finished := Build.buildFinished (length (Build.running s)) error
                    moduleErrors moduleWarnings joined in
  Build.inFlight module joined = S (Build.inFlight module s)
  ∧ Build.errors finished
    = Build.errors s
      ++ (if optional then [] else Build.stamp origin dependencies <$> moduleErrors)
  ∧ Build.warnings finished
    = Build.warnings s
      ++ (if optional then Build.stamp origin dependencies <$> moduleErrors else [])
      ++ (Build.stamp origin dependencies <$> moduleWarnings)
  ∧ ∃ rest, Build.frames finished
            = ([Build.Direct thisCallback; Build.Direct thisCallback'], error) :: rest.
Proof.
  intros Hnone. simpl.
  set (r := Build.mkRunning module optional origin dependencies (Build.nextList s)).
  assert (Build.buildModule module optional origin dependencies thisCallback s
          = Build.mkState (<[module := Build.nextList s]> (Build._buildingModules s))
              (<[Build.nextList s := [Build.Direct thisCallback]]> (Build.lists s))
              (S (Build.nextList s)) (Build.running s ++ [r]) (Build.frames s)
              (Build.ticks s) (Build.errors s) (Build.warnings s)
              ((Build.trace s ++ [Build.Plugin "build-module" module])
               ++ [Build.BuildStarted module])) as ->.
  { unfold Build.buildModule. simpl. by rewrite Hnone. }
  unfold Build.buildModule. simpl. rewrite lookup_insert_eq. simpl.
  split.
  - unfold Build.inFlight. simpl. rewrite filter_app, length_app.
    rewrite filter_cons_True by done. simpl. lia.
  - unfold Build.buildFinished. simpl.
    rewrite lookup_app_r by lia. rewrite Nat.sub_diag. simpl.
    rewrite lookup_alter_eq, lookup_insert_eq. simpl.
    destruct optional; simpl.
    + split; [by rewrite app_nil_r|]. split; [by rewrite app_assoc|]. by eexists.
    + split; [done|]. split; [done|]. by eexists.
Qed.

Lemma buildModule_first_caller_decides_severity_witness :
  let joined := Build.buildModule 7 false (Some 1) None 2
                  (Build.buildModule 7 true None None 1 Build.initial) in
  let finished := Build.buildFinished 0 None [missing "x"] [] joined in
  Build.inFlight 7 joined = 1
  ∧ Build.errors finished = []
  ∧ Build.warnings finished = [Build.stamp None None (missing "x")]
  ∧ ∃ rest, Build.frames finished = ([Build.Direct 1; Build.Direct 2], None) :: rest.
Proof.
  exact (buildModule_first_caller_decides_severity Build.initial 7 true false None (Some 1)
           None None 1 2 None [missing "x"] [] eq_refl).
Defined.

(** ** processModuleDependencies: the groups *)

Section grouping_facts.

Context (isEqualResource : Dependency → Dependency → bool).

Lemma addDependency_members dep groups :
  (Grouping.addDependency isEqualResource dep groups ≫= group_members)
  ≡ₚ (groups ≫= group_members) ++ [dep].
Proof.
  induction groups as [|[first more] rest IH]; [done|].
  simpl. destruct (isEqualResource dep first).
  - rewrite !bind_cons. unfold group_members at 1 3. simpl.
    rewrite <- !app_assoc. do 2 f_equiv. apply Permutation_app_comm.
  - rewrite !bind_cons, IH. by rewrite <- app_assoc.
Qed.

Lemma addDependency_sorted dep groups :
  groups_sorted isEqualResource groups →
  groups_sorted isEqualResource (Grouping.addDependency isEqualResource dep groups).
Proof.
  induction groups as [|[first more] rest IH]; intros Hs.
  - intros j group Hj. destruct j as [|j]; [|done]. injection Hj as <-. simpl.
    split; [constructor|]. intros i earlier d Hi. lia.
  - assert (groups_sorted isEqualResource rest) as Hrest.
    { intros j group Hj. destruct (Hs (S j) group Hj) as [H1 H2]. split; [done|].
      intros i earlier d Hi He Hd. apply (H2 (S i) earlier d); [lia|done..]. }
    simpl. destruct (isEqualResource dep first) eqn:Heq.
    + intros j group Hj. destruct j as [|j].
      * injection Hj as <-. simpl. split; [|intros i earlier d Hi; lia].
        apply Forall_app. split; [|by constructor].
        by destruct (Hs 0 (first, more) eq_refl).
      * destruct (Hs (S j) group Hj) as [H1 H2]. split; [done|].
        intros i earlier d Hi He Hd. destruct i as [|i].
        -- injection He as <-. simpl. by apply (H2 0 (first, more) d); [lia|..].
        -- by apply (H2 (S i) earlier d).
    + specialize (IH Hrest). intros j group Hj. destruct j as [|j].
      * injection Hj as <-. simpl. split; [|intros i earlier d Hi; lia].
        by destruct (Hs 0 (first, more) eq_refl).
      * simpl in Hj. destruct (IH j group Hj) as [H1 H2]. split; [done|].
        intros i earlier d Hi He Hd. destruct i as [|i].
        -- injection He as <-. simpl.
           (* the member is the new dependency, or was in the group before *)
           assert (d = dep ∨ d ∈ (rest ≫= group_members)) as [->|Hold].
           { assert (d ∈ (Grouping.addDependency isEqualResource dep rest ≫= group_members))
               as Hin.
             { apply list_elem_of_bind. exists group. split; [done|].
               by eapply list_elem_of_lookup_2. }
             rewrite addDependency_members in Hin.
             apply elem_of_app in Hin as [?|Hin]; [by right|].
             left. by apply list_elem_of_singleton in Hin. }
           ++ done.
           ++ apply list_elem_of_bind in Hold as (old & Hd' & Hold).
              apply list_elem_of_lookup in Hold as [k Hk].
              destruct (Hs (S k) old Hk) as [_ H3].
              by apply (H3 0 (first, more) d); [lia|..].
        -- simpl in He. by apply (H2 i earlier d); [lia|..].
Qed.

Lemma addDependency_ordered dep met groups :
  groups_ordered met groups →
  groups_ordered (met ++ [dep]) (Grouping.addDependency isEqualResource dep groups).
Proof.
  intros [Hheads Hall]. revert Hheads Hall.
  cut (∀ pre, sublist (pre ++ (fst <$> groups)) met →
              Forall (λ group, sublist (group_members group) met) groups →
              sublist (pre ++ (fst <$> Grouping.addDependency isEqualResource dep groups))
                      (met ++ [dep])
              ∧ Forall (λ group, sublist (group_members group) (met ++ [dep]))
                       (Grouping.addDependency isEqualResource dep groups)).
  { intros H. apply (H []). }
  induction groups as [|[first more] rest IH]; intros pre Hheads Hall; simpl.
  - rewrite app_nil_r in Hheads. split.
    + by apply sublist_app.
    + constructor; [|constructor]. unfold group_members. simpl.
      apply (sublist_app [] met [dep] [dep]); [apply sublist_nil_l|done].
  - apply Forall_cons in Hall as [Hfirst Hrest].
    destruct (isEqualResource dep first).
    + split.
      * simpl. by apply sublist_inserts_r.
      * constructor.
        -- unfold group_members in *. simpl in *.
           rewrite app_comm_cons. by apply sublist_app.
        -- eapply Forall_impl; [exact Hrest|]. simpl. intros group Hg.
           by apply sublist_inserts_r.
    + destruct (IH (pre ++ [first])) as [H1 H2].
      * by rewrite <- app_assoc.
      * done.
      * split.
        -- simpl. by rewrite <- app_assoc in H1.
        -- constructor; [|done]. by apply sublist_inserts_r.
Qed.

Lemma addDependency_fold_ordered ds : ∀ met groups,
  groups_ordered met groups →
  groups_ordered (met ++ ds)
    (foldl (λ acc d, Grouping.addDependency isEqualResource d acc) groups ds).
Proof.
  induction ds as [|d ds IH]; intros met groups Ho; simpl.
  - by rewrite app_nil_r.
  - replace (met ++ d :: ds) with ((met ++ [d]) ++ ds) by by rewrite <- app_assoc.
    by apply IH, addDependency_ordered.
Qed.

Lemma addDependency_variables_ordered vs : ∀ met groups,
  groups_ordered met groups →
  groups_ordered (met ++ (vs ≫= var_dependencies))
    (iterationBlockVariable vs (Grouping.addDependency isEqualResource) groups).
Proof.
  unfold iterationBlockVariable.
  induction vs as [|v vs IH]; intros met groups Ho; simpl.
  - by rewrite app_nil_r.
  - rewrite app_assoc. by apply IH, addDependency_fold_ordered.
Qed.

Lemma addDependenciesBlock_ordered block : ∀ met groups,
  groups_ordered met groups →
  groups_ordered (met ++ group_order block)
    (Grouping.addDependenciesBlock isEqualResource block groups).
Proof.
  induction block as [vs ds bs IH] using DependenciesBlock_nested_ind.
  intros met groups Ho. simpl. unfold iterationOfArrayCallback.
  rewrite !app_assoc. apply addDependency_variables_ordered.
  apply (addDependency_fold_ordered ds) in Ho. revert Ho.
  generalize (foldl (λ acc d, Grouping.addDependency isEqualResource d acc) groups ds).
  generalize (met ++ ds). clear groups met.
  induction IH as [|b bs Hb _ IHbs]; intros met groups Ho; simpl.
  - by rewrite app_nil_r.
  - rewrite app_assoc. by apply IHbs, Hb.
Qed.

Lemma addDependency_fold ds groups :
  let groups' := foldl (λ acc d, Grouping.addDependency isEqualResource d acc) groups ds in
  (groups' ≫= group_members) ≡ₚ (groups ≫= group_members) ++ ds
  ∧ (groups_sorted isEqualResource groups → groups_sorted isEqualResource groups').
Proof.
  revert groups. induction ds as [|d ds IH]; intros groups; simpl.
  - by rewrite app_nil_r.
  - destruct (IH (Grouping.addDependency isEqualResource d groups)) as [H1 H2].
    split.
    + rewrite H1, addDependency_members, <- app_assoc. done.
    + intros Hs. by apply H2, addDependency_sorted.
Qed.

Lemma addDependency_fold_variables vs groups :
  let groups' := iterationBlockVariable vs (Grouping.addDependency isEqualResource) groups in
  (groups' ≫= group_members) ≡ₚ (groups ≫= group_members) ++ (vs ≫= var_dependencies)
  ∧ (groups_sorted isEqualResource groups → groups_sorted isEqualResource groups').
Proof.
  unfold iterationBlockVariable. revert groups.
  induction vs as [|v vs IH]; intros groups; simpl.
  - by rewrite app_nil_r.
  - destruct (addDependency_fold (var_dependencies v) groups) as [F1 F2].
    destruct (IH (foldl (λ acc d, Grouping.addDependency isEqualResource d acc) groups
                    (var_dependencies v))) as [H1 H2].
    split.
    + rewrite H1, F1, <- app_assoc. done.
    + intros Hs. by apply H2, F2.
Qed.

Lemma addDependenciesBlock_groups block : ∀ groups,
  let groups' := Grouping.addDependenciesBlock isEqualResource block groups in
  (groups' ≫= group_members) ≡ₚ (groups ≫= group_members) ++ group_order block
  ∧ (groups_sorted isEqualResource groups → groups_sorted isEqualResource groups').
Proof.
  induction block as [vs ds bs IH] using DependenciesBlock_nested_ind.
  intros groups. simpl. unfold iterationOfArrayCallback.
  destruct (addDependency_fold ds groups) as [D1 D2].
  set (g1 := foldl (λ acc d, Grouping.addDependency isEqualResource d acc) groups ds) in *.
  assert (∀ acc,
            let acc' := foldl (λ acc b, Grouping.addDependenciesBlock isEqualResource b acc)
                          acc bs in
            (acc' ≫= group_members) ≡ₚ (acc ≫= group_members) ++ (bs ≫= group_order)
            ∧ (groups_sorted isEqualResource acc → groups_sorted isEqualResource acc'))
    as Hbs.
  { clear D1 D2 g1. induction IH as [|b bs Hb _ IHbs]; intros acc; simpl.
    - by rewrite app_nil_r.
    - destruct (Hb acc) as [B1 B2].
      destruct (IHbs (Grouping.addDependenciesBlock isEqualResource b acc)) as [H1 H2].
      split.
      + rewrite H1, B1, <- app_assoc. done.
      + intros Hs. by apply H2, B2. }
  destruct (Hbs g1) as [B1 B2].
  set (g2 := foldl (λ acc b, Grouping.addDependenciesBlock isEqualResource b acc) g1 bs) in *.
  destruct (addDependency_fold_variables vs g2) as [V1 V2].
  split.
  - rewrite V1, B1, D1, <- !app_assoc. done.
  - intros Hs. by apply V2, B2, D2.
Qed.

End grouping_facts.

(** X5: the groups [processModuleDependencies] hands on.  Every
    dependency of the module, those of nested blocks and of variables
    included, is in exactly one group; the groups come in the order their
    first elements are met in the walk (own dependencies, nested blocks,
    variables) and a group keeps the order of the walk; every later member
    of a group is equal in resource to the first element of its group; and
    no member of a group is equal in resource to the first element of an
    earlier group.  [isEqualResource] need not be an equivalence. *)
Theorem processModuleDependencies_groups (isEqualResource : Dependency → Dependency → bool)
    (g : gmap ModuleRef DependenciesBlock) (module : ModuleRef) :
  let groups := Grouping.processModuleDependencies isEqualResource g module in
  (groups ≫= λ group, group.1 :: group.2) ≡ₚ group_order (blockOf g module)
  ∧ sublist (fst <$> groups) (group_order (blockOf g module))
  ∧ ∀ j group, groups !! j = Some group →
      sublist (group.1 :: group.2) (group_order (blockOf g module))
      ∧ Forall (λ d, isEqualResource d group.1 = true) group.2
      ∧ ∀ i earlier d, i < j → groups !! i = Some earlier → d ∈ group.1 :: group.2 →
          isEqualResource d earlier.1 = false.
Proof.
  destruct (addDependenciesBlock_groups isEqualResource (blockOf g module) []) as [H1 H2].
  destruct (addDependenciesBlock_ordered isEqualResource (blockOf g module) [] [])
    as [O1 O2]; [by split|].
  split; [exact H1|]. split; [exact O1|].
  intros j group Hj. split.
  - rewrite Forall_forall in O2. apply (O2 group). by eapply list_elem_of_lookup_2.
  - apply H2; [|done]. intros k group' Hk. done.
Qed.

(** ** _addModuleChain and addEntry *)

Lemma entry_effect_keeps c e identifier m :
  Store._modules c !! identifier = Some m →
  Store._modules (Entry.effect c e) !! identifier = Some m.
Proof.
  destruct e as [otherwise module|err|err]; simpl; [|done..].
  apply (store_addModule_outcome otherwise module None c).
Qed.

Lemma entry_processed_keeps sc c identifier m :
  Store._modules c !! identifier = Some m →
  Store._modules (Entry.processed sc c) !! identifier = Some m.
Proof.
  unfold Entry.processed. revert c.
  induction (Entry.sc_processed sc) as [|e l IH]; intros c Hm; [done|].
  simpl. apply IH. by apply entry_effect_keeps.
Qed.

Lemma entry_built_modules sc c :
  Store._modules (Entry.built sc c) = Store._modules c.
Proof.
  unfold Entry.built.
  assert (∀ l c, Store._modules
                   (foldl (λ c e, Entry.recordWarning (Build.stamp None None e) c) c l)
                 = Store._modules c) as Hw.
  { induction l as [|e l IH]; intros c'; [done|]. simpl. by rewrite IH. }
  assert (∀ l c, Store._modules
                   (foldl (λ c e, Entry.recordError (Build.stamp None None e) c) c l)
                 = Store._modules c) as He.
  { induction l as [|e l IH]; intros c'; [done|]. simpl. by rewrite IH. }
  by rewrite Hw, He.
Qed.

(** X6: [_addModuleChain] releases the semaphore exactly once on every
    path that ends in a call of its callback, and not at all when it
    throws. *)
Theorem addModuleChain_releases_once (dependency : Dependency) (sc : Entry.Scenario)
    (s : Entry.State) :
  let r := Entry._addModuleChain dependency Entry.pushEntry sc s in
  match r.1 with
  | Entry.Threw _ => Entry.released r.2 = Entry.released s
  | Entry.CalledBack _ _ => Entry.released r.2 = S (Entry.released s)
  end.
Proof.
  simpl. unfold Entry._addModuleChain. destruct (Entry.checks sc); [done|].
  unfold Entry.afterFactory.
  destruct (Entry.sc_factory sc) as [err|module].
  - unfold Entry.errorAndCallback. simpl. by destruct (Entry.bail s).
  - destruct (Store.addModule (Entry.sc_otherwise sc) module None (Entry.store s))
      as [[|cm| |message] c]; simpl.
    + destruct (Store.getModule module c); [|done]. simpl.
      unfold Entry.afterWaiting. simpl. done.
    + unfold Entry.moduleReady. by destruct (Entry.sc_dependencies sc).
    + destruct (Entry.sc_build sc).
      * unfold Entry.errorAndCallback. simpl. by destruct (Entry.bail s).
      * unfold Entry.moduleReady. by destruct (Entry.sc_dependencies sc).
    + done.
Qed.

(** X7: what [_addModuleChain] itself reports.  [ran] is the compilation as
    the collaborators of the call leave it: [addModule], then the build of
    the module with the errors and warnings it pushes, then the processing
    of the dependencies with what it adds and records, as far as the call
    gets.  A call that throws changes nothing.  When the callback gets an
    error, the error is the failure of the factory or of the build and
    [bail] is set, or it is the error [processModuleDependencies] ended
    with, and the call has recorded nothing of its own.  When the callback
    gets neither an error nor a module, [bail] is off and the call has
    recorded exactly one error, as the last one: the failure of the factory
    or of the build, carrying the dependency.  When the callback gets a
    module, that module was handed to [onModule] and is registered in
    [_modules], and the call has recorded nothing of its own. *)
Theorem addModuleChain_reports_failure_one_way (dependency : Dependency)
    (sc : Entry.Scenario) (s : Entry.State) :
  let r := Entry._addModuleChain dependency Entry.pushEntry sc s in
  let ran :=
    match Entry.sc_factory sc with
    | inl _ => Entry.store s
    | inr module =>
        let added := Store.addModule (Entry.sc_otherwise sc) module None (Entry.store s) in
        match added.1 with
        | Store.Added =>
            match Entry.sc_build sc with
            | Some _ => Entry.built sc added.2
            | None => Entry.processed sc (Entry.built sc added.2)
            end
        | Store.FromCache _ => Entry.processed sc added.2
        | _ => added.2
        end
    end in
  let own failure :=
    (∃ err, Entry.sc_factory sc = inl err ∧ failure = Entry.EntryModuleNotFoundError err)
    ∨ (∃ module, Entry.sc_factory sc = inr module ∧ Entry.sc_build sc = Some failure) in
  match r.1 with
  | Entry.Threw _ => r.2 = s
  | Entry.CalledBack (Some e) _ =>
      ((Entry.bail s = true ∧ own e) ∨ Entry.sc_dependencies sc = Some e)
      ∧ Entry.store r.2 = ran
  | Entry.CalledBack None None =>
      Entry.bail s = false
      ∧ ∃ failure,
          own failure
          ∧ Entry.store r.2
            = Entry.recordError
                (mkError (err_name failure) (err_message failure) (err_origin failure)
                         (Some [dependency])) ran
  | Entry.CalledBack None (Some module) =>
      module ∈ Entry.entries r.2
      ∧ (∃ identifier, Store._modules (Entry.store r.2) !! identifier = Some module)
      ∧ Entry.store r.2 = ran
  end.
Proof.
  simpl. unfold Entry._addModuleChain. destruct (Entry.checks sc); [done|].
  unfold Entry.afterFactory.
  destruct (Entry.sc_factory sc) as [err|module] eqn:Hf.
  - unfold Entry.errorAndCallback. simpl. destruct (Entry.bail s) eqn:Hb; simpl.
    + split; [|done]. left. split; [done|]. left. by exists err.
    + split; [done|]. eexists. split; [left; by exists err|done].
  - pose proof (store_addModule_outcome (Entry.sc_otherwise sc) module None (Entry.store s))
      as Hadd.
    destruct (Store.addModule (Entry.sc_otherwise sc) module None (Entry.store s))
      as [[|cm| |message] c]; simpl in *.
    + destruct Hadd as [Hkeep [-> [existing Hex]]].
      unfold Store.getModule. rewrite Hex. simpl. split; [|split; [|done]].
      * apply elem_of_app. right. by left.
      * by exists (Store.m_identifier module).
    + destruct Hadd as (Hkeep & _ & Hcm & _).
      unfold Entry.moduleReady. destruct (Entry.sc_dependencies sc) as [e|]; simpl.
      * split; [by right|done].
      * split; [apply elem_of_app; right; by left|]. split; [|done].
        exists (Store.m_identifier module). apply entry_processed_keeps.
        by rewrite Hcm, lookup_insert_eq.
    + destruct Hadd as (Hkeep & _ & Hin & _).
      destruct (Entry.sc_build sc) as [e|].
      * unfold Entry.errorAndCallback. simpl. destruct (Entry.bail s) eqn:Hb; simpl.
        -- split; [|done]. left. split; [done|]. right. by exists module.
        -- split; [done|]. exists e. split; [right; by exists module|done].
      * unfold Entry.moduleReady. destruct (Entry.sc_dependencies sc) as [e|]; simpl.
        -- split; [by right|done].
        -- split; [apply elem_of_app; right; by left|]. split; [|done].
           exists (Store.m_identifier module). apply entry_processed_keeps.
           by rewrite entry_built_modules, Hin, lookup_insert_eq.
    + destruct Hadd as [_ [-> _]]. by destruct s.
Qed.

(** A build that fails with [bail] off, of a module that carries an error
    of its own: the module's error is pushed by [buildModule], stamped with
    no origin and no dependencies, and the failure of the build is recorded
    after it by [_addModuleChain], carrying the dependency. *)
Example addModuleChain_build_fails_without_bail :
  let broken := mkError "ModuleParseError" "Unexpected token" (Some 9) None in
  let failure := mkError "ModuleBuildError" "Module build failed" None None in
  let sc := Entry.mkScenario true true (inr (entryModuleOf 0)) (λ _, None)
              [broken] [] (Some failure) [] None in
  let r := Entry._addModuleChain (dependencyOn 0) Entry.pushEntry sc
             (Entry.state (Entry.initial false emptyCompilation)) in
  r.1 = Entry.CalledBack None None
  ∧ Store.errors (Entry.store r.2)
    = [mkError "ModuleParseError" "Unexpected token" None None;
       mkError "ModuleBuildError" "Module build failed" None (Some [dependencyOn 0])]
  ∧ Entry.released r.2 = 1.
Proof. by vm_compute. Qed.

Lemma entry_registered_afterFactory entry sc s :
  entry_registered s →
  let r := Entry.afterFactory entry Entry.pushEntry sc s in
  entry_registered r.2
  ∧ ∀ m, r.1 = Entry.CalledBack None (Some m) → m ∈ Entry.entries r.2.
Proof.
  intros [He Hs]. simpl. unfold Entry.afterFactory.
  assert (∀ b c es rel att,
            (∀ identifier m, Store._modules (Entry.store s) !! identifier = Some m →
                             Store._modules c !! identifier = Some m) →
            (∀ m, m ∈ es → m ∈ Entry.entries s
                           ∨ ∃ identifier, Store._modules c !! identifier = Some m) →
            (∀ m, m ∈ Entry.entries s → m ∈ es) →
            entry_registered (Entry.mkState b c es (Entry.preparedChunks s)
                                (Entry.nextSlot s) att rel)) as Hmk.
  { intros b c es rel att Hkeep Hes Hsub. split; simpl.
    - intros m Hm. destruct (Hes m Hm) as [Hold|?]; [|done].
      destruct (He m Hold) as [identifier Hid]. exists identifier. by apply Hkeep.
    - intros slot m Hslot Hm. apply Hsub. by eapply Hs. }
  destruct (Entry.sc_factory sc) as [err|module].
  - unfold Entry.errorAndCallback. simpl. destruct (Entry.bail s) eqn:Hb; simpl.
    + split; [|done]. apply Hmk; [done|by left|done].
    + split; [|done]. apply Hmk; [done|by left|done].
  - pose proof (store_addModule_outcome (Entry.sc_otherwise sc) module None (Entry.store s))
      as Hadd.
    destruct (Store.addModule (Entry.sc_otherwise sc) module None (Entry.store s))
      as [[|cm| |message] c]; simpl in *.
    + destruct Hadd as [Hkeep [-> [existing Hex]]].
      unfold Store.getModule. rewrite Hex. simpl. split.
      * apply Hmk; [done| |].
        -- intros m Hm. apply elem_of_app in Hm as [?|Hm]; [by left|].
           apply list_elem_of_singleton in Hm as ->. right.
           by exists (Store.m_identifier module).
        -- intros m Hm. apply elem_of_app. by left.
      * intros m [= <-]. apply elem_of_app. right. by left.
    + destruct Hadd as (Hkeep & _ & Hcm & _).
      assert (entry_registered
                (Entry.mkState (Entry.bail s) (Entry.processed sc c)
                   (Entry.entries s ++ [cm]) (Entry.preparedChunks s) (Entry.nextSlot s)
                   (Entry.attached s ++ [Store.m_ref cm]) (S (Entry.released s)))) as Hr.
      { apply Hmk.
        - intros identifier m H. by apply entry_processed_keeps, Hkeep.
        - intros m Hm. apply elem_of_app in Hm as [?|Hm]; [by left|].
          apply list_elem_of_singleton in Hm as ->. right.
          exists (Store.m_identifier module). apply entry_processed_keeps.
          by rewrite Hcm, lookup_insert_eq.
        - intros m Hm. apply elem_of_app. by left. }
      unfold Entry.moduleReady. destruct (Entry.sc_dependencies sc); simpl; (split; [done|]).
      * done.
      * intros m [= <-]. apply elem_of_app. right. by left.
    + destruct Hadd as (Hkeep & _ & Hin & _).
      assert (∀ b rel c',
                (∀ identifier m, Store._modules c !! identifier = Some m →
                                 Store._modules c' !! identifier = Some m) →
                entry_registered
                  (Entry.mkState b c' (Entry.entries s ++ [module])
                     (Entry.preparedChunks s) (Entry.nextSlot s)
                     (Entry.attached s ++ [Store.m_ref module]) rel)) as Hr.
      { intros b rel c' Hc'. apply Hmk.
        - intros identifier m H. by apply Hc', Hkeep.
        - intros m Hm. apply elem_of_app in Hm as [?|Hm]; [by left|].
          apply list_elem_of_singleton in Hm as ->. right.
          exists (Store.m_identifier module). apply Hc'. by rewrite Hin, lookup_insert_eq.
        - intros m Hm. apply elem_of_app. by left. }
      assert (∀ identifier m, Store._modules c !! identifier = Some m →
                Store._modules (Entry.built sc c) !! identifier = Some m) as Hb.
      { intros identifier m H. by rewrite entry_built_modules. }
      destruct (Entry.sc_build sc) as [e|].
      * unfold Entry.errorAndCallback. simpl. destruct (Entry.bail s) eqn:Hbail; simpl.
        -- split; [|done]. by apply Hr.
        -- split; [|done]. by apply Hr.
      * unfold Entry.moduleReady.
        destruct (Entry.sc_dependencies sc); simpl;
          (split; [apply Hr; intros identifier m H; by apply entry_processed_keeps, Hb|]).
        -- done.
        -- intros m [= <-]. apply elem_of_app. right. by left.
    + destruct Hadd as [_ [-> _]]. split; [|done]. by destruct s.
Qed.

Lemma entry_registered_complete entry slot sc s :
  entry_registered s → entry_registered (Entry.complete entry slot sc s).2.
Proof.
  intros Hs. unfold Entry.complete.
  destruct (entry_registered_afterFactory entry sc s Hs) as [[He Hsl] Hm].
  destruct (Entry.afterFactory entry Entry.pushEntry sc s) as [o s']. simpl in *.
  destruct o as [message|[e|] [m|]]; simpl; try done.
  - split; simpl; [done|]. intros x m' Hx Hm'.
    apply list_elem_of_fmap in Hx as (y & -> & Hy).
    destruct (decide (Entry.slot_ref y = slot)); simpl in Hm'.
    + injection Hm' as <-. by apply Hm.
    + by eapply Hsl.
  - split; simpl; [done|]. intros x m' Hx Hm'.
    unfold Entry.splice1 in Hx. eapply Hsl; [|done].
    by eapply list_elem_of_delete_inv.
Qed.

(** X8: in every state that [addEntry] calls starting and finishing in
    any order can lead to, every module in [entries] is registered in
    [_modules], and the module of a slot of [preparedChunks] is in
    [entries]. *)
Theorem addEntry_entries_are_registered (bail : bool) (c : Store.Compilation)
    (inputs : list Entry.Input) :
  let s := Entry.state (Entry.run inputs (Entry.initial bail c)) in
  (∀ m, m ∈ Entry.entries s →
        ∃ identifier, Store._modules (Entry.store s) !! identifier = Some m)
  ∧ (∀ slot m, slot ∈ Entry.preparedChunks s → Entry.slot_module slot = Some m →
               m ∈ Entry.entries s).
Proof.
  simpl.
  cut (entry_registered (Entry.state (Entry.run inputs (Entry.initial bail c)))).
  { intros [??]. done. }
  assert (entry_registered (Entry.state (Entry.initial bail c))) as H0.
  { split; simpl; intros *; intros H; by apply elem_of_nil in H. }
  revert H0. generalize (Entry.initial bail c).
  induction inputs as [|i inputs IH]; intros r Hr; [done|].
  simpl. apply IH. destruct i as [name sc|entry slot sc]; simpl.
  - assert (entry_registered (Entry.reserve name (Entry.state r)).2) as Hres.
    { destruct Hr as [He Hs]. split; simpl; [done|].
      intros x m Hx Hm. apply elem_of_app in Hx as [Hx|Hx]; [by eapply Hs|].
      apply list_elem_of_singleton in Hx as ->. done. }
    unfold Entry.reserve in *. simpl in *. by destruct (Entry.checks sc).
  - case_decide; [|done]. simpl. by apply entry_registered_complete.
Qed.

(** ** finish *)

Section report_facts.

Context (getWarnings getErrors : Dependency → option (list string)) (loc : Dependency → nat).

Lemma report_dependencies module ds : ∀ s,
  let s' := foldl (λ s d, Finish.reportDependency getWarnings getErrors loc module d s) s ds in
  Finish.errors s'
  = Finish.errors s
    ++ (ds ≫= λ d, (λ e, Finish.mkReport module e (loc d)) <$> default [] (getErrors d))
  ∧ Finish.warnings s'
    = Finish.warnings s
      ++ (ds ≫= λ d, (λ w, Finish.mkReport module w (loc d)) <$> default [] (getWarnings d)).
Proof.
  induction ds as [|d ds IH]; intros s; simpl.
  - by rewrite !app_nil_r.
  - destruct (IH (Finish.reportDependency getWarnings getErrors loc module d s)) as [-> ->].
    simpl. by rewrite <- !app_assoc.
Qed.

Lemma report_block module b : ∀ s,
  let s' := Finish.reportBlock getWarnings getErrors loc module b s in
  Finish.errors s'
  = Finish.errors s
    ++ (report_order b ≫= λ d,
          (λ e, Finish.mkReport module e (loc d)) <$> default [] (getErrors d))
  ∧ Finish.warnings s'
    = Finish.warnings s
      ++ (report_order b ≫= λ d,
            (λ w, Finish.mkReport module w (loc d)) <$> default [] (getWarnings d)).
Proof.
  induction b as [vs ds bs IH] using DependenciesBlock_nested_ind.
  intros s. simpl.
  destruct (report_dependencies module ds s) as [E W].
  set (s1 := foldl _ s ds) in *. rewrite !bind_app, !app_assoc, <- E, <- W.
  clearbody s1. clear E W s. revert s1.
  induction IH as [|b bs Hb _ IHbs]; intros s; simpl.
  - by rewrite !app_nil_r.
  - destruct (IHbs (Finish.reportBlock getWarnings getErrors loc module b s)) as [-> ->].
    destruct (Hb s) as [-> ->]. by rewrite !bind_app, <- !app_assoc.
Qed.

End report_facts.

(** X9: [finish] keeps the errors and warnings there are and appends, module
    by module, one report for every error, and one for every warning, of
    every dependency in the module's [dependencies] array and in those of
    the blocks nested in it, in that order.  The dependencies of variables
    are not looked at. *)
Theorem finish_reports_block_dependencies
    (getWarnings getErrors : Dependency → option (list string)) (loc : Dependency → nat)
    (g : gmap ModuleRef DependenciesBlock) (modules : list ModuleRef) (s : Finish.State) :
  let s' := Finish.finish getWarnings getErrors loc g modules s in
  Finish.errors s'
  = Finish.errors s
    ++ (modules ≫= λ module, report_order (blockOf g module) ≫= λ d,
          (λ e, Finish.mkReport module e (loc d)) <$> default [] (getErrors d))
  ∧ Finish.warnings s'
    = Finish.warnings s
      ++ (modules ≫= λ module, report_order (blockOf g module) ≫= λ d,
            (λ w, Finish.mkReport module w (loc d)) <$> default [] (getWarnings d)).
Proof.
  simpl. split; revert s; unfold Finish.finish;
    induction modules as [|module modules IH]; intros s; simpl;
    try (by rewrite app_nil_r).
  - rewrite IH. unfold Finish.reportDependencyErrorsAndWarnings. simpl.
    destruct (report_block getWarnings getErrors loc module (blockOf g module) s) as [-> _].
    by rewrite <- app_assoc.
  - rewrite IH. unfold Finish.reportDependencyErrorsAndWarnings. simpl.
    destruct (report_block getWarnings getErrors loc module (blockOf g module) s) as [_ ->].
    by rewrite <- app_assoc.
Qed.

(** ** Ids: applyModuleIds and the chunk loop of checkConstraints *)

Lemma pretty_N_go_digits x s : all_digits s = true → all_digits (pretty_N_go x s) = true.
Proof.
  revert s. induction (N.lt_wf_0 x) as [x _ IH]; intros s Hs.
  assert (x = 0 ∨ 0 < x)%N as [->|?] by lia.
  - by rewrite pretty_N_go_0.
  - rewrite pretty_N_go_step by done. apply IH.
    { by apply N.div_lt. }
    simpl. rewrite Hs. unfold pretty_N_char. by repeat case_match.
Qed.

Lemma pretty_nat_digits (k : nat) : all_digits (pretty k) = true.
Proof.
  unfold pretty, pretty_nat, pretty, pretty_N.
  case_decide; [done|]. by apply pretty_N_go_digits.
Qed.

Lemma pretty_nat_not_null (k : nat) : pretty k ≠ "null".
Proof. intros H. pose proof (pretty_nat_digits k) as Hd. rewrite H in Hd. done. Qed.

Lemma assignIds_length ms f : length (Ids.assignIds ms f) = length ms.
Proof.
  revert f. induction ms as [|id ms IH]; intros f; [done|].
  destruct id; simpl; [|by rewrite IH..].
  destruct (last (Ids.unusedIds f)); simpl; by rewrite IH.
Qed.

Lemma assignIds_keeps ms f i id :
  ms !! i = Some id → id ≠ Ids.IdNull → Ids.assignIds ms f !! i = Some id.
Proof.
  revert f i. induction ms as [|id' ms IH]; intros f i Hi Hid; [done|].
  destruct i as [|i]; simpl in Hi.
  - injection Hi as ->. by destruct id.
  - destruct id'; simpl; [|by apply IH..].
    destruct (last (Ids.unusedIds f)); simpl; by apply IH.
Qed.

Lemma assignIds_fills ms f i :
  ms !! i = Some Ids.IdNull → ∃ n, Ids.assignIds ms f !! i = Some (Ids.IdNum n).
Proof.
  revert f i. induction ms as [|id' ms IH]; intros f i Hi; [done|].
  destruct i as [|i]; simpl in Hi.
  - injection Hi as ->. simpl. destruct (last (Ids.unusedIds f)); simpl; eauto.
  - destruct id'; simpl; [|by apply IH..].
    destruct (last (Ids.unusedIds f)); simpl; by apply IH.
Qed.

Lemma free_ok_pop f x :
  free_ok f → last (Ids.unusedIds f) = Some x →
  free_ok (Ids.mkFree (removelast (Ids.unusedIds f)) (Ids.nextFreeModuleId f))
  ∧ x < Ids.nextFreeModuleId f
  ∧ ∀ y, y ∈ removelast (Ids.unusedIds f) → x < y.
Proof.
  intros [Hs Hb] Hlast. apply last_Some in Hlast as [l' Hl].
  rewrite Hl in *. rewrite removelast_last.
  apply Forall_app in Hb as [Hb1 Hb2].
  split; [|split].
  - split; simpl; [by eapply StronglySorted_app_1_l|done].
  - by inversion Hb2.
  - intros y Hy. apply (StronglySorted_app_1_elem_of (λ a b, b < a) l' [x] y x); [done..|by left].
Qed.

Lemma free_ok_next f :
  free_ok f → Ids.unusedIds f = [] →
  free_ok (Ids.mkFree (Ids.unusedIds f) (S (Ids.nextFreeModuleId f))).
Proof. intros [Hs Hb] Hnil. split; simpl; rewrite Hnil; constructor. Qed.

Lemma assignIds_fresh ms : ∀ f i a,
  free_ok f → ms !! i = Some Ids.IdNull → Ids.assignIds ms f !! i = Some (Ids.IdNum a) →
  a ∈ Ids.unusedIds f ∨ Ids.nextFreeModuleId f ≤ a.
Proof.
  induction ms as [|id ms IH]; intros f i a Hf Hi Ha; [done|].
  destruct id; simpl in Ha.
  - destruct (last (Ids.unusedIds f)) as [x|] eqn:Hlast.
    + destruct (free_ok_pop f x Hf Hlast) as (Hf' & Hx & Hrest).
      destruct i as [|i]; simpl in *.
      * injection Ha as <-. left. apply last_Some in Hlast as [l' ->]. set_solver.
      * destruct (IH _ _ _ Hf' Hi Ha) as [Hin|Hge]; simpl in *; [|by right].
        left. apply last_Some in Hlast as [l' Hl]. rewrite Hl in *.
        rewrite removelast_last in Hin. set_solver.
    + apply last_None in Hlast.
      destruct i as [|i]; simpl in *.
      * injection Ha as <-. by right.
      * destruct (IH _ _ _ (free_ok_next f Hf Hlast) Hi Ha) as [Hin|Hge]; simpl in *.
        -- by left.
        -- right. lia.
  - destruct i as [|i]; simpl in *; [done|]. by eapply IH.
  - destruct i as [|i]; simpl in *; [done|]. by eapply IH.
Qed.

Lemma assignIds_increasing ms : ∀ f i j a b,
  free_ok f → i < j →
  ms !! i = Some Ids.IdNull → ms !! j = Some Ids.IdNull →
  Ids.assignIds ms f !! i = Some (Ids.IdNum a) →
  Ids.assignIds ms f !! j = Some (Ids.IdNum b) →
  a < b.
Proof.
  induction ms as [|id ms IH]; intros f i j a b Hf Hij Hi Hj Ha Hb; [done|].
  destruct j as [|j]; [lia|].
  destruct id; simpl in Ha, Hb.
  - destruct (last (Ids.unusedIds f)) as [x|] eqn:Hlast.
    + destruct (free_ok_pop f x Hf Hlast) as (Hf' & Hx & Hrest).
      destruct i as [|i]; simpl in *.
      * injection Ha as <-.
        destruct (assignIds_fresh _ _ _ _ Hf' Hj Hb) as [Hin|Hge]; simpl in *.
        -- by apply Hrest.
        -- lia.
      * eapply (IH _ i j); [exact Hf'|lia|done..].
    + apply last_None in Hlast.
      destruct i as [|i]; simpl in *.
      * injection Ha as <-.
        destruct (assignIds_fresh _ _ _ _ (free_ok_next f Hf Hlast) Hj Hb) as [Hin|Hge];
          simpl in *.
        -- rewrite Hlast in Hin. by apply elem_of_nil in Hin.
        -- lia.
      * eapply (IH _ i j); [exact (free_ok_next f Hf Hlast)|lia|done..].
  - destruct i as [|i]; simpl in *; [done|]. eapply (IH _ i j); [done|lia|done..].
  - destruct i as [|i]; simpl in *; [done|]. eapply (IH _ i j); [done|lia|done..].
Qed.

Lemma collectUnused_spec map n :
  StronglySorted (λ a b, b < a) (Ids.collectUnused map n)
  ∧ Forall (λ a, a < n ∧ Ids.key (Ids.IdNum a) ∉ map) (Ids.collectUnused map n).
Proof.
  induction n as [|n [IHs IHb]]; simpl; [split; constructor|].
  assert (Forall (λ a, a < S n ∧ Ids.key (Ids.IdNum a) ∉ map) (Ids.collectUnused map n)) as Hb.
  { eapply Forall_impl; [exact IHb|]. simpl. intros a [??]. split; [lia|done]. }
  case_decide; [done|]. split.
  - constructor; [done|]. eapply Forall_impl; [exact IHb|]. simpl. intros a [??]. lia.
  - constructor; [|done]. split; [lia|done].
Qed.

Lemma free_of_ok u : free_ok (free_of u).
Proof.
  unfold free_of. destruct (Ids.usedIds u); [split; constructor|].
  destruct (collectUnused_spec (Ids.usedIdMap u)
              (Z.to_nat (Ids.usedIdMax (i :: l) + 1))) as [Hs Hb].
  split; simpl; [done|]. eapply Forall_impl; [exact Hb|]. by intros a [??].
Qed.

Lemma applyModuleIds_unfold used ms :
  Ids.applyModuleIds used ms
  = Ids.assignIds ms
      (free_of (foldl (λ u id, Ids.collectModule id u)
                  (foldl (λ u id, Ids.collect id u) (Ids.mkUsed [] ∅) (default [] used)) ms)).
Proof. done. Qed.

(** X17: [applyModuleIds] changes no id that is not [null], gives every
    module whose id is [null] a number, and so leaves no module without an
    id. *)
Theorem applyModuleIds_fills_and_keeps (usedModuleIds : option (list Ids.Id))
    (modules : list Ids.Id) :
  length (Ids.applyModuleIds usedModuleIds modules) = length modules
  ∧ (∀ i id, modules !! i = Some id →
       Ids.applyModuleIds usedModuleIds modules !! i
       = Some id ∨
       (id = Ids.IdNull ∧ ∃ n, Ids.applyModuleIds usedModuleIds modules !! i = Some (Ids.IdNum n)))
  ∧ Ids.IdNull ∉ Ids.applyModuleIds usedModuleIds modules.
Proof.
  rewrite applyModuleIds_unfold.
  set (f := free_of _). split; [apply assignIds_length|]. split.
  - intros i id Hi. destruct id as [|n|s].
    + right. split; [done|]. by apply assignIds_fills.
    + left. by apply assignIds_keeps.
    + left. by apply assignIds_keeps.
  - intros Hin. apply list_elem_of_lookup in Hin as [i Hi].
    assert (i < length modules) as Hlt.
    { rewrite <- (assignIds_length modules f). by eapply lookup_lt_Some. }
    apply lookup_lt_is_Some in Hlt as [id Hid].
    destruct id as [|n|s].
    + destruct (assignIds_fills _ f _ Hid) as [n Hn]. congruence.
    + pose proof (assignIds_keeps _ f _ _ Hid ltac:(done)). congruence.
    + pose proof (assignIds_keeps _ f _ _ Hid ltac:(done)). congruence.
Qed.

(** X18: the numbers [applyModuleIds] hands out increase along
    [this.modules]; in particular no two modules are handed the same
    number. *)
Theorem applyModuleIds_new_ids_increase (usedModuleIds : option (list Ids.Id))
    (modules : list Ids.Id) (i j a b : nat) :
  i < j →
  modules !! i = Some Ids.IdNull → modules !! j = Some Ids.IdNull →
  Ids.applyModuleIds usedModuleIds modules !! i = Some (Ids.IdNum a) →
  Ids.applyModuleIds usedModuleIds modules !! j = Some (Ids.IdNum b) →
  a < b.
Proof.
  rewrite applyModuleIds_unfold. apply assignIds_increasing, free_of_ok.
Qed.

Lemma applyModuleIds_new_ids_increase_witness :
  Ids.applyModuleIds (Some [Ids.IdNum 3]) [Ids.IdNull; Ids.IdNum 1; Ids.IdNull] !! 0
    = Some (Ids.IdNum 0)
  ∧ Ids.applyModuleIds (Some [Ids.IdNum 3]) [Ids.IdNull; Ids.IdNum 1; Ids.IdNull] !! 2
    = Some (Ids.IdNum 2)
  ∧ 0 < 2.
Proof.
  split; [reflexivity|]. split; [reflexivity|].
  apply (applyModuleIds_new_ids_increase (Some [Ids.IdNum 3])
           [Ids.IdNull; Ids.IdNum 1; Ids.IdNull] 0 2 0 2);
    [lia|reflexivity..].
Defined.

Lemma used_inv_empty : used_inv (Ids.mkUsed [] ∅).
Proof. intros s. split; [set_solver|]. intros (id & Hid & _). by apply elem_of_nil in Hid. Qed.

Lemma used_inv_collect id u : used_inv u → used_inv (Ids.collect id u).
Proof.
  intros Hu. unfold Ids.collect. case_decide; [done|].
  intros s. simpl. rewrite elem_of_union, elem_of_singleton, (Hu s). split.
  - intros [->|(id' & Hid' & Hk)].
    + exists id. split; [|done]. apply elem_of_app. right. by left.
    + exists id'. split; [|done]. apply elem_of_app. by left.
  - intros (id' & Hid' & Hk). apply elem_of_app in Hid' as [Hid'|Hid'].
    + right. by exists id'.
    + apply list_elem_of_singleton in Hid' as ->. by left.
Qed.

Lemma collect_effect id u :
  Ids.key id ∈ Ids.usedIdMap (Ids.collect id u)
  ∧ Ids.usedIdMap u ⊆ Ids.usedIdMap (Ids.collect id u)
  ∧ (∀ x, x ∈ Ids.usedIds (Ids.collect id u) → x ∈ Ids.usedIds u ∨ x = id).
Proof.
  unfold Ids.collect. case_decide; simpl.
  - split; [done|]. split; [done|]. by left.
  - split; [set_solver|]. split; [set_solver|].
    intros x Hx. apply elem_of_app in Hx as [?|Hx]; [by left|].
    right. by apply list_elem_of_singleton in Hx.
Qed.

Lemma collect_all_effect ids : ∀ u,
  used_inv u →
  let u' := foldl (λ u id, Ids.collect id u) u ids in
  used_inv u'
  ∧ Ids.usedIdMap u ⊆ Ids.usedIdMap u'
  ∧ (∀ id, id ∈ ids → Ids.key id ∈ Ids.usedIdMap u')
  ∧ (∀ x, x ∈ Ids.usedIds u' → x ∈ Ids.usedIds u ∨ x ∈ ids).
Proof.
  induction ids as [|id ids IH]; intros u Hu; simpl.
  - split; [done|]. split; [done|]. split; [|by left].
    intros id Hid. by apply elem_of_nil in Hid.
  - destruct (IH (Ids.collect id u) (used_inv_collect id u Hu)) as (H1 & H2 & H3 & H4).
    destruct (collect_effect id u) as (E1 & E2 & E3).
    split; [done|]. split; [set_solver|]. split.
    + intros id' Hid'. apply elem_of_cons in Hid' as [-> | Hid']; [set_solver|by apply H3].
    + intros x Hx. destruct (H4 x Hx) as [Hx'|Hx'].
      * destruct (E3 x Hx') as [? | ->]; [by left|]. right. by left.
      * right. by right.
Qed.

Lemma collectModule_all_effect ids : ∀ u,
  used_inv u →
  let u' := foldl (λ u id, Ids.collectModule id u) u ids in
  used_inv u'
  ∧ Ids.usedIdMap u ⊆ Ids.usedIdMap u'
  ∧ (∀ id, id ∈ ids → Ids.truthy id = true → Ids.key id ∈ Ids.usedIdMap u')
  ∧ (∀ x, x ∈ Ids.usedIds u' → x ∈ Ids.usedIds u ∨ x ∈ ids).
Proof.
  induction ids as [|id ids IH]; intros u Hu; simpl.
  - split; [done|]. split; [done|]. split; [|by left].
    intros id Hid. by apply elem_of_nil in Hid.
  - unfold Ids.collectModule at 2 4 6 8. destruct (Ids.truthy id) eqn:Ht.
    + destruct (IH (Ids.collect id u) (used_inv_collect id u Hu)) as (H1 & H2 & H3 & H4).
      destruct (collect_effect id u) as (E1 & E2 & E3).
      split; [done|]. split; [set_solver|]. split.
      * intros id' Hid' Ht'.
        apply elem_of_cons in Hid' as [-> | Hid']; [set_solver|by apply H3].
      * intros x Hx. destruct (H4 x Hx) as [Hx'|Hx'].
        -- destruct (E3 x Hx') as [? | ->]; [by left|]. right. by left.
        -- right. by right.
    + destruct (IH u Hu) as (H1 & H2 & H3 & H4).
      split; [done|]. split; [done|]. split.
      * intros id' Hid' Ht'.
        apply elem_of_cons in Hid' as [-> | Hid']; [congruence|by apply H3].
      * intros x Hx. destruct (H4 x Hx) as [Hx'|Hx']; [by left|]. right. by right.
Qed.

Lemma usedIdMax_bound ids : ∀ acc,
  (acc ≤ foldl (λ acc id, match id with Ids.IdNum n => Z.max acc (Z.of_nat n) | _ => acc end)
          acc ids)%Z
  ∧ ∀ k, Ids.IdNum k ∈ ids →
      (Z.of_nat k ≤ foldl (λ acc id, match id with
                                     | Ids.IdNum n => Z.max acc (Z.of_nat n)
                                     | _ => acc
                                     end) acc ids)%Z.
Proof.
  induction ids as [|id ids IH]; intros acc; simpl.
  - split; [lia|]. intros k Hk. by apply elem_of_nil in Hk.
  - destruct id as [|n|s].
    + destruct (IH acc) as [H1 H2]. split; [done|].
      intros k Hk. apply elem_of_cons in Hk as [?|Hk]; [done|by apply H2].
    + destruct (IH (Z.max acc (Z.of_nat n))) as [H1 H2]. split; [lia|].
      intros k Hk. apply elem_of_cons in Hk as [[= ->]|Hk]; [lia|by apply H2].
    + destruct (IH acc) as [H1 H2]. split; [done|].
      intros k Hk. apply elem_of_cons in Hk as [?|Hk]; [done|by apply H2].
Qed.

Lemma free_of_avoids u a k :
  Ids.IdNum k ∈ Ids.usedIds u →
  Ids.key (Ids.IdNum k) ∈ Ids.usedIdMap u →
  a ∈ Ids.unusedIds (free_of u) ∨ Ids.nextFreeModuleId (free_of u) ≤ a →
  a ≠ k.
Proof.
  intros Hin Hkey Ha. unfold free_of in Ha.
  destruct (Ids.usedIds u) as [|x l] eqn:Hl; [by apply elem_of_nil in Hin|].
  simpl in Ha. destruct (usedIdMax_bound (x :: l) (-1)%Z) as [_ Hmax].
  specialize (Hmax k Hin). fold (Ids.usedIdMax (x :: l)) in Hmax.
  destruct Ha as [Ha|Ha].
  - destruct (collectUnused_spec (Ids.usedIdMap u) (Z.to_nat (Ids.usedIdMax (x :: l) + 1)))
      as [_ Hb].
    rewrite Forall_forall in Hb. destruct (Hb a Ha) as [_ Hnot].
    intros ->. done.
  - lia.
Qed.

(** X19: when no id is a string that spells a number, a number that
    [applyModuleIds] hands out is none of the numbers in [usedModuleIds] and
    none of the numbers other than 0 that modules carry. *)
Theorem applyModuleIds_new_ids_avoid_used (usedModuleIds : option (list Ids.Id))
    (modules : list Ids.Id) (i a k : nat) :
  (∀ s (n : nat), Ids.IdStr s ∈ default [] usedModuleIds ++ modules → s ≠ pretty n) →
  modules !! i = Some Ids.IdNull →
  Ids.applyModuleIds usedModuleIds modules !! i = Some (Ids.IdNum a) →
  Ids.IdNum k ∈ default [] usedModuleIds ∨ (Ids.IdNum k ∈ modules ∧ k ≠ 0) →
  a ≠ k.
Proof.
  intros Hstr Hi Ha Hk. rewrite applyModuleIds_unfold in Ha.
  set (u0 := foldl (λ u id, Ids.collect id u) (Ids.mkUsed [] ∅) (default [] usedModuleIds)) in *.
  set (u := foldl (λ u id, Ids.collectModule id u) u0 modules) in *.
  destruct (collect_all_effect (default [] usedModuleIds) _ used_inv_empty)
    as (I0 & _ & K0 & S0). fold u0 in I0, K0, S0.
  destruct (collectModule_all_effect modules u0 I0) as (I1 & M1 & K1 & S1).
  fold u in I1, M1, K1, S1.
  assert (Ids.key (Ids.IdNum k) ∈ Ids.usedIdMap u) as Hkey.
  { destruct Hk as [Hk|[Hk Hne]].
    - apply M1, K0, Hk.
    - apply K1; [done|]. simpl. by destruct k. }
  assert (Ids.IdNum k ∈ Ids.usedIds u) as Hin.
  { apply I1 in Hkey as (id & Hid & Hkid).
    assert (id ∈ default [] usedModuleIds ++ modules) as Hsrc.
    { apply elem_of_app. destruct (S1 id Hid) as [Hid'|?]; [|by right].
      destruct (S0 id Hid') as [Hnil|?]; [by apply elem_of_nil in Hnil|by left]. }
    destruct id as [|n|s]; simpl in Hkid.
    - symmetry in Hkid. by apply pretty_nat_not_null in Hkid.
    - apply (inj pretty) in Hkid. by subst.
    - by destruct (Hstr s k Hsrc). }
  eapply free_of_avoids; [exact Hin|exact Hkey|].
  eapply assignIds_fresh; [apply free_of_ok|exact Hi|exact Ha].
Qed.

Lemma applyModuleIds_new_ids_avoid_used_witness :
  Ids.applyModuleIds (Some [Ids.IdNum 0]) [Ids.IdNum 1; Ids.IdNull] !! 1 = Some (Ids.IdNum 2)
  ∧ 2 ≠ 0 ∧ 2 ≠ 1.
Proof.
  assert (∀ s (n : nat), Ids.IdStr s ∈ default [] (Some [Ids.IdNum 0]) ++ [Ids.IdNum 1; Ids.IdNull]
                 → s ≠ pretty n) as Hstr.
  { intros s n Hs. simpl in Hs. set_solver. }
  split; [reflexivity|]. split.
  - apply (applyModuleIds_new_ids_avoid_used (Some [Ids.IdNum 0])
             [Ids.IdNum 1; Ids.IdNull] 1 2 0 Hstr); [reflexivity..|].
    left. simpl. by left.
  - apply (applyModuleIds_new_ids_avoid_used (Some [Ids.IdNum 0])
             [Ids.IdNum 1; Ids.IdNull] 1 2 1 Hstr); [reflexivity..|].
    right. split; [by left|lia].
Defined.

(** A string id that spells a number is collected in the place of the
    number, which then is not counted when the largest used number is
    sought: the number is handed out again. *)
Example applyModuleIds_numeral_string_hides_number :
  Ids.applyModuleIds None [Ids.IdStr "1"; Ids.IdNum 1; Ids.IdNull; Ids.IdNull]
  = [Ids.IdStr "1"; Ids.IdNum 1; Ids.IdNum 0; Ids.IdNum 1].
Proof. by vm_compute. Qed.

Lemma checkChunks_passes chunkCheck chunks : ∀ seen,
  Ids.checkChunks chunkCheck seen chunks = Ids.Passed
  ↔ NoDup chunks ∧ (∀ c, c ∈ chunks → c ∉ seen)
    ∧ Forall (λ c, chunkCheck c = Ids.Passed) chunks.
Proof.
  induction chunks as [|c chunks IH]; intros seen; simpl.
  - split; [|done]. intros _. split; [constructor|]. split; [|constructor].
    intros c Hc. by apply elem_of_nil in Hc.
  - case_decide as Hseen.
    + split; [done|]. intros (_ & Hfresh & _). destruct (Hfresh c); [by left|done].
    + destruct (chunkCheck c) eqn:Hc.
      * rewrite IH. rewrite NoDup_cons, Forall_cons. split.
        -- intros (Hnd & Hfresh & Hall). split; [split; [|done]|split; [|done]].
           ++ intros Hin. apply (Hfresh c Hin). apply elem_of_app. right. by left.
           ++ intros c' Hc' Hs. apply elem_of_cons in Hc' as [-> | Hc']; [done|].
              apply (Hfresh c' Hc'). apply elem_of_app. by left.
        -- intros ((Hnotin & Hnd) & Hfresh & _ & Hall). split; [done|]. split; [|done].
           intros c' Hc' Hs. apply elem_of_app in Hs as [Hs|Hs].
           ++ apply (Hfresh c'); [by right|done].
           ++ apply list_elem_of_singleton in Hs as ->. done.
      * split; [done|]. rewrite Forall_cons. intros (_ & _ & Hc' & _). congruence.
Qed.

(** X24: the loop of [checkConstraints] over [this.chunks] passes exactly
    when no chunk is in the array twice and the own check of every chunk
    passes. *)
Theorem checkConstraints_chunks_pass_iff_distinct (chunkCheck : nat → Ids.Outcome)
    (chunks : list nat) :
  Ids.checkChunks chunkCheck [] chunks = Ids.Passed
  ↔ NoDup chunks ∧ Forall (λ chunk, chunkCheck chunk = Ids.Passed) chunks.
Proof.
  rewrite checkChunks_passes. split; [naive_solver|].
  intros [??]. split; [done|]. split; [|done]. intros c _ Hc. by apply elem_of_nil in Hc.
Qed.

(** ** applyChunkIds *)

Lemma chunk_assignIds_ids chunks : ∀ f,
  ChunkIds.id <$> ChunkIds.assignIds chunks f
  = Ids.assignIds (ChunkIds.id <$> chunks) (chunk_free f).
Proof.
  induction chunks as [|c chunks IH]; intros f; [done|].
  simpl. destruct (ChunkIds.id c) eqn:Hc; simpl.
  - destruct (last (ChunkIds.unusedIds f)); simpl; by rewrite IH.
  - by rewrite IH.
  - by rewrite IH.
Qed.

Lemma chunk_assignIds_lookup chunks : ∀ f i c,
  chunks !! i = Some c →
  ∃ newId, ChunkIds.assignIds chunks f !! i = Some (ChunkIds.withIds newId c).
Proof.
  induction chunks as [|c' chunks IH]; intros f i c Hi; [done|].
  destruct i as [|i]; simpl in Hi.
  - injection Hi as ->. simpl. destruct (ChunkIds.id c); simpl; [|eauto..].
    destruct (last (ChunkIds.unusedIds f)); simpl; eauto.
  - simpl. destruct (ChunkIds.id c'); simpl; [|eauto..].
    destruct (last (ChunkIds.unusedIds f)); simpl; eauto.
Qed.

Lemma chunk_collectUnused_spec used n :
  StronglySorted (λ a b, b < a) (ChunkIds.collectUnused used n)
  ∧ Forall (λ a, a < n ∧ used !! Ids.key (Ids.IdNum a) ≠ Some (Ids.IdNum a))
           (ChunkIds.collectUnused used n).
Proof.
  induction n as [|n [IHs IHb]]; simpl; [split; constructor|].
  assert (Forall (λ a, a < S n ∧ used !! Ids.key (Ids.IdNum a) ≠ Some (Ids.IdNum a))
                 (ChunkIds.collectUnused used n)) as Hb.
  { eapply Forall_impl; [exact IHb|]. simpl. intros a [??]. split; [lia|done]. }
  case_decide; [done|]. split.
  - constructor; [done|]. eapply Forall_impl; [exact IHb|]. simpl. intros a [??]. lia.
  - constructor; [|done]. split; [lia|done].
Qed.

Lemma chunk_free_of_ok usedChunkIds : free_ok (chunk_free (chunk_free_of usedChunkIds)).
Proof.
  destruct usedChunkIds as [used|]; simpl; [|split; constructor].
  destruct (chunk_collectUnused_spec used (ChunkIds.nextFreeChunkId used)) as [Hs Hb].
  split; simpl; [done|]. eapply Forall_impl; [exact Hb|]. by intros a [??].
Qed.

Lemma nextFreeChunkId_fold (l : list (string * Ids.Id)) : ∀ acc,
  let r := foldl (λ next kv,
                    match kv.2 with
                    | Ids.IdNum usedIdValue =>
                        Z.to_nat (Z.max (Z.of_nat next - 1) (Z.of_nat usedIdValue) + 1)
                    | _ => next
                    end) acc l in
  acc ≤ r
  ∧ (∀ key v, (key, Ids.IdNum v) ∈ l → v < r)
  ∧ (r = acc ∨ ∃ key v, (key, Ids.IdNum v) ∈ l ∧ r = S v).
Proof.
  induction l as [|[key x] l IH]; intros acc; simpl.
  - split; [lia|]. split; [|by left]. intros key v Hv. by apply elem_of_nil in Hv.
  - destruct x as [|n|s]; simpl.
    + destruct (IH acc) as (H1 & H2 & H3). split; [done|]. split.
      * intros key' v Hv. apply elem_of_cons in Hv as [?|Hv]; [done|by eapply H2].
      * destruct H3 as [?|(key' & v & Hv & ?)]; [by left|].
        right. exists key', v. split; [by right|done].
    + destruct (IH (Z.to_nat (Z.max (Z.of_nat acc - 1) (Z.of_nat n) + 1))) as (H1 & H2 & H3).
      split; [lia|]. split.
      * intros key' v Hv. apply elem_of_cons in Hv as [[= -> ->]|Hv]; [lia|by eapply H2].
      * destruct H3 as [Hr|(key' & v & Hv & ?)].
        -- destruct (decide (n < acc)).
           ++ left. lia.
           ++ right. exists key, n. split; [by left|lia].
        -- right. exists key', v. split; [by right|done].
    + destruct (IH acc) as (H1 & H2 & H3). split; [done|]. split.
      * intros key' v Hv. apply elem_of_cons in Hv as [?|Hv]; [done|by eapply H2].
      * destruct H3 as [?|(key' & v & Hv & ?)]; [by left|].
        right. exists key', v. split; [by right|done].
Qed.

(** The counter ends one above the largest number among the values, at 0 when
    there is none: the order of the keys does not matter. *)
Lemma nextFreeChunkId_spec (used : gmap string Ids.Id) :
  (∀ key v, used !! key = Some (Ids.IdNum v) → v < ChunkIds.nextFreeChunkId used)
  ∧ (ChunkIds.nextFreeChunkId used = 0
     ∨ ∃ key v, used !! key = Some (Ids.IdNum v) ∧ ChunkIds.nextFreeChunkId used = S v).
Proof.
  destruct (nextFreeChunkId_fold (map_to_list used) 0) as (_ & H2 & H3). split.
  - intros key v Hv. apply (H2 key v). by apply elem_of_map_to_list.
  - destruct H3 as [?|(key & v & Hv & ?)]; [by left|].
    right. exists key, v. split; [by apply elem_of_map_to_list|done].
Qed.

(** X20: [applyChunkIds] changes no id that is not [null], gives every
    chunk whose id is [null] a number as its id, and leaves every chunk
    with an [ids] array: the one it had, or the array of its id. *)
Theorem applyChunkIds_fills_and_keeps (usedChunkIds : option (gmap string Ids.Id))
    (chunks : list ChunkIds.Chunk) :
  length (ChunkIds.applyChunkIds usedChunkIds chunks) = length chunks
  ∧ ∀ i chunk, chunks !! i = Some chunk →
      ∃ chunk', ChunkIds.applyChunkIds usedChunkIds chunks !! i = Some chunk'
        ∧ ChunkIds.id chunk' ≠ Ids.IdNull
        ∧ (ChunkIds.id chunk = Ids.IdNull → ∃ n, ChunkIds.id chunk' = Ids.IdNum n)
        ∧ (ChunkIds.id chunk ≠ Ids.IdNull → ChunkIds.id chunk' = ChunkIds.id chunk)
        ∧ ChunkIds.ids chunk' = Some (default [ChunkIds.id chunk'] (ChunkIds.ids chunk)).
Proof.
  change (ChunkIds.applyChunkIds usedChunkIds chunks)
    with (ChunkIds.assignIds chunks (chunk_free_of usedChunkIds)).
  set (f := chunk_free_of usedChunkIds).
  assert (length (ChunkIds.assignIds chunks f) = length chunks) as Hlen.
  { rewrite <- (length_fmap ChunkIds.id), chunk_assignIds_ids, assignIds_length.
    by rewrite length_fmap. }
  split; [done|]. intros i c Hi.
  destruct (chunk_assignIds_lookup chunks f i c Hi) as [newId Hnew].
  exists (ChunkIds.withIds newId c). split; [done|].
  assert (Ids.assignIds (ChunkIds.id <$> chunks) (chunk_free f) !! i = Some newId) as Hid.
  { rewrite <- chunk_assignIds_ids, list_lookup_fmap, Hnew. done. }
  assert ((ChunkIds.id <$> chunks) !! i = Some (ChunkIds.id c)) as Hold.
  { by rewrite list_lookup_fmap, Hi. }
  simpl. split; [|split; [|split]].
  - destruct (ChunkIds.id c) eqn:Hc.
    + destruct (assignIds_fills _ (chunk_free f) _ Hold) as [n Hn]. congruence.
    + pose proof (assignIds_keeps _ (chunk_free f) _ _ Hold ltac:(done)). congruence.
    + pose proof (assignIds_keeps _ (chunk_free f) _ _ Hold ltac:(done)). congruence.
  - intros Hnull. rewrite Hnull in Hold.
    destruct (assignIds_fills _ (chunk_free f) _ Hold) as [n Hn]. exists n. congruence.
  - intros Hset. pose proof (assignIds_keeps _ (chunk_free f) _ _ Hold Hset). congruence.
  - by destruct (ChunkIds.ids c).
Qed.

(** X21: a number [applyChunkIds] hands out is no number [v] that
    [usedChunkIds] keeps under its own key ([usedChunkIds[v] === v]), and
    the numbers handed out increase along [this.chunks]. *)
Theorem applyChunkIds_new_ids (usedChunkIds : option (gmap string Ids.Id))
    (chunks : list ChunkIds.Chunk) (i : nat) (chunk chunk' : ChunkIds.Chunk) (a : nat) :
  chunks !! i = Some chunk → ChunkIds.id chunk = Ids.IdNull →
  ChunkIds.applyChunkIds usedChunkIds chunks !! i = Some chunk' →
  ChunkIds.id chunk' = Ids.IdNum a →
  (∀ used v, usedChunkIds = Some used → used !! Ids.key (Ids.IdNum v) = Some (Ids.IdNum v) →
             a ≠ v)
  ∧ (∀ j other other' b, i < j →
       chunks !! j = Some other → ChunkIds.id other = Ids.IdNull →
       ChunkIds.applyChunkIds usedChunkIds chunks !! j = Some other' →
       ChunkIds.id other' = Ids.IdNum b → a < b).
Proof.
  change (ChunkIds.applyChunkIds usedChunkIds chunks)
    with (ChunkIds.assignIds chunks (chunk_free_of usedChunkIds)).
  set (f := chunk_free_of usedChunkIds).
  intros Hi Hnull Hi' Ha.
  assert (∀ k c c' x, chunks !! k = Some c → ChunkIds.id c = Ids.IdNull →
            ChunkIds.assignIds chunks f !! k = Some c' → ChunkIds.id c' = Ids.IdNum x →
            (ChunkIds.id <$> chunks) !! k = Some Ids.IdNull
            ∧ Ids.assignIds (ChunkIds.id <$> chunks) (chunk_free f) !! k = Some (Ids.IdNum x))
    as Hbridge.
  { intros k c c' x Hk Hc Hk' Hx. split.
    - by rewrite list_lookup_fmap, Hk, <- Hc.
    - by rewrite <- chunk_assignIds_ids, list_lookup_fmap, Hk', <- Hx. }
  destruct (Hbridge _ _ _ _ Hi Hnull Hi' Ha) as [Hold Hnew]. split.
  - intros used v -> Hv.
    destruct (assignIds_fresh _ _ _ _ (chunk_free_of_ok (Some used)) Hold Hnew) as [Hin|Hge];
      simpl in *.
    + destruct (chunk_collectUnused_spec used (ChunkIds.nextFreeChunkId used)) as [_ Hb].
      rewrite Forall_forall in Hb. destruct (Hb a Hin) as [_ Hnot]. by intros ->.
    + destruct (nextFreeChunkId_spec used) as [Hmax _].
      specialize (Hmax _ _ Hv). lia.
  - intros j other other' b Hij Hj Hnull' Hj' Hb.
    destruct (Hbridge _ _ _ _ Hj Hnull' Hj' Hb) as [Hold' Hnew'].
    eapply (assignIds_increasing _ _ i j); [apply (chunk_free_of_ok usedChunkIds)|done..].
Qed.

Lemma applyChunkIds_new_ids_witness :
  (∀ used v, Some ({[ "0" := Ids.IdNum 0; "2" := Ids.IdNum 2 ]} : gmap string Ids.Id) = Some used →
             used !! Ids.key (Ids.IdNum v) = Some (Ids.IdNum v) → 1 ≠ v)
  ∧ (∀ j other other' b, 0 < j →
       [ChunkIds.mkChunk Ids.IdNull None; ChunkIds.mkChunk (Ids.IdNum 5) None;
        ChunkIds.mkChunk Ids.IdNull None] !! j = Some other →
       ChunkIds.id other = Ids.IdNull →
       ChunkIds.applyChunkIds (Some {[ "0" := Ids.IdNum 0; "2" := Ids.IdNum 2 ]})
         [ChunkIds.mkChunk Ids.IdNull None; ChunkIds.mkChunk (Ids.IdNum 5) None;
          ChunkIds.mkChunk Ids.IdNull None] !! j = Some other' →
       ChunkIds.id other' = Ids.IdNum b → 1 < b).
Proof.
  apply (applyChunkIds_new_ids (Some {[ "0" := Ids.IdNum 0; "2" := Ids.IdNum 2 ]})
           [ChunkIds.mkChunk Ids.IdNull None; ChunkIds.mkChunk (Ids.IdNum 5) None;
            ChunkIds.mkChunk Ids.IdNull None]
           0 (ChunkIds.mkChunk Ids.IdNull None)
           (ChunkIds.mkChunk (Ids.IdNum 1) (Some [Ids.IdNum 1])) 1).
  - reflexivity.
  - reflexivity.
  - vm_compute. reflexivity.
  - reflexivity.
Defined.

(** The ids the chunks already carry play no part: a chunk without an id is
    given an id another chunk has. *)
Example applyChunkIds_ignores_ids_in_use :
  ChunkIds.id <$> ChunkIds.applyChunkIds None
                    [ChunkIds.mkChunk (Ids.IdNum 0) None; ChunkIds.mkChunk Ids.IdNull None]
  = [Ids.IdNum 0; Ids.IdNum 0].
Proof. by vm_compute. Qed.

(** ** applyModuleIds and applyChunkIds: the least free number first *)

Lemma assignIds_no_gap ms : ∀ f i a b,
  free_ok f → ms !! i = Some Ids.IdNull → Ids.assignIds ms f !! i = Some (Ids.IdNum a) →
  b < a → free_has f b →
  ∃ j, j < i ∧ ms !! j = Some Ids.IdNull ∧ Ids.assignIds ms f !! j = Some (Ids.IdNum b).
Proof.
  induction ms as [|id ms IH]; intros f i a b Hf Hi Ha Hlt Hb; [done|].
  destruct id; simpl in Ha |- *.
  - destruct (last (Ids.unusedIds f)) as [x|] eqn:Hlast.
    + destruct (free_ok_pop f x Hf Hlast) as (Hf' & Hx & Hrest).
      destruct i as [|i]; simpl in *.
      * injection Ha as <-. exfalso. destruct Hb as [Hb|Hb]; [|lia].
        apply last_Some in Hlast as [l' Hl]. rewrite Hl in Hb, Hrest.
        rewrite removelast_last in Hrest.
        apply elem_of_app in Hb as [Hb|Hb]; [specialize (Hrest b Hb); lia|].
        apply list_elem_of_singleton in Hb. lia.
      * destruct (decide (b = x)) as [->|Hne].
        -- exists 0. split; [lia|]. done.
        -- destruct (IH _ i a b Hf' Hi Ha Hlt) as (j & Hj & Hjn & Hjb).
           { destruct Hb as [Hb|Hb]; [|by right]. left. simpl.
             apply last_Some in Hlast as [l' Hl]. rewrite Hl in Hb |- *.
             rewrite removelast_last.
             apply elem_of_app in Hb as [Hb|Hb]; [done|].
             apply list_elem_of_singleton in Hb. done. }
           exists (S j). split; [lia|]. done.
    + apply last_None in Hlast.
      destruct i as [|i]; simpl in *.
      * injection Ha as <-. exfalso. destruct Hb as [Hb|Hb]; [|lia].
        rewrite Hlast in Hb. by apply elem_of_nil in Hb.
      * destruct (decide (b = Ids.nextFreeModuleId f)) as [->|Hne].
        -- exists 0. split; [lia|]. done.
        -- destruct (IH _ i a b (free_ok_next f Hf Hlast) Hi Ha Hlt) as (j & Hj & Hjn & Hjb).
           { destruct Hb as [Hb|Hb]; [by left|]. right. simpl. lia. }
           exists (S j). split; [lia|]. done.
  - destruct i as [|i]; simpl in *; [done|].
    destruct (IH _ i a b Hf Hi Ha Hlt Hb) as (j & Hj & Hjn & Hjb).
    exists (S j). split; [lia|]. done.
  - destruct i as [|i]; simpl in *; [done|].
    destruct (IH _ i a b Hf Hi Ha Hlt Hb) as (j & Hj & Hjn & Hjb).
    exists (S j). split; [lia|]. done.
Qed.

Lemma collectUnused_complete map n b :
  b < n → Ids.key (Ids.IdNum b) ∉ map → b ∈ Ids.collectUnused map n.
Proof.
  induction n as [|n IH]; intros Hlt Hb; [lia|]. simpl.
  destruct (decide (b = n)) as [->|Hne].
  - rewrite decide_False by done. left.
  - case_decide; [apply IH; [lia|done]|]. right. apply IH; [lia|done].
Qed.

Lemma chunk_collectUnused_complete used n b :
  b < n → used !! Ids.key (Ids.IdNum b) ≠ Some (Ids.IdNum b) →
  b ∈ ChunkIds.collectUnused used n.
Proof.
  induction n as [|n IH]; intros Hlt Hb; [lia|]. simpl.
  destruct (decide (b = n)) as [->|Hne].
  - rewrite decide_False by done. left.
  - case_decide; [apply IH; [lia|done]|]. right. apply IH; [lia|done].
Qed.

(** X25: [applyModuleIds] hands out the least numbers first.  When no string
    id spells a number, every number below the one a module without an id
    is given is taken: it is a reserved id, or the id of a module (other
    than 0, which the first loop does not see), or it was given to an
    earlier module without an id. *)
Theorem applyModuleIds_new_ids_leave_no_gap (usedModuleIds : option (list Ids.Id))
    (modules : list Ids.Id) (i a b : nat) :
  (∀ s (n : nat), Ids.IdStr s ∈ default [] usedModuleIds ++ modules → s ≠ pretty n) →
  modules !! i = Some Ids.IdNull →
  Ids.applyModuleIds usedModuleIds modules !! i = Some (Ids.IdNum a) →
  b < a →
  Ids.IdNum b ∈ default [] usedModuleIds
  ∨ (Ids.IdNum b ∈ modules ∧ b ≠ 0)
  ∨ ∃ j, j < i ∧ modules !! j = Some Ids.IdNull
         ∧ Ids.applyModuleIds usedModuleIds modules !! j = Some (Ids.IdNum b).
Proof.
  intros Hstr Hi Ha Hlt. rewrite applyModuleIds_unfold in Ha |- *.
  set (u0 := foldl (λ u id, Ids.collect id u) (Ids.mkUsed [] ∅) (default [] usedModuleIds)) in *.
  set (u := foldl (λ u id, Ids.collectModule id u) u0 modules) in *.
  destruct (collect_all_effect (default [] usedModuleIds) _ used_inv_empty)
    as (I0 & _ & K0 & S0). fold u0 in I0, K0, S0.
  destruct (collectModule_all_effect modules u0 I0) as (I1 & M1 & K1 & S1).
  fold u in I1, M1, K1, S1.
  destruct (decide (Ids.key (Ids.IdNum b) ∈ Ids.usedIdMap u)) as [Hkey|Hfree].
  - (* the number is in use *)
    apply I1 in Hkey as (id & Hid & Hkid).
    assert (id = Ids.IdNum b) as ->.
    { assert (id ∈ default [] usedModuleIds ++ modules) as Hsrc.
      { apply elem_of_app. destruct (S1 id Hid) as [Hid'|?]; [|by right].
        destruct (S0 id Hid') as [Hnil|?]; [by apply elem_of_nil in Hnil|by left]. }
      destruct id as [|n|s]; simpl in Hkid.
      - symmetry in Hkid. by apply pretty_nat_not_null in Hkid.
      - apply (inj pretty) in Hkid. by subst.
      - by destruct (Hstr s b Hsrc). }
    destruct (S1 _ Hid) as [Hid'|Hm].
    + left. destruct (S0 _ Hid') as [Hnil|?]; [by apply elem_of_nil in Hnil|done].
    + destruct (decide (b = 0)) as [->|Hne]; [|right; left; done].
      (* a module's id 0 is never collected, so 0 came from the reservations *)
      left. clear -Hid S0 I0 Hm.
      assert (∀ ids u1, Ids.IdNum 0 ∈ Ids.usedIds (foldl (λ u id, Ids.collectModule id u) u1 ids)
                        → Ids.IdNum 0 ∈ Ids.usedIds u1) as Hzero.
      { induction ids as [|id ids IH]; intros u1 H0; [done|]. simpl in H0.
        apply IH in H0. unfold Ids.collectModule in H0.
        destruct (Ids.truthy id) eqn:Ht; [|done].
        destruct (collect_effect id u1) as (_ & _ & E3).
        destruct (E3 _ H0) as [?|Heq]; [done|]. subst id. done. }
      apply Hzero in Hid. destruct (S0 _ Hid) as [Hnil|?]; [by apply elem_of_nil in Hnil|done].
  - right. right.
    apply (assignIds_no_gap modules (free_of u) i a b (free_of_ok u) Hi Ha Hlt).
    unfold free_has, free_of. destruct (Ids.usedIds u) as [|x l] eqn:Hl; simpl.
    + right. lia.
    + destruct (decide (b < Z.to_nat (Ids.usedIdMax (x :: l) + 1))).
      * left. by apply collectUnused_complete.
      * right. lia.
Qed.

Lemma applyModuleIds_new_ids_leave_no_gap_witness :
  Ids.IdNum 1 ∈ default [] (Some [Ids.IdNum 1])
  ∨ (Ids.IdNum 1 ∈ [Ids.IdNull; Ids.IdNum 3; Ids.IdNull] ∧ 1 ≠ 0)
  ∨ ∃ j, j < 2 ∧ [Ids.IdNull; Ids.IdNum 3; Ids.IdNull] !! j = Some Ids.IdNull
         ∧ Ids.applyModuleIds (Some [Ids.IdNum 1]) [Ids.IdNull; Ids.IdNum 3; Ids.IdNull] !! j
           = Some (Ids.IdNum 1).
Proof.
  apply (applyModuleIds_new_ids_leave_no_gap (Some [Ids.IdNum 1])
           [Ids.IdNull; Ids.IdNum 3; Ids.IdNull] 2 2 1).
  - intros s n Hs. simpl in Hs. set_solver.
  - reflexivity.
  - reflexivity.
  - lia.
Defined.

(** X26: [applyChunkIds] hands out the least numbers first: every number
    below the one a chunk without an id is given is stored under its own
    key in [usedChunkIds], or was given to an earlier chunk without an
    id. *)
Theorem applyChunkIds_new_ids_leave_no_gap (usedChunkIds : option (gmap string Ids.Id))
    (chunks : list ChunkIds.Chunk) (i : nat) (chunk chunk' : ChunkIds.Chunk) (a b : nat) :
  chunks !! i = Some chunk → ChunkIds.id chunk = Ids.IdNull →
  ChunkIds.applyChunkIds usedChunkIds chunks !! i = Some chunk' →
  ChunkIds.id chunk' = Ids.IdNum a →
  b < a →
  (∃ used, usedChunkIds = Some used ∧ used !! Ids.key (Ids.IdNum b) = Some (Ids.IdNum b))
  ∨ ∃ j earlier earlier', j < i ∧ chunks !! j = Some earlier
      ∧ ChunkIds.id earlier = Ids.IdNull
      ∧ ChunkIds.applyChunkIds usedChunkIds chunks !! j = Some earlier'
      ∧ ChunkIds.id earlier' = Ids.IdNum b.
Proof.
  change (ChunkIds.applyChunkIds usedChunkIds chunks)
    with (ChunkIds.assignIds chunks (chunk_free_of usedChunkIds)).
  set (f := chunk_free_of usedChunkIds).
  intros Hi Hnull Hi' Ha Hlt.
  assert ((ChunkIds.id <$> chunks) !! i = Some Ids.IdNull) as Hold.
  { rewrite list_lookup_fmap, Hi. simpl. by rewrite Hnull. }
  assert (Ids.assignIds (ChunkIds.id <$> chunks) (chunk_free f) !! i = Some (Ids.IdNum a))
    as Hnew.
  { rewrite <- chunk_assignIds_ids, list_lookup_fmap. rewrite Hi'. simpl. by rewrite Ha. }
  assert (free_has (chunk_free f) b
          ∨ ∃ used, usedChunkIds = Some used
                    ∧ used !! Ids.key (Ids.IdNum b) = Some (Ids.IdNum b)) as [Hfree|Hused].
  { unfold free_has, f, chunk_free_of. destruct usedChunkIds as [used|]; simpl.
    - destruct (decide (used !! Ids.key (Ids.IdNum b) = Some (Ids.IdNum b))) as [Hu|Hu].
      + right. by exists used.
      + left. destruct (decide (b < ChunkIds.nextFreeChunkId used)).
        * left. by apply chunk_collectUnused_complete.
        * right. lia.
    - left. right. lia. }
  - right.
    destruct (assignIds_no_gap _ _ i a b (chunk_free_of_ok usedChunkIds) Hold Hnew Hlt Hfree)
      as (j & Hj & Hjn & Hjb).
    rewrite list_lookup_fmap in Hjn. rewrite <- chunk_assignIds_ids, list_lookup_fmap in Hjb.
    destruct (chunks !! j) as [earlier|] eqn:He; [|by simpl in Hjn].
    fold f in Hjb.
    destruct (ChunkIds.assignIds chunks f !! j) as [earlier'|] eqn:He'; [|by simpl in Hjb].
    simpl in Hjn, Hjb. injection Hjn as Hjn. injection Hjb as Hjb.
    by exists j, earlier, earlier'.
  - by left.
Qed.

Lemma applyChunkIds_new_ids_leave_no_gap_witness :
  (∃ used, Some ({[ "0" := Ids.IdNum 0 ]} : gmap string Ids.Id) = Some used
           ∧ used !! Ids.key (Ids.IdNum 0) = Some (Ids.IdNum 0))
  ∨ ∃ j earlier earlier', j < 0
      ∧ [ChunkIds.mkChunk Ids.IdNull None] !! j = Some earlier
      ∧ ChunkIds.id earlier = Ids.IdNull
      ∧ ChunkIds.applyChunkIds (Some {[ "0" := Ids.IdNum 0 ]})
          [ChunkIds.mkChunk Ids.IdNull None] !! j = Some earlier'
      ∧ ChunkIds.id earlier' = Ids.IdNum 0.
Proof.
  apply (applyChunkIds_new_ids_leave_no_gap (Some {[ "0" := Ids.IdNum 0 ]})
           [ChunkIds.mkChunk Ids.IdNull None] 0 (ChunkIds.mkChunk Ids.IdNull None)
           (ChunkIds.mkChunk (Ids.IdNum 1) (Some [Ids.IdNum 1])) 1 0).
  - reflexivity.
  - reflexivity.
  - vm_compute. reflexivity.
  - reflexivity.
  - lia.
Defined.

(** ** addChunk and unseal *)

Lemma registry_inv_initial : registry_inv Registry.initial.
Proof.
  split; simpl; [constructor|constructor|..]; intros *; by rewrite ?lookup_empty.
Qed.

Lemma registry_inv_addChunk name module loc s :
  registry_inv s → registry_inv (Registry.addChunk name module loc s).2.
Proof.
  intros [Hnd Hfresh Hnamed Hnames Hnoproto]. unfold Registry.addChunk.
  destruct (Registry.named name ≫= _) as [chunk|] eqn:Hfound; simpl.
  - destruct module; done.
  - assert (Registry.nextChunk s ∉ Registry.chunks s) as Hnew.
    { intros Hin. rewrite Forall_forall in Hfresh. specialize (Hfresh _ Hin). lia. }
    split; simpl.
    + apply NoDup_app. split; [done|]. split; [|apply NoDup_singleton].
      intros c Hc Hc'. apply list_elem_of_singleton in Hc' as ->. done.
    + apply Forall_app. split.
      * eapply Forall_impl; [exact Hfresh|]. simpl. lia.
      * apply Forall_singleton. lia.
    + intros n c. destruct (Registry.named name) as [n0|] eqn:Hn0.
      * unfold assignProperty. destruct (decide (n0 = "__proto__")) as [Hproto|Hproto].
        { intros Hc. apply elem_of_app. left. by eapply Hnamed. }
        destruct (decide (n = n0)) as [->|Hne].
        -- rewrite lookup_insert_eq. intros [= <-]. apply elem_of_app. right. by left.
        -- rewrite lookup_insert_ne by done. intros Hc. apply elem_of_app. left.
           by eapply Hnamed.
      * intros Hc. apply elem_of_app. left. by eapply Hnamed.
    + intros n n' c. destruct (Registry.named name) as [n0|] eqn:Hn0; [|apply Hnames].
      simpl in Hfound. unfold assignProperty.
      destruct (decide (n0 = "__proto__")) as [Hproto|Hproto]; [apply Hnames|].
      destruct (decide (n = n0)) as [->|Hne]; destruct (decide (n' = n0)) as [->|Hne'];
        rewrite ?lookup_insert_eq, ?lookup_insert_ne by done; try done.
      * intros [= <-] Hc. by apply Hnamed in Hc.
      * intros Hc [= <-]. by apply Hnamed in Hc.
      * apply Hnames.
    + destruct (Registry.named name) as [n0|]; [|done]. unfold assignProperty.
      destruct (decide (n0 = "__proto__")) as [Hproto|Hproto]; [done|].
      by rewrite lookup_insert_ne.
Qed.

Lemma registry_inv_run inputs : ∀ s, registry_inv s → registry_inv (Registry.run inputs s).
Proof.
  induction inputs as [|i inputs IH]; intros s Hs; [done|].
  simpl. apply IH. destruct i as [name module loc|]; simpl.
  - by apply registry_inv_addChunk.
  - split; simpl; [constructor|constructor|..]; intros *; by rewrite ?lookup_empty.
Qed.

(** X13: in every state that calls of [addChunk] and [unseal] lead to, no
    chunk is in [chunks] twice, every chunk of [namedChunks] is in [chunks],
    and no chunk is kept under two names; so the loop of [checkConstraints]
    over the chunks passes whenever the chunks' own checks pass. *)
Theorem addChunk_keeps_chunks_distinct (inputs : list Registry.Input)
    (chunkCheck : nat → Ids.Outcome) :
  let s := Registry.run inputs Registry.initial in
  NoDup (Registry.chunks s)
  ∧ (∀ n c, Registry.namedChunks s !! n = Some c → c ∈ Registry.chunks s)
  ∧ (∀ n n' c, Registry.namedChunks s !! n = Some c →
               Registry.namedChunks s !! n' = Some c → n = n')
  ∧ (Ids.checkChunks chunkCheck [] (Registry.chunks s) = Ids.Passed
     ↔ Forall (λ chunk, chunkCheck chunk = Ids.Passed) (Registry.chunks s)).
Proof.
  simpl. destruct (registry_inv_run inputs _ registry_inv_initial) as [Hnd _ Hnamed Hnames _].
  split; [done|]. split; [done|]. split; [done|].
  rewrite checkChunks_passes. split; [naive_solver|].
  intros ?. split; [done|]. split; [|done]. intros c _ Hc. by apply elem_of_nil in Hc.
Qed.

(** X14: [addChunk] with a name other than [__proto__] returns the chunk
    of that name: the chunk is in [chunks] and under the name in
    [namedChunks], and a second call with the name returns the same chunk
    and adds none.  Without a name, with the empty string, or with the name
    [__proto__], under which a plain object keeps no property, every call
    makes a chunk of its own and [namedChunks] stays as it is. *)
Theorem addChunk_by_name (inputs : list Registry.Input) (name : option string)
    (module module' : option ModuleRef) (loc loc' : option Registry.Loc) :
  let s := Registry.run inputs Registry.initial in
  let first := Registry.addChunk name module loc s in
  let second := Registry.addChunk name module' loc' first.2 in
  let kept (n : string) :=
    Registry.namedChunks first.2 !! n = Some first.1
    ∧ second.1 = first.1
    ∧ Registry.chunks second.2 = Registry.chunks first.2
    ∧ Registry.namedChunks second.2 = Registry.namedChunks first.2 in
  let anew :=
    (first.1 ∉ Registry.chunks s)
    ∧ second.1 ≠ first.1
    ∧ Registry.chunks second.2 = Registry.chunks s ++ [first.1; second.1]
    ∧ Registry.namedChunks second.2 = Registry.namedChunks s
    ∧ Registry.calls second.2
      = Registry.calls s ++ [Registry.NewChunk first.1 name module loc;
                             Registry.NewChunk second.1 name module' loc'] in
  first.1 ∈ Registry.chunks first.2
  ∧ match Registry.named name with
    | Some n => if decide (n = "__proto__") then anew else kept n
    | None => anew
    end.
Proof.
  simpl. set (s := Registry.run inputs Registry.initial).
  destruct (registry_inv_run inputs _ registry_inv_initial)
    as [Hnd Hfresh Hnamed Hnames Hnoproto].
  fold s in Hnd, Hfresh, Hnamed, Hnames, Hnoproto.
  assert (Registry.nextChunk s ∉ Registry.chunks s) as Hnew.
  { intros Hin. rewrite Forall_forall in Hfresh. specialize (Hfresh _ Hin). lia. }
  destruct (Registry.addChunk name module loc s) as [c1 s1] eqn:H1. simpl.
  destruct (Registry.addChunk name module' loc' s1) as [c2 s2] eqn:H2. simpl.
  unfold Registry.addChunk in H1, H2.
  destruct (Registry.named name) as [n|] eqn:Hn; simpl in H1, H2.
  - destruct (decide (n = "__proto__")) as [->|Hproto].
    + (* nothing is ever kept under [__proto__] *)
      rewrite Hnoproto in H1. simpl in H1. unfold assignProperty in H1. simpl in H1.
      injection H1 as <- <-. simpl in H2. rewrite Hnoproto in H2.
      unfold assignProperty in H2. simpl in H2. injection H2 as <- <-. simpl.
      split; [apply elem_of_app; right; by left|].
      split; [done|]. split; [lia|]. by rewrite <- !app_assoc.
    + destruct (Registry.namedChunks s !! n) as [chunk|] eqn:Hc; simpl in H1.
      * assert (Registry.namedChunks s1 = Registry.namedChunks s
                ∧ Registry.chunks s1 = Registry.chunks s ∧ c1 = chunk) as (Hs1 & Hs1' & ->).
        { destruct module; simpl in H1; injection H1 as H1a H1b; subst c1; subst s1; done. }
        rewrite Hs1, Hc in H2. simpl in H2.
        assert (Registry.namedChunks s2 = Registry.namedChunks s1
                ∧ Registry.chunks s2 = Registry.chunks s1 ∧ c2 = chunk) as (Hs2 & Hs2' & ->).
        { destruct module'; simpl in H2; injection H2 as H2a H2b; subst c2; subst s2; done. }
        rewrite Hs1'. split; [by eapply Hnamed|]. by rewrite Hs2, Hs2', Hs1, Hc.
      * unfold assignProperty in H1. rewrite decide_False in H1 by done.
        injection H1 as <- <-. simpl in *. rewrite lookup_insert_eq in H2. simpl in H2.
        split; [apply elem_of_app; right; by left|].
        rewrite lookup_insert_eq. destruct module'; injection H2 as <- <-; done.
  - injection H1 as <- <-. simpl in *. injection H2 as <- <-. simpl.
    split; [apply elem_of_app; right; by left|].
    split; [done|]. split; [lia|]. by rewrite <- !app_assoc.
Qed.

(** ** seal: assignDepth over the entries *)

Lemma depth_loop_more_fuel g fuel : ∀ fuel' s s',
  fuel ≤ fuel' → Depth.loop g fuel s = Some s' → Depth.loop g fuel' s = Some s'.
Proof.
  induction fuel as [|fuel IH]; intros fuel' s s' Hle Hrun.
  - simpl in Hrun. destruct (Depth.queue s) eqn:Hq; [|done].
    destruct fuel'; simpl; by rewrite Hq.
  - destruct fuel' as [|fuel']; [lia|].
    destruct (Depth.step g s) as [s1|] eqn:Hstep.
    + rewrite (depth_loop_unfold g fuel _ _ Hstep) in Hrun.
      rewrite (depth_loop_unfold g fuel' _ _ Hstep). apply IH; [lia|done].
    + unfold Depth.step in Hstep. simpl in Hrun |- *.
      destruct (Depth.queue s) as [|[m d] rest] eqn:Hq; done.
Qed.

Lemma depth_inv_entries_step g roots s s' :
  Depth.step g s = Some s' → depth_inv_entries g roots s → depth_inv_entries g roots s'.
Proof.
  intros Hstep [Hroot Hclosed Hsound Hqueue].
  pose proof (depth_covered_step g s s') as Hcov.
  destruct (Depth.queue s) as [|[m d] rest] eqn:Hq.
  { unfold Depth.step in Hstep. by rewrite Hq in Hstep. }
  assert (Hmd : ∃ r, r ∈ roots ∧ path g r m d) by (apply Hqueue; left).
  destruct (depth_step_cases g s m d rest Hq)
    as [(old & Hold & Hle & Hstep')|[Hnew Hstep']];
    rewrite Hstep' in Hstep; injection Hstep as <-;
    rewrite Hstep' in Hcov.
  - split; simpl.
    + intros r Hr. apply Hcov; [done|]. by apply Hroot.
    + intros m' d' n Hm' He. apply Hcov; [done|]. by eapply Hclosed.
    + done.
    + intros m' d' Hin. apply Hqueue. by right.
  - split; simpl.
    + intros r Hr. apply Hcov; [done|]. by apply Hroot.
    + intros m' d' n Hm' He. destruct (decide (m' = m)) as [->|Hne].
      * rewrite lookup_insert_eq in Hm'. injection Hm' as <-.
        right. exists (d + 1). split; [|done]. simpl.
        apply elem_of_app. left. apply elem_of_reverse, list_elem_of_fmap.
        by exists n.
      * rewrite lookup_insert_ne in Hm' by done.
        apply Hcov; [done|]. by eapply Hclosed.
    + intros m' d' Hm'. destruct (decide (m' = m)) as [->|Hne].
      * rewrite lookup_insert_eq in Hm'. by injection Hm' as <-.
      * rewrite lookup_insert_ne in Hm' by done. by apply Hsound.
    + intros m' d' Hin. apply elem_of_app in Hin as [Hin|Hin].
      * apply elem_of_reverse, list_elem_of_fmap in Hin as (n & [= -> ->] & Hn).
        destruct Hmd as (r & Hr & Hp). exists r. split; [done|].
        replace (d + 1) with (S d) by lia. by eapply path_step.
      * apply Hqueue. by right.
Qed.

Lemma depth_inv_entries_loop g roots fuel : ∀ s s',
  Depth.loop g fuel s = Some s' → depth_inv_entries g roots s →
  depth_inv_entries g roots s' ∧ Depth.queue s' = [].
Proof.
  induction fuel as [|fuel IH]; intros s s' Hrun Hinv.
  - simpl in Hrun. destruct (Depth.queue s) eqn:Hq; [|done].
    injection Hrun as <-. done.
  - destruct (Depth.step g s) as [s1|] eqn:Hstep.
    + rewrite (depth_loop_unfold _ _ _ _ Hstep) in Hrun.
      eapply IH; [done|]. by eapply depth_inv_entries_step.
    + unfold Depth.step in Hstep. simpl in Hrun.
      destruct (Depth.queue s) as [|[m d] rest] eqn:Hq; [|done].
      injection Hrun as <-. done.
Qed.

(** The next entry: the depths the earlier entries left, and the new root
    on the work list. *)
Lemma depth_inv_entries_next g roots depths root :
  depth_inv_entries g roots (Depth.mkState depths []) →
  depth_inv_entries g (roots ++ [root]) (Depth.mkState depths [(root, 0)]).
Proof.
  intros [Hroot Hclosed Hsound Hqueue].
  assert (∀ n b, depth_covered (Depth.mkState depths []) n b →
                 depth_covered (Depth.mkState depths [(root, 0)]) n b) as Hcov.
  { intros n b [H|(e & He & _)]; [by left|]. by apply elem_of_nil in He. }
  split; simpl.
  - intros r Hr. apply elem_of_app in Hr as [Hr|Hr].
    + by apply Hcov, Hroot.
    + apply list_elem_of_singleton in Hr as ->. right. exists 0. split; [left|done].
  - intros m d n Hm He. by eapply Hcov, Hclosed.
  - intros m d Hm. destruct (Hsound m d Hm) as (r & Hr & Hp).
    exists r. split; [|done]. apply elem_of_app. by left.
  - intros m d Hin. apply list_elem_of_singleton in Hin as [= -> ->].
    exists root. split; [|apply path_refl]. apply elem_of_app. right. by left.
Qed.

Lemma depth_inv_entries_empty g : depth_inv_entries g [] (Depth.mkState ∅ []).
Proof.
  split; simpl.
  - intros r Hr. by apply elem_of_nil in Hr.
  - intros m d n Hm. by rewrite lookup_empty in Hm.
  - intros m d Hm. by rewrite lookup_empty in Hm.
  - intros m d Hin. by apply elem_of_nil in Hin.
Qed.

Lemma depth_inv_entries_final g roots depths :
  depth_inv_entries g roots (Depth.mkState depths []) →
  ∀ m k, depths !! m = Some k ↔ distance_from g roots m k.
Proof.
  intros [Hroot Hclosed Hsound _].
  assert (Hleft : ∀ n b, depth_covered (Depth.mkState depths []) n b →
                         ∃ d, depths !! n = Some d ∧ d ≤ b).
  { intros n b [H|(e & He & _)]; [done|]. by apply elem_of_nil in He. }
  assert (Hbound : ∀ r m k, r ∈ roots → path g r m k → ∃ d, depths !! m = Some d ∧ d ≤ k).
  { intros r m k Hr Hpath. induction Hpath as [|b c k Hab IH Hbc].
    - by apply Hleft, Hroot.
    - destruct IH as (d & Hd & Hle).
      destruct (Hleft c (d + 1) (Hclosed b d c Hd Hbc)) as (d' & Hd' & Hle').
      exists d'. split; [done|lia]. }
  intros m k. split.
  - intros Hm. split; [by apply Hsound|].
    intros r k' Hr Hp. destruct (Hbound r m k' Hr Hp) as (d & Hd & Hle).
    simpl in Hd. rewrite Hm in Hd. injection Hd as <-. done.
  - intros [(r & Hr & Hp) Hmin].
    destruct (Hbound r m k Hr Hp) as (d & Hd & Hle). simpl in Hd.
    destruct (Hsound m d Hd) as (r' & Hr' & Hp').
    specialize (Hmin r' d Hr' Hp'). rewrite Hd. f_equal. lia.
Qed.

Lemma depth_inv_entries_domain g roots depths :
  depth_inv_entries g roots (Depth.mkState depths []) →
  ∀ m, is_Some (depths !! m) ↔ ∃ r, r ∈ roots ∧ reachable g r m.
Proof.
  intros Hinv m. split.
  - intros [k Hk]. apply (depth_inv_entries_final g roots depths Hinv) in Hk
      as [(r & Hr & Hp) _].
    exists r. split; [done|]. by exists k.
  - intros (r & Hr & k & Hp).
    destruct Hinv as [Hroot Hclosed _ _].
    assert (Hleft : ∀ n b, depth_covered (Depth.mkState depths []) n b →
                           ∃ d, depths !! n = Some d ∧ d ≤ b).
    { intros n b [H|(e & He & _)]; [done|]. by apply elem_of_nil in He. }
    induction Hp as [|b c k Hab IH Hbc].
    + destruct (Hleft r 0 (Hroot r Hr)) as (d & Hd & _). by exists d.
    + destruct IH as [d Hd].
      destruct (Hleft c (d + 1) (Hclosed b d c Hd Hbc)) as (d' & Hd' & _). by exists d'.
Qed.

(** One more run of [assignDepth]: it ends, and carries the invariant over
    to the longer list of entries. *)
Lemma depth_entries_run g roots depths root :
  depth_inv_entries g roots (Depth.mkState depths []) →
  ∃ fuel depths',
    (∀ fuel', fuel ≤ fuel' → Depth.assignDepth g fuel' root depths = Some depths')
    ∧ depth_inv_entries g (roots ++ [root]) (Depth.mkState depths' []).
Proof.
  intros Hinv.
  destruct (depth_loop_terminates g (universe g root))
    with (s := Depth.mkState depths [(root, 0)]) as (fuel & s' & Hrun & Hq).
  { intros m n. apply edge_in_universe. }
  { simpl. apply Forall_singleton. simpl. unfold universe. left. }
  destruct (depth_inv_entries_loop g (roots ++ [root]) fuel _ _ Hrun
              (depth_inv_entries_next g roots depths root Hinv)) as [Hinv' _].
  exists fuel, (Depth.depth s'). split.
  - intros fuel' Hle. unfold Depth.assignDepth.
    by rewrite (depth_loop_more_fuel g fuel fuel' _ _ Hle Hrun).
  - destruct s' as [d q]. simpl in *. by subst q.
Qed.

(** ** seal: assignIndex over the entries *)

Lemma reachable_edge g r m n : reachable g r m → edge g m n → reachable g r n.
Proof. intros [k Hk] He. exists (S k). by eapply path_step. Qed.

Lemma index_loop_more_fuel g fuel : ∀ fuel' s s',
  fuel ≤ fuel' → Index.loop g fuel s = Some s' → Index.loop g fuel' s = Some s'.
Proof.
  induction fuel as [|fuel IH]; intros fuel' s s' Hle Hrun.
  - simpl in Hrun. destruct (Index.step g s) eqn:Hstep; [done|].
    destruct fuel'; simpl; by rewrite Hstep.
  - destruct fuel' as [|fuel']; [lia|]. simpl in Hrun |- *.
    destruct (Index.step g s) as [s1|] eqn:Hstep; [|done]. apply IH; [lia|done].
Qed.

Lemma index_leaves_pushes b : index_leaves (index_block_tasks b) = 0.
Proof.
  destruct b as [vs ds bs]. unfold index_leaves. cbn [index_block_tasks].
  rewrite sum_list_with_app.
  generalize ((vs ≫= var_dependencies) ++ ds). intros l.
  assert (∀ A (f : A → Index.Task) (xs : list A),
            (∀ x, match f x with Index.LeaveModule _ => 1 | _ => 0 end = 0) →
            sum_list_with (λ t, match t with Index.LeaveModule _ => 1 | _ => 0 end)
              (f <$> xs) = 0) as Hzero.
  { intros A f xs Hf. induction xs as [|x xs IH]; [done|].
    rewrite fmap_cons. simpl in *. by rewrite Hf, IH. }
  by rewrite !Hzero.
Qed.

Lemma index_no_leave_pushed m b : Index.LeaveModule m ∉ index_block_tasks b.
Proof.
  destruct b as [vs ds bs]. cbn [index_block_tasks]. intros Hin.
  apply elem_of_app in Hin as [Hin|Hin];
    apply list_elem_of_fmap in Hin as (x & Hx & _); done.
Qed.

Lemma index_step_cases g s t rest :
  Index.queue s = t :: rest →
  Index.step g s = Some (Index.run g t (Index.with_queue s rest))
  ∧ match t with
    | Index.EnterModule m =>
        match Index.index s !! m with
        | Some _ => Index.run g t (Index.with_queue s rest) = Index.with_queue s rest
        | None =>
            Index.run g t (Index.with_queue s rest)
            = Index.mkState (<[m := Index.nextFreeModuleIndex s]> (Index.index s))
                (Index.index2 s) (S (Index.nextFreeModuleIndex s))
                (Index.nextFreeModuleIndex2 s)
                (index_block_tasks (blockOf g m) ++ Index.LeaveModule m :: rest)
                (Index.trace s ++ [Index.SetIndex m (Index.nextFreeModuleIndex s)])
        end
    | Index.LeaveModule m =>
        Index.run g t (Index.with_queue s rest)
        = Index.mkState (Index.index s)
            (<[m := Index.nextFreeModuleIndex2 s]> (Index.index2 s))
            (Index.nextFreeModuleIndex s) (S (Index.nextFreeModuleIndex2 s)) rest
            (Index.trace s ++ [Index.SetIndex2 m (Index.nextFreeModuleIndex2 s)])
    | Index.EnterBlock b =>
        Index.run g t (Index.with_queue s rest)
        = Index.with_queue s (index_block_tasks b ++ rest)
    | Index.EnterDependency d =>
        Index.run g t (Index.with_queue s rest)
        = Index.with_queue s (match dep_module d with
                              | Some m => Index.EnterModule m :: rest
                              | None => rest
                              end)
    end.
Proof.
  intros Hq. split; [unfold Index.step; by rewrite Hq|].
  destruct t as [m|m|b|d]; simpl.
  - unfold Index.assignIndexToModule. simpl.
    destruct (Index.index s !! m); [done|]. by rewrite assignIndexToDependencyBlock_pushes.
  - done.
  - by rewrite assignIndexToDependencyBlock_pushes.
  - unfold Index.assignIndexToDependency. by destruct (dep_module d).
Qed.

Lemma index_inv_entries_step g roots s s' :
  Index.step g s = Some s' → index_inv_entries g roots s → index_inv_entries g roots s'.
Proof.
  intros Hstep Hinv.
  pose proof (index_closed_step g s s' Hstep (index_entries_closed _ _ _ Hinv)) as Hclosed'.
  assert (∀ r, r ∈ roots → index_covered s' r) as Hroots'.
  { intros r Hr. eapply index_covered_step; [done|]. by apply (index_entries_roots _ _ _ Hinv). }
  destruct Hinv as [Hb Hi Hsz Hb2 Hi2 Hlv Hk2 Hleft Hcnt Hsound Hpend _ _].
  destruct (Index.queue s) as [|t rest] eqn:Hq.
  { unfold Index.step in Hstep. by rewrite Hq in Hstep. }
  destruct (index_step_cases g s t rest Hq) as [Hstep' Hrun].
  rewrite Hstep' in Hstep. injection Hstep as <-.
  assert (Hrest : ∀ n, index_pending n rest → ∃ r, r ∈ roots ∧ reachable g r n).
  { intros n Hn. apply Hpend. apply index_pending_cons. by right. }
  assert (Hlvrest : ∀ m, Index.LeaveModule m ∈ rest → is_Some (Index.index s !! m)).
  { intros m Hm. apply Hlv. by right. }
  unfold index_leaves in Hcnt. simpl in Hcnt. fold (index_leaves rest) in Hcnt.
  destruct t as [m|m|b|d].
  - destruct (Index.index s !! m) as [old|] eqn:Hm; rewrite Hrun in *; clear Hrun.
    + split; simpl; try done.
      * intros m' Hm'. destruct (Hleft m' Hm') as [?|Hin]; [by left|].
        apply elem_of_cons in Hin as [?|?]; [done|by right].
    + assert (Hmr : ∃ r, r ∈ roots ∧ reachable g r m).
      { apply Hpend. apply index_pending_cons. left. simpl. left. }
      split; simpl.
      * intros m' v. destruct (decide (m' = m)) as [->|Hne].
        -- rewrite lookup_insert_eq. intros [= <-]. lia.
        -- rewrite lookup_insert_ne by done. intros H. specialize (Hb _ _ H). lia.
      * intros m1 m2 v.
        destruct (decide (m1 = m)) as [->|Hne1]; destruct (decide (m2 = m)) as [->|Hne2];
          rewrite ?lookup_insert_eq, ?lookup_insert_ne by done; try done.
        -- intros [= <-] H. specialize (Hb _ _ H). lia.
        -- intros H [= <-]. specialize (Hb _ _ H). lia.
        -- apply Hi.
      * rewrite map_size_insert_None by done. by rewrite Hsz.
      * done.
      * done.
      * intros m' Hin. apply elem_of_app in Hin as [Hin|Hin].
        -- by apply index_no_leave_pushed in Hin.
        -- apply elem_of_cons in Hin as [[= ->]|Hin].
           ++ by rewrite lookup_insert_eq.
           ++ destruct (decide (m' = m)) as [->|Hne]; [by rewrite lookup_insert_eq|].
              rewrite lookup_insert_ne by done. by apply Hlvrest.
      * intros m' Hm'. destruct (decide (m' = m)) as [->|Hne]; [by rewrite lookup_insert_eq|].
        rewrite lookup_insert_ne by done. by apply Hk2.
      * intros m' Hm'. destruct (decide (m' = m)) as [->|Hne].
        -- right. apply elem_of_app. right. left.
        -- rewrite lookup_insert_ne in Hm' by done.
           destruct (Hleft m' Hm') as [?|Hin]; [by left|].
           apply elem_of_cons in Hin as [?|?]; [done|].
           right. apply elem_of_app. right. by right.
      * unfold index_leaves. rewrite sum_list_with_app. fold (index_leaves (index_block_tasks (blockOf g m))).
        rewrite index_leaves_pushes. simpl. fold (index_leaves rest). lia.
      * intros m' Hm'. destruct (decide (m' = m)) as [->|Hne]; [done|].
        rewrite lookup_insert_ne in Hm' by done. by apply Hsound.
      * intros n Hn. apply index_pending_app in Hn as [Hn|Hn].
        -- apply index_block_tasks_targets in Hn.
           destruct Hmr as (r & Hr & Hreach). exists r. split; [done|].
           by eapply reachable_edge.
        -- apply index_pending_cons in Hn as [Hn|Hn]; [by apply elem_of_nil in Hn|].
           by apply Hrest.
      * done.
      * done.
  - rewrite Hrun in *; clear Hrun. simpl in Hcnt.
    assert (Hm : is_Some (Index.index s !! m)) by (apply Hlv; left).
    split; simpl; try done.
    + intros m' v. destruct (decide (m' = m)) as [->|Hne].
      * rewrite lookup_insert_eq. intros [= <-]. lia.
      * rewrite lookup_insert_ne by done. intros H. specialize (Hb2 _ _ H). lia.
    + intros m1 m2 v.
      destruct (decide (m1 = m)) as [->|Hne1]; destruct (decide (m2 = m)) as [->|Hne2];
        rewrite ?lookup_insert_eq, ?lookup_insert_ne by done; try done.
      * intros [= <-] H. specialize (Hb2 _ _ H). lia.
      * intros H [= <-]. specialize (Hb2 _ _ H). lia.
      * apply Hi2.
    + intros m' Hm'. destruct (decide (m' = m)) as [->|Hne]; [done|].
      rewrite lookup_insert_ne in Hm' by done. by apply Hk2.
    + intros m' Hm'. destruct (decide (m' = m)) as [->|Hne]; [left; by rewrite lookup_insert_eq|].
      rewrite lookup_insert_ne by done.
      destruct (Hleft m' Hm') as [?|Hin]; [by left|].
      apply elem_of_cons in Hin as [[= ?]|?]; [done|by right].
    + lia.
  - rewrite Hrun in *; clear Hrun. simpl in Hcnt.
    split; simpl; try done.
    + intros m' Hin. apply elem_of_app in Hin as [Hin|Hin].
      * by apply index_no_leave_pushed in Hin.
      * by apply Hlvrest.
    + intros m' Hm'. destruct (Hleft m' Hm') as [?|Hin]; [by left|].
      apply elem_of_cons in Hin as [?|?]; [done|].
      right. apply elem_of_app. by right.
    + unfold index_leaves. rewrite sum_list_with_app. fold (index_leaves (index_block_tasks b)).
      rewrite index_leaves_pushes. simpl. fold (index_leaves rest). lia.
    + intros n Hn. apply index_pending_app in Hn as [Hn|Hn]; [|by apply Hrest].
      apply Hpend. apply index_pending_cons. left. simpl.
      by apply index_block_tasks_targets.
  - rewrite Hrun in *; clear Hrun. simpl in Hcnt.
    destruct (dep_module d) as [m|] eqn:Hd; split; simpl; try done.
    + intros m' Hin. apply elem_of_cons in Hin as [?|?]; [done|]. by apply Hlvrest.
    + intros m' Hm'. destruct (Hleft m' Hm') as [?|Hin]; [by left|].
      apply elem_of_cons in Hin as [?|?]; [done|]. right. right. done.
    + intros n Hn. apply index_pending_cons in Hn as [Hn|Hn]; [|by apply Hrest].
      apply Hpend. apply index_pending_cons. left. simpl. by rewrite Hd.
    + intros m' Hm'. destruct (Hleft m' Hm') as [?|Hin]; [by left|].
      apply elem_of_cons in Hin as [?|?]; [done|by right].
Qed.

Lemma index_inv_entries_loop g roots fuel : ∀ s s',
  Index.loop g fuel s = Some s' → index_inv_entries g roots s →
  index_inv_entries g roots s' ∧ Index.queue s' = [].
Proof.
  induction fuel as [|fuel IH]; intros s s' Hrun Hinv.
  - simpl in Hrun. destruct (Index.step g s) eqn:Hstep; [done|].
    injection Hrun as <-. split; [done|]. unfold Index.step in Hstep.
    by destruct (Index.queue s).
  - simpl in Hrun. destruct (Index.step g s) as [s1|] eqn:Hstep.
    + eapply IH; [done|]. by eapply index_inv_entries_step.
    + injection Hrun as <-. split; [done|]. unfold Index.step in Hstep.
      by destruct (Index.queue s).
Qed.

Lemma index_inv_entries_empty g :
  index_inv_entries g [] (Index.mkState ∅ ∅ 0 0 [] []).
Proof.
  split; simpl; try done; try (intros *; by rewrite lookup_empty);
    try (intros ? [? H]; by rewrite lookup_empty in H);
    try (intros ? ? [? H]; by rewrite lookup_empty in H);
    try (intros ? H; by apply elem_of_nil in H);
    try (intros ? (? & H & _); by apply elem_of_nil in H).
  intros m n [v Hv]. simpl in Hv. by rewrite lookup_empty in Hv.
Qed.

Lemma index_inv_entries_next g roots l root tr :
  index_inv_entries g roots
    (Index.mkState (Index.l_index l) (Index.l_index2 l) (Index.l_nextFreeModuleIndex l)
       (Index.l_nextFreeModuleIndex2 l) [] tr) →
  index_inv_entries g (roots ++ [root]) (index_start root l).
Proof.
  intros [Hb Hi Hsz Hb2 Hi2 Hlv Hk2 Hleft Hcnt Hsound Hpend Hclosed Hroots].
  simpl in *. unfold index_start.
  split; simpl; try done.
  - intros m Hin. apply list_elem_of_singleton in Hin. done.
  - intros m Hm. destruct (Hleft m Hm) as [?|Hin]; [by left|]. by apply elem_of_nil in Hin.
  - intros m Hm. destruct (Hsound m Hm) as (r & Hr & Hreach).
    exists r. split; [|done]. apply elem_of_app. by left.
  - intros n Hn. apply index_pending_cons in Hn as [Hn|(t & Ht & _)].
    + simpl in Hn. apply list_elem_of_singleton in Hn as ->.
      exists root. split; [apply elem_of_app; right; by left|]. exists 0. apply path_refl.
    + by apply elem_of_nil in Ht.
  - intros m n Hm He. destruct (Hclosed m n Hm He) as [?|(t & Ht & _)]; [by left|].
    by apply elem_of_nil in Ht.
  - intros r Hr. apply elem_of_app in Hr as [Hr|Hr].
    + destruct (Hroots r Hr) as [?|(t & Ht & _)]; [by left|]. by apply elem_of_nil in Ht.
    + apply list_elem_of_singleton in Hr as ->. right.
      exists (Index.EnterModule root). split; [left|simpl; left].
Qed.

(** One more run of [assignIndex]: it ends, and carries the invariant over
    to the longer list of entries. *)
Lemma index_entries_run g roots l root tr :
  index_inv_entries g roots
    (Index.mkState (Index.l_index l) (Index.l_index2 l) (Index.l_nextFreeModuleIndex l)
       (Index.l_nextFreeModuleIndex2 l) [] tr) →
  ∃ fuel l' tr',
    (∀ fuel', fuel ≤ fuel' → Index.assignIndex g fuel' root l = Some (l', tr'))
    ∧ index_inv_entries g (roots ++ [root])
        (Index.mkState (Index.l_index l') (Index.l_index2 l') (Index.l_nextFreeModuleIndex l')
           (Index.l_nextFreeModuleIndex2 l') [] tr').
Proof.
  intros Hinv.
  destruct (index_loop_terminates g (universe g root)) with (s := index_start root l)
    as (fuel & s' & Hrun & Hq).
  { intros m n. apply edge_in_universe. }
  { intros t n Ht Hn. simpl in Ht. apply list_elem_of_singleton in Ht as ->.
    simpl in Hn. apply list_elem_of_singleton in Hn as ->. unfold universe. left. }
  destruct (index_inv_entries_loop g (roots ++ [root]) fuel _ _ Hrun
              (index_inv_entries_next g roots l root tr Hinv)) as [Hinv' _].
  exists fuel, (Index.labels_of s'), (Index.trace s'). split.
  - intros fuel' Hle. unfold Index.assignIndex. fold (index_start root l).
    by rewrite (index_loop_more_fuel g fuel fuel' _ _ Hle Hrun).
  - destruct s' as [i i2 n n2 q tr']. simpl in *. by subst q.
Qed.

(** ** seal: the loop over the prepared chunks *)

Lemma seal_enter_inv g roots s slot module :
  Entry.slot_module slot = Some module →
  seal_inv g roots s →
  ∃ fuel s',
    (∀ fuel', fuel ≤ fuel' → Seal.enter g fuel' s slot = Seal.Sealed s')
    ∧ seal_inv g (roots ++ [Store.m_ref module]) s'.
Proof.
  intros Hm [Hd [tr Hi]].
  destruct (depth_entries_run g roots (Seal.depth s) (Store.m_ref module) Hd)
    as (fd & depth' & Hdrun & Hd').
  destruct (index_entries_run g roots (Seal.labels s) (Store.m_ref module) tr Hi)
    as (fi & labels' & tr' & Hirun & Hi').
  unfold Seal.enter. rewrite Hm. simpl.
  destruct (Registry.addChunk _ _ _ _) as [chunk registry'].
  eexists (fd `max` fi), _. split.
  - intros fuel' Hle. rewrite Hirun by lia. rewrite Hdrun by lia. done.
  - split; simpl; [done|]. by exists tr'.
Qed.

Lemma seal_forEach_inv g preparedChunks : ∀ roots s,
  Forall (λ slot, is_Some (Entry.slot_module slot)) preparedChunks →
  seal_inv g roots s →
  ∃ fuel s',
    (∀ fuel', fuel ≤ fuel' → Seal.forEach g fuel' preparedChunks s = Seal.Sealed s')
    ∧ seal_inv g (roots ++ seal_roots preparedChunks) s'.
Proof.
  induction preparedChunks as [|slot rest IH]; intros roots s Hall Hinv.
  - exists 0, s. split; [done|]. unfold seal_roots. simpl. by rewrite app_nil_r.
  - apply Forall_cons in Hall as [[module Hm] Hall].
    destruct (seal_enter_inv g roots s slot module Hm Hinv) as (f1 & s1 & Hrun1 & Hinv1).
    destruct (IH _ s1 Hall Hinv1) as (f2 & s2 & Hrun2 & Hinv2).
    exists (f1 `max` f2), s2. split.
    + intros fuel' Hle. simpl. rewrite Hrun1 by lia. apply Hrun2. lia.
    + unfold seal_roots in *. simpl. rewrite Hm. simpl.
      by rewrite <- app_assoc in Hinv2.
Qed.

Lemma seal_fresh_inv g registry entrypoints entryModule connected :
  seal_inv g []
    (Seal.mkState registry entrypoints entryModule connected (Index.mkLabels ∅ ∅ 0 0) ∅).
Proof.
  split; simpl; [apply depth_inv_entries_empty|]. exists []. apply index_inv_entries_empty.
Qed.

(** X10: the loop of [seal] over the prepared chunks, on modules that carry
    no labels yet and slots that all have a module, ends, and the depth of a
    module is then the least number of edges of a path to it from an entry
    module; a module no entry module leads to has no depth. *)
Theorem seal_depth_is_distance_from_nearest_entry (g : gmap ModuleRef DependenciesBlock)
    (preparedChunks : list Entry.Slot) (registry : Registry.State)
    (entrypoints : gmap string Registry.ChunkRef)
    (entryModule : gmap Registry.ChunkRef ModuleRef)
    (connected : list (Registry.ChunkRef * ModuleRef)) (n n2 : nat) :
  Forall (λ slot, is_Some (Entry.slot_module slot)) preparedChunks →
  ∃ fuel s,
    Seal.sealEntries g fuel preparedChunks
      (Seal.mkState registry entrypoints entryModule connected (Index.mkLabels ∅ ∅ n n2) ∅)
    = Seal.Sealed s
    ∧ ∀ m k,
        Seal.depth s !! m = Some k
        ↔ (∃ slot module, slot ∈ preparedChunks ∧ Entry.slot_module slot = Some module
                          ∧ path g (Store.m_ref module) m k)
          ∧ (∀ slot module k', slot ∈ preparedChunks → Entry.slot_module slot = Some module →
                               path g (Store.m_ref module) m k' → k ≤ k').
Proof.
  intros Hall.
  destruct (seal_forEach_inv g preparedChunks [] _ Hall
              (seal_fresh_inv g registry entrypoints entryModule connected))
    as (fuel & s & Hrun & [Hd _]).
  exists fuel, s. split; [by apply Hrun|].
  intros m k. rewrite (depth_inv_entries_final g _ _ Hd m k). simpl.
  assert (∀ r, r ∈ seal_roots preparedChunks
               ↔ ∃ slot module, slot ∈ preparedChunks ∧ Entry.slot_module slot = Some module
                                ∧ r = Store.m_ref module) as Hroots.
  { intros r. unfold seal_roots. rewrite list_elem_of_omap. split.
    - intros (slot & Hs & Hr). destruct (Entry.slot_module slot) as [module|] eqn:Hm; [|done].
      injection Hr as <-. by exists slot, module.
    - intros (slot & module & Hs & Hm & ->). exists slot. rewrite Hm. done. }
  unfold distance_from. split.
  - intros [(r & Hr & Hp) Hmin]. split.
    + apply Hroots in Hr as (slot & module & Hs & Hm & ->). by exists slot, module.
    + intros slot module k' Hs Hm Hp'. apply (Hmin (Store.m_ref module)); [|done].
      apply Hroots. by exists slot, module.
  - intros [(slot & module & Hs & Hm & Hp) Hmin]. split.
    + exists (Store.m_ref module). split; [|done]. apply Hroots. by exists slot, module.
    + intros r k' Hr Hp'. apply Hroots in Hr as (slot' & module' & Hs' & Hm' & ->).
      by eapply Hmin.
Qed.

Lemma seal_depth_is_distance_from_nearest_entry_witness :
  ∃ fuel s,
    Seal.sealEntries two_entry_graph fuel twoSlots
      (Seal.mkState Registry.initial ∅ ∅ [] (Index.mkLabels ∅ ∅ 0 0) ∅)
    = Seal.Sealed s
    ∧ ∀ m k,
        Seal.depth s !! m = Some k
        ↔ (∃ slot module, slot ∈ twoSlots ∧ Entry.slot_module slot = Some module
                          ∧ path two_entry_graph (Store.m_ref module) m k)
          ∧ (∀ slot module k', slot ∈ twoSlots → Entry.slot_module slot = Some module →
                               path two_entry_graph (Store.m_ref module) m k' → k ≤ k').
Proof.
  apply (seal_depth_is_distance_from_nearest_entry two_entry_graph twoSlots
           Registry.initial ∅ ∅ [] 0 0).
  repeat constructor; by eexists.
Defined.

(** X11: after the loop of [seal] over the prepared chunks, on modules that
    carry no labels yet and slots that all have a module, the modules with
    an [index] are those an entry module leads to, and they are the modules
    with an [index2] and the modules with a depth; no two modules share an
    [index], nor an [index2]; and every [index] and [index2] is below the
    number of these modules, which both counters have reached. *)
Theorem seal_index_numbers_reachable_modules (g : gmap ModuleRef DependenciesBlock)
    (preparedChunks : list Entry.Slot) (registry : Registry.State)
    (entrypoints : gmap string Registry.ChunkRef)
    (entryModule : gmap Registry.ChunkRef ModuleRef)
    (connected : list (Registry.ChunkRef * ModuleRef)) (n n2 : nat) :
  Forall (λ slot, is_Some (Entry.slot_module slot)) preparedChunks →
  ∃ fuel s,
    Seal.sealEntries g fuel preparedChunks
      (Seal.mkState registry entrypoints entryModule connected (Index.mkLabels ∅ ∅ n n2) ∅)
    = Seal.Sealed s
    ∧ let index := Index.l_index (Seal.labels s) in
      let index2 := Index.l_index2 (Seal.labels s) in
      (∀ m, is_Some (index !! m)
            ↔ ∃ slot module, slot ∈ preparedChunks ∧ Entry.slot_module slot = Some module
                             ∧ reachable g (Store.m_ref module) m)
      ∧ (∀ m, is_Some (index2 !! m) ↔ is_Some (index !! m))
      ∧ (∀ m, is_Some (Seal.depth s !! m) ↔ is_Some (index !! m))
      ∧ (∀ m m' v, index !! m = Some v → index !! m' = Some v → m = m')
      ∧ (∀ m m' v, index2 !! m = Some v → index2 !! m' = Some v → m = m')
      ∧ (∀ m v, index !! m = Some v → v < size index)
      ∧ (∀ m v, index2 !! m = Some v → v < size index)
      ∧ Index.l_nextFreeModuleIndex (Seal.labels s) = size index
      ∧ Index.l_nextFreeModuleIndex2 (Seal.labels s) = size index.
Proof.
  intros Hall.
  destruct (seal_forEach_inv g preparedChunks [] _ Hall
              (seal_fresh_inv g registry entrypoints entryModule connected))
    as (fuel & s & Hrun & [Hd [tr Hi]]).
  exists fuel, s. split; [by apply Hrun|].
  pose proof (depth_inv_entries_domain g _ _ Hd) as Hdom.
  destruct Hi as [Hb Hinj Hsz Hb2 Hinj2 Hlv Hk2 Hleft Hcnt Hsound Hpend Hclosed Hroots].
  simpl in *.
  assert (∀ r, r ∈ seal_roots preparedChunks
               ↔ ∃ slot module, slot ∈ preparedChunks ∧ Entry.slot_module slot = Some module
                                ∧ r = Store.m_ref module) as Hr.
  { intros r. unfold seal_roots. rewrite list_elem_of_omap. split.
    - intros (slot & Hs & Hr). destruct (Entry.slot_module slot) as [module|] eqn:Hm; [|done].
      injection Hr as <-. by exists slot, module.
    - intros (slot & module & Hs & Hm & ->). exists slot. rewrite Hm. done. }
  unfold index_leaves in Hcnt. simpl in Hcnt.
  assert (∀ m, is_Some (Index.l_index (Seal.labels s) !! m)
               ↔ ∃ r, r ∈ seal_roots preparedChunks ∧ reachable g r m) as Hlab.
  { intros m. split; [apply Hsound|]. intros (r & Hin & Hreach).
    pose proof (index_final_reachable g _ r m Hclosed eq_refl) as Hfin.
    simpl in Hfin. apply Hfin; [|done].
    destruct (Hroots r Hin) as [?|(t & Ht & _)]; [done|]. by apply elem_of_nil in Ht. }
  split; [|split; [|split; [|split; [done|split; [done|split; [|split; [|split; [done|lia]]]]]]]].
  - intros m. split.
    + intros Hm. destruct (Hsound m Hm) as (r & Hin & Hreach).
      apply Hr in Hin as (slot & module & Hs & Hmod & ->). by exists slot, module.
    + intros (slot & module & Hs & Hmod & Hreach).
      pose proof (index_final_reachable g _ (Store.m_ref module) m Hclosed eq_refl) as Hfin.
      simpl in Hfin. apply Hfin; [|done].
      destruct (Hroots (Store.m_ref module)) as [?|(t & Ht & _)]; [|done|].
      * apply Hr. by exists slot, module.
      * by apply elem_of_nil in Ht.
  - intros m. split; [apply Hk2|]. intros Hm.
    destruct (Hleft m Hm) as [?|Hin]; [done|]. by apply elem_of_nil in Hin.
  - intros m. by rewrite Hdom, Hlab.
  - intros m v Hv. specialize (Hb m v Hv). lia.
  - intros m v Hv. specialize (Hb2 m v Hv). lia.
Qed.

Lemma seal_index_numbers_reachable_modules_witness :
  ∃ fuel s,
    Seal.sealEntries two_entry_graph fuel twoSlots
      (Seal.mkState Registry.initial ∅ ∅ [] (Index.mkLabels ∅ ∅ 0 0) ∅)
    = Seal.Sealed s
    ∧ let index := Index.l_index (Seal.labels s) in
      let index2 := Index.l_index2 (Seal.labels s) in
      (∀ m, is_Some (index !! m)
            ↔ ∃ slot module, slot ∈ twoSlots ∧ Entry.slot_module slot = Some module
                             ∧ reachable two_entry_graph (Store.m_ref module) m)
      ∧ (∀ m, is_Some (index2 !! m) ↔ is_Some (index !! m))
      ∧ (∀ m, is_Some (Seal.depth s !! m) ↔ is_Some (index !! m))
      ∧ (∀ m m' v, index !! m = Some v → index !! m' = Some v → m = m')
      ∧ (∀ m m' v, index2 !! m = Some v → index2 !! m' = Some v → m = m')
      ∧ (∀ m v, index !! m = Some v → v < size index)
      ∧ (∀ m v, index2 !! m = Some v → v < size index)
      ∧ Index.l_nextFreeModuleIndex (Seal.labels s) = size index
      ∧ Index.l_nextFreeModuleIndex2 (Seal.labels s) = size index.
Proof.
  apply (seal_index_numbers_reachable_modules two_entry_graph twoSlots
           Registry.initial ∅ ∅ [] 0 0).
  repeat constructor; by eexists.
Defined.

Lemma seal_enter_runs g s slot module :
  Entry.slot_module slot = Some module →
  ∃ fuel s', ∀ fuel', fuel ≤ fuel' → Seal.enter g fuel' s slot = Seal.Sealed s'.
Proof.
  intros Hm.
  destruct (depth_loop_terminates g (universe g (Store.m_ref module)))
    with (s := Depth.mkState (Seal.depth s) [(Store.m_ref module, 0)])
    as (fd & sd & Hdrun & _).
  { intros m n. apply edge_in_universe. }
  { simpl. apply Forall_singleton. simpl. unfold universe. left. }
  destruct (index_loop_terminates g (universe g (Store.m_ref module)))
    with (s := index_start (Store.m_ref module) (Seal.labels s)) as (fi & si & Hirun & _).
  { intros m n. apply edge_in_universe. }
  { intros t n Ht Hn. simpl in Ht. apply list_elem_of_singleton in Ht as ->.
    simpl in Hn. apply list_elem_of_singleton in Hn as ->. unfold universe. left. }
  unfold Seal.enter. rewrite Hm. simpl.
  destruct (Registry.addChunk _ _ _ _) as [chunk registry'].
  eexists (fd `max` fi), _. intros fuel' Hle.
  unfold Index.assignIndex, Depth.assignDepth. fold (index_start (Store.m_ref module) (Seal.labels s)).
  rewrite (index_loop_more_fuel g fi fuel' _ _ ltac:(lia) Hirun).
  rewrite (depth_loop_more_fuel g fd fuel' _ _ ltac:(lia) Hdrun). simpl. done.
Qed.

(** X12: when a slot of [preparedChunks] still has no module, the loop of
    [seal] throws at the first such slot.  The slots before it have been
    worked through by then, as if they were all there is; for the failing
    slot the chunk of its name has been fetched or made and has got its
    entry point, and [chunk.addModule] has been called with [null]; no
    entry module is set and no label is given for it, and the slots after
    it are not looked at. *)
Theorem seal_throws_on_slot_without_module (g : gmap ModuleRef DependenciesBlock)
    (before after : list Entry.Slot) (slot : Entry.Slot) (s : Seal.State) :
  Forall (λ slot, is_Some (Entry.slot_module slot)) before →
  Entry.slot_module slot = None →
  ∃ fuel s1, ∀ fuel', fuel ≤ fuel' →
    Seal.sealEntries g fuel' before s = Seal.Sealed s1
    ∧ Seal.sealEntries g fuel' (before ++ slot :: after) s
      = let added := Registry.addChunk (Some (Entry.slot_name slot)) None None
                       (Seal.registry s1) in
        Seal.Threw "Cannot read property 'addChunk' of null"
          (Seal.mkState added.2
             (assignProperty (Entry.slot_name slot) added.1 (Seal.entrypoints s1))
             (Seal.entryModule s1) (Seal.connected s1) (Seal.labels s1) (Seal.depth s1))
          added.1.
Proof.
  intros Hall Hnone. unfold Seal.sealEntries.
  generalize (Seal.mkState (Seal.registry s) (Seal.entrypoints s) (Seal.entryModule s)
                (Seal.connected s)
                (Index.mkLabels (Index.l_index (Seal.labels s))
                   (Index.l_index2 (Seal.labels s)) 0 0) (Seal.depth s)).
  clear s. induction before as [|slot' before IH]; intros s.
  - exists 0, s. intros fuel' _. split; [done|]. simpl. unfold Seal.enter.
    rewrite Hnone. simpl. by destruct (Registry.addChunk _ _ _ _).
  - apply Forall_cons in Hall as [[module Hm] Hall].
    destruct (seal_enter_runs g s slot' module Hm) as (f1 & s1 & Hrun1).
    destruct (IH Hall s1) as (f2 & s2 & Hrun2).
    exists (f1 `max` f2), s2. intros fuel' Hle. simpl. rewrite Hrun1 by lia.
    apply Hrun2. lia.
Qed.

Lemma seal_throws_on_slot_without_module_witness :
  ∃ fuel s1, ∀ fuel', fuel ≤ fuel' →
    Seal.sealEntries two_entry_graph fuel' twoSlots beforeSealing = Seal.Sealed s1
    ∧ Seal.sealEntries two_entry_graph fuel' (twoSlots ++ Entry.mkSlot 2 "c" None :: [])
        beforeSealing
      = let added := Registry.addChunk (Some (Entry.slot_name (Entry.mkSlot 2 "c" None)))
                       None None (Seal.registry s1) in
        Seal.Threw "Cannot read property 'addChunk' of null"
          (Seal.mkState added.2
             (assignProperty (Entry.slot_name (Entry.mkSlot 2 "c" None)) added.1
                (Seal.entrypoints s1))
             (Seal.entryModule s1) (Seal.connected s1) (Seal.labels s1) (Seal.depth s1))
          added.1.
Proof.
  apply (seal_throws_on_slot_without_module two_entry_graph twoSlots []
           (Entry.mkSlot 2 "c" None) beforeSealing).
  - repeat constructor; by eexists.
  - reflexivity.
Defined.

(** Two entries and then a slot without a module: the first two chunks and
    their labels are there when the loop throws, and so is the chunk of the
    third slot, with its entry point and with no entry module. *)
Example seal_third_slot_without_module :
  ∃ s chunk,
    Seal.sealEntries two_entry_graph 20 (twoSlots ++ [Entry.mkSlot 2 "c" None]) beforeSealing
    = Seal.Threw "Cannot read property 'addChunk' of null" s chunk
    ∧ chunk = 2
    ∧ Registry.chunks (Seal.registry s) = [0; 1; 2]
    ∧ Seal.entrypoints s = {[ "a" := 0; "b" := 1; "c" := 2 ]}
    ∧ Seal.entryModule s = {[ 0 := 0; 1 := 1 ]}
    ∧ Seal.depth s = {[ 0 := 0; 1 := 0; 2 := 1; 3 := 1 ]}.
Proof. eexists _, _. split; [vm_compute; reflexivity|]. by vm_compute. Qed.

(** The two entries of [two_entry_graph]: module [3] is one edge from entry
    [0] and two edges from entry [1], and gets depth 1; the modules are
    numbered in the order the walks meet them. *)
Example seal_two_entries :
  ∃ s, Seal.sealEntries two_entry_graph 20 twoSlots beforeSealing = Seal.Sealed s
       ∧ Seal.depth s = {[ 0 := 0; 1 := 0; 2 := 1; 3 := 1 ]}
       ∧ Index.l_index (Seal.labels s) = {[ 0 := 0; 3 := 1; 1 := 2; 2 := 3 ]}
       ∧ Index.l_index2 (Seal.labels s) = {[ 3 := 0; 0 := 1; 2 := 2; 1 := 3 ]}
       ∧ Registry.chunks (Seal.registry s) = [0; 1]
       ∧ Seal.entrypoints s = {[ "a" := 0; "b" := 1 ]}.
Proof. eexists. split; [vm_compute; reflexivity|]. by vm_compute. Qed.

(** ** assignIndex: the root comes first and leaves last *)

Lemma index_loop_preserves g (P : Index.State → Prop) :
  (∀ s s', Index.step g s = Some s' → P s → P s') →
  ∀ fuel s s', Index.loop g fuel s = Some s' → P s → P s'.
Proof.
  intros Hstep. induction fuel as [|fuel IH]; intros s s' Hrun HP.
  - simpl in Hrun. destruct (Index.step g s); [done|]. by injection Hrun as <-.
  - simpl in Hrun. destruct (Index.step g s) as [s1|] eqn:Hs.
    + eapply IH; [done|]. by eapply Hstep.
    + by injection Hrun as <-.
Qed.

Lemma index_count_leave_app m q1 q2 :
  index_count_leave m (q1 ++ q2) = index_count_leave m q1 + index_count_leave m q2.
Proof. unfold index_count_leave. by rewrite sum_list_with_app. Qed.

Lemma index_root_inv_step g root first first2 s s' :
  Index.step g s = Some s' →
  index_root_inv root first first2 s → index_root_inv root first first2 s'.
Proof.
  unfold Index.step. destruct (Index.queue s) as [|t rest] eqn:Hq; [done|].
  intros [= <-] [Hfirst Hcnt Hlater Hcnt2 [(q & Hqq & Hnone & Hlast)|(Hnil & _)]];
    [|by rewrite Hq in Hnil].
  rewrite Hq in Hqq.
  destruct q as [|t' q]; simpl in Hqq.
  - (* the closure of the root is the only one left *)
    injection Hqq as -> ->. split; simpl; [done|done| |lia|].
    + intros m v Hin. apply Hlater. apply elem_of_app in Hin as [Hin|Hin]; [done|].
      apply list_elem_of_singleton in Hin. done.
    + right. split; [done|]. split; [lia|].
      split; [by rewrite lookup_insert_eq, Nat.sub_0_r|].
      intros m v Hin. apply elem_of_app in Hin as [Hin|Hin].
      * right. destruct (Hlast m v Hin). split; [done|lia].
      * apply list_elem_of_singleton in Hin. injection Hin as -> ->. left. split; [done|lia].
  - injection Hqq as <- ->.
    unfold index_count_leave in Hnone. simpl in Hnone.
    fold (index_count_leave root q) in Hnone.
    destruct t as [m|m|b|d]; simpl.
    + unfold Index.assignIndexToModule. simpl.
      destruct (Index.index s !! m) as [old|] eqn:Hm; simpl.
      * split; simpl; [done|done|done|done|].
        left. exists q. split; [done|]. split; [lia|done].
      * assert (m ≠ root) as Hne by (intros ->; congruence).
        split; simpl.
        -- by rewrite lookup_insert_ne.
        -- lia.
        -- intros m' v Hin. apply elem_of_app in Hin as [Hin|Hin]; [by apply Hlater|].
           apply list_elem_of_singleton in Hin. injection Hin as -> ->. right. split; [done|lia].
        -- done.
        -- left. exists (index_block_tasks (blockOf g m) ++ Index.LeaveModule m :: q).
           split; [by rewrite assignIndexToDependencyBlock_pushes, <- app_assoc|].
           split.
           ++ rewrite index_count_leave_app, index_count_leave_pushes.
              unfold index_count_leave. simpl. fold (index_count_leave root q).
              rewrite decide_False by done. lia.
           ++ intros m' v Hin. apply elem_of_app in Hin as [Hin|Hin]; [by apply Hlast|].
              apply list_elem_of_singleton in Hin. done.
    + destruct (decide (m = root)) as [->|Hne]; [lia|].
      split; simpl; [done|done| |lia|].
      * intros m' v Hin. apply Hlater. apply elem_of_app in Hin as [Hin|Hin]; [done|].
        apply list_elem_of_singleton in Hin. done.
      * left. exists q. split; [done|]. split; [lia|].
        intros m' v Hin. apply elem_of_app in Hin as [Hin|Hin].
        -- destruct (Hlast m' v Hin). split; [done|lia].
        -- apply list_elem_of_singleton in Hin. injection Hin as -> ->. split; [done|lia].
    + split; simpl; [done|done|done|done|]. left. exists (index_block_tasks b ++ q).
      split; [by rewrite assignIndexToDependencyBlock_pushes, <- app_assoc|].
      split; [|done]. rewrite index_count_leave_app, index_count_leave_pushes. lia.
    + unfold Index.assignIndexToDependency. destruct (dep_module d) as [m|]; simpl.
      * split; simpl; [done|done|done|done|]. left. exists (Index.EnterModule m :: q).
        split; [done|]. split; [|done]. unfold index_count_leave. simpl.
        fold (index_count_leave root q). lia.
      * split; simpl; [done|done|done|done|].
        left. exists q. split; [done|]. split; [lia|done].
Qed.

(** X27: a run of [assignIndex] from a module without an [index] gives that
    module the first [index] of the run and the last [index2]: its [index]
    is the value the counter had, its [index2] the last value the other
    counter handed out, every other module the run numbers gets a larger
    [index], and every other [index2] the run writes is smaller. *)
Theorem assignIndex_root_first_and_last (g : gmap ModuleRef DependenciesBlock)
    (root : ModuleRef) (l : Index.Labels) :
  Index.l_index l !! root = None →
  ∃ fuel l1 tr,
    Index.assignIndex g fuel root l = Some (l1, tr)
    ∧ Index.l_index l1 !! root = Some (Index.l_nextFreeModuleIndex l)
    ∧ Index.l_nextFreeModuleIndex2 l < Index.l_nextFreeModuleIndex2 l1
    ∧ Index.l_index2 l1 !! root = Some (Index.l_nextFreeModuleIndex2 l1 - 1)
    ∧ (∀ m v, Index.SetIndex m v ∈ tr → m ≠ root → Index.l_nextFreeModuleIndex l < v)
    ∧ (∀ m v, Index.SetIndex2 m v ∈ tr → m ≠ root
              → Index.l_nextFreeModuleIndex2 l ≤ v < Index.l_nextFreeModuleIndex2 l1 - 1).
Proof.
  intros Hroot.
  destruct (index_run_general g root l) as (fuel & s' & Hrun & Hq & _).
  exists fuel, (Index.labels_of s'), (Index.trace s').
  split; [unfold Index.assignIndex; fold (index_start root l); by rewrite Hrun|].
  set (s1 := Index.mkState (<[root := Index.l_nextFreeModuleIndex l]> (Index.l_index l))
               (Index.l_index2 l) (S (Index.l_nextFreeModuleIndex l))
               (Index.l_nextFreeModuleIndex2 l)
               (Index.assignIndexToDependencyBlock (blockOf g root) [Index.LeaveModule root])
               [Index.SetIndex root (Index.l_nextFreeModuleIndex l)]).
  assert (Index.step g (index_start root l) = Some s1) as Hstep.
  { unfold Index.step, index_start. simpl. unfold Index.assignIndexToModule. simpl.
    by rewrite Hroot. }
  destruct fuel as [|fuel]; [cbn [Index.loop] in Hrun; by rewrite Hstep in Hrun|].
  rewrite (index_loop_unfold _ _ _ _ Hstep) in Hrun.
  assert (index_root_inv root (Index.l_nextFreeModuleIndex l)
            (Index.l_nextFreeModuleIndex2 l) s') as [Hfirst Hcnt Hlater Hcnt2 Hleave].
  { apply (index_loop_preserves g (index_root_inv root (Index.l_nextFreeModuleIndex l)
                                     (Index.l_nextFreeModuleIndex2 l)))
      with (fuel := fuel) (s := s1); [|done|].
    - intros s t. apply index_root_inv_step.
    - split; simpl.
      + by rewrite lookup_insert_eq.
      + lia.
      + intros m v Hin. apply list_elem_of_singleton in Hin. injection Hin as -> ->. by left.
      + done.
      + left. exists (index_block_tasks (blockOf g root)).
        split; [by rewrite assignIndexToDependencyBlock_pushes|].
        split; [by apply index_count_leave_pushes|].
        intros m v Hin. apply list_elem_of_singleton in Hin. done. }
  destruct Hleave as [(q & Hqq & _)|(_ & Hgrew & Hi2 & Hlast)].
  { rewrite Hq in Hqq. by destruct q. }
  simpl. split; [done|]. split; [done|]. split; [done|]. split.
  - intros m v Hin Hne. destruct (Hlater m v Hin) as [[? _]|[_ ?]]; done.
  - intros m v Hin Hne. destruct (Hlast m v Hin) as [[? _]|[_ ?]]; done.
Qed.

Lemma assignIndex_root_first_and_last_witness :
  ∃ fuel l1 tr,
    Index.assignIndex {[ 0 := Block [] [dependencyOn 1] []; 1 := Block [] [dependencyOn 0] [] ]}
      fuel 0 (Index.mkLabels ∅ ∅ 4 7) = Some (l1, tr)
    ∧ Index.l_index l1 !! 0 = Some 4
    ∧ 7 < Index.l_nextFreeModuleIndex2 l1
    ∧ Index.l_index2 l1 !! 0 = Some (Index.l_nextFreeModuleIndex2 l1 - 1)
    ∧ (∀ m v, Index.SetIndex m v ∈ tr → m ≠ 0 → 4 < v)
    ∧ (∀ m v, Index.SetIndex2 m v ∈ tr → m ≠ 0
              → 7 ≤ v < Index.l_nextFreeModuleIndex2 l1 - 1).
Proof.
  apply (assignIndex_root_first_and_last
           {[ 0 := Block [] [dependencyOn 1] []; 1 := Block [] [dependencyOn 0] [] ]}
           0 (Index.mkLabels ∅ ∅ 4 7)).
  reflexivity.
Defined.

(** ** Part two of the chunk graph: the links *)

Lemma addToCollection_elem x owner coll y o :
  y ∈ default [] ((Chunks.addToCollection x owner coll).2 !! o)
  ↔ y ∈ default [] (coll !! o) ∨ (y = x ∧ o = owner).
Proof.
  unfold Chunks.addToCollection. case_decide as Hin; simpl.
  - split; [by left|]. intros [?|[-> ->]]; done.
  - destruct (decide (o = owner)) as [->|Hne].
    + rewrite lookup_insert_eq. simpl. rewrite elem_of_app, list_elem_of_singleton. tauto.
    + rewrite lookup_insert_ne by done. split; [by left|]. intros [?|[_ ?]]; done.
Qed.

Lemma addToCollection_nodup x owner coll o :
  NoDup (default [] (coll !! o)) →
  NoDup (default [] ((Chunks.addToCollection x owner coll).2 !! o)).
Proof.
  intros Hnd. unfold Chunks.addToCollection. case_decide as Hin; simpl; [done|].
  destruct (decide (o = owner)) as [->|Hne].
  - rewrite lookup_insert_eq. simpl. apply NoDup_app. split; [done|].
    split; [|apply NoDup_singleton]. intros y Hy Hy'.
    apply list_elem_of_singleton in Hy' as ->. done.
  - by rewrite lookup_insert_ne.
Qed.

Lemma addToCollection_added x owner coll :
  (Chunks.addToCollection x owner coll).1 = true ↔ x ∉ default [] (coll !! owner).
Proof. unfold Chunks.addToCollection. case_decide; simpl; split; done. Qed.

Lemma forallb_false {A} (f : A → bool) (l : list A) :
  forallb f l = false → ∃ x, x ∈ l ∧ f x = false.
Proof.
  induction l as [|x l IH]; simpl; [done|].
  destruct (f x) eqn:Hx; simpl.
  - intros H. destruct (IH H) as (y & Hy & Hf). exists y. split; [by right|done].
  - intros _. exists x. split; [left|done].
Qed.

Lemma chunks_linked_connect g c dep s deps :
  Chunks.chunkDependencies g !! c = Some deps → dep ∈ deps →
  (∃ m, m ∈ Chunks.modulesOf g (Chunks.d_chunk dep) ∧ m ∉ Chunks.modulesOf g c) →
  chunks_linked g s → chunks_linked g (Chunks.connect c dep s).
Proof.
  intros Hdeps Hdep Hnew [Hsym Hedge Hbring Hnd].
  unfold chunks_children, chunks_parents in *.
  assert (∀ p x,
            x ∈ default [] ((Chunks.addToCollection (Chunks.d_chunk dep) c
                               (Chunks.chunkChunks s)).2 !! p)
            ↔ x ∈ default [] (Chunks.chunkChunks s !! p) ∨ (x = Chunks.d_chunk dep ∧ p = c))
    as Hcc by (intros; apply addToCollection_elem).
  unfold Chunks.connect.
  destruct (Chunks.addToCollection (Chunks.d_block dep) (Chunks.d_chunk dep)
              (Chunks.chunkBlocks s)) as [addedBlock cb].
  pose proof (addToCollection_added (Chunks.d_chunk dep) c (Chunks.chunkChunks s)) as Hadded.
  pose proof (λ o, addToCollection_nodup (Chunks.d_chunk dep) c (Chunks.chunkChunks s) o
                     (proj1 (Hnd o))) as Hndc.
  destruct (Chunks.addToCollection (Chunks.d_chunk dep) c (Chunks.chunkChunks s))
    as [addedChunk cc]. simpl in *.
  split; unfold chunks_children, chunks_parents; simpl.
  - intros p x. rewrite Hcc. destruct addedChunk.
    + rewrite addToCollection_elem, Hsym. tauto.
    + rewrite <- Hsym. split; [|by left]. intros [?|[-> ->]]; [done|].
      destruct (decide (Chunks.d_chunk dep ∈ default [] (Chunks.chunkChunks s !! c)));
        [done|]. apply Hadded in n. done.
  - intros p x Hx. apply Hcc in Hx as [Hx|[-> ->]]; [by apply Hedge|].
    by exists deps, dep.
  - intros p x Hx. apply Hcc in Hx as [Hx|[-> ->]]; [by apply Hbring|done].
  - intros p. split; [apply Hndc|]. destruct addedChunk; [|apply Hnd].
    apply addToCollection_nodup, Hnd.
Qed.

Lemma chunks_linked_traverse g c available s :
  chunks_linked g s → chunks_linked g (Chunks.traverse g c available s).
Proof.
  intros Hl. unfold Chunks.traverse.
  destruct (Chunks.chunkDependencies g !! c) as [[|dep0 deps]|] eqn:Hdeps; try done.
  set (newAvail := available ∪ Chunks.modulesOf g c).
  assert (∀ l s0, (∀ dep, dep ∈ l → dep ∈ dep0 :: deps ∧ Chunks.filterFn g newAvail dep = true) →
            chunks_linked g s0 →
            chunks_linked g (foldl (λ acc dep, Chunks.connect c dep acc) s0 l)) as Hfold.
  { induction l as [|dep l IH]; intros s0 Hin Hs0; [done|].
    simpl. apply IH; [intros d Hd; apply Hin; by right|].
    destruct (Hin dep) as [Hdep Hf]; [left|].
    eapply chunks_linked_connect; [done|done| |done].
    unfold Chunks.filterFn, Chunks.areModulesAvailable in Hf.
    apply negb_true_iff, forallb_false in Hf as (m & Hm & Hf).
    exists m. split; [by apply elem_of_elements|].
    apply bool_decide_eq_false in Hf. subst newAvail. set_solver. }
  set (filtered := filter _ _).
  specialize (Hfold filtered s).
  assert (chunks_linked g (foldl (λ acc dep, Chunks.connect c dep acc) s filtered)) as Hl'.
  { apply Hfold; [|done]. intros dep Hdep. subst filtered.
    apply list_elem_of_filter in Hdep as [Hf Hdep]. split; [done|].
    by apply Is_true_true. }
  destruct Hl' as [H1 H2 H3 H4]. split; done.
Qed.

Lemma chunks_linked_step g s s' :
  Chunks.step g s = Some s' → chunks_linked g s → chunks_linked g s'.
Proof.
  unfold Chunks.step. destruct (Chunks.queue2 s) as [|item rest]; [done|].
  intros [= <-] Hl.
  assert (chunks_linked g (Chunks.dequeued s rest)) as Hd.
  { destruct Hl as [H1 H2 H3 H4]. split; done. }
  unfold Chunks.visit.
  destruct (Chunks.minAvailableModulesMap (Chunks.dequeued s rest) !! Chunks.chunk item).
  - destruct (Chunks.intersectInPlace _ _) as [set deleted].
    assert (chunks_linked g (Chunks.setMinAvailable (Chunks.chunk item) set
                               (Chunks.dequeued s rest))) as Hset.
    { destruct Hd as [H1 H2 H3 H4]. split; done. }
    destruct deleted; [by apply chunks_linked_traverse|done].
  - apply chunks_linked_traverse. destruct Hd as [H1 H2 H3 H4]. split; done.
Qed.

Lemma chunks_linked_loop g fuel : ∀ s s',
  Chunks.loop g fuel s = Some s' → chunks_linked g s → chunks_linked g s'.
Proof.
  induction fuel as [|fuel IH]; intros s s' Hrun Hl; simpl in Hrun.
  - destruct (Chunks.step g s); [done|]. by injection Hrun as <-.
  - destruct (Chunks.step g s) as [s1|] eqn:Hstep.
    + eapply IH; [done|]. by eapply chunks_linked_step.
    + by injection Hrun as <-.
Qed.

(** X15: the links part two makes.  It ends, and afterwards a chunk is among
    the [chunks] of another exactly when that one is among its [parents];
    every such link follows an edge of [chunkDependencies] and leads to a
    chunk that has a module its parent has not, so no chunk is linked to
    itself; and no list of children or parents names a chunk twice. *)
Theorem partTwo_links_parents_and_children (g : Chunks.Graph)
    (inputChunks : list Chunks.ChunkRef)
    (blocks : gmap Chunks.ChunkRef (list Chunks.BlockRef)) :
  ∃ fuel s,
    Chunks.partTwo g fuel inputChunks blocks = Some s
    ∧ (∀ p c, c ∈ default [] (Chunks.chunkChunks s !! p)
              ↔ p ∈ default [] (Chunks.chunkParents s !! c))
    ∧ (∀ p c, c ∈ default [] (Chunks.chunkChunks s !! p) →
         (∃ deps dep, Chunks.chunkDependencies g !! p = Some deps ∧ dep ∈ deps
                      ∧ Chunks.d_chunk dep = c)
         ∧ (∃ m, m ∈ Chunks.modulesOf g c ∧ m ∉ Chunks.modulesOf g p)
         ∧ c ≠ p)
    ∧ (∀ c, NoDup (default [] (Chunks.chunkChunks s !! c))
            ∧ NoDup (default [] (Chunks.chunkParents s !! c))).
Proof.
  unfold Chunks.partTwo.
  set (s0 := Chunks.mkState _ _ _ _ _ _).
  destruct (chunks_loop_terminates g s0) as (fuel & s & Hrun & _).
  exists fuel, s. split; [done|].
  assert (chunks_linked g s0) as H0.
  { split; unfold chunks_children, chunks_parents; simpl.
    - intros p c. rewrite !lookup_empty. simpl. split; intros H; by apply elem_of_nil in H.
    - intros p c. rewrite lookup_empty. simpl. intros H. by apply elem_of_nil in H.
    - intros p c. rewrite lookup_empty. simpl. intros H. by apply elem_of_nil in H.
    - intros p. rewrite !lookup_empty. simpl. split; constructor. }
  destruct (chunks_linked_loop g fuel s0 s Hrun H0) as [Hsym Hedge Hnew Hnd].
  unfold chunks_children, chunks_parents in *.
  split; [done|]. split; [|done].
  intros p c Hc. split; [by apply Hedge|]. split; [by apply Hnew|].
  intros ->. destruct (Hnew p p Hc) as (m & Hm & Hn). done.
Qed.

(** ** removeChunkFromDependencies *)




(** A block whose first nested block has not been given its chunks yet, and
    one whose second nested block has two chunks. *)
Example removeChunkFromDependencies_null_then_chunks :
  Removal.removeChunkFromDependencies
    (Removal.ABlock [dependencyOn 3] []
       [Removal.mkNested None; Removal.mkNested (Some [5; 6])]) 1 []
  = Removal.Threw "Cannot read property 'length' of null" []
  ∧ Removal.removeChunkFromDependencies
      (Removal.ABlock [dependencyOn 3] []
         [Removal.mkNested (Some []); Removal.mkNested (Some [5; 6])]) 1 []
    = Removal.Threw "Cannot read property 'length' of undefined"
        [Removal.RemoveChunk 1 5; Removal.RemoveParent 5 1]
  ∧ Removal.removeChunkFromDependencies
      (Removal.ABlock [dependencyOn 3] [] [Removal.mkNested (Some [])]) 1 []
    = Removal.Returned [] [(3, 1)].
Proof. by vm_compute. Qed.

(** ** createChunkAssets *)

Lemma assets_kept_refl s : assets_kept 0 s s.
Proof. split; [done|]. exists []. by rewrite app_nil_r. Qed.

Lemma assets_kept_trans n1 n2 s1 s2 s3 :
  assets_kept n1 s1 s2 → assets_kept n2 s2 s3 → assets_kept (n1 + n2) s1 s3.
Proof.
  intros [A1 (m1 & E1 & L1)] [A2 (m2 & E2 & L2)]. split.
  - intros f source H. by apply A2, A1.
  - exists (m1 ++ m2). rewrite E2, E1, <- app_assoc, length_app. split; [done|lia].
Qed.

Lemma assets_kept_weaken n n' s s' : n ≤ n' → assets_kept n s s' → assets_kept n' s s'.
Proof. intros Hle [A (m & E & L)]. split; [done|]. exists m. split; [done|lia]. Qed.

Lemma assets_caught chunk file template message s :
  assets_kept 1 s (Assets.caught chunk file template message s)
  ∧ (assets_listed s → assets_listed (Assets.caught chunk file template message s)).
Proof.
  split; [|done]. split; [done|]. simpl. eexists. split; [done|]. simpl. lia.
Qed.

Lemma assets_install inherited getPath chunk fm file source s :
  let r := Assets.install inherited getPath chunk fm file source s in
  assets_kept (if r.2 then 1 else 0) s r.1.1
  ∧ (assets_listed s → assets_listed r.1.1).
Proof.
  unfold Assets.install.
  assert (∀ f, (∀ other, Assets.assets s !! f = Some other → other = source) →
            let s' := Assets.mkState (<[f := source]> (Assets.assets s)) (Assets.cache s)
                        (Assets.errors s)
                        (<[chunk := default [] (Assets.files s !! chunk) ++ [f]]>
                           (Assets.files s))
                        (Assets.made s) (Assets.chunkAssets s ++ [(chunk, f)]) in
            assets_kept 0 s s' ∧ (assets_listed s → assets_listed s')) as Hok.
  { intros f Hsame. simpl. split.
    - split; simpl.
      + intros f' src Hf'. destruct (decide (f' = f)) as [->|Hne].
        * rewrite lookup_insert_eq. f_equal. symmetry. by apply Hsame.
        * by rewrite lookup_insert_ne.
      + exists []. by rewrite app_nil_r.
    - intros Hl c fs f' Hc Hf'. simpl in *.
      destruct (decide (f' = f)) as [->|Hne]; [by rewrite lookup_insert_eq|].
      rewrite lookup_insert_ne by done.
      destruct (decide (c = chunk)) as [->|Hnc].
      + rewrite lookup_insert_eq in Hc. injection Hc as <-.
        apply elem_of_app in Hf' as [Hf'|Hf'].
        * destruct (Assets.files s !! chunk) as [old|] eqn:Hold; simpl in Hf'.
          -- by eapply Hl.
          -- by apply elem_of_nil in Hf'.
        * apply list_elem_of_singleton in Hf'. done.
      + rewrite lookup_insert_ne in Hc by done. by eapply Hl. }
  destruct (getPath _ _) as [message|f]; simpl; [apply assets_caught|].
  destruct (Assets.assets s !! f) as [other|] eqn:Hf.
  - destruct (decide (other = source)) as [->|Hne]; simpl.
    + apply Hok. intros other. rewrite Hf. by intros [= <-].
    + apply assets_caught.
  - destruct (inherited f); simpl; [apply assets_caught|].
    apply Hok. intros other. by rewrite Hf.
Qed.

Lemma assets_emit inherited getPath chunk fm file s :
  let r := Assets.emit inherited getPath chunk fm file s in
  assets_kept (if r.2 then 1 else 0) s r.1.1
  ∧ (assets_listed s → assets_listed r.1.1).
Proof.
  unfold Assets.emit.
  destruct (Assets.fromCache fm s) as [source|]; [apply assets_install|].
  destruct (Assets.render fm) as [message|source]; simpl; [apply assets_caught|].
  destruct (Assets.cache s) as [entries|]; [|apply assets_install].
  set (s1 := Assets.mkState _ _ _ _ _ _).
  destruct (assets_install inherited getPath chunk fm file
              (if Assets.isCached source then source
               else Assets.CachedSource (Assets.made s) source) s1) as [[A (m & E & L)] Hl].
  split; [|exact Hl]. split; [exact A|]. by exists m.
Qed.

Lemma assets_emitAll inherited getPath chunk manifest : ∀ file s,
  assets_kept 1 s (Assets.emitAll inherited getPath chunk manifest file s)
  ∧ (assets_listed s → assets_listed (Assets.emitAll inherited getPath chunk manifest file s)).
Proof.
  induction manifest as [|fm rest IH]; intros file s; simpl.
  - split; [|done]. apply (assets_kept_weaken 0); [lia|apply assets_kept_refl].
  - pose proof (assets_emit inherited getPath chunk fm file s) as He.
    destruct (Assets.emit inherited getPath chunk fm file s) as [[s' file'] threw].
    simpl in He. destruct He as [Hk Hl]. destruct threw; [done|].
    destruct (IH file' s') as [Hk' Hl']. split.
    + apply (assets_kept_trans 0 1 s s'); done.
    + intros H. by apply Hl', Hl.
Qed.

Lemma assets_renderChunk inherited getPath s chunk :
  assets_kept 1 s (Assets.renderChunk inherited getPath s chunk)
  ∧ (assets_listed s → assets_listed (Assets.renderChunk inherited getPath s chunk)).
Proof.
  unfold Assets.renderChunk. set (s0 := Assets.mkState _ _ _ _ _ _).
  assert (assets_kept 0 s s0 ∧ (assets_listed s → assets_listed s0)) as [K0 L0].
  { split; [split; [done|exists []; by rewrite app_nil_r]|].
    intros Hl c fs f Hc Hf. simpl in *.
    destruct (decide (c = Assets.c_ref chunk)) as [->|Hne].
    - rewrite lookup_insert_eq in Hc. injection Hc as <-. by apply elem_of_nil in Hf.
    - rewrite lookup_insert_ne in Hc by done. by eapply Hl. }
  destruct (Assets.c_manifest chunk) as [message|manifest].
  - destruct (assets_caught (Assets.c_ref chunk) None None message s0) as [K1 L1].
    split; [apply (assets_kept_trans 0 1 s s0); done|]. intros H. by apply L1, L0.
  - destruct (assets_emitAll inherited getPath (Assets.c_ref chunk) manifest None s0) as [K1 L1].
    split; [apply (assets_kept_trans 0 1 s s0); done|]. intros H. by apply L1, L0.
Qed.

(** X22: [createChunkAssets] never replaces or removes an asset: a file
    that had a source has the same source afterwards.  It records at most
    one error for each chunk and keeps the errors there were.  And if every
    file listed by a chunk was an asset before, every file listed by a chunk
    is an asset afterwards. *)
Theorem createChunkAssets_keeps_assets (inherited : string → bool)
    (getPath : string → nat → Assets.Throwing string)
    (chunks : list Assets.Chunk) (s : Assets.State) :
  let s' := Assets.createChunkAssets inherited getPath chunks s in
  (∀ f source, Assets.assets s !! f = Some source → Assets.assets s' !! f = Some source)
  ∧ (∃ more, Assets.errors s' = Assets.errors s ++ more ∧ length more ≤ length chunks)
  ∧ ((∀ chunk fs f, Assets.files s !! chunk = Some fs → f ∈ fs →
                    is_Some (Assets.assets s !! f)) →
     ∀ chunk fs f, Assets.files s' !! chunk = Some fs → f ∈ fs →
                   is_Some (Assets.assets s' !! f)).
Proof.
  simpl. unfold Assets.createChunkAssets.
  cut (assets_kept (length chunks) s (foldl (Assets.renderChunk inherited getPath) s chunks)
       ∧ (assets_listed s → assets_listed (foldl (Assets.renderChunk inherited getPath) s chunks))).
  { intros [[A E] L]. done. }
  revert s. induction chunks as [|chunk chunks IH]; intros s; simpl.
  - split; [apply assets_kept_refl|done].
  - destruct (assets_renderChunk inherited getPath s chunk) as [K1 L1].
    destruct (IH (Assets.renderChunk inherited getPath s chunk)) as [K2 L2].
    split; [exact (assets_kept_trans 1 (length chunks) _ _ _ K1 K2)|].
    intros H. by apply L2, L1.
Qed.

(** ** createChildCompiler *)

Lemma children_indices inherited names : ∀ counters earlier,
  Forall (λ name, inherited name = false) names →
  (∀ name, name ∈ names →
     counters !! name = if decide (children_count name earlier = 0) then None
                        else Some (Children.Num (children_count name earlier))) →
  ∀ i name, names !! i = Some name →
    Children.indices inherited names counters !! i
    = Some (Children.Num (children_count name (earlier ++ take i names))).
Proof.
  induction names as [|n names IH]; intros counters earlier Hall Hc i name Hi; [done|].
  apply Forall_cons in Hall as [Hn Hall]. simpl.
  assert (match counters !! n with
          | Some v => v
          | None => if inherited n then Children.NotNumber else Children.Num 0
          end = Children.Num (children_count n earlier)) as Hidx.
  { rewrite (Hc n) by left. case_decide as Hz; [|done]. by rewrite Hn, Hz. }
  rewrite Hidx. destruct i as [|i]; simpl in Hi |- *.
  - injection Hi as <-. rewrite app_nil_r; done.
  - assert (∀ name', name' ∈ names →
              <[n := Children.Num (children_count n earlier + 1)]> counters !! name'
              = if decide (children_count name' (earlier ++ [n]) = 0) then None
                else Some (Children.Num (children_count name' (earlier ++ [n])))) as Hc'.
    { intros name' Hname'. unfold children_count. rewrite filter_app, length_app.
      destruct (decide (name' = n)) as [->|Hne].
      + rewrite lookup_insert_eq. rewrite filter_cons_True by done. simpl.
        rewrite decide_False by lia. done.
      + rewrite lookup_insert_ne by done. rewrite filter_cons_False by done. simpl.
        rewrite Nat.add_0_r. apply Hc. by right. }
    rewrite (IH _ (earlier ++ [n]) Hall Hc' i name Hi). by rewrite <- app_assoc.
Qed.

(** X23: the children of one name are numbered 0, 1, 2, ...: for names
    that no object inherits a property for, the index a [createChildCompiler]
    call hands on is the number of earlier calls with the same name. *)
Theorem createChildCompiler_numbers_each_name (inherited : string → bool)
    (names : list string) (i : nat) (name : string) :
  Forall (λ name, inherited name = false) names →
  names !! i = Some name →
  Children.indices inherited names ∅ !! i
  = Some (Children.Num (length (filter (λ n, n = name) (take i names)))).
Proof.
  intros Hall Hi.
  apply (children_indices inherited names ∅ [] Hall); [|done].
  intros n _. by rewrite lookup_empty.
Qed.

Lemma createChildCompiler_numbers_each_name_witness :
  Children.indices (λ name, bool_decide (name = "constructor")) ["a"; "b"; "a"] ∅ !! 2
  = Some (Children.Num 1).
Proof.
  apply (createChildCompiler_numbers_each_name (λ name, bool_decide (name = "constructor"))
           ["a"; "b"; "a"] 2 "a").
  - repeat constructor.
  - reflexivity.
Defined.
